(** * Task Queue Engine: a shallow embedding of the scheduler, the agent
    invoker, the Redis queue store and the queue handlers.

    Sources embedded here:
    - shared/taskQueueTypes.ts          (the data model),
    - services/TaskScheduler.ts         (executeAgentHttpRequest, TaskScheduler),
    - services/RedisQueueStore.ts       (RedisQueueStore),
    - handlers/taskQueue.ts             (the queue handlers).

    Conventions.  A JavaScript [number] that the code uses as a counter, a
    priority or a millisecond timestamp is a [Z]: the embedding covers the
    integers.  The handlers do not validate the numbers a client sends, so
    a fraction, an infinity or [NaN] can stand in such a field; what the
    code does then is outside the embedding, and the theorems that depend
    on it say that their numbers are integers.  An optional field
    ([x?: T]) is an [option]; the truthiness tests of the source
    ([x ? a : b], [x || d], [!x]) are written out on the option and on the
    value it holds.  [Date.now()] is an explicit argument. *)

From Stdlib Require Import ZArith String Ascii List Lia Bool DecimalString DecimalPos DecimalZ.
From stdpp Require Import base option list sorting gmap strings.

Local Open Scope string_scope.

(** ** JavaScript primitives used by the sources *)

Module JS.

(** [String(n)] for an integer [n]: its decimal numeral.  This is what
    JavaScript writes for the integers below 10^21 in absolute value; from
    there on it writes an exponent ([String(1e21)] is ["1e+21"]). *)
Definition to_String (n : Z) : string := NilZero.string_of_int (Z.to_int n).

(** [Number.MAX_SAFE_INTEGER] and [Number.isSafeInteger(n)]: the integers
    a [number] holds exactly. *)
Definition MAX_SAFE_INTEGER : Z := 2 ^ 53 - 1.

Definition isSafeInteger (n : Z) : bool :=
  (- MAX_SAFE_INTEGER <=? n)%Z && (n <=? MAX_SAFE_INTEGER)%Z.

(** Truthiness of a number: [0] is falsy. *)
Definition truthy_num (n : Z) : bool := negb (n =? 0)%Z.

(** Truthiness of a string: the empty string is falsy. *)
Definition truthy_str (s : string) : bool :=
  match s with EmptyString => false | _ => true end.

(** Truthiness of an optional number ([undefined] is falsy). *)
Definition truthy_onum (o : option Z) : bool :=
  match o with Some n => truthy_num n | None => false end.

(** Truthiness of an optional string. *)
Definition truthy_ostr (o : option string) : bool :=
  match o with Some s => truthy_str s | None => false end.

(** [a ?? b] *)
Definition nullish {A} (a : option A) (b : A) : A := default b a.

(** [s.includes(t)] *)
Fixpoint prefix (t s : string) : bool :=
  match t, s with
  | EmptyString, _ => true
  | String a t', String b s' => if Ascii.eqb a b then prefix t' s' else false
  | String _ _, EmptyString => false
  end.

Fixpoint includes (s t : string) : bool :=
  prefix t s ||
  match s with
  | EmptyString => false
  | String _ s' => includes s' t
  end.

(** ASCII white space, as [trim] removes it. *)
Definition is_space (c : ascii) : bool :=
  let n := nat_of_ascii c in
  (Nat.eqb n 32 || (Nat.leb 9 n && Nat.leb n 13))%bool.

(** [line.trim()] as a truth value: some character is not white space. *)
Fixpoint trim_truthy (s : string) : bool :=
  match s with
  | EmptyString => false
  | String c s' => negb (is_space c) || trim_truthy s'
  end.

(** [parseInt(s, 10)]: leading white space is skipped, then an optional
    sign and the decimal digits that follow are read, and the rest of the
    string is ignored; a string without a digit there stands for [NaN] and
    is [None]. *)
Definition is_digit (c : ascii) : bool :=
  let n := nat_of_ascii c in (Nat.leb 48 n && Nat.leb n 57)%bool.

Fixpoint skip_space (s : string) : string :=
  match s with
  | EmptyString => EmptyString
  | String c s' => if is_space c then skip_space s' else s
  end.

Fixpoint digits_prefix (s : string) : string :=
  match s with
  | EmptyString => EmptyString
  | String c s' => if is_digit c then String c (digits_prefix s') else EmptyString
  end.

Definition numeral_prefix (s : string) : string :=
  match skip_space s with
  | EmptyString => EmptyString
  | String c s' =>
      if Ascii.eqb c "-"%char then String c (digits_prefix s')
      else if Ascii.eqb c "+"%char then digits_prefix s'
      else digits_prefix (String c s')
  end.

Definition parseInt (s : string) : option Z :=
  Z.of_int <$> NilZero.int_of_string (numeral_prefix s).

(** [s.split("\n")] *)
Fixpoint split_nl_aux (cur : string) (s : string) : list string :=
  match s with
  | EmptyString => [cur]
  | String c s' =>
      if Ascii.eqb c "010"%char
      then cur :: split_nl_aux EmptyString s'
      else split_nl_aux (cur ++ String c EmptyString) s'
  end.

(** [s.toLowerCase()] on ASCII letters. *)
Definition lower (c : ascii) : ascii :=
  let n := nat_of_ascii c in
  if (Nat.leb 65 n && Nat.leb n 90)%bool then ascii_of_nat (n + 32) else c.

Fixpoint toLowerCase (s : string) : string :=
  match s with
  | EmptyString => EmptyString
  | String c s' => String (lower c) (toLowerCase s')
  end.

Definition split_nl (s : string) : list string := split_nl_aux EmptyString s.

Lemma digits_prefix_string_of_uint (d : Decimal.uint) :
  digits_prefix (NilEmpty.string_of_uint d) = NilEmpty.string_of_uint d.
Proof. induction d; simpl; by rewrite ?IHd. Qed.

Lemma digits_prefix_NilZero (d : Decimal.uint) :
  digits_prefix (NilZero.string_of_uint d) = NilZero.string_of_uint d.
Proof. destruct d; try reflexivity; apply (digits_prefix_string_of_uint (_ d)). Qed.

Lemma numeral_prefix_to_String (n : Z) : numeral_prefix (to_String n) = to_String n.
Proof.
  unfold to_String, NilZero.string_of_int.
  destruct (Z.to_int n) as [d|d].
  - pose proof (digits_prefix_NilZero d) as H.
    destruct d; simpl in *; try reflexivity; injection H as H; unfold numeral_prefix; simpl;
      by rewrite H.
  - unfold numeral_prefix. simpl. by rewrite digits_prefix_NilZero.
Qed.

Lemma parseInt_to_String (n : Z) : parseInt (to_String n) = Some n.
Proof.
  unfold parseInt. rewrite numeral_prefix_to_String. unfold to_String.
  rewrite NilZero.isi.
  - simpl. f_equal. apply DecimalZ.of_to.
  - destruct n as [|p|p]; simpl; try discriminate.
    intros H. injection H as H. revert H. apply Unsigned.to_uint_nonnil.
  - destruct n as [|p|p]; simpl; try discriminate.
    intros H. injection H as H. revert H. apply Unsigned.to_uint_nonnil.
Qed.

Lemma to_String_truthy (n : Z) : truthy_str (to_String n) = true.
Proof.
  destruct (to_String n) eqn:E; [|reflexivity].
  pose proof (parseInt_to_String n) as H. rewrite E in H. discriminate H.
Qed.

End JS.

(** ** The data model (shared/taskQueueTypes.ts) *)

Inductive TaskStatus :=
| pending | queued | in_progress | completed | failed | retrying | cancelled.

Inductive TaskComplexity := low | medium | high.

Inductive TaskErrorType := execution | timeout | network | abort.

Inductive TaskResultType := success | partial.

Record TaskResult := {
  result_type : TaskResultType;
  result_content : string;
  result_sessionId : option string;
  result_completedAt : Z }.

Record TaskError := {
  error_type : TaskErrorType;
  error_message : string;
  error_retryable : bool;
  error_occurredAt : Z;
  error_stack : option string }.

Inductive Creator := orchestrator | user.

Record TaskMetadata := {
  parentQueueId : string;
  createdBy : Creator;
  meta_requestId : option string;
  meta_sessionId : option string }.

Record QueueTask := {
  task_id : string;
  task_agentId : string;
  task_message : string;
  task_status : TaskStatus;
  task_priority : Z;
  task_estimatedComplexity : option TaskComplexity;
  task_retryCount : Z;
  task_maxRetries : Z;
  task_createdAt : Z;
  task_startedAt : option Z;
  task_completedAt : option Z;
  task_result : option TaskResult;
  task_error : option TaskError;
  task_metadata : option TaskMetadata }.

Record TaskQueueSettings := {
  maxConcurrency : Z;
  retryCount : Z;
  retryDelay : Z;
  timeoutPerTask : Z }.

(** The counters are lengths of filtered task arrays; the average is the
    quotient [sum / count], kept as the pair (sum, count). *)
Record TaskQueueMetrics := {
  totalTasks : nat;
  completedTasks : nat;
  failedTasks : nat;
  pendingTasks : nat;
  inProgressTasks : nat;
  averageTaskDuration : option (Z * nat);
  estimatedTimeRemaining : option Z }.

Inductive QueueStatus := idle | running | paused | q_completed | q_failed.

Record TaskQueue := {
  queue_id : string;
  queue_name : string;
  queue_description : option string;
  queue_tasks : list QueueTask;
  queue_settings : TaskQueueSettings;
  queue_status : QueueStatus;
  queue_createdAt : Z;
  queue_startedAt : option Z;
  queue_completedAt : option Z;
  queue_metrics : TaskQueueMetrics }.

Definition DEFAULT_QUEUE_SETTINGS : TaskQueueSettings :=
  {| maxConcurrency := 3; retryCount := 3; retryDelay := 2000;
     timeoutPerTask := 300000 |}.

Inductive TaskQueueEvent :=
| queue_created (queue : TaskQueue)
| queue_started (queueId : string)
| queue_paused (queueId : string)
| queue_resumed (queueId : string)
| queue_completed (queueId : string) (metrics : TaskQueueMetrics)
| queue_failed (queueId : string) (error : string)
| task_started (queueId taskId agentId : string)
| task_progress (queueId taskId content : string)
| task_completed (queueId taskId : string) (result : TaskResult)
| task_failed (queueId taskId : string) (error : TaskError)
| task_retrying (queueId taskId : string) (attempt maxRetries : Z).

#[global] Instance TaskStatus_eq_dec : EqDecision TaskStatus.
Proof. solve_decision. Defined.

#[global] Instance QueueStatus_eq_dec : EqDecision QueueStatus.
Proof. solve_decision. Defined.

#[global] Instance TaskErrorType_eq_dec : EqDecision TaskErrorType.
Proof. solve_decision. Defined.

(** ** The agent invoker (services/TaskScheduler.ts, lines 35-145 and 603-691) *)

Module Invoker.

Record Agent := {
  agent_id : string;
  apiEndpoint : string;
  workingDirectory : string }.

(** A thrown value: an [Error] object with its [name] and [message], or any
    other value, of which the code only takes [String(error)]. *)
Inductive Exn :=
| JsError (name message : string)
| JsValue (as_string : string).

Definition AbortError : Exn :=
  JsError "AbortError" "This operation was aborted".

(** [new Error(message)] *)
Definition new_Error (message : string) : Exn := JsError "Error" message.

(** The shape executeTaskAsync casts [response.data] to; [data_content] is
    [data.message?.content]. *)
Record Block := { block_text : option string }.

Record ClaudeData := {
  data_type : option string;
  data_sessionId : option string;
  data_content : option (list Block) }.

(** Modelled from the spec: the [StreamResponse] type of shared/types.ts,
    which is not among the sources.  Section 6 gives a frame as a JSON
    object with a [type] field, of which the core recognises claude_json,
    error, aborted and done; [data] and [error] are the two other fields
    the scheduler reads. *)
Record StreamResponse := {
  stream_type : string;
  stream_data : option ClaudeData;
  stream_error : option string }.

Definition frame (type : string) : StreamResponse :=
  {| stream_type := type; stream_data := None; stream_error := None |}.

Definition error_frame (message : string) : StreamResponse :=
  {| stream_type := "error"; stream_data := None; stream_error := Some message |}.

(** What [fetch] and the body reader do.  One [ReadResult] is the outcome of
    one [Promise.race([reader.read(), timeoutPromise])]; a read that never
    settles loses the race to the 30-second timer ([read_timeout]), and so
    does a read past the end of the recorded list. *)
Inductive ReadResult :=
| read_chunk (value : string)
| read_done
| read_rejects (e : Exn)
| read_timeout.

Record Response := {
  status : Z;
  text : option string;            (* [None]: [response.text()] rejects *)
  body : option (list ReadResult) }.

Inductive FetchResult :=
| fetch_rejects (e : Exn)
| fetch_resolves (response : Response).

(** [response.ok] *)
Definition ok (r : Response) : bool := (200 <=? status r)%Z && (status r <=? 299)%Z.

(** *** Generators: the frames yielded so far and how the body completed *)

Inductive Completion (A : Type) :=
| Normal (a : A)
| Returned
| Thrown (e : Exn).
Arguments Normal {A} a.
Arguments Returned {A}.
Arguments Thrown {A} e.

Definition Gen (A : Type) : Type := list StreamResponse * Completion A.

Definition ret {A} (a : A) : Gen A := ([], Normal a).
Definition yield (r : StreamResponse) : Gen unit := ([r], Normal tt).
Definition throw {A} (e : Exn) : Gen A := ([], Thrown e).
Definition return_ {A} : Gen A := ([], Returned).

Definition bind {A B} (m : Gen A) (k : A -> Gen B) : Gen B :=
  match m with
  | (out, Normal a) => let '(out', c) := k a in ((out ++ out')%list, c)
  | (out, Returned) => (out, Returned)
  | (out, Thrown e) => (out, Thrown e)
  end.

(** [try { m } catch (error) { handler error }] *)
Definition try_catch {A} (m : Gen A) (handler : Exn -> Gen A) : Gen A :=
  match m with
  | (out, Thrown e) => let '(out', c) := handler e in ((out ++ out')%list, c)
  | _ => m
  end.

(** [try { m } finally { reader.releaseLock() }]: the lock is not part of
    the model, the completion of [m] is kept. *)
Definition try_finally {A} (m : Gen A) : Gen A := m.

#[local] Instance Gen_ret : MRet Gen := @ret.
#[local] Instance Gen_bind : MBind Gen := fun A B k m => bind m k.

Section Request.

(** [JSON.parse(line)]: [None] when it throws.  The value it returns is
    taken at the type the code gives it, [StreamResponse], with [data] of
    the shape executeTaskAsync casts it to.  A line that is JSON and no
    such object (the line [null], say, whose [type] cannot be read) is
    outside the embedding. *)
Variable JSON_parse : string -> option StreamResponse.

(** The [for (const line of lines)] loop, with its inner [try]/[catch]. *)
Fixpoint for_lines (lines : list string) : Gen unit :=
  match lines with
  | [] => ret tt
  | line :: rest =>
      match JSON_parse line with
      | None => for_lines rest            (* Skip invalid JSON lines *)
      | Some streamResponse =>
          yield streamResponse;;
          if String.eqb (stream_type streamResponse) "done"
             || String.eqb (stream_type streamResponse) "error"
          then return_
          else for_lines rest
      end
  end.

Definition read_timeout_error : Exn :=
  new_Error "Stream read timeout after 30 seconds".

(** The [while (true)] loop over the reads. *)
Fixpoint read_loop (reads : list ReadResult) : Gen unit :=
  match reads with
  | [] => throw read_timeout_error
  | read_timeout :: _ => throw read_timeout_error
  | read_rejects e :: _ => throw e
  | read_done :: _ => ret tt
  | read_chunk chunk :: rest =>
      for_lines (filter (fun line => JS.trim_truthy line = true) (JS.split_nl chunk));;
      read_loop rest
  end.

(** The three messages of the [!response.ok] branch. *)
Definition http_error (agent : Agent) (response : Response) : Exn :=
  let errorText := default "Unable to read error response" (text response) in
  if (status response =? 401)%Z || (status response =? 403)%Z then
    new_Error ("Authentication failed for agent " ++ agent_id agent ++
               ". Status: " ++ JS.to_String (status response))
  else if (500 <=? status response)%Z then
    new_Error ("Agent " ++ agent_id agent ++ " server error (" ++
               JS.to_String (status response) ++ "): " ++ errorText)
  else
    new_Error ("HTTP error from agent " ++ agent_id agent ++ "! status: " ++
               JS.to_String (status response)).

(** The body of the outer [try]. *)
Definition request_body (agent : Agent) (fetch : FetchResult) : Gen unit :=
  match fetch with
  | fetch_rejects e => throw e
  | fetch_resolves response =>
      (if negb (ok response) then throw (http_error agent response) else ret tt);;
      match body response with
      | None => throw (new_Error "No response body from agent endpoint")
      | Some reads =>
          try_finally (read_loop reads);;
          yield (frame "done")
      end
  end.

(** The outer [catch (error)]. *)
Definition on_error (error : Exn) : Gen unit :=
  match error with
  | JsError name message =>
      if String.eqb name "AbortError" then yield (frame "aborted")
      else yield (error_frame message)
  | JsValue s => yield (error_frame s)
  end.

Definition executeAgentHttpRequest (agent : Agent) (fetch : FetchResult) : Gen unit :=
  try_catch (request_body agent fetch) on_error.

(** *** executeTaskAsync *)

(** A settled promise of [TaskResult | TaskError]. *)
Inductive Settled :=
| Fulfilled (result : TaskResult + TaskError)
| Rejected (e : Exn).

(** [for (const block of data.message.content) if (block.text) fullContent += block.text] *)
Definition add_blocks (fullContent : string) (blocks : list Block) : string :=
  fold_left (fun acc block =>
               match block_text block with
               | Some t => if JS.truthy_str t then acc ++ t else acc
               | None => acc
               end) blocks fullContent.

(** The [for await] loop over the frames, with the two accumulators. *)
Fixpoint consume (now : Z) (frames : list StreamResponse) (end_ : Completion unit)
    (fullContent : string) (sessionId : option string) : Settled :=
  match frames with
  | [] =>
      match end_ with
      | Thrown e => Rejected e
      | _ => Fulfilled (inl {| result_type := success;
                               result_content := fullContent;
                               result_sessionId := sessionId;
                               result_completedAt := now |})
      end
  | response :: rest =>
      match String.eqb (stream_type response) "claude_json", stream_data response with
      | true, Some data =>
          let sessionId' :=
            if JS.truthy_ostr (data_sessionId data) then data_sessionId data
            else sessionId in
          let fullContent' :=
            match data_type data, data_content data with
            | Some ty, Some content =>
                if String.eqb ty "assistant" then add_blocks fullContent content
                else fullContent
            | _, _ => fullContent
            end in
          consume now rest end_ fullContent' sessionId'
      | _, _ =>
          if String.eqb (stream_type response) "error" then
            Fulfilled (inr {| error_type := execution;
                              error_message :=
                                (if JS.truthy_ostr (stream_error response)
                                 then default "" (stream_error response)
                                 else "Unknown error");
                              error_retryable := true;
                              error_occurredAt := now;
                              error_stack := None |})
          else if String.eqb (stream_type response) "aborted" then
            Fulfilled (inr {| error_type := abort;
                              error_message := "Task was aborted";
                              error_retryable := false;
                              error_occurredAt := now;
                              error_stack := None |})
          else consume now rest end_ fullContent sessionId
      end
  end.

Definition executeTaskAsync (now : Z) (agent : Agent) (fetch : FetchResult) : Settled :=
  let '(frames, end_) := executeAgentHttpRequest agent fetch in
  consume now frames end_ "" None.

(** [isRetryableError], used by the [.catch] of startTask. *)
Definition isRetryableError (error : Exn) : bool :=
  match error with
  | JsValue _ => true
  | JsError _ message =>
      let message := JS.toLowerCase message in
      JS.includes message "timeout" || JS.includes message "network" ||
      JS.includes message "econnrefused" || JS.includes message "503" ||
      JS.includes message "502" || JS.includes message "429"
  end.

(** What startTask stores in [completedResults] once the promise settles. *)
Definition stored_result (now : Z) (s : Settled) : TaskResult + TaskError :=
  match s with
  | Fulfilled result => result
  | Rejected error =>
      inr {| error_type := execution;
             error_message := match error with
                              | JsError _ m => m
                              | JsValue s => s
                              end;
             error_retryable := isRetryableError error;
             error_occurredAt := now;
             error_stack := None |}
  end.

(** *** Facts about the invoker *)

Definition is_thrown {A} (c : Completion A) : bool :=
  match c with Thrown _ => true | _ => false end.

(** The frame the outer [catch] yields for a thrown value. *)
Definition failure_frame (error : Exn) : StreamResponse :=
  match error with
  | JsError name message =>
      if String.eqb name "AbortError" then frame "aborted" else error_frame message
  | JsValue s => error_frame s
  end.

Definition is_failure_type (type : string) : bool :=
  String.eqb type "error" || String.eqb type "aborted".

Lemma on_error_yields (error : Exn) :
  on_error error = ([failure_frame error], Normal tt).
Proof.
  destruct error as [name message|s]; simpl; [|reflexivity].
  destruct (String.eqb name "AbortError"); reflexivity.
Qed.

Lemma failure_frame_type (error : Exn) :
  is_failure_type (stream_type (failure_frame error)) = true.
Proof.
  destruct error as [name message|s]; simpl; [|reflexivity].
  destruct (String.eqb name "AbortError"); reflexivity.
Qed.

Lemma executeAgentHttpRequest_caught (agent : Agent) (fetch : FetchResult) (e : Exn) :
  snd (request_body agent fetch) = Thrown e ->
  executeAgentHttpRequest agent fetch =
    ((fst (request_body agent fetch) ++ [failure_frame e])%list, Normal tt).
Proof.
  unfold executeAgentHttpRequest, try_catch.
  destruct (request_body agent fetch) as [out c]; simpl.
  intros ->. rewrite on_error_yields. reflexivity.
Qed.

Lemma executeAgentHttpRequest_not_thrown (agent : Agent) (fetch : FetchResult) :
  is_thrown (snd (executeAgentHttpRequest agent fetch)) = false.
Proof.
  unfold executeAgentHttpRequest, try_catch.
  destruct (request_body agent fetch) as [out [a| |e]]; simpl; try reflexivity.
  rewrite on_error_yields. reflexivity.
Qed.

Lemma consume_fulfilled (now : Z) (frames : list StreamResponse) (end_ : Completion unit) :
  is_thrown end_ = false ->
  forall fullContent sessionId,
    exists result, consume now frames end_ fullContent sessionId = Fulfilled result.
Proof.
  intros Hend. induction frames as [|response rest IH]; intros fullContent sessionId; simpl.
  - destruct end_; try discriminate; eauto.
  - destruct (String.eqb (stream_type response) "claude_json"), (stream_data response);
      try apply IH;
      destruct (String.eqb (stream_type response) "error"); eauto;
      destruct (String.eqb (stream_type response) "aborted"); eauto.
Qed.

(** A non-2xx response makes the body of the [try] throw before any frame. *)
Lemma request_body_not_ok (agent : Agent) (response : Response) :
  ok response = false ->
  request_body agent (fetch_resolves response) = ([], Thrown (http_error agent response)).
Proof. intros H. unfold request_body. rewrite H. reflexivity. Qed.

Lemma http_error_is_Error (agent : Agent) (response : Response) :
  exists message,
    http_error agent response = new_Error message /\
    failure_frame (http_error agent response) = error_frame message.
Proof.
  unfold http_error.
  destruct ((status response =? 401)%Z || (status response =? 403)%Z); [eauto|].
  destruct (500 <=? status response)%Z; eauto.
Qed.

Lemma string_app_truthy (a : ascii) (s t : string) :
  JS.truthy_str (String a s ++ t) = true.
Proof. reflexivity. Qed.

Lemma http_error_message_truthy (agent : Agent) (response : Response) (message : string) :
  http_error agent response = new_Error message -> JS.truthy_str message = true.
Proof.
  unfold http_error, new_Error.
  destruct ((status response =? 401)%Z || (status response =? 403)%Z);
    [|destruct (500 <=? status response)%Z]; intros [= <-]; reflexivity.
Qed.

(** The type of a frame that ends the stream. *)
Definition is_final_type (type : string) : bool :=
  String.eqb type "done" || String.eqb type "error" || String.eqb type "aborted".

(** The frames end with a frame of a final type. *)
Definition ends_finally (out : list StreamResponse) : Prop :=
  exists pre last, out = (pre ++ [last])%list /\ is_final_type (stream_type last) = true.

Lemma ends_finally_app (out out' : list StreamResponse) :
  ends_finally out' -> ends_finally (out ++ out')%list.
Proof.
  intros (pre & last & -> & H). exists (out ++ pre)%list, last.
  by rewrite app_assoc.
Qed.

(** The line loop completes normally or returns after a done or error
    frame; it never throws. *)
Lemma for_lines_completes (lines : list string) :
  snd (for_lines lines) = Normal tt \/
  (snd (for_lines lines) = Returned /\ ends_finally (fst (for_lines lines))).
Proof.
  induction lines as [|line rest IH]; simpl; [by left|].
  destruct (JSON_parse line) as [streamResponse|]; [|exact IH].
  unfold mbind, Gen_bind, bind, yield.
  destruct (String.eqb (stream_type streamResponse) "done"
            || String.eqb (stream_type streamResponse) "error") eqn:E; simpl.
  - right. split; [done|]. exists [], streamResponse. split; [done|].
    unfold is_final_type. by rewrite E.
  - destruct (for_lines rest) as [out c]. simpl in *.
    destruct IH as [->|[-> Hends]]; [by left|right].
    split; [done|]. by apply (ends_finally_app [streamResponse]).
Qed.

Lemma read_loop_completes (reads : list ReadResult) :
  snd (read_loop reads) = Returned -> ends_finally (fst (read_loop reads)).
Proof.
  induction reads as [|read rest IH]; simpl; [done|].
  destruct read as [chunk| |e|]; simpl; try done.
  unfold mbind, Gen_bind, bind.
  destruct (for_lines_completes
              (filter (fun line => JS.trim_truthy line = true) (JS.split_nl chunk)))
    as [Hn|[Hr Hends]].
  - destruct (for_lines _) as [out c]. simpl in Hn. subst c.
    destruct (read_loop rest) as [out' c']. simpl in *.
    intros Hc. by apply ends_finally_app, IH.
  - destruct (for_lines _) as [out c]. simpl in *. by subst c.
Qed.

(** Every run of the generator ends with a frame of type done, error or
    aborted. *)
Lemma executeAgentHttpRequest_ends_finally (agent : Agent) (fetch : FetchResult) :
  ends_finally (fst (executeAgentHttpRequest agent fetch)).
Proof.
  assert (forall m : Gen unit,
            (snd m = Returned -> ends_finally (fst m)) ->
            (snd m = Normal tt -> ends_finally (fst m)) ->
            ends_finally (fst (try_catch m on_error))) as Hcatch.
  { intros [out [[]| |e]] Hr Hn; simpl; [by apply Hn|by apply Hr|].
    rewrite on_error_yields. simpl. exists out, (failure_frame e). split; [done|].
    pose proof (failure_frame_type e) as H. unfold is_failure_type in H.
    unfold is_final_type. apply orb_true_iff in H as [-> | ->]; simpl;
      by rewrite ?orb_true_r. }
  unfold executeAgentHttpRequest. apply Hcatch; unfold request_body.
  - destruct fetch as [e|response]; [done|].
    unfold mbind, Gen_bind, bind. destruct (negb (ok response)); [done|]. simpl.
    destruct (body response) as [reads|]; [|done].
    unfold try_finally. pose proof (read_loop_completes reads) as H.
    destruct (read_loop reads) as [out [[]| |e]]; simpl in *; [done|by auto|done].
  - destruct fetch as [e|response]; [done|].
    unfold mbind, Gen_bind, bind. destruct (negb (ok response)); [done|]. simpl.
    destruct (body response) as [reads|]; [|done].
    unfold try_finally.
    destruct (read_loop reads) as [out [[]| |e]]; simpl in *; [|done|done].
    intros _. by exists out, (frame "done").
Qed.

End Request.

End Invoker.

(** ** Claims about the agent invoker *)

Module InvokerClaims.
Import Invoker.

(** The classification the specification prescribes for a non-2xx status
    (section 4.1, step 2), written from its words: the error type and the
    retryable flag. *)
Definition spec_classification (status : Z) : TaskErrorType * bool :=
  if (status =? 401)%Z || (status =? 403)%Z then (execution, false)
  else if (500 <=? status)%Z then (network, true)
  else (execution, false).

(** The error type and the retryable flag of what the invoker returned. *)
Definition classification (s : Settled) : option (TaskErrorType * bool) :=
  match s with
  | Fulfilled (inr error) => Some (error_type error, error_retryable error)
  | _ => None
  end.

Definition agent_a : Agent :=
  {| agent_id := "a1"; apiEndpoint := "http://localhost:8081";
     workingDirectory := "/tmp" |}.

Definition respond (code : Z) : FetchResult :=
  fetch_resolves {| status := code; text := Some "unavailable"; body := None |}.

(** A stand-in for [JSON.parse] in the examples: it accepts four lines,
    each naming the frame it denotes, and throws on every other line. *)
Definition parse_word (line : string) : option StreamResponse :=
  if String.eqb line "done" then Some (frame "done")
  else if String.eqb line "error" then Some (error_frame "agent failed")
  else if String.eqb line "aborted" then Some (frame "aborted")
  else if String.eqb line "hello" then
    Some {| stream_type := "claude_json";
            stream_data := Some {| data_type := Some "assistant";
                                   data_sessionId := Some "s1";
                                   data_content := Some [ {| block_text := Some "hello" |} ] |};
            stream_error := None |}
  else None.

Definition newline : string := String "010"%char EmptyString.

Example run_happy_path :
  executeTaskAsync parse_word 7 agent_a
    (fetch_resolves {| status := 200; text := None;
                       body := Some [read_chunk ("hello" ++ newline ++ "{oops" ++ newline);
                                     read_chunk ("hello" ++ newline ++ "done" ++ newline)] |})
  = Fulfilled (inl {| result_type := success; result_content := "hellohello";
                      result_sessionId := Some "s1"; result_completedAt := 7 |}).
Proof. reflexivity. Qed.

Example run_read_timeout :
  executeAgentHttpRequest parse_word agent_a
    (fetch_resolves {| status := 200; text := None;
                       body := Some [read_chunk ("{oops" ++ newline); read_timeout] |})
  = ([error_frame "Stream read timeout after 30 seconds"], Normal tt).
Proof. reflexivity. Qed.

Example run_abort_during_fetch :
  executeTaskAsync parse_word 7 agent_a (fetch_rejects AbortError)
  = Fulfilled (inr {| error_type := abort; error_message := "Task was aborted";
                      error_retryable := false; error_occurredAt := 7;
                      error_stack := None |}).
Proof. reflexivity. Qed.

(** C1, as the specification states it, fails on the code: at status 503
    the invoker returns an error of type [execution] where the specification
    prescribes [network], and at status 401 and 404 it returns a retryable
    error where the specification prescribes a non-retryable one. *)
Lemma non_2xx_classification_differs :
  classification (executeTaskAsync parse_word 0 agent_a (respond 503)) = Some (execution, true)
  /\ spec_classification 503 = (network, true)
  /\ classification (executeTaskAsync parse_word 0 agent_a (respond 401)) = Some (execution, true)
  /\ spec_classification 401 = (execution, false)
  /\ classification (executeTaskAsync parse_word 0 agent_a (respond 404)) = Some (execution, true)
  /\ spec_classification 404 = (execution, false).
Proof. repeat split; reflexivity. Qed.

(** C1 (amended): for every response with a non-2xx status the invoker
    returns a TaskError of type [execution]; its message is the one the
    status class selects (authentication failed for 401 and 403, server
    error for a status of 500 or more, HTTP error otherwise); for a status
    of 500 or more the error is retryable. *)
Theorem non_2xx_is_execution_error
    (JSON_parse : string -> option StreamResponse)
    (now : Z) (agent : Agent) (response : Response) :
  ok response = false ->
  exists error,
    executeTaskAsync JSON_parse now agent (fetch_resolves response) = Fulfilled (inr error)
    /\ error_type error = execution
    /\ new_Error (error_message error) = http_error agent response
    /\ ((500 <= status response)%Z -> error_retryable error = true).
Proof.
  intros Hok.
  destruct (http_error_is_Error agent response) as (message & Hmsg & Hframe).
  pose proof (http_error_message_truthy agent response message Hmsg) as Htruthy.
  unfold executeTaskAsync.
  rewrite (executeAgentHttpRequest_caught JSON_parse agent _ (http_error agent response))
    by (rewrite request_body_not_ok by exact Hok; reflexivity).
  rewrite request_body_not_ok by exact Hok. simpl fst. rewrite Hframe. simpl.
  rewrite Htruthy. eexists. split; [reflexivity|]. simpl.
  rewrite Hmsg. auto.
Qed.

Lemma non_2xx_is_execution_error_witness :
  ok {| status := 503; text := Some "unavailable"; body := None |} = false /\
  exists error,
    executeTaskAsync parse_word 0 agent_a (respond 503) = Fulfilled (inr error)
    /\ error_type error = execution
    /\ new_Error (error_message error)
       = http_error agent_a {| status := 503; text := Some "unavailable"; body := None |}
    /\ ((500 <= 503)%Z -> error_retryable error = true).
Proof.
  split; [reflexivity|].
  apply (non_2xx_is_execution_error parse_word 0 agent_a
           {| status := 503; text := Some "unavailable"; body := None |}).
  reflexivity.
Defined.

(** *** What the generator yields, told by frames

    The frames a response stands for, written from the words of C9: the
    lines that are JSON give their frames, a blank line and a line that is
    not JSON give none, the stream of frames ends with its first done or
    error frame, and otherwise with the frame for the way the reads end. *)

Section Surfaced.

Variable JSON_parse : string -> option StreamResponse.

(** A frame that ends the stream of the agent. *)
Definition ends_stream (response : StreamResponse) : bool :=
  String.eqb (stream_type response) "done" || String.eqb (stream_type response) "error".

(** The frames up to the first that ends the stream, and whether there is
    one. *)
Fixpoint until_end (frames : list StreamResponse) : list StreamResponse * bool :=
  match frames with
  | [] => ([], false)
  | response :: rest =>
      if ends_stream response then ([response], true)
      else (response :: fst (until_end rest), snd (until_end rest))
  end.

Definition chunk_frames (chunk : string) : list StreamResponse :=
  omap JSON_parse (filter (fun line => JS.trim_truthy line = true) (JS.split_nl chunk)).

(** The frames of the chunks that arrive before the reads end. *)
Fixpoint received (reads : list ReadResult) : list StreamResponse :=
  match reads with
  | read_chunk chunk :: rest => (chunk_frames chunk ++ received rest)%list
  | _ => []
  end.

(** How the reads end: [None] at the end of the body, the failure
    otherwise (a read that rejects, a read that does not settle within 30
    seconds). *)
Fixpoint failure_of (reads : list ReadResult) : option Exn :=
  match reads with
  | read_chunk _ :: rest => failure_of rest
  | read_done :: _ => None
  | read_rejects e :: _ => Some e
  | read_timeout :: _ => Some (new_Error "Stream read timeout after 30 seconds")
  | [] => Some (new_Error "Stream read timeout after 30 seconds")
  end.

(** The frames of a request: one frame of type error or aborted for a
    failure before the body is read; the frames received otherwise, up to
    the first done or error frame of the agent, or followed by a done
    frame, or by the frame of type error or aborted for the failure of the
    reads. *)
Definition surfaced (agent : Agent) (fetch : FetchResult) : list StreamResponse :=
  match fetch with
  | fetch_rejects e => [failure_frame e]
  | fetch_resolves response =>
      if negb (ok response) then [failure_frame (http_error agent response)]
      else
        match body response with
        | None => [error_frame "No response body from agent endpoint"]
        | Some reads =>
            let frames := until_end (received reads) in
            if snd frames then fst frames
            else
              (fst frames ++
               [match failure_of reads with
                | None => frame "done"
                | Some e => failure_frame e
                end])%list
        end
  end.

Lemma until_end_app (l l' : list StreamResponse) :
  until_end (l ++ l')%list =
    if snd (until_end l) then until_end l
    else ((l ++ fst (until_end l'))%list, snd (until_end l')).
Proof.
  induction l as [|response rest IH]; [simpl; by destruct (until_end l')|].
  change (until_end ((response :: rest) ++ l')%list)
    with (if ends_stream response then ([response], true)
          else (response :: fst (until_end (rest ++ l')%list),
                snd (until_end (rest ++ l')%list))).
  change (until_end (response :: rest))
    with (if ends_stream response then ([response], true)
          else (response :: fst (until_end rest), snd (until_end rest))).
  destruct (ends_stream response); [done|]. rewrite IH.
  destruct (until_end rest) as [pre ended]. by destruct ended.
Qed.

Lemma until_end_all (l : list StreamResponse) :
  snd (until_end l) = false -> fst (until_end l) = l.
Proof.
  induction l as [|response rest IH]; simpl; [done|].
  destruct (ends_stream response); [done|]. simpl. intros H. by rewrite IH.
Qed.

Lemma for_lines_until_end (lines : list string) :
  for_lines JSON_parse lines =
    (fst (until_end (omap JSON_parse lines)),
     if snd (until_end (omap JSON_parse lines)) then Returned else Normal tt).
Proof.
  induction lines as [|line rest IH]; [done|]. simpl.
  destruct (JSON_parse line) as [response|]; [|exact IH]. simpl.
  unfold mbind, Gen_bind, bind, yield. fold (ends_stream response).
  destruct (ends_stream response); [done|]. by rewrite IH.
Qed.

Lemma read_loop_received (reads : list ReadResult) :
  read_loop JSON_parse reads =
    (fst (until_end (received reads)),
     if snd (until_end (received reads)) then Returned
     else match failure_of reads with
          | None => Normal tt
          | Some e => Thrown e
          end).
Proof.
  induction reads as [|read rest IH]; [done|].
  destruct read as [chunk| |e|]; try done. simpl.
  fold (chunk_frames chunk). rewrite for_lines_until_end.
  fold (chunk_frames chunk). rewrite until_end_app.
  unfold mbind, Gen_bind, bind.
  destruct (snd (until_end (chunk_frames chunk))) eqn:E; [by rewrite E|].
  rewrite IH. simpl. by rewrite (until_end_all _ E).
Qed.

Lemma executeAgentHttpRequest_surfaced (agent : Agent) (fetch : FetchResult) :
  fst (executeAgentHttpRequest JSON_parse agent fetch) = surfaced agent fetch.
Proof.
  unfold executeAgentHttpRequest, surfaced, request_body.
  destruct fetch as [e|response]; simpl; [by rewrite on_error_yields|].
  unfold mbind, Gen_bind, bind.
  destruct (negb (ok response)); simpl; [by rewrite on_error_yields|].
  destruct (body response) as [reads|]; [|done].
  unfold try_finally. rewrite read_loop_received.
  destruct (snd (until_end (received reads))); [done|].
  destruct (failure_of reads) as [e|]; simpl; [by rewrite on_error_yields|done].
Qed.

End Surfaced.

(** The JSON text of a frame that has its type only:
    an opening brace, the quoted key [type], a colon, the quoted type and
    a closing brace. *)
Definition quote : string := String "034"%char EmptyString.

Definition json_frame (type : string) : string :=
  "{" ++ quote ++ "type" ++ quote ++ ":" ++ quote ++ type ++ quote ++ "}".

(** [JSON.parse] on the lines of the stream below: the text of a frame of
    type claude_json or done is read as that frame, and the line [{oops],
    like every line that is not JSON, makes it throw. *)
Definition parse_line (line : string) : option StreamResponse :=
  if String.eqb line (json_frame "claude_json") then Some (frame "claude_json")
  else if String.eqb line (json_frame "done") then Some (frame "done")
  else None.

(** A stream with a line that is not JSON between two frames. *)
Definition with_bad_line : FetchResult :=
  fetch_resolves
    {| status := 200; text := None;
       body := Some [read_chunk (json_frame "claude_json" ++ newline ++ "{oops" ++ newline
                                 ++ json_frame "claude_json" ++ newline);
                     read_done] |}.

(** C9, as stated, fails on the code: a line that is not JSON is a failure
    the generator does not surface.  No frame of type error or aborted is
    yielded for it, and the generator does not end there: it yields the
    frame of the next line, and ends with a done frame at the end of the
    body; executeTaskAsync returns a TaskResult. *)
Lemma malformed_line_is_not_surfaced :
  parse_line "{oops" = None
  /\ stream_type <$> fst (executeAgentHttpRequest parse_line agent_a with_bad_line)
     = ["claude_json"; "claude_json"; "done"]
  /\ forallb (fun response => negb (is_failure_type (stream_type response)))
       (fst (executeAgentHttpRequest parse_line agent_a with_bad_line)) = true
  /\ executeTaskAsync parse_line 7 agent_a with_bad_line
     = Fulfilled (inl {| result_type := success; result_content := EmptyString;
                         result_sessionId := None; result_completedAt := 7 |}).
Proof. repeat split; reflexivity. Qed.

(** C9 (amended): for every response whose lines, where they are JSON, are
    frames of the type [StreamResponse], the frames
    executeAgentHttpRequest yields are these.  A fetch
    that rejects, a non-2xx status and a missing body give one frame, of
    type aborted for an AbortError and of type error, with the message of
    the failure, otherwise.  A body gives the frames of its lines, a line
    that is not JSON being skipped, up to the first frame of type done or
    error; when there is none, a done frame follows at the end of the
    body, and the frame of type error or aborted for the failure follows
    when a read rejects, is aborted or does not settle within 30 seconds.
    The generator completes without throwing to its consumer, and
    executeTaskAsync is fulfilled with a TaskResult or a TaskError, never
    rejected. *)
Theorem failures_become_frames
    (JSON_parse : string -> option StreamResponse)
    (now : Z) (agent : Agent) (fetch : FetchResult) :
  fst (executeAgentHttpRequest JSON_parse agent fetch) = surfaced JSON_parse agent fetch
  /\ is_thrown (snd (executeAgentHttpRequest JSON_parse agent fetch)) = false
  /\ ends_finally (fst (executeAgentHttpRequest JSON_parse agent fetch))
  /\ exists result, executeTaskAsync JSON_parse now agent fetch = Fulfilled result.
Proof.
  split; [apply executeAgentHttpRequest_surfaced|].
  split; [apply executeAgentHttpRequest_not_thrown|].
  split; [apply executeAgentHttpRequest_ends_finally|].
  unfold executeTaskAsync.
  pose proof (executeAgentHttpRequest_not_thrown JSON_parse agent fetch) as H.
  destruct (executeAgentHttpRequest JSON_parse agent fetch) as [frames end_].
  apply consume_fulfilled, H.
Qed.

End InvokerClaims.

(** ** The scheduler's selection and metrics (services/TaskScheduler.ts) *)

Module Scheduler.

(** [task.status === "pending" || task.status === "queued"] *)
Definition is_ready (task : QueueTask) : Prop :=
  task_status task = pending \/ task_status task = queued.

#[global] Instance is_ready_dec (task : QueueTask) : Decision (is_ready task).
Proof. unfold is_ready. apply _. Defined.

(** The task objects of [queue.tasks], each with its position: the position
    stands for the reference to the object. *)
Definition indexed (tasks : list QueueTask) : list (nat * QueueTask) :=
  imap (fun i task => (i, task)) tasks.

(** [pendingTasks.sort((a, b) => a.priority - b.priority)].  The sort of
    an array is stable; for this comparator, on priorities that are
    integers, its result is the stable sort by ascending priority, which
    insertion from the right computes.  (With a priority [NaN] the
    comparator is not consistent and the order is up to the engine.) *)
Fixpoint insert_by_priority {A} (priority : A -> Z) (x : A) (sorted : list A) : list A :=
  match sorted with
  | [] => [x]
  | y :: rest =>
      if (priority x <=? priority y)%Z then x :: y :: rest
      else y :: insert_by_priority priority x rest
  end.

Definition sort_by_priority {A} (priority : A -> Z) (l : list A) : list A :=
  foldr (insert_by_priority priority) [] l.

(** [getReadyTasks(queue, maxConcurrency)], with [this.runningTasks.size]
    as [currentRunning]. *)
Definition getReadyTasks (currentRunning : nat) (tasks : list QueueTask)
    (maxConcurrency : Z) : list (nat * QueueTask) :=
  let availableSlots := (maxConcurrency - Z.of_nat currentRunning)%Z in
  if (availableSlots <=? 0)%Z then []
  else
    let pendingTasks := filter (fun it => is_ready (snd it)) (indexed tasks) in
    take (Z.to_nat availableSlots)
         (sort_by_priority (fun it => task_priority (snd it)) pendingTasks).

(** [hasWorkRemaining(queue)] *)
Definition has_work (task : QueueTask) : Prop :=
  task_status task = pending \/ task_status task = queued \/
  task_status task = in_progress \/ task_status task = retrying.

#[global] Instance has_work_dec (task : QueueTask) : Decision (has_work task).
Proof. unfold has_work. apply _. Defined.

Definition hasWorkRemaining (tasks : list QueueTask) : bool :=
  bool_decide (Exists has_work tasks).

(** [calculateMetrics(queue)] *)
Definition with_duration (t : QueueTask) : Prop :=
  task_status t = completed /\
  JS.truthy_onum (task_startedAt t) = true /\
  JS.truthy_onum (task_completedAt t) = true.

#[global] Instance with_duration_dec (t : QueueTask) : Decision (with_duration t).
Proof. unfold with_duration. apply _. Defined.

Definition calculateMetrics (queue : TaskQueue) : TaskQueueMetrics :=
  let tasks := queue_tasks queue in
  let completedTasks := length (filter (fun t => task_status t = completed) tasks) in
  let failedTasks := length (filter (fun t => task_status t = failed) tasks) in
  let pendingTasks := length (filter is_ready tasks) in
  let inProgressTasks := length (filter (fun t => task_status t = in_progress) tasks) in
  let completedWithDuration := filter with_duration tasks in
  let averageTaskDuration :=
    if decide (0 < length completedWithDuration) then
      Some (fold_left (fun sum t =>
                         (sum + (default 0 (task_completedAt t) - default 0 (task_startedAt t)))%Z)
                      completedWithDuration 0%Z,
            length completedWithDuration)
    else None in
  {| totalTasks := length tasks;
     completedTasks := completedTasks;
     failedTasks := failedTasks;
     pendingTasks := pendingTasks;
     inProgressTasks := inProgressTasks;
     averageTaskDuration := averageTaskDuration;
     estimatedTimeRemaining := None |}.

(** *** Facts about the selection *)

(** [a] is dispatched before [b]: lower priority value first, and for equal
    priorities the earlier position in [queue.tasks] first. *)
Definition before (a b : nat * QueueTask) : Prop :=
  (task_priority (snd a) < task_priority (snd b))%Z \/
  (task_priority (snd a) = task_priority (snd b) /\ fst a < fst b).

Definition priority_of (it : nat * QueueTask) : Z := task_priority (snd it).

Lemma before_trans (a b c : nat * QueueTask) : before a b -> before b c -> before a c.
Proof. unfold before. lia. Qed.

Lemma insert_by_priority_perm {A} (priority : A -> Z) (x : A) (l : list A) :
  insert_by_priority priority x l ≡ₚ x :: l.
Proof.
  induction l as [|y rest IH]; simpl; [done|].
  destruct (priority x <=? priority y)%Z; [done|].
  rewrite IH. apply Permutation_swap.
Qed.

Lemma sort_by_priority_perm {A} (priority : A -> Z) (l : list A) :
  sort_by_priority priority l ≡ₚ l.
Proof.
  induction l as [|x rest IH]; simpl; [done|].
  rewrite insert_by_priority_perm. by rewrite IH.
Qed.

Lemma insert_by_priority_sorted (x : nat * QueueTask) (l : list (nat * QueueTask)) :
  StronglySorted before l ->
  Forall (fun y => fst x < fst y) l ->
  StronglySorted before (insert_by_priority priority_of x l).
Proof.
  induction 1 as [|y rest Hsorted IH Hy]; intros Hx; simpl.
  - repeat constructor.
  - apply Forall_cons in Hx as [Hxy Hx].
    destruct (priority_of x <=? priority_of y)%Z eqn:E.
    + apply Z.leb_le in E. unfold priority_of in E.
      assert (before x y) as Hb by (unfold before; lia).
      constructor; [by constructor|].
      constructor; [done|].
      eapply Forall_impl; [exact Hy|]. intros z Hz. by eapply before_trans.
    + apply Z.leb_gt in E. unfold priority_of in E.
      constructor; [by apply IH|].
      rewrite insert_by_priority_perm. constructor; [|done].
      unfold before. lia.
Qed.

Lemma sort_by_priority_sorted (l : list (nat * QueueTask)) :
  StronglySorted (fun a b => fst a < fst b) l ->
  StronglySorted before (sort_by_priority priority_of l).
Proof.
  induction 1 as [|x rest Hsorted IH Hx]; simpl; [constructor|].
  apply insert_by_priority_sorted; [done|].
  by rewrite sort_by_priority_perm.
Qed.

Lemma StronglySorted_lookup_2 {A} (R : relation A) (l : list A) :
  (forall i j a b, i < j -> l !! i = Some a -> l !! j = Some b -> R a b) ->
  StronglySorted R l.
Proof.
  induction l as [|x rest IH]; intros H; constructor.
  - apply IH. intros i j a b Hij Ha Hb. by apply (H (S i) (S j)); [lia| |].
  - apply Forall_lookup. intros j b Hb. apply (H 0 (S j)); [lia|done|done].
Qed.

Lemma StronglySorted_filter {A} (R : relation A) (P : A -> Prop)
    `{!forall x, Decision (P x)} (l : list A) :
  StronglySorted R l -> StronglySorted R (filter P l).
Proof.
  induction 1 as [|x rest Hsorted IH Hx]; [constructor|].
  rewrite filter_cons. case_decide; [|done].
  constructor; [done|].
  apply Forall_forall. intros y [_ Hy]%list_elem_of_filter.
  by eapply Forall_forall in Hx.
Qed.

Lemma indexed_lookup (tasks : list QueueTask) (i : nat) (it : nat * QueueTask) :
  indexed tasks !! i = Some it <-> fst it = i /\ tasks !! i = Some (snd it).
Proof.
  unfold indexed. rewrite list_lookup_imap_Some. destruct it as [j t]; simpl.
  split.
  - intros (y & Hy & [= -> ->]). done.
  - intros [-> H]. eauto.
Qed.

Lemma elem_of_indexed (tasks : list QueueTask) (i : nat) (t : QueueTask) :
  (i, t) ∈ indexed tasks <-> tasks !! i = Some t.
Proof.
  rewrite list_elem_of_lookup. split.
  - intros [j [Hj Ht]%indexed_lookup]. simpl in *. by subst.
  - intros H. exists i. by apply indexed_lookup.
Qed.

Lemma indexed_sorted (tasks : list QueueTask) :
  StronglySorted (fun a b => fst a < fst b) (indexed tasks).
Proof.
  apply StronglySorted_lookup_2. intros i j a b Hij [Ha _]%indexed_lookup [Hb _]%indexed_lookup.
  lia.
Qed.

(** The tasks in ready state, in dispatch order. *)
Definition ready_in_order (tasks : list QueueTask) : list (nat * QueueTask) :=
  sort_by_priority priority_of (filter (fun it => is_ready (snd it)) (indexed tasks)).

Lemma ready_in_order_sorted (tasks : list QueueTask) :
  StronglySorted before (ready_in_order tasks).
Proof. apply sort_by_priority_sorted, StronglySorted_filter, indexed_sorted. Qed.

Lemma elem_of_ready_in_order (tasks : list QueueTask) (i : nat) (t : QueueTask) :
  (i, t) ∈ ready_in_order tasks <-> tasks !! i = Some t /\ is_ready t.
Proof.
  unfold ready_in_order. rewrite sort_by_priority_perm, list_elem_of_filter, elem_of_indexed.
  simpl. tauto.
Qed.

Lemma getReadyTasks_unfold (currentRunning : nat) (tasks : list QueueTask) (maxConcurrency : Z) :
  getReadyTasks currentRunning tasks maxConcurrency =
    take (Z.to_nat (maxConcurrency - Z.of_nat currentRunning)) (ready_in_order tasks).
Proof.
  unfold getReadyTasks, ready_in_order, priority_of.
  destruct (maxConcurrency - Z.of_nat currentRunning <=? 0)%Z eqn:E; [|done].
  apply Z.leb_le in E. by replace (Z.to_nat _) with 0 by lia.
Qed.

Lemma getReadyTasks_elem (currentRunning : nat) (tasks : list QueueTask) (maxConcurrency : Z)
    (i : nat) (t : QueueTask) :
  (i, t) ∈ getReadyTasks currentRunning tasks maxConcurrency ->
  tasks !! i = Some t /\ is_ready t.
Proof.
  rewrite getReadyTasks_unfold. intros H%subseteq_take.
  by apply elem_of_ready_in_order.
Qed.

End Scheduler.

(** ** Claims about the selection and the metrics *)

Module SchedulerClaims.
Import Scheduler.

Definition example_task (id : string) (st : TaskStatus) (priority : Z) : QueueTask :=
  {| task_id := id; task_agentId := "a1"; task_message := "work";
     task_status := st; task_priority := priority;
     task_estimatedComplexity := None;
     task_retryCount := 0; task_maxRetries := 3; task_createdAt := 1000;
     task_startedAt := None; task_completedAt := None;
     task_result := None; task_error := None; task_metadata := None |}.

Example getReadyTasks_run :
  fst <$> getReadyTasks 1
            [example_task "t0" pending 5; example_task "t1" completed 1;
             example_task "t2" queued 2; example_task "t3" pending 2;
             example_task "t4" pending 9] 3
  = [2; 3].
Proof. reflexivity. Qed.

(** C7, as stated, fails on the code: with [maxConcurrency = -1] (a value
    handleCreateQueue accepts from the client) and nothing running, the
    selection is empty, and its size 0 is not at most
    [maxConcurrency - running = -1]. *)
Lemma getReadyTasks_size_negative_slots :
  getReadyTasks 0 [example_task "t0" pending 1] (-1) = []
  /\ (Z.of_nat (length (getReadyTasks 0 [example_task "t0" pending 1] (-1)))
      <=? (-1) - Z.of_nat 0)%Z = false.
Proof. split; reflexivity. Qed.

(** C7 (amended): for a queue whose priorities are integers, the tasks
    getReadyTasks returns are tasks of the queue with status pending or
    queued; their number is at most [max(0, maxConcurrency - running)]; and
    every selected task comes before every pending or queued task left
    unselected: its priority value is not greater, and for equal
    priorities it stands earlier in [queue.tasks]. *)
Theorem getReadyTasks_selects_by_priority
    (currentRunning : nat) (tasks : list QueueTask) (maxConcurrency : Z) :
  (forall i t, (i, t) ∈ getReadyTasks currentRunning tasks maxConcurrency ->
     tasks !! i = Some t /\ (task_status t = pending \/ task_status t = queued))
  /\ (Z.of_nat (length (getReadyTasks currentRunning tasks maxConcurrency))
      <= Z.max 0 (maxConcurrency - Z.of_nat currentRunning))%Z
  /\ (forall i t j u,
        (i, t) ∈ getReadyTasks currentRunning tasks maxConcurrency ->
        tasks !! j = Some u ->
        task_status u = pending \/ task_status u = queued ->
        (j, u) ∉ getReadyTasks currentRunning tasks maxConcurrency ->
        (task_priority t <= task_priority u)%Z /\
        (task_priority t = task_priority u -> i < j)).
Proof.
  split; [|split].
  - intros i t H. by apply getReadyTasks_elem in H.
  - rewrite getReadyTasks_unfold, length_take. lia.
  - intros i t j u Hsel Hj Hready Hnot.
    rewrite getReadyTasks_unfold in Hsel, Hnot.
    assert ((j, u) ∈ ready_in_order tasks) as Hin by by apply elem_of_ready_in_order.
    rewrite <- (take_drop (Z.to_nat (maxConcurrency - Z.of_nat currentRunning))
                  (ready_in_order tasks)) in Hin.
    apply elem_of_app in Hin as [Hin|Hin]; [done|].
    pose proof (ready_in_order_sorted tasks) as Hsorted.
    rewrite <- (take_drop (Z.to_nat (maxConcurrency - Z.of_nat currentRunning))
                  (ready_in_order tasks)) in Hsorted.
    pose proof (StronglySorted_app_1_elem_of _ _ _ _ _ Hsorted Hsel Hin) as Hb.
    unfold before in Hb. simpl in Hb. lia.
Qed.

(** The tasks no counter of the metrics covers. *)
Definition uncounted (t : QueueTask) : Prop :=
  task_status t = retrying \/ task_status t = cancelled.

#[local] Instance uncounted_dec (t : QueueTask) : Decision (uncounted t).
Proof. unfold uncounted. apply _. Defined.

Lemma metrics_partition (queue : TaskQueue) :
  totalTasks (calculateMetrics queue) =
    completedTasks (calculateMetrics queue) + failedTasks (calculateMetrics queue)
    + pendingTasks (calculateMetrics queue) + inProgressTasks (calculateMetrics queue)
    + length (filter uncounted (queue_tasks queue)).
Proof.
  unfold calculateMetrics; simpl.
  induction (queue_tasks queue) as [|t tasks IH]; [done|].
  rewrite !filter_cons. simpl. rewrite IH. clear IH.
  unfold uncounted, is_ready in *.
  repeat case_decide; simpl; try lia;
    destruct (task_status t) eqn:E; intuition congruence.
Qed.

(** C10: in the metrics calculateMetrics returns, the four per-status
    counters sum to at most totalTasks, and the sum is strictly smaller
    exactly when some task of the queue has status retrying or cancelled. *)
Theorem metrics_sum_at_most_total (queue : TaskQueue) :
  completedTasks (calculateMetrics queue) + failedTasks (calculateMetrics queue)
  + pendingTasks (calculateMetrics queue) + inProgressTasks (calculateMetrics queue)
  <= totalTasks (calculateMetrics queue)
  /\ (completedTasks (calculateMetrics queue) + failedTasks (calculateMetrics queue)
      + pendingTasks (calculateMetrics queue) + inProgressTasks (calculateMetrics queue)
      < totalTasks (calculateMetrics queue)
      <-> exists t, t ∈ queue_tasks queue /\
                    (task_status t = retrying \/ task_status t = cancelled)).
Proof.
  rewrite (metrics_partition queue). split; [lia|].
  split.
  - intros H.
    destruct (filter uncounted (queue_tasks queue)) as [|t rest] eqn:E; [simpl in H; lia|].
    assert (t ∈ filter uncounted (queue_tasks queue)) as Ht by (rewrite E; left).
    apply list_elem_of_filter in Ht as [Hu Ht]. by exists t.
  - intros (t & Ht & Hu).
    assert (t ∈ filter uncounted (queue_tasks queue)) as Hin
      by by apply list_elem_of_filter.
    destruct (filter uncounted (queue_tasks queue)); [by apply elem_of_nil in Hin|].
    simpl. lia.
Qed.

End SchedulerClaims.

(** ** The Redis client (the commands RedisQueueStore issues)

    One key space per Redis type; a command on a key of another type, which
    the server refuses, is outside the model.  The values of a hash are
    strings; a string that [JSON.stringify] produced is kept as the value
    it encodes ([JSON.parse] of it gives that value back), every other
    string as [Text]. *)

Module Redis.

Inductive Value :=
| Text (s : string)
| JsonSettings (settings : TaskQueueSettings)
| JsonMetrics (metrics : TaskQueueMetrics)
| JsonResult (result : TaskResult)
| JsonError (error : TaskError)
| JsonMetadata (metadata : TaskMetadata).

Record Client := {
  hashes : gmap string (gmap string Value);
  lists : gmap string (list string);
  sets : gmap string (gset string);
  zsets : gmap string (gmap string Z) }.

Definition empty : Client :=
  {| hashes := ∅; lists := ∅; sets := ∅; zsets := ∅ |}.

Definition hGetAll (key : string) (c : Client) : gmap string Value :=
  default ∅ (hashes c !! key).

Definition hGet (key field : string) (c : Client) : option Value :=
  hGetAll key c !! field.

(** [hSet(key, data)]: the fields of [data] overwrite those of the hash. *)
Definition hSet (key : string) (data : list (string * Value)) (c : Client) : Client :=
  {| hashes := <[key := list_to_map data ∪ hGetAll key c]> (hashes c);
     lists := lists c; sets := sets c; zsets := zsets c |}.

(** [lRange(key, 0, -1)] *)
Definition lRange (key : string) (c : Client) : list string :=
  default [] (lists c !! key).

Definition rPush (key value : string) (c : Client) : Client :=
  {| hashes := hashes c; lists := <[key := (lRange key c ++ [value])%list]> (lists c);
     sets := sets c; zsets := zsets c |}.

Definition lPush (key value : string) (c : Client) : Client :=
  {| hashes := hashes c; lists := <[key := value :: lRange key c]> (lists c);
     sets := sets c; zsets := zsets c |}.

Definition lPop (key : string) (c : Client) : option string * Client :=
  match lRange key c with
  | [] => (None, c)
  | value :: rest =>
      (Some value,
       {| hashes := hashes c;
          lists := (if rest is [] then delete key (lists c) else <[key := rest]> (lists c));
          sets := sets c; zsets := zsets c |})
  end.

Definition lLen (key : string) (c : Client) : nat := length (lRange key c).

Definition del (key : string) (c : Client) : Client :=
  {| hashes := delete key (hashes c); lists := delete key (lists c);
     sets := delete key (sets c); zsets := delete key (zsets c) |}.

Definition sMembers (key : string) (c : Client) : gset string :=
  default ∅ (sets c !! key).

Definition sAdd (key member : string) (c : Client) : Client :=
  {| hashes := hashes c; lists := lists c;
     sets := <[key := {[member]} ∪ sMembers key c]> (sets c); zsets := zsets c |}.

Definition sRem (key member : string) (c : Client) : Client :=
  {| hashes := hashes c; lists := lists c;
     sets := <[key := sMembers key c ∖ {[member]}]> (sets c); zsets := zsets c |}.

Definition sIsMember (key member : string) (c : Client) : bool :=
  bool_decide (member ∈ sMembers key c).

Definition zAdd (key : string) (score : Z) (value : string) (c : Client) : Client :=
  {| hashes := hashes c; lists := lists c; sets := sets c;
     zsets := <[key := <[value := score]> (default ∅ (zsets c !! key))]> (zsets c) |}.

Definition zRem (key value : string) (c : Client) : Client :=
  {| hashes := hashes c; lists := lists c; sets := sets c;
     zsets := <[key := delete value (default ∅ (zsets c !! key))]> (zsets c) |}.

End Redis.

(** ** The queue store (services/RedisQueueStore.ts) *)

Module Store.
Import Redis.

Module KEYS.
Definition QUEUE : string := "queue:".
Definition QUEUE_TASKS : string := "queue:tasks:".
Definition TASK : string := "task:".
Definition PENDING : string := "queue:pending:".
Definition BUSY_AGENTS : string := "busy_agents".
Definition QUEUE_LIST : string := "queues".
Definition EVENTS : string := "queue:events:".
End KEYS.

(** The string values of the enumerations. *)
Definition status_name (s : TaskStatus) : string :=
  match s with
  | pending => "pending" | queued => "queued" | in_progress => "in_progress"
  | completed => "completed" | failed => "failed" | retrying => "retrying"
  | cancelled => "cancelled"
  end.

Definition queue_status_name (s : QueueStatus) : string :=
  match s with
  | idle => "idle" | running => "running" | paused => "paused"
  | q_completed => "completed" | q_failed => "failed"
  end.

Definition complexity_name (c : TaskComplexity) : string :=
  match c with low => "low" | medium => "medium" | high => "high" end.

(** The casts [as TaskStatus], [as QueueStatus] and
    [as QueueTask["estimatedComplexity"]] on a stored string: the member of
    the type with that name.  A string that names no member has no typed
    reading ([None]); the store itself only writes names of members. *)
Definition status_of_name (s : string) : option TaskStatus :=
  if String.eqb s "pending" then Some pending
  else if String.eqb s "queued" then Some queued
  else if String.eqb s "in_progress" then Some in_progress
  else if String.eqb s "completed" then Some completed
  else if String.eqb s "failed" then Some failed
  else if String.eqb s "retrying" then Some retrying
  else if String.eqb s "cancelled" then Some cancelled
  else None.

Definition queue_status_of_name (s : string) : option QueueStatus :=
  if String.eqb s "idle" then Some idle
  else if String.eqb s "running" then Some running
  else if String.eqb s "paused" then Some paused
  else if String.eqb s "completed" then Some q_completed
  else if String.eqb s "failed" then Some q_failed
  else None.

Definition complexity_of_name (s : string) : option TaskComplexity :=
  if String.eqb s "low" then Some low
  else if String.eqb s "medium" then Some medium
  else if String.eqb s "high" then Some high
  else None.

Record RedisQueueStore := {
  client : option Client;
  isConnected : bool }.

(** [isAvailable()] *)
Definition isAvailable (store : RedisQueueStore) : bool :=
  isConnected store && (if client store is Some _ then true else false).

(** A method that starts with [if (!this.client) return;] and then issues
    the commands [f]. *)
Definition with_client (f : Client -> Client) (store : RedisQueueStore) : RedisQueueStore :=
  match client store with
  | None => store
  | Some c => {| client := Some (f c); isConnected := isConnected store |}
  end.

(** *** Writing rows *)

(** [x ? String(x) : ""] *)
Definition opt_num_text (o : option Z) : Value :=
  Text (if JS.truthy_onum o then JS.to_String (default 0%Z o) else "").

Definition taskData (task : QueueTask) : list (string * Value) :=
  [ ("id", Text (task_id task));
    ("agentId", Text (task_agentId task));
    ("message", Text (task_message task));
    ("status", Text (status_name (task_status task)));
    ("priority", Text (JS.to_String (task_priority task)));
    ("retryCount", Text (JS.to_String (task_retryCount task)));
    ("maxRetries", Text (JS.to_String (task_maxRetries task)));
    ("createdAt", Text (JS.to_String (task_createdAt task)));
    ("startedAt", opt_num_text (task_startedAt task));
    ("completedAt", opt_num_text (task_completedAt task));
    ("estimatedComplexity",
       Text (if task_estimatedComplexity task is Some c then complexity_name c else ""));
    ("result", if task_result task is Some r then JsonResult r else Text "");
    ("error", if task_error task is Some e then JsonError e else Text "");
    ("metadata", if task_metadata task is Some m then JsonMetadata m else Text "") ].

Definition saveTask_ (task : QueueTask) (c : Client) : Client :=
  hSet (KEYS.TASK ++ task_id task) (taskData task) c.

Definition saveTask (task : QueueTask) : RedisQueueStore -> RedisQueueStore :=
  with_client (saveTask_ task).

Definition queueData (queue : TaskQueue) : list (string * Value) :=
  [ ("id", Text (queue_id queue));
    ("name", Text (queue_name queue));
    ("status", Text (queue_status_name (queue_status queue)));
    ("createdAt", Text (JS.to_String (queue_createdAt queue)));
    ("startedAt", opt_num_text (queue_startedAt queue));
    ("completedAt", opt_num_text (queue_completedAt queue));
    ("settings", JsonSettings (queue_settings queue));
    ("metrics", JsonMetrics (queue_metrics queue)) ].

(** The body of the [for (const task of queue.tasks)] loop of saveQueue. *)
Definition saveQueue_task (queueId : string) (c : Client) (task : QueueTask) : Client :=
  let c := saveTask_ task c in
  let c := rPush (KEYS.QUEUE_TASKS ++ queueId) (task_id task) c in
  if decide (task_status task = pending \/ task_status task = queued)
  then rPush (KEYS.PENDING ++ queueId) (task_id task) c
  else c.

Definition saveQueue_ (queue : TaskQueue) (c : Client) : Client :=
  let c := hSet (KEYS.QUEUE ++ queue_id queue) (queueData queue) c in
  let c := zAdd KEYS.QUEUE_LIST (queue_createdAt queue) (queue_id queue) c in
  fold_left (saveQueue_task (queue_id queue)) (queue_tasks queue) c.

Definition saveQueue (queue : TaskQueue) : RedisQueueStore -> RedisQueueStore :=
  with_client (saveQueue_ queue).

(** *** Reading rows.  A field is [undefined] when the hash lacks it. *)

Definition text_field (data : gmap string Value) (field : string) : option string :=
  match data !! field with
  | Some (Text s) => Some s
  | _ => None
  end.

(** [parseInt(data.field, 10)] *)
Definition num_field (data : gmap string Value) (field : string) : option Z :=
  text_field data field ≫= JS.parseInt.

(** [data.field ? parseInt(data.field, 10) : undefined] *)
Definition opt_num_field (data : gmap string Value) (field : string) : option (option Z) :=
  match data !! field with
  | None => Some None
  | Some (Text s) => if JS.truthy_str s then Some <$> JS.parseInt s else Some None
  | Some _ => None
  end.

(** [data.estimatedComplexity as ... || undefined] *)
Definition complexity_field (data : gmap string Value) : option (option TaskComplexity) :=
  match data !! "estimatedComplexity" with
  | None => Some None
  | Some (Text s) => if JS.truthy_str s then Some <$> complexity_of_name s else Some None
  | Some _ => None
  end.

(** [parseJson(data.field)] of loadTask: [undefined] for a missing or empty
    field and for a string [JSON.parse] throws on. *)
Definition json_field {A} (project : Value -> option A)
    (data : gmap string Value) (field : string) : option (option A) :=
  match data !! field with
  | None => Some None
  | Some (Text _) => Some None
  | Some v => Some <$> project v
  end.

Definition as_result (v : Value) : option TaskResult :=
  if v is JsonResult r then Some r else None.
Definition as_error (v : Value) : option TaskError :=
  if v is JsonError e then Some e else None.
Definition as_metadata (v : Value) : option TaskMetadata :=
  if v is JsonMetadata m then Some m else None.

(** [JSON.parse(data.settings || "{}")] and the same for the metrics: the
    stored value; a row without them has no typed reading. *)
Definition settings_field (data : gmap string Value) : option TaskQueueSettings :=
  if data !! "settings" is Some (JsonSettings s) then Some s else None.
Definition metrics_field (data : gmap string Value) : option TaskQueueMetrics :=
  if data !! "metrics" is Some (JsonMetrics m) then Some m else None.

(** loadTask.  A row is read at the type [QueueTask]: where [parseInt]
    gives [NaN] for one of the numbers, or a field of the row is missing,
    the code returns an object that is no [QueueTask], and the row has no
    reading here ([None], as for a row without an id, for which the code
    returns null). *)
Definition loadTask_ (taskId : string) (c : Client) : option QueueTask :=
  let taskData := hGetAll (KEYS.TASK ++ taskId) c in
  id ← text_field taskData "id";
  if negb (JS.truthy_str id) then None else
  agentId ← text_field taskData "agentId";
  message ← text_field taskData "message";
  status ← text_field taskData "status" ≫= status_of_name;
  priority ← num_field taskData "priority";
  estimatedComplexity ← complexity_field taskData;
  retryCount ← num_field taskData "retryCount";
  maxRetries ← num_field taskData "maxRetries";
  createdAt ← num_field taskData "createdAt";
  startedAt ← opt_num_field taskData "startedAt";
  completedAt ← opt_num_field taskData "completedAt";
  result ← json_field as_result taskData "result";
  error ← json_field as_error taskData "error";
  metadata ← json_field as_metadata taskData "metadata";
  Some {| task_id := id; task_agentId := agentId; task_message := message;
          task_status := status; task_priority := priority;
          task_estimatedComplexity := estimatedComplexity;
          task_retryCount := retryCount; task_maxRetries := maxRetries;
          task_createdAt := createdAt; task_startedAt := startedAt;
          task_completedAt := completedAt; task_result := result;
          task_error := error; task_metadata := metadata |}.

Definition loadTask (taskId : string) (store : RedisQueueStore) : option QueueTask :=
  client store ≫= loadTask_ taskId.

Definition loadQueue_ (queueId : string) (c : Client) : option TaskQueue :=
  let queueData := hGetAll (KEYS.QUEUE ++ queueId) c in
  id ← text_field queueData "id";
  if negb (JS.truthy_str id) then None else
  let taskIds := lRange (KEYS.QUEUE_TASKS ++ queueId) c in
  let tasks := omap (fun taskId => loadTask_ taskId c) taskIds in
  name ← text_field queueData "name";
  status ← text_field queueData "status" ≫= queue_status_of_name;
  settings ← settings_field queueData;
  metrics ← metrics_field queueData;
  createdAt ← num_field queueData "createdAt";
  startedAt ← opt_num_field queueData "startedAt";
  completedAt ← opt_num_field queueData "completedAt";
  Some {| queue_id := id; queue_name := name; queue_description := None;
          queue_tasks := tasks; queue_settings := settings;
          queue_status := status; queue_createdAt := createdAt;
          queue_startedAt := startedAt; queue_completedAt := completedAt;
          queue_metrics := metrics |}.

Definition loadQueue (queueId : string) (store : RedisQueueStore) : option TaskQueue :=
  client store ≫= loadQueue_ queueId.

(** *** Updates *)

Definition deleteQueue_ (queueId : string) (c : Client) : Client :=
  let taskIds := lRange (KEYS.QUEUE_TASKS ++ queueId) c in
  let c := fold_left (fun c taskId => del (KEYS.TASK ++ taskId) c) taskIds c in
  let c := del (KEYS.QUEUE ++ queueId) c in
  let c := del (KEYS.QUEUE_TASKS ++ queueId) c in
  let c := del (KEYS.PENDING ++ queueId) c in
  zRem KEYS.QUEUE_LIST queueId c.

Definition deleteQueue (queueId : string) : RedisQueueStore -> RedisQueueStore :=
  with_client (deleteQueue_ queueId).

Definition updateQueueStatus_ (queueId : string) (status : QueueStatus)
    (timestamp : option Z) (c : Client) : Client :=
  let updates :=
    ([("status", Text (queue_status_name status))] ++
     if decide (status = running) then
       if JS.truthy_onum timestamp
       then [("startedAt", Text (JS.to_String (default 0%Z timestamp)))] else []
     else if decide (status = q_completed) then
       if JS.truthy_onum timestamp
       then [("completedAt", Text (JS.to_String (default 0%Z timestamp)))] else []
     else [])%list in
  hSet (KEYS.QUEUE ++ queueId) updates c.

Definition updateQueueStatus (queueId : string) (status : QueueStatus)
    (timestamp : option Z) : RedisQueueStore -> RedisQueueStore :=
  with_client (updateQueueStatus_ queueId status timestamp).

Definition updateQueueMetrics (queueId : string) (metrics : TaskQueueMetrics)
  : RedisQueueStore -> RedisQueueStore :=
  with_client (hSet (KEYS.QUEUE ++ queueId) [("metrics", JsonMetrics metrics)]).

(** The [updates] argument of updateTask: a field is [None] when the
    object lacks it or holds [undefined]; the method cannot tell the two
    apart ([updates.x !== undefined]). *)
Record TaskUpdates := {
  upd_status : option TaskStatus;
  upd_startedAt : option Z;
  upd_completedAt : option Z;
  upd_result : option TaskResult;
  upd_error : option TaskError;
  upd_retryCount : option Z }.

Definition no_updates : TaskUpdates :=
  {| upd_status := None; upd_startedAt := None; upd_completedAt := None;
     upd_result := None; upd_error := None; upd_retryCount := None |}.

Definition updateTask_data (updates : TaskUpdates) : list (string * Value) :=
  ((if upd_status updates is Some s then [("status", Text (status_name s))] else []) ++
   (if upd_startedAt updates is Some _
    then [("startedAt", opt_num_text (upd_startedAt updates))] else []) ++
   (if upd_completedAt updates is Some _
    then [("completedAt", opt_num_text (upd_completedAt updates))] else []) ++
   (if upd_result updates is Some r then [("result", JsonResult r)] else []) ++
   (if upd_error updates is Some e then [("error", JsonError e)] else []) ++
   (if upd_retryCount updates is Some n
    then [("retryCount", Text (JS.to_String n))] else []))%list.

Definition updateTask_ (taskId : string) (updates : TaskUpdates) (c : Client) : Client :=
  let data := updateTask_data updates in
  if decide (0 < length data) then hSet (KEYS.TASK ++ taskId) data c else c.

Definition updateTask (taskId : string) (updates : TaskUpdates)
  : RedisQueueStore -> RedisQueueStore :=
  with_client (updateTask_ taskId updates).

Definition popNextTask (queueId : string) (store : RedisQueueStore)
  : option string * RedisQueueStore :=
  match client store with
  | None => (None, store)
  | Some c =>
      let '(taskId, c') := lPop (KEYS.PENDING ++ queueId) c in
      (taskId, {| client := Some c'; isConnected := isConnected store |})
  end.

Definition requeueTask (queueId taskId : string) : RedisQueueStore -> RedisQueueStore :=
  with_client (lPush (KEYS.PENDING ++ queueId) taskId).

Definition getPendingCount (queueId : string) (store : RedisQueueStore) : nat :=
  if client store is Some c then lLen (KEYS.PENDING ++ queueId) c else 0.

Definition markAgentBusy (agentId : string) : RedisQueueStore -> RedisQueueStore :=
  with_client (sAdd KEYS.BUSY_AGENTS agentId).

Definition markAgentAvailable (agentId : string) : RedisQueueStore -> RedisQueueStore :=
  with_client (sRem KEYS.BUSY_AGENTS agentId).

Definition getBusyAgents (store : RedisQueueStore) : gset string :=
  if client store is Some c then sMembers KEYS.BUSY_AGENTS c else ∅.

(** *** Recovery *)

(** The body of the [for (const taskId of taskIds)] loop of
    resetInterruptedQueue. *)
Definition reset_task (pendingKey : string) (c : Client) (taskId : string) : Client :=
  match loadTask_ taskId c with
  | None => c
  | Some task =>
      if decide (task_status task = in_progress \/ task_status task = retrying) then
        let c := updateTask_ taskId
                   {| upd_status := Some pending; upd_startedAt := None;
                      upd_completedAt := None; upd_result := None;
                      upd_error := None; upd_retryCount := None |} c in
        rPush pendingKey taskId c
      else if decide (task_status task = pending \/ task_status task = queued) then
        rPush pendingKey taskId c
      else c
  end.

Definition resetInterruptedQueue_ (queueId : string) (c : Client) : Client :=
  let c := updateQueueStatus_ queueId paused None c in
  let taskIds := lRange (KEYS.QUEUE_TASKS ++ queueId) c in
  let pendingKey := KEYS.PENDING ++ queueId in
  let c := del pendingKey c in
  let c := fold_left (reset_task pendingKey) taskIds c in
  del KEYS.BUSY_AGENTS c.

Definition resetInterruptedQueue (queueId : string) : RedisQueueStore -> RedisQueueStore :=
  with_client (resetInterruptedQueue_ queueId).

End Store.

(** ** The queue handlers (handlers/taskQueue.ts) *)

Module Api.
Import Store.

(** [TaskInput], [Partial<TaskQueueSettings>] and [CreateQueueRequest]. *)
Record TaskInput := {
  input_agentId : string;
  input_message : string;
  input_priority : option Z;
  input_estimatedComplexity : option TaskComplexity }.

Record PartialSettings := {
  opt_maxConcurrency : option Z;
  opt_retryCount : option Z;
  opt_retryDelay : option Z;
  opt_timeoutPerTask : option Z }.

Record CreateQueueRequest := {
  body_name : option string;
  body_description : option string;
  body_tasks : option (list TaskInput);
  body_settings : option PartialSettings }.

(** The module state: [redisStore] and the in-memory [queues] map. *)
Record State := {
  redisStore : option RedisQueueStore;
  queues : gmap string TaskQueue }.

Inductive Reply :=
| reply_created (queueId : string) (queue : TaskQueue)          (* 201 *)
| reply_task (task : QueueTask)                                 (* 200 *)
| reply_error (code : Z) (error : string).

(** [isRedisAvailable()] *)
Definition isRedisAvailable (st : State) : bool :=
  if redisStore st is Some store then isAvailable store else false.

Definition createInitialMetrics (taskCount : nat) : TaskQueueMetrics :=
  {| totalTasks := taskCount; completedTasks := 0; failedTasks := 0;
     pendingTasks := taskCount; inProgressTasks := 0;
     averageTaskDuration := None; estimatedTimeRemaining := None |}.

(** [body.settings?.field ?? d] *)
Definition setting (field : PartialSettings -> option Z) (d : Z)
    (settings : option PartialSettings) : Z :=
  JS.nullish (settings ≫= field) d.

(** The callback of [body.tasks.map((input, index) => ...)].  [taskId] is
    the result of this task's call of [generateId()]. *)
Definition create_task (queueId : string) (now : Z) (settings : option PartialSettings)
    (taskId : string) (index : nat) (input : TaskInput) : QueueTask :=
  {| task_id := taskId;
     task_agentId := input_agentId input;
     task_message := input_message input;
     task_status := pending;
     task_priority := JS.nullish (input_priority input) (Z.of_nat index + 1)%Z;
     task_estimatedComplexity := input_estimatedComplexity input;
     task_retryCount := 0;
     task_maxRetries := setting opt_retryCount 3 settings;
     task_createdAt := now;
     task_startedAt := None;
     task_completedAt := None;
     task_result := None;
     task_error := None;
     task_metadata := Some {| parentQueueId := queueId; createdBy := user;
                              meta_requestId := None; meta_sessionId := None |} |}.

(** [handleCreateQueue].  [queueId] and [taskIds] are the results of the
    calls of [generateId()], [now] that of [Date.now()]. *)
Definition handleCreateQueue (queueId : string) (taskIds : nat -> string) (now : Z)
    (body : CreateQueueRequest) (st : State) : Reply * State :=
  match body_tasks body with
  | Some inputs =>
      if negb (JS.truthy_ostr (body_name body)) || bool_decide (length inputs = 0)
      then (reply_error 400 "Name and at least one task are required", st)
      else
        let tasks :=
          imap (fun index input =>
                  create_task queueId now (body_settings body) (taskIds index) index input)
               inputs in
        let settings :=
          {| maxConcurrency := setting opt_maxConcurrency 3 (body_settings body);
             retryCount := setting opt_retryCount 3 (body_settings body);
             retryDelay := setting opt_retryDelay 2000 (body_settings body);
             timeoutPerTask := setting opt_timeoutPerTask 300000 (body_settings body) |} in
        let queue :=
          {| queue_id := queueId;
             queue_name := default "" (body_name body);
             queue_description := body_description body;
             queue_tasks := tasks;
             queue_settings := settings;
             queue_status := idle;
             queue_createdAt := now;
             queue_startedAt := None;
             queue_completedAt := None;
             queue_metrics := createInitialMetrics (length tasks) |} in
        let st' :=
          match redisStore st with
          | Some store =>
              if isAvailable store
              then {| redisStore := Some (saveQueue queue store); queues := queues st |}
              else {| redisStore := redisStore st; queues := <[queueId := queue]> (queues st) |}
          | None => {| redisStore := None; queues := <[queueId := queue]> (queues st) |}
          end in
        (reply_created queueId queue, st')
  | None => (reply_error 400 "Name and at least one task are required", st)
  end.

(** [queue.tasks.find((t) => t.id === taskId)]: the first task with that
    id, with its position. *)
Fixpoint find_task (taskId : string) (tasks : list QueueTask) : option (nat * QueueTask) :=
  match tasks with
  | [] => None
  | t :: rest =>
      if String.eqb (task_id t) taskId then Some (0, t)
      else (fun it => (S (fst it), snd it)) <$> find_task taskId rest
  end.

(** The six assignments of handleRetryTask on the task object. *)
Definition reset_for_retry (task : QueueTask) : QueueTask :=
  {| task_id := task_id task; task_agentId := task_agentId task;
     task_message := task_message task;
     task_status := pending;
     task_priority := task_priority task;
     task_estimatedComplexity := task_estimatedComplexity task;
     task_retryCount := 0;
     task_maxRetries := task_maxRetries task;
     task_createdAt := task_createdAt task;
     task_startedAt := None;
     task_completedAt := None;
     task_result := None;
     task_error := None;
     task_metadata := task_metadata task |}.

Definition with_tasks (queue : TaskQueue) (tasks : list QueueTask) : TaskQueue :=
  {| queue_id := queue_id queue; queue_name := queue_name queue;
     queue_description := queue_description queue; queue_tasks := tasks;
     queue_settings := queue_settings queue; queue_status := queue_status queue;
     queue_createdAt := queue_createdAt queue; queue_startedAt := queue_startedAt queue;
     queue_completedAt := queue_completedAt queue; queue_metrics := queue_metrics queue |}.

(** The queue lookup shared by the handlers: Redis first, then the map.
    The flag tells whether the object is the one the map holds (and so
    whether assignments to it change the map). *)
Definition find_queue (queueId : string) (st : State) : option (TaskQueue * bool) :=
  let from_redis :=
    match redisStore st with
    | Some store => if isAvailable store then loadQueue queueId store else None
    | None => None
    end in
  match from_redis with
  | Some queue => Some (queue, false)
  | None => (fun queue => (queue, true)) <$> queues st !! queueId
  end.

(** [handleRetryTask] *)
Definition handleRetryTask (queueId taskId : string) (st : State) : Reply * State :=
  match find_queue queueId st with
  | None => (reply_error 404 "Queue not found", st)
  | Some (queue, in_memory) =>
      match find_task taskId (queue_tasks queue) with
      | None => (reply_error 404 "Task not found", st)
      | Some (i, task) =>
          let task := reset_for_retry task in
          let queues' :=
            if in_memory
            then <[queueId := with_tasks queue (<[i := task]> (queue_tasks queue))]> (queues st)
            else queues st in
          let redisStore' :=
            match redisStore st with
            | Some store =>
                if isAvailable store then
                  let store :=
                    updateTask taskId
                      {| upd_status := Some pending; upd_retryCount := Some 0%Z;
                         upd_error := None; upd_result := None;
                         upd_startedAt := None; upd_completedAt := None |} store in
                  Some (requeueTask queueId taskId store)
                else Some store
            | None => None
            end in
          (reply_task task, {| redisStore := redisStore'; queues := queues' |})
      end
  end.

End Api.

(** ** Claims about the store and the handlers: the runs *)

Module StoreRuns.
Import Redis Store Api.

Definition metrics0 : TaskQueueMetrics := createInitialMetrics 2.

(** The queue of the crash-recovery scenario: T1 was running on agent A1,
    T2 was waiting. *)
Definition T1 : QueueTask :=
  {| task_id := "T1"; task_agentId := "A1"; task_message := "first";
     task_status := in_progress; task_priority := 1;
     task_estimatedComplexity := None;
     task_retryCount := 0; task_maxRetries := 3; task_createdAt := 1000;
     task_startedAt := Some 2000%Z; task_completedAt := None;
     task_result := None; task_error := None; task_metadata := None |}.

Definition T2 : QueueTask :=
  {| task_id := "T2"; task_agentId := "A2"; task_message := "second";
     task_status := pending; task_priority := 2;
     task_estimatedComplexity := Some low;
     task_retryCount := 0; task_maxRetries := 3; task_createdAt := 1000;
     task_startedAt := None; task_completedAt := None;
     task_result := None; task_error := None; task_metadata := None |}.

Definition Q : TaskQueue :=
  {| queue_id := "Q"; queue_name := "nightly"; queue_description := Some "nightly jobs";
     queue_tasks := [T1; T2]; queue_settings := DEFAULT_QUEUE_SETTINGS;
     queue_status := running; queue_createdAt := 1000;
     queue_startedAt := Some 1500%Z; queue_completedAt := None;
     queue_metrics := metrics0 |}.

Definition connected : RedisQueueStore :=
  {| client := Some Redis.empty; isConnected := true |}.

(** The store as the crash left it. *)
Definition crashed : RedisQueueStore :=
  markAgentBusy "A1" (saveQueue Q connected).

Definition pending_list (queueId : string) (store : RedisQueueStore) : list string :=
  if client store is Some c then lRange (KEYS.PENDING ++ queueId) c else [].

(** C4 on the code, at the crash-recovery scenario: after
    resetInterruptedQueue the queue is paused, T1 is pending again, the
    pending list is [T1; T2] and no agent is busy, but the startedAt of T1,
    which the method passes as [undefined] to updateTask, is still the
    time of the interrupted start. *)
Theorem resetInterruptedQueue_keeps_startedAt :
  task_startedAt <$> loadTask "T1" crashed = Some (Some 2000%Z)
  /\ queue_status <$> loadQueue "Q" (resetInterruptedQueue "Q" crashed) = Some paused
  /\ task_status <$> loadTask "T1" (resetInterruptedQueue "Q" crashed) = Some pending
  /\ task_startedAt <$> loadTask "T1" (resetInterruptedQueue "Q" crashed) = Some (Some 2000%Z)
  /\ pending_list "Q" (resetInterruptedQueue "Q" crashed) = ["T1"; "T2"]
  /\ getBusyAgents crashed = {["A1"]}
  /\ getBusyAgents (resetInterruptedQueue "Q" crashed) = ∅.
Proof. repeat split; vm_compute; reflexivity. Qed.

(** C5 on the code, for a queue with a description: saveQueue writes no
    description and loadQueue returns none, so the queue saveQueue then
    loadQueue returns is not the queue that was saved, while the map the
    handlers use without Redis gives the queue back with its description;
    and a queue that is saved a second time comes back with every task
    twice, since saveQueue appends the task ids to the list the store
    holds. *)
Theorem saveQueue_loadQueue_drops_description :
  queue_description Q = Some "nightly jobs"
  /\ queue_description <$> loadQueue "Q" (saveQueue Q connected) = Some None
  /\ loadQueue "Q" (saveQueue Q connected) <> Some Q
  /\ (fst <$> find_queue "Q" {| redisStore := None; queues := {["Q" := Q]} |}) = Some Q
  /\ (fun queue => task_id <$> queue_tasks queue)
       <$> loadQueue "Q" (saveQueue Q (saveQueue Q connected))
     = Some ["T1"; "T2"; "T1"; "T2"].
Proof. repeat split; try (vm_compute; reflexivity). vm_compute. discriminate. Qed.

(** A failed task with its error and timestamps, in a queue that finished. *)
Definition boom : TaskError :=
  {| error_type := execution; error_message := "boom"; error_retryable := false;
     error_occurredAt := 3000; error_stack := None |}.

Definition F1 : QueueTask :=
  {| task_id := "F1"; task_agentId := "A1"; task_message := "first";
     task_status := failed; task_priority := 1;
     task_estimatedComplexity := None;
     task_retryCount := 2; task_maxRetries := 3; task_createdAt := 1000;
     task_startedAt := Some 2000%Z; task_completedAt := Some 3000%Z;
     task_result := None; task_error := Some boom; task_metadata := None |}.

Definition QF : TaskQueue :=
  {| queue_id := "QF"; queue_name := "nightly"; queue_description := None;
     queue_tasks := [F1; T2]; queue_settings := DEFAULT_QUEUE_SETTINGS;
     queue_status := q_failed; queue_createdAt := 1000;
     queue_startedAt := Some 1500%Z; queue_completedAt := None;
     queue_metrics := metrics0 |}.

Definition api_with (queue : TaskQueue) : State :=
  {| redisStore := Some (saveQueue queue connected); queues := ∅ |}.

Definition stored_task (taskId : string) (st : State) : option QueueTask :=
  redisStore st ≫= loadTask taskId.

Definition stored_pending (queueId : string) (st : State) : list string :=
  if redisStore st is Some store then pending_list queueId store else [].

(** C6 on the code, for a failed task: the task handleRetryTask returns is
    pending with retryCount 0 and no result, error or timestamps, and its
    id is pushed on the pending list; the stored task is pending with
    retryCount 0 too, but keeps its error, startedAt and completedAt, which
    the handler passes as [undefined] to updateTask. *)
Theorem handleRetryTask_keeps_stored_fields :
  fst (handleRetryTask "QF" "F1" (api_with QF)) = reply_task (reset_for_retry F1)
  /\ task_status <$> stored_task "F1" (snd (handleRetryTask "QF" "F1" (api_with QF)))
     = Some pending
  /\ task_retryCount <$> stored_task "F1" (snd (handleRetryTask "QF" "F1" (api_with QF)))
     = Some 0%Z
  /\ task_error <$> stored_task "F1" (snd (handleRetryTask "QF" "F1" (api_with QF)))
     = Some (Some boom)
  /\ task_startedAt <$> stored_task "F1" (snd (handleRetryTask "QF" "F1" (api_with QF)))
     = Some (Some 2000%Z)
  /\ task_completedAt <$> stored_task "F1" (snd (handleRetryTask "QF" "F1" (api_with QF)))
     = Some (Some 3000%Z)
  /\ stored_pending "QF" (api_with QF) = ["T2"]
  /\ stored_pending "QF" (snd (handleRetryTask "QF" "F1" (api_with QF))) = ["F1"; "T2"].
Proof. repeat split; vm_compute; reflexivity. Qed.

(** Eleven task inputs without a priority, and one with priority 0. *)
Definition plain_input : TaskInput :=
  {| input_agentId := "A1"; input_message := "work"; input_priority := None;
     input_estimatedComplexity := None |}.

Definition eleven : CreateQueueRequest :=
  {| body_name := Some "many"; body_description := None;
     body_tasks := Some (replicate 11 plain_input); body_settings := None |}.

Definition zero_priority : CreateQueueRequest :=
  {| body_name := Some "zero"; body_description := None;
     body_tasks := Some [ {| input_agentId := "A1"; input_message := "work";
                             input_priority := Some 0%Z;
                             input_estimatedComplexity := None |} ];
     body_settings := None |}.

Definition no_store : State := {| redisStore := None; queues := ∅ |}.

Definition task_ids (index : nat) : string := "t" ++ JS.to_String (Z.of_nat index).

Definition created_priorities (r : Reply) : list Z :=
  if r is reply_created _ queue then task_priority <$> queue_tasks queue else [].

(** C8 on the code: handleCreateQueue gives the eleventh task of a request
    without priorities the priority 11, and keeps a priority 0 that the
    client supplies; neither is in the range 1 to 10. *)
Theorem handleCreateQueue_priority_out_of_range :
  created_priorities (fst (handleCreateQueue "q1" task_ids 1000 eleven no_store))
    = [1; 2; 3; 4; 5; 6; 7; 8; 9; 10; 11]%Z
  /\ created_priorities (fst (handleCreateQueue "q2" task_ids 1000 zero_priority no_store))
    = [0%Z].
Proof. split; vm_compute; reflexivity. Qed.

End StoreRuns.

(** ** Facts about the store: what a saved row reads back as *)

Module StoreFacts.
Import Redis Store.

(** Every field of [data] is in the hash, with the value [data] gives. *)
Definition has_fields (data : list (string * Value)) (h : gmap string Value) : Prop :=
  forall field v, (field, v) ∈ data -> h !! field = Some v.

Lemma hGetAll_hSet (key : string) (data : list (string * Value)) (c : Client) :
  hGetAll key (hSet key data c) = list_to_map data ∪ hGetAll key c.
Proof. unfold hGetAll at 1, hSet. simpl. by rewrite lookup_insert_eq. Qed.

Lemma hGetAll_hSet_ne (key key' : string) (data : list (string * Value)) (c : Client) :
  key <> key' -> hGetAll key' (hSet key data c) = hGetAll key' c.
Proof. intros H. unfold hGetAll, hSet. simpl. by rewrite lookup_insert_ne. Qed.

Lemma hSet_has_fields (key : string) (data : list (string * Value)) (c : Client) :
  NoDup data.*1 -> has_fields data (hGetAll key (hSet key data c)).
Proof.
  intros Hnd field v Hin. rewrite hGetAll_hSet.
  apply lookup_union_Some_l. by apply elem_of_list_to_map_1.
Qed.

Lemma lRange_hSet (key key' : string) (data : list (string * Value)) (c : Client) :
  lRange key' (hSet key data c) = lRange key' c.
Proof. reflexivity. Qed.

Lemma lRange_rPush (key value : string) (c : Client) :
  lRange key (rPush key value c) = (lRange key c ++ [value])%list.
Proof. unfold lRange at 1, rPush. simpl. by rewrite lookup_insert_eq. Qed.

Lemma lRange_rPush_ne (key key' value : string) (c : Client) :
  key <> key' -> lRange key' (rPush key value c) = lRange key' c.
Proof. intros H. unfold lRange, rPush. simpl. by rewrite lookup_insert_ne. Qed.

Lemma hGetAll_rPush (key key' value : string) (c : Client) :
  hGetAll key' (rPush key value c) = hGetAll key' c.
Proof. reflexivity. Qed.

Lemma hGetAll_zAdd (key key' value : string) (score : Z) (c : Client) :
  hGetAll key' (zAdd key score value c) = hGetAll key' c.
Proof. reflexivity. Qed.

Lemma lRange_zAdd (key key' value : string) (score : Z) (c : Client) :
  lRange key' (zAdd key score value c) = lRange key' c.
Proof. reflexivity. Qed.

Lemma status_of_name_name (s : TaskStatus) : status_of_name (status_name s) = Some s.
Proof. by destruct s. Qed.

Lemma queue_status_of_name_name (s : QueueStatus) :
  queue_status_of_name (queue_status_name s) = Some s.
Proof. by destruct s. Qed.

Lemma complexity_of_name_name (c : TaskComplexity) :
  complexity_of_name (complexity_name c) = Some c.
Proof. by destruct c. Qed.

(** An optional timestamp the store can tell from an absent one. *)
Definition storable (o : option Z) : Prop := o <> Some 0%Z.

Lemma text_field_has (h : gmap string Value) (field s : string) :
  h !! field = Some (Text s) -> text_field h field = Some s.
Proof. unfold text_field. by intros ->. Qed.

Lemma num_field_has (h : gmap string Value) (field : string) (n : Z) :
  h !! field = Some (Text (JS.to_String n)) -> num_field h field = Some n.
Proof.
  intros H. unfold num_field. rewrite (text_field_has _ _ _ H). simpl.
  apply JS.parseInt_to_String.
Qed.

Lemma opt_num_field_has (h : gmap string Value) (field : string) (o : option Z) :
  storable o ->
  h !! field = Some (opt_num_text o) -> opt_num_field h field = Some o.
Proof.
  unfold opt_num_field, opt_num_text, storable. intros Ho ->.
  destruct o as [n|]; simpl; [|done].
  unfold JS.truthy_num. destruct (n =? 0)%Z eqn:E; simpl.
  - apply Z.eqb_eq in E. congruence.
  - by rewrite JS.to_String_truthy, JS.parseInt_to_String.
Qed.

Lemma complexity_field_has (h : gmap string Value) (o : option TaskComplexity) :
  h !! "estimatedComplexity" = Some (Text (if o is Some c then complexity_name c else "")) ->
  complexity_field h = Some o.
Proof.
  unfold complexity_field. intros ->. destruct o as [[]|]; reflexivity.
Qed.

(** The value of a field of a row, from [has_fields]. *)
Ltac field_of H name :=
  let Hf := fresh "Hfield" in
  eassert (_ !! name = Some _) as Hf
    by (apply H; unfold taskData, queueData; repeat constructor);
  simpl in Hf.

Definition storable_task (t : QueueTask) : Prop :=
  task_id t <> "" /\ storable (task_startedAt t) /\ storable (task_completedAt t).

Lemma truthy_str_nonempty (s : string) : s <> "" -> JS.truthy_str s = true.
Proof. by destruct s. Qed.

Lemma json_field_result (h : gmap string Value) (o : option TaskResult) :
  h !! "result" = Some (if o is Some r then JsonResult r else Text "") ->
  json_field as_result h "result" = Some o.
Proof. unfold json_field. intros ->. by destruct o. Qed.

Lemma json_field_error (h : gmap string Value) (o : option TaskError) :
  h !! "error" = Some (if o is Some e then JsonError e else Text "") ->
  json_field as_error h "error" = Some o.
Proof. unfold json_field. intros ->. by destruct o. Qed.

Lemma json_field_metadata (h : gmap string Value) (o : option TaskMetadata) :
  h !! "metadata" = Some (if o is Some m then JsonMetadata m else Text "") ->
  json_field as_metadata h "metadata" = Some o.
Proof. unfold json_field. intros ->. by destruct o. Qed.

Lemma loadTask_has_fields (taskId : string) (t : QueueTask) (c : Client) :
  has_fields (taskData t) (hGetAll (KEYS.TASK ++ taskId) c) ->
  storable_task t ->
  loadTask_ taskId c = Some t.
Proof.
  intros H (Hid & Hstart & Hdone). unfold loadTask_.
  set (h := hGetAll (KEYS.TASK ++ taskId) c) in *.
  field_of H "id". field_of H "agentId". field_of H "message". field_of H "status".
  field_of H "priority". field_of H "retryCount". field_of H "maxRetries".
  field_of H "createdAt". field_of H "startedAt". field_of H "completedAt".
  field_of H "estimatedComplexity". field_of H "result". field_of H "error".
  field_of H "metadata".
  rewrite (text_field_has h "id" (task_id t)) by done. simpl.
  rewrite truthy_str_nonempty by done. simpl.
  rewrite (text_field_has h "agentId" (task_agentId t)) by done. simpl.
  rewrite (text_field_has h "message" (task_message t)) by done. simpl.
  rewrite (text_field_has h "status" (status_name (task_status t))) by done. simpl.
  rewrite status_of_name_name. simpl.
  rewrite (num_field_has h "priority" (task_priority t)) by done. simpl.
  rewrite (complexity_field_has h (task_estimatedComplexity t)) by done. simpl.
  rewrite (num_field_has h "retryCount" (task_retryCount t)) by done. simpl.
  rewrite (num_field_has h "maxRetries" (task_maxRetries t)) by done. simpl.
  rewrite (num_field_has h "createdAt" (task_createdAt t)) by done. simpl.
  rewrite (opt_num_field_has h "startedAt" (task_startedAt t)) by done. simpl.
  rewrite (opt_num_field_has h "completedAt" (task_completedAt t)) by done. simpl.
  rewrite (json_field_result h (task_result t)) by done. simpl.
  rewrite (json_field_error h (task_error t)) by done. simpl.
  rewrite (json_field_metadata h (task_metadata t)) by done. simpl.
  by destruct t.
Qed.

Lemma task_key_inj (a b : string) : KEYS.TASK ++ a = KEYS.TASK ++ b -> a = b.
Proof. unfold KEYS.TASK. cbv [String.append]. by intros [= ->]. Qed.

Lemma task_key_not_queue_key (a b : string) : KEYS.TASK ++ a <> KEYS.QUEUE ++ b.
Proof. unfold KEYS.TASK, KEYS.QUEUE. cbv [String.append]. by intros [=]. Qed.

Lemma tasks_key_not_pending_key (a b : string) : KEYS.PENDING ++ a <> KEYS.QUEUE_TASKS ++ b.
Proof. unfold KEYS.PENDING, KEYS.QUEUE_TASKS. cbv [String.append]. by intros [=]. Qed.

Lemma taskData_fields_NoDup (t : QueueTask) : NoDup (taskData t).*1.
Proof. unfold taskData. simpl. apply (bool_decide_unpack _). by vm_compute. Qed.

Lemma queueData_fields_NoDup (q : TaskQueue) : NoDup (queueData q).*1.
Proof. unfold queueData. simpl. apply (bool_decide_unpack _). by vm_compute. Qed.

Lemma hGetAll_saveQueue_task (queueId key : string) (c : Client) (t : QueueTask) :
  hGetAll key (saveQueue_task queueId c t) = hGetAll key (saveTask_ t c).
Proof. unfold saveQueue_task. by case_decide. Qed.

Lemma lRange_saveQueue_task (queueId : string) (c : Client) (t : QueueTask) :
  lRange (KEYS.QUEUE_TASKS ++ queueId) (saveQueue_task queueId c t)
  = (lRange (KEYS.QUEUE_TASKS ++ queueId) c ++ [task_id t])%list.
Proof.
  unfold saveQueue_task. case_decide.
  - rewrite lRange_rPush_ne by apply tasks_key_not_pending_key.
    by rewrite lRange_rPush.
  - by rewrite lRange_rPush.
Qed.

Lemma lRange_saveQueue_tasks (queueId : string) (tasks : list QueueTask) (c : Client) :
  lRange (KEYS.QUEUE_TASKS ++ queueId) (fold_left (saveQueue_task queueId) tasks c)
  = (lRange (KEYS.QUEUE_TASKS ++ queueId) c ++ (task_id <$> tasks))%list.
Proof.
  revert c. induction tasks as [|t rest IH]; intros c; simpl.
  - by rewrite app_nil_r.
  - rewrite IH, lRange_saveQueue_task. by rewrite <- app_assoc.
Qed.

Lemma hGetAll_saveQueue_tasks_other (queueId key : string) (tasks : list QueueTask)
    (c : Client) :
  (forall t, t ∈ tasks -> KEYS.TASK ++ task_id t <> key) ->
  hGetAll key (fold_left (saveQueue_task queueId) tasks c) = hGetAll key c.
Proof.
  revert c. induction tasks as [|t rest IH]; intros c H; simpl; [done|].
  rewrite IH by (intros t' Ht'; apply H; by right).
  rewrite hGetAll_saveQueue_task. unfold saveTask_.
  apply hGetAll_hSet_ne, H. by left.
Qed.

Lemma saveQueue_tasks_fields (queueId : string) (tasks : list QueueTask) (c : Client)
    (t : QueueTask) :
  NoDup (task_id <$> tasks) ->
  t ∈ tasks ->
  has_fields (taskData t)
    (hGetAll (KEYS.TASK ++ task_id t) (fold_left (saveQueue_task queueId) tasks c)).
Proof.
  revert c. induction tasks as [|a rest IH]; intros c Hnd Hin; [by apply elem_of_nil in Hin|].
  simpl in *. apply NoDup_cons in Hnd as [Hfresh Hnd].
  apply elem_of_cons in Hin as [->|Hin]; [|by apply IH].
  rewrite hGetAll_saveQueue_tasks_other.
  - rewrite hGetAll_saveQueue_task. apply hSet_has_fields, taskData_fields_NoDup.
  - intros t' Ht' Heq%task_key_inj. apply Hfresh. rewrite <- Heq.
    by apply list_elem_of_fmap_2.
Qed.

Lemma omap_loadTask (tasks : list QueueTask) (c : Client) :
  (forall t, t ∈ tasks -> loadTask_ (task_id t) c = Some t) ->
  omap (fun taskId => loadTask_ taskId c) (task_id <$> tasks) = tasks.
Proof.
  induction tasks as [|t rest IH]; intros H; simpl; [done|].
  rewrite H by left. f_equal. apply IH. intros t' Ht'. apply H. by right.
Qed.

(** The numbers of a task and of a queue that the store keeps as text:
    saveTask and saveQueue write them with [String], loadTask and loadQueue
    read them with [parseInt].  The two are inverse on the safe integers;
    a fraction is read back truncated and a number of 10^21 or more as its
    first digit. *)
Definition safe_onum (o : option Z) : bool :=
  if o is Some n then JS.isSafeInteger n else true.

Definition safe_task (t : QueueTask) : bool :=
  JS.isSafeInteger (task_priority t) && JS.isSafeInteger (task_retryCount t)
  && JS.isSafeInteger (task_maxRetries t) && JS.isSafeInteger (task_createdAt t)
  && safe_onum (task_startedAt t) && safe_onum (task_completedAt t).

Definition safe_queue (q : TaskQueue) : bool :=
  JS.isSafeInteger (queue_createdAt q) && safe_onum (queue_startedAt q)
  && safe_onum (queue_completedAt q) && forallb safe_task (queue_tasks q).

(** The queues saveQueue then loadQueue gives back: the ids are not
    empty, the tasks have distinct ids, and no optional timestamp is 0. *)
Definition storable_queue (q : TaskQueue) : Prop :=
  queue_id q <> "" /\
  storable (queue_startedAt q) /\ storable (queue_completedAt q) /\
  NoDup (task_id <$> queue_tasks q) /\
  Forall storable_task (queue_tasks q).

(** What loadQueue builds: the queue without its description. *)
Definition without_description (q : TaskQueue) : TaskQueue :=
  {| queue_id := queue_id q; queue_name := queue_name q; queue_description := None;
     queue_tasks := queue_tasks q; queue_settings := queue_settings q;
     queue_status := queue_status q; queue_createdAt := queue_createdAt q;
     queue_startedAt := queue_startedAt q; queue_completedAt := queue_completedAt q;
     queue_metrics := queue_metrics q |}.

Lemma loadQueue_saveQueue_ (q : TaskQueue) (c : Client) :
  storable_queue q ->
  lRange (KEYS.QUEUE_TASKS ++ queue_id q) c = [] ->
  loadQueue_ (queue_id q) (saveQueue_ q c) = Some (without_description q).
Proof.
  intros (Hid & Hstart & Hdone & Hnd & Htasks) Hfresh.
  unfold loadQueue_, saveQueue_.
  set (c1 := zAdd _ _ _ (hSet _ _ c)).
  set (c' := fold_left _ _ c1).
  assert (has_fields (queueData q) (hGetAll (KEYS.QUEUE ++ queue_id q) c')) as H.
  { unfold c'. rewrite hGetAll_saveQueue_tasks_other
      by (intros; apply task_key_not_queue_key).
    unfold c1. rewrite hGetAll_zAdd. apply hSet_has_fields, queueData_fields_NoDup. }
  assert (lRange (KEYS.QUEUE_TASKS ++ queue_id q) c' = task_id <$> queue_tasks q) as Hids.
  { unfold c'. rewrite lRange_saveQueue_tasks. unfold c1.
    by rewrite lRange_zAdd, lRange_hSet, Hfresh. }
  rewrite Hids.
  rewrite omap_loadTask; cycle 1.
  { intros t Ht. apply loadTask_has_fields.
    - by apply saveQueue_tasks_fields.
    - by eapply Forall_forall in Htasks. }
  set (h := hGetAll (KEYS.QUEUE ++ queue_id q) c') in *.
  field_of H "id". field_of H "name". field_of H "status". field_of H "createdAt".
  field_of H "startedAt". field_of H "completedAt". field_of H "settings".
  field_of H "metrics".
  rewrite (text_field_has h "id" (queue_id q)) by done. simpl.
  rewrite truthy_str_nonempty by done. simpl.
  rewrite (text_field_has h "name" (queue_name q)) by done. simpl.
  rewrite (text_field_has h "status" (queue_status_name (queue_status q))) by done. simpl.
  rewrite queue_status_of_name_name. simpl.
  unfold settings_field, metrics_field. rewrite Hfield5, Hfield6. simpl.
  rewrite (num_field_has h "createdAt" (queue_createdAt q)) by done. simpl.
  rewrite (opt_num_field_has h "startedAt" (queue_startedAt q)) by done. simpl.
  by rewrite (opt_num_field_has h "completedAt" (queue_completedAt q)) by done.
Qed.

Lemma loadQueue_absent (queueId : string) (c : Client) :
  hashes c !! (KEYS.QUEUE ++ queueId) = None -> loadQueue_ queueId c = None.
Proof.
  intros H. unfold loadQueue_, hGetAll. rewrite H. simpl.
  unfold text_field. by rewrite lookup_empty.
Qed.

(** updateTask writes the fields of [updateTask_data] and no other: a
    field passed as [undefined] keeps its stored value. *)
Lemma updateTask_keeps_other_fields (taskId field : string) (updates : TaskUpdates)
    (c : Client) :
  field ∉ (updateTask_data updates).*1 ->
  hGet (KEYS.TASK ++ taskId) field (updateTask_ taskId updates c)
  = hGet (KEYS.TASK ++ taskId) field c.
Proof.
  intros Hnot. unfold updateTask_, hGet. case_decide; [|done].
  rewrite hGetAll_hSet. apply lookup_union_r.
  by apply not_elem_of_list_to_map_1.
Qed.

Lemma updateTask_undefined_startedAt (taskId : string) (updates : TaskUpdates) (c : Client) :
  upd_startedAt updates = None ->
  hGet (KEYS.TASK ++ taskId) "startedAt" (updateTask_ taskId updates c)
  = hGet (KEYS.TASK ++ taskId) "startedAt" c.
Proof.
  intros H. apply updateTask_keeps_other_fields.
  unfold updateTask_data. rewrite H.
  destruct (upd_status updates), (upd_completedAt updates), (upd_result updates),
    (upd_error updates), (upd_retryCount updates); simpl;
    rewrite ?not_elem_of_cons; repeat split; try discriminate; apply not_elem_of_nil.
Qed.

End StoreFacts.

(** ** The round trip of a queue through the store *)

Module StoreClaims.
Import Redis Store StoreFacts.

(** X24: the first save of a queue.  Let [q] be a queue whose id and task
    ids are not empty, whose task ids are distinct, whose numbers are safe
    integers and whose optional timestamps are not 0, and let the store
    have a client and hold no task list under [q]'s key.  Then saveQueue(q)
    followed by loadQueue(q.id) returns [q] without its description: the
    same id, name, status, settings, metrics, createdAt, startedAt and
    completedAt, and the same tasks in the same order.  loadQueue of an id
    under which the store holds no hash returns null. *)
Theorem saveQueue_then_loadQueue (q : TaskQueue) (store : RedisQueueStore) (c : Client) :
  client store = Some c ->
  storable_queue q ->
  safe_queue q = true ->
  lRange (KEYS.QUEUE_TASKS ++ queue_id q) c = [] ->
  loadQueue (queue_id q) (saveQueue q store) = Some (without_description q)
  /\ (forall absent,
        hashes c !! (KEYS.QUEUE ++ absent) = None -> loadQueue absent store = None).
Proof.
  intros Hc Hq _ Hfresh. split.
  - unfold loadQueue, saveQueue, with_client. rewrite Hc. simpl.
    by apply loadQueue_saveQueue_.
  - intros absent H. unfold loadQueue. rewrite Hc. simpl. by apply loadQueue_absent.
Qed.

Lemma storable_queue_Q : storable_queue StoreRuns.Q.
Proof.
  unfold storable_queue, storable, storable_task, storable. simpl.
  repeat split; try discriminate.
  - apply (bool_decide_unpack _). by vm_compute.
  - repeat constructor; simpl; discriminate.
Qed.

Lemma saveQueue_then_loadQueue_witness :
  loadQueue "Q" (saveQueue StoreRuns.Q StoreRuns.connected)
    = Some (without_description StoreRuns.Q)
  /\ (forall absent,
        hashes Redis.empty !! (KEYS.QUEUE ++ absent) = None ->
        loadQueue absent StoreRuns.connected = None).
Proof.
  apply (saveQueue_then_loadQueue StoreRuns.Q StoreRuns.connected Redis.empty).
  - reflexivity.
  - exact storable_queue_Q.
  - reflexivity.
  - reflexivity.
Defined.

End StoreClaims.

(** ** The scheduler loop (TaskScheduler.executeQueue and the code that
    runs between its suspensions)

    executeQueue is an async generator: it runs until it yields an event or
    awaits a timer, and other code runs only while it is suspended there.
    The state below is the scheduler object and the queue it works on, the
    background work the scheduler has set off (invocations that have not
    settled, retry timers that have not fired), the place where the
    generator is suspended, and the events it has yielded.

    [loop_step] runs the generator from one suspension to the next.  An
    [await] of a store command suspends the generator as well.  What a
    callback of the scheduler, or its pause(), resume() and stop(), change
    during such an await, the generator does not read before its next
    yield, so no separate place is kept for these awaits, except before
    the final test of [isStopped].  A handler that assigns to the task at
    hand during such an await is taken to run before the generator runs
    on, or after it has reached its yield.

    One scheduler executes the queue.  The other code that runs while the
    generator is suspended is the scheduler's own callbacks (a promise of
    startTask settles, a retry timer fires), its pause(), resume() and
    stop(), and the handlers that assign to the queue object when that is
    the object of the in-memory map. *)

Module Loop.
Import Redis Store Scheduler.

Definition Outcome : Type := TaskResult + TaskError.

(** Where the generator is suspended. *)
Inductive Place :=
| at_start
| at_loop_head                       (* after a sleep, before the [while] test *)
| at_pause_wait                      (* in [while (isPaused && !isStopped)] *)
| at_resumed                         (* after [yield queue_resumed] *)
| at_dispatch (rest : list nat)      (* after a yield of the dispatch loop;
                                        [rest]: the readyTasks still to start *)
| at_drain (yielded : string) (rest : list (string * Outcome))
                                     (* after a yield of the drain loop, before
                                        [completedResults.delete(taskId)] *)
| at_final_sleep                     (* in the last [while], asleep *)
| at_final_drain (yielded : string) (rest : list (string * Outcome))
| at_final_event (metrics : TaskQueueMetrics)
                                     (* awaiting updateQueueMetrics *)
| finished.

Record State := {
  queue : TaskQueue;
  runningTasks : gset string;                   (* the keys of the map *)
  completedResults : list (string * Outcome);   (* in insertion order *)
  isPaused : bool;
  isStopped : bool;
  isRedisConnected : bool;
  redisStore : RedisQueueStore;
  inflight : list string;      (* task ids whose invocation has not settled *)
  timers : list nat;           (* positions of the tasks with a retry timer *)
  place : Place;
  emitted : list TaskQueueEvent }.

(** A scheduler from createTaskScheduler, about to run executeQueue. *)
Definition init (q : TaskQueue) (connected : bool) (store : RedisQueueStore) : State :=
  {| queue := q; runningTasks := ∅; completedResults := [];
     isPaused := false; isStopped := false;
     isRedisConnected := connected; redisStore := store;
     inflight := []; timers := []; place := at_start; emitted := [] |}.

Definition tasks (s : State) : list QueueTask := queue_tasks (queue s).

(** *** Assignments *)

Definition set_queue (q : TaskQueue) (s : State) : State :=
  {| queue := q; runningTasks := runningTasks s;
     completedResults := completedResults s; isPaused := isPaused s;
     isStopped := isStopped s; isRedisConnected := isRedisConnected s;
     redisStore := redisStore s; inflight := inflight s; timers := timers s;
     place := place s; emitted := emitted s |}.

Definition set_runningTasks (r : gset string) (s : State) : State :=
  {| queue := queue s; runningTasks := r;
     completedResults := completedResults s; isPaused := isPaused s;
     isStopped := isStopped s; isRedisConnected := isRedisConnected s;
     redisStore := redisStore s; inflight := inflight s; timers := timers s;
     place := place s; emitted := emitted s |}.

Definition set_completedResults (c : list (string * Outcome)) (s : State) : State :=
  {| queue := queue s; runningTasks := runningTasks s;
     completedResults := c; isPaused := isPaused s;
     isStopped := isStopped s; isRedisConnected := isRedisConnected s;
     redisStore := redisStore s; inflight := inflight s; timers := timers s;
     place := place s; emitted := emitted s |}.

Definition set_flags (paused stopped : bool) (s : State) : State :=
  {| queue := queue s; runningTasks := runningTasks s;
     completedResults := completedResults s; isPaused := paused;
     isStopped := stopped; isRedisConnected := isRedisConnected s;
     redisStore := redisStore s; inflight := inflight s; timers := timers s;
     place := place s; emitted := emitted s |}.

Definition set_inflight (l : list string) (s : State) : State :=
  {| queue := queue s; runningTasks := runningTasks s;
     completedResults := completedResults s; isPaused := isPaused s;
     isStopped := isStopped s; isRedisConnected := isRedisConnected s;
     redisStore := redisStore s; inflight := l; timers := timers s;
     place := place s; emitted := emitted s |}.

Definition set_timers (l : list nat) (s : State) : State :=
  {| queue := queue s; runningTasks := runningTasks s;
     completedResults := completedResults s; isPaused := isPaused s;
     isStopped := isStopped s; isRedisConnected := isRedisConnected s;
     redisStore := redisStore s; inflight := inflight s; timers := l;
     place := place s; emitted := emitted s |}.

Definition set_place (p : Place) (s : State) : State :=
  {| queue := queue s; runningTasks := runningTasks s;
     completedResults := completedResults s; isPaused := isPaused s;
     isStopped := isStopped s; isRedisConnected := isRedisConnected s;
     redisStore := redisStore s; inflight := inflight s; timers := timers s;
     place := p; emitted := emitted s |}.

(** [yield event] (and, with Redis, [publishEvent] before it: a published
    event is not stored). *)
Definition emit (event : TaskQueueEvent) (s : State) : State :=
  {| queue := queue s; runningTasks := runningTasks s;
     completedResults := completedResults s; isPaused := isPaused s;
     isStopped := isStopped s; isRedisConnected := isRedisConnected s;
     redisStore := redisStore s; inflight := inflight s; timers := timers s;
     place := place s; emitted := (emitted s ++ [event])%list |}.

(** [if (this.isRedisConnected) await this.redisStore.command(...)] *)
Definition redis (command : RedisQueueStore -> RedisQueueStore) (s : State) : State :=
  {| queue := queue s; runningTasks := runningTasks s;
     completedResults := completedResults s; isPaused := isPaused s;
     isStopped := isStopped s; isRedisConnected := isRedisConnected s;
     redisStore := (if isRedisConnected s then command (redisStore s) else redisStore s);
     inflight := inflight s; timers := timers s;
     place := place s; emitted := emitted s |}.

(** An assignment to fields of the task object at position [i]. *)
Definition update_task (i : nat) (f : QueueTask -> QueueTask) (s : State) : State :=
  set_queue (Api.with_tasks (queue s) (alter f i (tasks s))) s.

(** The fields the loop assigns. *)
Definition assign (status : TaskStatus) (retryCount maxRetries : option Z)
    (startedAt completedAt : option Z) (result : option TaskResult)
    (error : option TaskError) (t : QueueTask) : QueueTask :=
  {| task_id := task_id t; task_agentId := task_agentId t;
     task_message := task_message t;
     task_status := status;
     task_priority := task_priority t;
     task_estimatedComplexity := task_estimatedComplexity t;
     task_retryCount := default (task_retryCount t) retryCount;
     task_maxRetries := default (task_maxRetries t) maxRetries;
     task_createdAt := task_createdAt t;
     task_startedAt := if startedAt is Some _ then startedAt else task_startedAt t;
     task_completedAt := if completedAt is Some _ then completedAt else task_completedAt t;
     task_result := if result is Some _ then result else task_result t;
     task_error := if error is Some _ then error else task_error t;
     task_metadata := task_metadata t |}.

(** [map.set(key, value)]: a key the map holds keeps its place. *)
Fixpoint map_set (key : string) (value : Outcome) (m : list (string * Outcome))
  : list (string * Outcome) :=
  match m with
  | [] => [(key, value)]
  | (k, v) :: rest =>
      if String.eqb k key then (k, value) :: rest
      else (k, v) :: map_set key value rest
  end.

(** [map.delete(key)] *)
Definition map_delete (key : string) (m : list (string * Outcome))
  : list (string * Outcome) :=
  filter (fun kv => fst kv <> key) m.

(** One occurrence of [x] leaves the list. *)
Fixpoint remove_one {A} `{EqDecision A} (x : A) (l : list A) : list A :=
  match l with
  | [] => []
  | y :: rest => if decide (x = y) then rest else y :: remove_one x rest
  end.

(** [queue.tasks.find((t) => t.id === taskId)] as a position. *)
Definition find_index (taskId : string) (l : list QueueTask) : option nat :=
  fst <$> Api.find_task taskId l.

Section Run.

(** The injected agent lookup and the clock. *)
Variable getAgent : string -> option Invoker.Agent.

Definition queueId (s : State) : string := queue_id (queue s).
Definition settings (s : State) : TaskQueueSettings := queue_settings (queue s).

(** startTask, and the store calls and the yield that follow it.  [now]
    stands for the clock from one suspension of the generator to the next:
    startTask reads it for [task.startedAt], and the loop reads it once
    more, after the await of markAgentBusy, for the startedAt it sends to
    the store. *)
Definition start_task (now : Z) (i : nat) (task : QueueTask) (s : State) : State :=
  let s := update_task i (assign in_progress None (Some (retryCount (settings s)))
                                  (Some now) None None None) s in
  let s := set_runningTasks ({[task_id task]} ∪ runningTasks s) s in
  let s := set_inflight (task_id task :: inflight s) s in
  let s := redis (markAgentBusy (task_agentId task)) s in
  let s := redis (updateTask (task_id task)
                    {| upd_status := Some in_progress; upd_startedAt := Some now;
                       upd_completedAt := None; upd_result := None;
                       upd_error := None; upd_retryCount := None |}) s in
  emit (task_started (queueId s) (task_id task) (task_agentId task)) s.

(** The [if (!agent)] branch of the dispatch loop. *)
Definition fail_unknown_agent (now : Z) (i : nat) (task : QueueTask) (s : State) : State :=
  let error :=
    {| error_type := execution;
       error_message := "Agent " ++ task_agentId task ++ " not found";
       error_retryable := false; error_occurredAt := now; error_stack := None |} in
  let s := update_task i (assign failed None None None None None (Some error)) s in
  emit (task_failed (queueId s) (task_id task) error) s.

(** One round of [for (const task of readyTasks)], up to its yield. *)
Definition dispatch (now : Z) (i : nat) (s : State) : State :=
  match tasks s !! i with
  | None => s
  | Some task =>
      match getAgent (task_agentId task) with
      | None => fail_unknown_agent now i task s
      | Some _ => start_task now i task s
      end
  end.

(** The three branches of the drain loop of the main [while], each up to
    its yield. *)
Definition complete_task (now : Z) (i : nat) (task : QueueTask) (result : TaskResult)
    (s : State) : State :=
  let s := update_task i (assign completed None None None (Some now) (Some result) None) s in
  let s := redis (updateTask (task_id task)
                    {| upd_status := Some completed; upd_startedAt := None;
                       upd_completedAt := Some now; upd_result := Some result;
                       upd_error := None; upd_retryCount := None |}) s in
  emit (task_completed (queueId s) (task_id task) result) s.

Definition retry_task (i : nat) (task : QueueTask) (s : State) : State :=
  let retryCount := (task_retryCount task + 1)%Z in
  let s := update_task i (assign retrying (Some retryCount) None None None None None) s in
  let s := redis (updateTask (task_id task)
                    {| upd_status := Some retrying; upd_startedAt := None;
                       upd_completedAt := None; upd_result := None;
                       upd_error := None; upd_retryCount := Some retryCount |}) s in
  let s := set_timers (i :: timers s) s in
  emit (task_retrying (queueId s) (task_id task) retryCount (task_maxRetries task)) s.

Definition fail_task (now : Z) (i : nat) (task : QueueTask) (error : TaskError)
    (s : State) : State :=
  let s := update_task i (assign failed None None None (Some now) None (Some error)) s in
  let s := redis (updateTask (task_id task)
                    {| upd_status := Some failed; upd_startedAt := None;
                       upd_completedAt := Some now; upd_result := None;
                       upd_error := Some error; upd_retryCount := None |}) s in
  emit (task_failed (queueId s) (task_id task) error) s.

Definition settle (now : Z) (i : nat) (task : QueueTask) (outcome : Outcome)
    (s : State) : State :=
  let s := redis (markAgentAvailable (task_agentId task)) s in
  match outcome with
  | inl result => complete_task now i task result s
  | inr error =>
      if error_retryable error && (task_retryCount task <? task_maxRetries task)%Z
      then retry_task i task s
      else fail_task now i task error s
  end.

(** The branches of the drain loop of the last [while]: no store call, no
    retry. *)
Definition settle_final (now : Z) (i : nat) (task : QueueTask) (outcome : Outcome)
    (s : State) : State :=
  match outcome with
  | inl result =>
      let s := update_task i (assign completed None None None (Some now) (Some result) None) s in
      emit (task_completed (queueId s) (task_id task) result) s
  | inr error =>
      let s := update_task i (assign failed None None None (Some now) None (Some error)) s in
      emit (task_failed (queueId s) (task_id task) error) s
  end.

(** The end of executeQueue, from the test of [isStopped]. *)
Definition final_event (now : Z) (metrics : TaskQueueMetrics) (s : State) : State :=
  let q := queue s in
  let s :=
    if isStopped s then
      let s := redis (updateQueueStatus (queueId s) q_failed None) s in
      emit (queue_failed (queueId s) "Queue was stopped") s
    else if decide (0 < failedTasks metrics) then
      let s := set_queue
                 {| queue_id := queue_id q; queue_name := queue_name q;
                    queue_description := queue_description q;
                    queue_tasks := queue_tasks q; queue_settings := queue_settings q;
                    queue_status := q_failed; queue_createdAt := queue_createdAt q;
                    queue_startedAt := queue_startedAt q;
                    queue_completedAt := queue_completedAt q;
                    queue_metrics := queue_metrics q |} s in
      let s := redis (updateQueueStatus (queueId s) q_failed None) s in
      emit (queue_failed (queueId s)
              (JS.to_String (Z.of_nat (failedTasks metrics)) ++ " task(s) failed")) s
    else
      let s := set_queue
                 {| queue_id := queue_id q; queue_name := queue_name q;
                    queue_description := queue_description q;
                    queue_tasks := queue_tasks q; queue_settings := queue_settings q;
                    queue_status := q_completed; queue_createdAt := queue_createdAt q;
                    queue_startedAt := queue_startedAt q;
                    queue_completedAt := Some now;
                    queue_metrics := queue_metrics q |} s in
      let s := redis (updateQueueStatus (queueId s) q_completed (Some now)) s in
      emit (queue_completed (queueId s) metrics) s in
  set_place finished s.

(** [const metrics = this.calculateMetrics(queue); queue.metrics = metrics;]
    and the store call. *)
Definition final_metrics (now : Z) (s : State) : State :=
  let q := queue s in
  let metrics := calculateMetrics q in
  let s := set_queue
             {| queue_id := queue_id q; queue_name := queue_name q;
                queue_description := queue_description q;
                queue_tasks := queue_tasks q; queue_settings := queue_settings q;
                queue_status := queue_status q; queue_createdAt := queue_createdAt q;
                queue_startedAt := queue_startedAt q;
                queue_completedAt := queue_completedAt q;
                queue_metrics := metrics |} s in
  if isRedisConnected s
  then set_place (at_final_event metrics) (redis (updateQueueMetrics (queueId s) metrics) s)
  else final_event now metrics s.

(** The test of the last [while]. *)
Definition final_head (now : Z) (s : State) : State :=
  if bool_decide (0 < size (runningTasks s)) && negb (isStopped s)
  then set_place at_final_sleep s
  else final_metrics now s.

(** The drain loop of the last [while], from an entry of the snapshot to
    the next yield. *)
Fixpoint final_drain (now : Z) (entries : list (string * Outcome)) (s : State) : State :=
  match entries with
  | [] => final_head now s
  | (taskId, outcome) :: rest =>
      match find_index taskId (tasks s) with
      | None => final_drain now rest s                    (* continue *)
      | Some i =>
          match tasks s !! i with
          | None => s
          | Some task =>
              set_place (at_final_drain taskId rest) (settle_final now i task outcome s)
          end
      end
  end.

(** The drain loop of the main [while]; after the last entry the loop
    sleeps 50 ms. *)
Fixpoint drain (now : Z) (entries : list (string * Outcome)) (s : State) : State :=
  match entries with
  | [] => set_place at_loop_head s
  | (taskId, outcome) :: rest =>
      match find_index taskId (tasks s) with
      | None => drain now rest s                          (* continue *)
      | Some i =>
          match tasks s !! i with
          | None => s
          | Some task => set_place (at_drain taskId rest) (settle now i task outcome s)
          end
      end
  end.

(** The dispatch loop from its next round; after the last round the drain
    loop starts on a snapshot of [completedResults]. *)
Definition dispatch_next (now : Z) (ready : list nat) (s : State) : State :=
  match ready with
  | [] => drain now (completedResults s) s
  | i :: rest => set_place (at_dispatch rest) (dispatch now i s)
  end.

(** From [getReadyTasks] on. *)
Definition select (now : Z) (s : State) : State :=
  let readyTasks :=
    fst <$> getReadyTasks (size (runningTasks s)) (tasks s) (maxConcurrency (settings s)) in
  match readyTasks with
  | [] =>
      if bool_decide (0 < size (runningTasks s))
      then set_place at_loop_head s          (* sleep 100 ms; continue *)
      else final_head now s                  (* break *)
  | _ => dispatch_next now readyTasks s
  end.

(** The test of the main [while] and the pause gate. *)
Definition loop_head (now : Z) (s : State) : State :=
  if hasWorkRemaining (tasks s) && negb (isStopped s) then
    if isPaused s
    then set_place at_pause_wait (emit (queue_paused (queueId s)) s)
    else select now s
  else final_head now s.

(** executeQueue up to [yield startEvent]. *)
Definition start (now : Z) (s : State) : State :=
  let s := set_flags false false s in
  let s := set_runningTasks ∅ s in
  let s := set_completedResults [] s in
  let s := redis (updateQueueStatus (queueId s) running (Some now)) s in
  set_place at_loop_head (emit (queue_started (queueId s)) s).

(** The generator resumes and runs to its next suspension. *)
Definition loop_step (now : Z) (s : State) : State :=
  match place s with
  | at_start => start now s
  | at_loop_head => loop_head now s
  | at_pause_wait =>
      if isPaused s && negb (isStopped s) then s             (* sleep 100 ms *)
      else if isStopped s then final_head now s              (* break *)
      else set_place at_resumed (emit (queue_resumed (queueId s)) s)
  | at_resumed => select now s
  | at_dispatch rest => dispatch_next now rest s
  | at_drain taskId rest =>
      drain now rest (set_completedResults (map_delete taskId (completedResults s)) s)
  | at_final_sleep => final_drain now (completedResults s) s
  | at_final_drain taskId rest =>
      final_drain now rest
        (set_completedResults (map_delete taskId (completedResults s)) s)
  | at_final_event metrics => final_event now metrics s
  | finished => s
  end.

(** *** What runs while the generator is suspended *)

(** The promise of startTask settles: its [then] or [catch] callback. *)
Definition settled (taskId : string) (outcome : Outcome) (s : State) : State :=
  let s := set_inflight (remove_one taskId (inflight s)) s in
  let s := set_runningTasks (runningTasks s ∖ {[taskId]}) s in
  set_completedResults (map_set taskId outcome (completedResults s)) s.

(** A retry timer fires. *)
Definition timer_fires (i : nat) (s : State) : State :=
  let s := set_timers (remove_one i (timers s)) s in
  let s := update_task i (assign pending None None None None None None) s in
  match tasks s !! i with
  | Some task => redis (requeueTask (queueId s) (task_id task)) s
  | None => s
  end.

(** [pause()], [resume()], [stop()] *)
Definition pause (s : State) : State := set_flags true (isStopped s) s.
Definition resume (s : State) : State := set_flags false (isStopped s) s.
Definition stop (s : State) : State := set_runningTasks ∅ (set_flags false true s).

(** handleRetryTask (handlers/taskQueue.ts, lines 355-400) called for the
    queue while the generator is suspended.  When the handler takes the
    queue from its [queues] map (Redis is not available, or has no row for
    the queue), that is the object executeQueue iterates: the six
    assignments of the handler change the task the generator sees.  The
    handler finds the task by its id and answers 404 when the queue has
    none.  (A handler that finds the queue in Redis assigns to a copy it
    has loaded from the store, and its call is no step of the
    scheduler.) *)
Definition handler_retry (taskId : string) (s : State) : State :=
  match Api.find_task taskId (tasks s) with
  | Some (i, _) => update_task i Api.reset_for_retry s
  | None => s
  end.

(** handleStartQueue, handlePauseQueue and handleResumeQueue
    (handlers/taskQueue.ts, lines 243-350) called for the queue while the
    generator is suspended: the assignment [queue.status = status], and
    [queue.startedAt = Date.now()] in handleStartQueue, to the queue
    object of the map.  (The calls of [scheduler.pause()] and
    [scheduler.resume()] by the handlers are the steps [pause] and
    [resume].) *)
Definition handler_status (status : QueueStatus) (startedAt : option Z) (s : State) : State :=
  let q := queue s in
  set_queue
    {| queue_id := queue_id q; queue_name := queue_name q;
       queue_description := queue_description q;
       queue_tasks := queue_tasks q; queue_settings := queue_settings q;
       queue_status := status; queue_createdAt := queue_createdAt q;
       queue_startedAt := if startedAt is Some _ then startedAt else queue_startedAt q;
       queue_completedAt := queue_completedAt q;
       queue_metrics := queue_metrics q |} s.

(** The steps of the scheduler itself, of the promises and timers it has
    set off, of its pause(), resume() and stop(), and of the handlers that
    assign the status of the queue. *)
Inductive own_step : State -> State -> Prop :=
| step_loop now s : own_step s (loop_step now s)
| step_settled taskId outcome s :
    taskId ∈ inflight s -> own_step s (settled taskId outcome s)
| step_timer i s :
    i ∈ timers s -> own_step s (timer_fires i s)
| step_pause s : own_step s (pause s)
| step_resume s : own_step s (resume s)
| step_stop s : own_step s (stop s)
| step_status status startedAt s : own_step s (handler_status status startedAt s).

(** Every step: the scheduler's own, and a call of the retry handler. *)
Inductive step : State -> State -> Prop :=
| step_own s s' : own_step s s' -> step s s'
| step_retry taskId s : step s (handler_retry taskId s).

Definition reachable (s0 : State) : State -> Prop := rtc step s0.

(** The states of an execution during which nothing but the scheduler
    assigns to the tasks of the queue: the retry handler is not called for
    it. *)
Definition undisturbed (s0 : State) : State -> Prop := rtc own_step s0.

Lemma undisturbed_reachable (s0 s : State) : undisturbed s0 s -> reachable s0 s.
Proof.
  intros H. induction H as [|s1 s2 s3 Hstep _ IH]; [apply rtc_refl|].
  eapply rtc_l; [by apply step_own|done].
Qed.

End Run.

End Loop.

(** ** Runs of the scheduler: a schedule of what happens, in order *)

Module Runs.
Import Scheduler Loop.

Inductive Action :=
| resumes (now : Z)                              (* the generator runs on *)
| settles (taskId : string) (outcome : Outcome)  (* an invocation settles *)
| fires (i : nat)                                (* a retry timer fires *)
| pauses
| unpauses
| stops
| assigns (status : QueueStatus) (startedAt : option Z)
                                                 (* a handler assigns the status *)
| retries (taskId : string).                     (* the retry handler is called *)

Section Schedule.

Variable getAgent : string -> option Invoker.Agent.

Definition perform (s : State) (a : Action) : State :=
  match a with
  | resumes now => loop_step getAgent now s
  | settles taskId outcome => settled taskId outcome s
  | fires i => timer_fires i s
  | pauses => pause s
  | unpauses => resume s
  | stops => stop s
  | assigns status startedAt => handler_status status startedAt s
  | retries taskId => handler_retry taskId s
  end.

(** An invocation that settles has been set off, and a timer that fires
    has been set. *)
Definition enabled (s : State) (a : Action) : bool :=
  match a with
  | settles taskId _ => bool_decide (taskId ∈ inflight s)
  | fires i => bool_decide (i ∈ timers s)
  | _ => true
  end.

Definition run (schedule : list Action) (s : State) : State :=
  fold_left perform schedule s.

Fixpoint possible (schedule : list Action) (s : State) : bool :=
  match schedule with
  | [] => true
  | a :: rest => enabled s a && possible rest (perform s a)
  end.

(** The schedule does not call the retry handler. *)
Definition own (a : Action) : bool :=
  match a with retries _ => false | _ => true end.

Lemma run_reachable (schedule : list Action) (s : State) :
  possible schedule s = true -> reachable getAgent s (run schedule s).
Proof.
  revert s. induction schedule as [|a rest IH]; intros s H; simpl in *.
  - apply rtc_refl.
  - apply andb_true_iff in H as [Ha Hrest].
    eapply rtc_l; [|by apply IH].
    destruct a; simpl in *; try (apply step_own; constructor);
      try by apply bool_decide_eq_true in Ha.
    apply step_retry.
Qed.

Lemma run_undisturbed (schedule : list Action) (s : State) :
  forallb own schedule = true -> possible schedule s = true ->
  undisturbed getAgent s (run schedule s).
Proof.
  revert s. induction schedule as [|a rest IH]; intros s Hown H; simpl in *.
  - apply rtc_refl.
  - apply andb_true_iff in H as [Ha Hrest]. apply andb_true_iff in Hown as [Hoa Hor].
    eapply rtc_l; [|by apply IH].
    destruct a; simpl in *; try discriminate; constructor;
      by apply bool_decide_eq_true in Ha.
Qed.

End Schedule.

End Runs.

(** ** The retry counter of a task stays within its bound *)

Module RetryBound.
Import Scheduler Loop.

(** The retry counter is within [0 .. maxRetries], and [maxRetries] is the
    queue's [settings.retryCount], which startTask assigns to it. *)
Definition bounded (limit : Z) (t : QueueTask) : Prop :=
  (0 <= task_retryCount t)%Z /\ (task_retryCount t <= task_maxRetries t)%Z /\
  task_maxRetries t = limit.

Definition Bounded (s : State) : Prop :=
  Forall (bounded (retryCount (settings s))) (tasks s).

Lemma Bounded_same_queue (s s' : State) :
  tasks s' = tasks s -> settings s' = settings s -> Bounded s -> Bounded s'.
Proof. unfold Bounded. by intros -> ->. Qed.

Lemma Bounded_update_task (i : nat) (f : QueueTask -> QueueTask) (s : State) :
  (forall t, tasks s !! i = Some t ->
             bounded (retryCount (settings s)) t ->
             bounded (retryCount (settings s)) (f t)) ->
  Bounded s -> Bounded (update_task i f s).
Proof. intros Hf H. unfold Bounded, update_task. simpl. by apply Forall_alter. Qed.

(** Assignments that leave the two counters alone. *)
Lemma bounded_assign_status (limit : Z) (status : TaskStatus)
    (startedAt completedAt : option Z) (result : option TaskResult)
    (error : option TaskError) (t : QueueTask) :
  bounded limit t ->
  bounded limit (assign status None None startedAt completedAt result error t).
Proof. done. Qed.

Section Preservation.

Variable getAgent : string -> option Invoker.Agent.

Ltac same_queue := eapply Bounded_same_queue; [reflexivity|reflexivity|].

Lemma Bounded_start_task now i task s : Bounded s -> Bounded (start_task now i task s).
Proof.
  intros H. unfold start_task. same_queue.
  apply Bounded_update_task; [|done].
  intros t _ (H0 & Hle & Hmax). unfold bounded. simpl. lia.
Qed.

Lemma Bounded_fail_unknown_agent now i task s : Bounded s -> Bounded (fail_unknown_agent now i task s).
Proof.
  intros H. unfold fail_unknown_agent. same_queue.
  apply Bounded_update_task; [|done]. intros t _. apply bounded_assign_status.
Qed.

Lemma Bounded_dispatch now i s : Bounded s -> Bounded (dispatch getAgent now i s).
Proof.
  intros H. unfold dispatch. destruct (tasks s !! i) as [task|]; [|done].
  destruct (getAgent _); [by apply Bounded_start_task|by apply Bounded_fail_unknown_agent].
Qed.

Lemma Bounded_settle now i task outcome s :
  tasks s !! i = Some task -> Bounded s -> Bounded (settle now i task outcome s).
Proof.
  intros Hi H. unfold settle. destruct outcome as [result|error].
  - unfold complete_task. same_queue.
    apply Bounded_update_task; [|done]. intros t _. apply bounded_assign_status.
  - destruct (error_retryable error && _) eqn:E.
    + apply andb_true_iff in E as [_ E%Z.ltb_lt].
      unfold retry_task. same_queue.
      apply Bounded_update_task; [|done].
      intros t Ht (H0 & Hle & Hmax). unfold tasks in Hi, Ht. simpl in Ht.
      rewrite Hi in Ht. injection Ht as <-. unfold bounded. simpl. lia.
    + unfold fail_task. same_queue.
      apply Bounded_update_task; [|done]. intros t _. apply bounded_assign_status.
Qed.

Lemma Bounded_settle_final now i task outcome s : Bounded s -> Bounded (settle_final now i task outcome s).
Proof.
  intros H. unfold settle_final. destruct outcome as [result|error]; same_queue;
    (apply Bounded_update_task; [|done]); intros t _; apply bounded_assign_status.
Qed.

Lemma Bounded_final_event now metrics s : Bounded s -> Bounded (final_event now metrics s).
Proof.
  intros H. unfold final_event.
  destruct (isStopped s); [|case_decide]; by same_queue.
Qed.

Lemma Bounded_final_metrics now s : Bounded s -> Bounded (final_metrics now s).
Proof.
  intros H. unfold final_metrics.
  destruct (isRedisConnected s) eqn:E; simpl; rewrite ?E.
  - by same_queue.
  - apply Bounded_final_event. by same_queue.
Qed.

Lemma Bounded_final_head now s : Bounded s -> Bounded (final_head now s).
Proof.
  intros H. unfold final_head.
  destruct (_ && _); [by same_queue|by apply Bounded_final_metrics].
Qed.

Lemma Bounded_final_drain now entries s : Bounded s -> Bounded (final_drain now entries s).
Proof.
  revert s. induction entries as [|[taskId outcome] rest IH]; intros s H; simpl.
  - by apply Bounded_final_head.
  - destruct (find_index taskId (tasks s)) as [i|]; [|by apply IH].
    destruct (tasks s !! i) as [task|]; [|done].
    same_queue. by apply Bounded_settle_final.
Qed.

Lemma Bounded_drain now entries s : Bounded s -> Bounded (drain now entries s).
Proof.
  revert s. induction entries as [|[taskId outcome] rest IH]; intros s H; simpl.
  - by same_queue.
  - destruct (find_index taskId (tasks s)) as [i|]; [|by apply IH].
    destruct (tasks s !! i) as [task|] eqn:Hi; [|done].
    same_queue. by apply Bounded_settle.
Qed.

Lemma Bounded_dispatch_next now ready s : Bounded s -> Bounded (dispatch_next getAgent now ready s).
Proof.
  intros H. unfold dispatch_next. destruct ready as [|i rest].
  - by apply Bounded_drain.
  - same_queue. by apply Bounded_dispatch.
Qed.

Lemma Bounded_select now s : Bounded s -> Bounded (select getAgent now s).
Proof.
  intros H. unfold select. destruct (fst <$> _) as [|i rest].
  - case_bool_decide; [by same_queue|by apply Bounded_final_head].
  - by apply Bounded_dispatch_next.
Qed.

Lemma Bounded_loop_step now s : Bounded s -> Bounded (loop_step getAgent now s).
Proof.
  intros H. unfold loop_step. destruct (place s).
  - by same_queue.
  - unfold loop_head. destruct (_ && _); [|by apply Bounded_final_head].
    destruct (isPaused s); [by same_queue|by apply Bounded_select].
  - destruct (_ && _); [done|].
    destruct (isStopped s); [by apply Bounded_final_head|by same_queue].
  - by apply Bounded_select.
  - by apply Bounded_dispatch_next.
  - apply Bounded_drain. by same_queue.
  - by apply Bounded_final_drain.
  - apply Bounded_final_drain. by same_queue.
  - by apply Bounded_final_event.
  - done.
Qed.

Lemma Bounded_timer_fires i s : Bounded s -> Bounded (timer_fires i s).
Proof.
  intros H. unfold timer_fires.
  assert (Bounded (update_task i (assign pending None None None None None None)
                 (set_timers (remove_one i (timers s)) s))) as H'.
  { apply Bounded_update_task; [|by same_queue]. intros t _. apply bounded_assign_status. }
  destruct (tasks _ !! i); [by same_queue|done].
Qed.

(** The retry handler sets retryCount to 0 and leaves maxRetries alone. *)
Lemma Bounded_handler_retry taskId s : Bounded s -> Bounded (handler_retry taskId s).
Proof.
  intros H. unfold handler_retry.
  destruct (Api.find_task taskId (tasks s)) as [[i task]|]; [|done].
  apply Bounded_update_task; [|done].
  intros t _ (H0 & Hle & Hmax). unfold bounded. simpl. lia.
Qed.

Lemma Bounded_step s s' : step getAgent s s' -> Bounded s -> Bounded s'.
Proof.
  intros Hstep Hinv. destruct Hstep as [s s' Hown|taskId s].
  - destruct Hown.
    + by apply Bounded_loop_step.
    + by same_queue.
    + by apply Bounded_timer_fires.
    + by same_queue.
    + by same_queue.
    + by same_queue.
    + by same_queue.
  - by apply Bounded_handler_retry.
Qed.

Lemma Bounded_reachable s0 s : reachable getAgent s0 s -> Bounded s0 -> Bounded s.
Proof.
  intros Hreach H0. induction Hreach as [|s1 s2 s3 Hstep _ IH]; [done|].
  apply IH. by eapply Bounded_step.
Qed.

End Preservation.

End RetryBound.

(** ** Claims about the retry counter *)

Module RetryClaims.
Import Scheduler Loop Api RetryBound.

Lemma created_tasks_bounded (queueId : string) (taskIds : nat -> string) (now : Z)
    (settings : option PartialSettings) (inputs : list TaskInput) :
  (0 <= setting opt_retryCount 3 settings)%Z ->
  Forall (bounded (setting opt_retryCount 3 settings))
    (imap (fun index input =>
             create_task queueId now settings (taskIds index) index input) inputs).
Proof.
  intros H. apply Forall_forall. intros t (i & input & -> & _)%elem_of_lookup_imap.
  unfold bounded. simpl. lia.
Qed.

Lemma created_queue_Bounded (queueId : string) (taskIds : nat -> string) (now : Z)
    (body : CreateQueueRequest) (st : Api.State) (id : string) (queue given : TaskQueue)
    (connected : bool) (store : Store.RedisQueueStore) :
  fst (handleCreateQueue queueId taskIds now body st) = reply_created id queue ->
  queue_tasks given = queue_tasks queue ->
  queue_settings given = queue_settings queue ->
  (0 <= setting opt_retryCount 3 (body_settings body))%Z ->
  Bounded (init given connected store).
Proof.
  unfold handleCreateQueue. intros Hcreated Htasks Hsettings Hlimit.
  destruct (body_tasks body) as [inputs|]; [|done].
  destruct (_ || _); [done|]. simpl in Hcreated. injection Hcreated as <- <-.
  unfold Bounded, tasks, settings. simpl. rewrite Htasks, Hsettings. simpl.
  by apply created_tasks_bounded.
Qed.

Definition one_task (limit : Z) : CreateQueueRequest :=
  {| body_name := Some "one"; body_description := None;
     body_tasks := Some [StoreRuns.plain_input];
     body_settings := Some {| opt_maxConcurrency := None; opt_retryCount := Some limit;
                              opt_retryDelay := None; opt_timeoutPerTask := None |} |}.

Definition created_queue (r : Reply) : option TaskQueue :=
  if r is reply_created _ queue then Some queue else None.

(** C3, as stated, fails on the code: handleCreateQueue takes
    [settings.retryCount] from the request as it is, and for the value -1
    the task it creates has retryCount 0 and maxRetries -1. *)
Lemma created_task_exceeds_negative_maxRetries :
  (fun queue => (fun t => (task_retryCount t, task_maxRetries t)) <$> queue_tasks queue)
    <$> created_queue (fst (handleCreateQueue "q1" StoreRuns.task_ids 1000 (one_task (-1))
                              StoreRuns.no_store))
  = Some [(0, -1)%Z]
  /\ (0 <=? -1)%Z = false.
Proof. split; vm_compute; reflexivity. Qed.

(** C3 (amended): for every queue created by POST /api/queue from a request
    whose [settings.retryCount] is absent or an integer that is not
    negative, and every task [t] of it, [0 <= t.retryCount <= t.maxRetries]
    holds at every point during and after the execution of the scheduler,
    calls of the retry handler for the queue included: the task is created
    with retryCount 0, startTask sets maxRetries to the queue's setting,
    the retry handler sets retryCount to 0, and the retry branch, the only
    code that increments retryCount, is taken only when
    retryCount < maxRetries.  The queue [given] to executeQueue is the
    created queue, as the map holds it, or a copy with its tasks and
    settings, as loadQueue returns it. *)
Theorem retryCount_within_maxRetries
    (getAgent : string -> option Invoker.Agent)
    (queueId : string) (taskIds : nat -> string) (now : Z)
    (body : CreateQueueRequest) (st : Api.State) (id : string) (queue given : TaskQueue)
    (connected : bool) (store : Store.RedisQueueStore) (s : Loop.State) :
  fst (handleCreateQueue queueId taskIds now body st) = reply_created id queue ->
  queue_tasks given = queue_tasks queue ->
  queue_settings given = queue_settings queue ->
  (0 <= setting opt_retryCount 3 (body_settings body))%Z ->
  reachable getAgent (init given connected store) s ->
  forall t, t ∈ tasks s ->
    (0 <= task_retryCount t)%Z /\ (task_retryCount t <= task_maxRetries t)%Z.
Proof.
  intros Hcreated Htasks Hsettings Hlimit Hreach t Ht.
  pose proof (created_queue_Bounded _ _ _ _ _ _ _ _ connected store
                Hcreated Htasks Hsettings Hlimit) as H0.
  pose proof (Bounded_reachable getAgent _ _ Hreach H0) as H.
  unfold Bounded in H. eapply Forall_forall in H; [|exact Ht].
  destruct H as (? & ? & ?). done.
Qed.

Definition agents (agentId : string) : option Invoker.Agent :=
  if String.eqb agentId "A1" then Some InvokerClaims.agent_a else None.

Definition created_one : TaskQueue :=
  default StoreRuns.Q
    (created_queue (fst (handleCreateQueue "q1" StoreRuns.task_ids 1000 (one_task 2)
                           StoreRuns.no_store))).

Definition server_error : Outcome :=
  inr {| error_type := execution; error_message := "Agent A1 server error (503): ";
         error_retryable := true; error_occurredAt := 2000; error_stack := None |}.

(** The one task fails with a retryable error until its two retries are
    used up; then the retry handler is called for it. *)
Definition exhausting_run : list Runs.Action :=
  [Runs.resumes 1; Runs.resumes 2; Runs.settles "t0" server_error;
   Runs.resumes 3; Runs.resumes 4; Runs.fires 0;
   Runs.resumes 5; Runs.settles "t0" server_error;
   Runs.resumes 6; Runs.resumes 7].

Lemma retryCount_within_maxRetries_witness :
  (fun t => (task_retryCount t, task_maxRetries t))
    <$> tasks (Runs.run agents exhausting_run (init created_one false StoreRuns.connected))
  = [(2, 2)%Z]
  /\ Forall (fun t => (0 <= task_retryCount t)%Z /\ (task_retryCount t <= task_maxRetries t)%Z)
       (tasks (Runs.run agents (exhausting_run ++ [Runs.retries "t0"])
                 (init created_one false StoreRuns.connected))).
Proof.
  split; [vm_compute; reflexivity|].
  apply Forall_forall.
  apply (retryCount_within_maxRetries agents "q1" StoreRuns.task_ids 1000 (one_task 2)
           StoreRuns.no_store "q1" created_one created_one false StoreRuns.connected).
  - reflexivity.
  - reflexivity.
  - reflexivity.
  - vm_compute. discriminate.
  - apply Runs.run_reachable. vm_compute. reflexivity.
Defined.

End RetryClaims.

(** ** The events of one task *)

Module TaskEvents.
Import Scheduler Loop.
Local Open Scope list_scope.

Inductive Kind := k_started | k_retrying | k_completed | k_failed.

(** The task an event is about and its kind (task_progress is declared
    but never yielded). *)
Definition task_event (e : TaskQueueEvent) : option (string * Kind) :=
  match e with
  | task_started _ taskId _ => Some (taskId, k_started)
  | task_retrying _ taskId _ _ => Some (taskId, k_retrying)
  | task_completed _ taskId _ => Some (taskId, k_completed)
  | task_failed _ taskId _ => Some (taskId, k_failed)
  | _ => None
  end.

Definition kind_for (taskId : string) (e : TaskQueueEvent) : option Kind :=
  match task_event e with
  | Some (id, k) => if String.eqb id taskId then Some k else None
  | None => None
  end.

(** The emitted sequence restricted to one task. *)
Definition events_of (taskId : string) (events : list TaskQueueEvent) : list Kind :=
  omap (kind_for taskId) events.

Definition is_terminal (k : Kind) : bool :=
  match k with k_completed | k_failed => true | _ => false end.

(** The sequence the specification states (section 4.3): one
    task_started, then task_retrying events, then one terminal event. *)
Fixpoint retries_then_terminal (kinds : list Kind) : bool :=
  match kinds with
  | [k] => is_terminal k
  | k_retrying :: rest => retries_then_terminal rest
  | _ => false
  end.

Definition stated_sequence (kinds : list Kind) : bool :=
  match kinds with
  | k_started :: rest => retries_then_terminal rest
  | _ => false
  end.

(** How far a task has come, read off its events.  [known] tells whether
    the agent lookup finds the task's agent. *)
Inductive Phase := ph_idle | ph_started | ph_retried | ph_done | ph_bad.

#[global] Instance Phase_eq_dec : EqDecision Phase.
Proof. solve_decision. Defined.

Definition next (known : bool) (p : Phase) (k : Kind) : Phase :=
  match p, k with
  | ph_idle, k_started => if known then ph_started else ph_bad
  | ph_idle, k_failed => if known then ph_bad else ph_done
  | ph_started, k_retrying => ph_retried
  | ph_started, k_completed => ph_done
  | ph_started, k_failed => ph_done
  | ph_retried, k_started => ph_started
  | _, _ => ph_bad
  end.

Definition phase (known : bool) (kinds : list Kind) : Phase :=
  fold_left (next known) kinds ph_idle.

(** The sequences of attempts: every attempt opens with task_started and
    is closed by at most one of task_retrying, task_completed and
    task_failed; only task_retrying is followed by a further attempt; a task
    whose agent is unknown has no attempt and at most the one task_failed. *)
Definition attempts (known : bool) (kinds : list Kind) : Prop :=
  phase known kinds <> ph_bad.

(** *** The shape of a sequence of attempts *)

Lemma phase_app (known : bool) (l k : list Kind) :
  phase known (l ++ k) = fold_left (next known) k (phase known l).
Proof. unfold phase. apply fold_left_app. Qed.

Lemma phase_snoc (known : bool) (l : list Kind) (k : Kind) :
  phase known (l ++ [k]) = next known (phase known l) k.
Proof. by rewrite phase_app. Qed.

Lemma bad_is_sink (known : bool) (l : list Kind) :
  fold_left (next known) l ph_bad = ph_bad.
Proof. induction l as [|k l IH]; [done|]. simpl. destruct k; exact IH. Qed.

Lemma done_is_final (known : bool) (l : list Kind) :
  fold_left (next known) l ph_done <> ph_bad -> l = [].
Proof.
  destruct l as [|k l]; [done|]. simpl.
  replace (next known ph_done k) with ph_bad by by destruct k.
  by rewrite bad_is_sink.
Qed.

Lemma attempts_prefix (known : bool) (l k : list Kind) :
  attempts known (l ++ k) -> attempts known l.
Proof.
  unfold attempts. rewrite phase_app. intros H Hbad. apply H.
  rewrite Hbad. apply bad_is_sink.
Qed.

Lemma terminal_gives_done (known : bool) (p : Phase) (k : Kind) :
  is_terminal k = true -> next known p k <> ph_bad -> next known p k = ph_done.
Proof. destruct p, k, known; simpl; congruence. Qed.

(** A terminal event is the last event of its task. *)
Lemma attempts_terminal_last (known : bool) (l l' : list Kind) (k : Kind) :
  attempts known (l ++ k :: l') -> is_terminal k = true -> l' = [].
Proof.
  intros H Hk.
  assert (attempts known (l ++ [k])) as Hpre.
  { apply (attempts_prefix known (l ++ [k]) l'). by rewrite <- app_assoc. }
  unfold attempts in *. rewrite phase_snoc in Hpre.
  pose proof (terminal_gives_done known _ k Hk Hpre) as Hdone.
  replace (l ++ k :: l') with ((l ++ [k]) ++ l') in H by by rewrite <- app_assoc.
  rewrite phase_app, phase_snoc, Hdone in H. by eapply done_is_final.
Qed.

(** At most one terminal event. *)
Lemma attempts_one_terminal (known : bool) (l : list Kind) :
  attempts known l -> length (filter (fun k => is_terminal k = true) l) <= 1.
Proof.
  induction l as [|k l IH] using rev_ind; intros H; [simpl; lia|].
  rewrite filter_app, length_app. rewrite !filter_cons, filter_nil.
  case_decide as Hk; simpl; [|rewrite Nat.add_0_r; apply IH; by eapply attempts_prefix].
  assert (filter (fun k => is_terminal k = true) l = []) as ->; [|simpl; lia].
  destruct (filter _ l) as [|k' rest] eqn:E; [done|].
  assert (k' ∈ filter (fun k => is_terminal k = true) l) as Hin by (rewrite E; left).
  apply list_elem_of_filter in Hin as [Hk' (l1 & l2 & ->)%list_elem_of_split].
  rewrite <- app_assoc in H. simpl in H.
  apply attempts_terminal_last in H; [|done]. by destruct l2.
Qed.

(** With a known agent the first event is task_started. *)
Lemma attempts_first_started (k : Kind) (l : list Kind) :
  attempts true (k :: l) -> k = k_started.
Proof.
  unfold attempts, phase. simpl. destruct k; [done| | |]; simpl;
    rewrite bad_is_sink; congruence.
Qed.

(** With an unknown agent the only event is one task_failed. *)
Lemma attempts_unknown (l : list Kind) :
  attempts false l -> l = [] \/ l = [k_failed].
Proof.
  unfold attempts, phase. destruct l as [|k l]; [by left|]. simpl.
  destruct k; simpl; rewrite ?bad_is_sink; try congruence.
  intros ->%done_is_final. by right.
Qed.

(** task_retrying, task_completed and, with a known agent, task_failed
    directly follow the task_started of their attempt; task_started opens
    the sequence or directly follows a task_retrying. *)
Lemma attempts_predecessor (known : bool) (l l' : list Kind) (k' k : Kind) :
  attempts known (l ++ k' :: k :: l') ->
  match k with
  | k_started => k' = k_retrying
  | _ => k' = k_started
  end.
Proof.
  intros H.
  assert (attempts known ((l ++ [k']) ++ [k])) as Hpre.
  { apply (attempts_prefix known _ l'). by rewrite <- !app_assoc. }
  unfold attempts in Hpre. rewrite !phase_snoc in Hpre.
  destruct (phase known l), k', k, known; simpl in Hpre; congruence.
Qed.

End TaskEvents.

(** ** The events of every task form a sequence of attempts *)

Module Attempts.
Import Scheduler Loop TaskEvents.
Local Open Scope list_scope.

Section Invariant.

Variable getAgent : string -> option Invoker.Agent.

(** Whether the lookup finds the agent of a task. *)
Definition known (t : QueueTask) : bool :=
  if getAgent (task_agentId t) is Some _ then true else false.

(** The phase of a task after the events [evs]. *)
Definition ph (evs : list TaskQueueEvent) (t : QueueTask) : Phase :=
  phase (known t) (events_of (task_id t) evs).

(** An update of the task object that leaves its id and its agent alone. *)
Definition same_task (f : QueueTask -> QueueTask) : Prop :=
  forall t, task_id (f t) = task_id t /\ task_agentId (f t) = task_agentId t.

Lemma same_task_assign status retryCount maxRetries startedAt completedAt result error :
  same_task (assign status retryCount maxRetries startedAt completedAt result error).
Proof. done. Qed.

Lemma ph_same_task (f : QueueTask -> QueueTask) (evs : list TaskQueueEvent) (t : QueueTask) :
  same_task f -> ph evs (f t) = ph evs t.
Proof. intros H. destruct (H t) as [Hid Hagent]. unfold ph, known. by rewrite Hid, Hagent. Qed.

Lemma events_of_snoc (taskId : string) (evs : list TaskQueueEvent) (e : TaskQueueEvent) :
  events_of taskId (evs ++ [e]) =
    events_of taskId evs ++ (if kind_for taskId e is Some k then [k] else []).
Proof. unfold events_of. rewrite omap_app. simpl. by destruct (kind_for taskId e). Qed.

Lemma ph_emit_self (evs : list TaskQueueEvent) (t : QueueTask) (e : TaskQueueEvent) (k : Kind) :
  task_event e = Some (task_id t, k) ->
  ph (evs ++ [e]) t = next (known t) (ph evs t) k.
Proof.
  intros He. unfold ph. rewrite events_of_snoc. unfold kind_for. rewrite He.
  rewrite String.eqb_refl. apply phase_snoc.
Qed.

Lemma ph_emit_other (evs : list TaskQueueEvent) (t : QueueTask) (e : TaskQueueEvent)
    (taskId : string) (k : Kind) :
  task_event e = Some (taskId, k) -> taskId <> task_id t ->
  ph (evs ++ [e]) t = ph evs t.
Proof.
  intros He Hne. unfold ph. rewrite events_of_snoc. unfold kind_for. rewrite He.
  apply String.eqb_neq in Hne. rewrite Hne. by rewrite app_nil_r.
Qed.

Lemma ph_emit_none (evs : list TaskQueueEvent) (t : QueueTask) (e : TaskQueueEvent) :
  task_event e = None -> ph (evs ++ [e]) t = ph evs t.
Proof.
  intros He. unfold ph. rewrite events_of_snoc. unfold kind_for. rewrite He.
  by rewrite app_nil_r.
Qed.

Lemma ids_alter (f : QueueTask -> QueueTask) (i : nat) (ts : list QueueTask) :
  same_task f -> task_id <$> alter f i ts = task_id <$> ts.
Proof.
  intros H. rewrite (list_fmap_alter task_id f id).
  - apply list_eq. intros j. rewrite list_lookup_alter. case_decide; [subst|done].
    by destruct ((task_id <$> ts) !! j).
  - apply Forall_forall. intros t _. apply H.
Qed.

Lemma distinct_ids (ts : list QueueTask) (i j : nat) (t t' : QueueTask) :
  NoDup (task_id <$> ts) -> ts !! i = Some t -> ts !! j = Some t' -> i <> j ->
  task_id t <> task_id t'.
Proof.
  intros Hnd Hi Hj Hne Heq. apply Hne.
  apply (NoDup_lookup _ i j (task_id t) Hnd); rewrite list_lookup_fmap.
  - by rewrite Hi.
  - rewrite Hj. simpl. by rewrite Heq.
Qed.

(** After the task at [i] was updated and an event about it emitted, a task
    of the queue is the updated one, with the next phase, or another one,
    with its phase unchanged. *)
Lemma after_task_event (ts : list QueueTask) (evs : list TaskQueueEvent) (i : nat)
    (t : QueueTask) (f : QueueTask -> QueueTask) (e : TaskQueueEvent) (k : Kind)
    (j : nat) (t' : QueueTask) :
  NoDup (task_id <$> ts) -> same_task f ->
  ts !! i = Some t -> task_event e = Some (task_id t, k) ->
  alter f i ts !! j = Some t' ->
  (j = i /\ t' = f t /\ ph (evs ++ [e]) t' = next (known t) (ph evs t) k) \/
  (j <> i /\ ts !! j = Some t' /\ ph (evs ++ [e]) t' = ph evs t').
Proof.
  intros Hnd Hf Hi He Hj. rewrite list_lookup_alter in Hj. case_decide as Hij.
  - subst j. rewrite Hi in Hj. injection Hj as <-. left. repeat split.
    rewrite ph_same_task by done. by apply ph_emit_self.
  - right. repeat split; [congruence|done|].
    eapply ph_emit_other; [exact He|]. by eapply distinct_ids.
Qed.

(** After an update of the task at [i] alone. *)
Lemma after_update (ts : list QueueTask) (i : nat) (f : QueueTask -> QueueTask)
    (j : nat) (t' : QueueTask) :
  alter f i ts !! j = Some t' ->
  (j = i /\ exists t, ts !! i = Some t /\ t' = f t) \/ (j <> i /\ ts !! j = Some t').
Proof.
  intros Hj. rewrite list_lookup_alter in Hj. case_decide as Hij.
  - subst j. destruct (ts !! i) as [t|]; [|done]. injection Hj as <-. left. eauto.
  - right. split; [congruence|done].
Qed.

Lemma find_task_Some (taskId : string) (ts : list QueueTask) (i : nat) (t : QueueTask) :
  Api.find_task taskId ts = Some (i, t) -> ts !! i = Some t /\ task_id t = taskId.
Proof.
  revert i. induction ts as [|a rest IH]; intros i; simpl; [done|].
  destruct (String.eqb_spec (task_id a) taskId) as [Heq|Hne].
  - by intros [= <- <-].
  - destruct (Api.find_task taskId rest) as [[j u]|]; [|done]. simpl.
    intros [= <- <-]. by apply IH.
Qed.

Lemma find_index_Some (taskId : string) (ts : list QueueTask) (i : nat) :
  find_index taskId ts = Some i ->
  exists t, ts !! i = Some t /\ task_id t = taskId.
Proof.
  unfold find_index. destruct (Api.find_task taskId ts) as [[j t]|] eqn:E; [|done].
  simpl. intros [= <-]. exists t. by apply find_task_Some.
Qed.

(** *** The invariant on the scheduler's bookkeeping

    [ts], [evs], [infl], [res] and [tm] are the tasks, the emitted events,
    the invocations that have not settled, [completedResults] and the retry
    timers; [y] is the key whose event the drain loop has just yielded and
    whose entry it has not deleted yet. *)
Record Core (ts : list QueueTask) (evs : list TaskQueueEvent) (infl : list string)
    (res : list (string * Outcome)) (tm : list nat) (y : option string) : Prop := {
  core_ids : NoDup (task_id <$> ts);
  core_accept : forall i t, ts !! i = Some t -> ph evs t <> ph_bad;
  core_ready : forall i t, ts !! i = Some t -> is_ready t ->
               ph evs t = ph_idle \/ ph evs t = ph_retried;
  core_inflight : forall i t, ts !! i = Some t -> task_id t ∈ infl ->
                  ph evs t = ph_started;
  core_results : forall i t, ts !! i = Some t -> task_id t ∈ res.*1 ->
                 y <> Some (task_id t) -> ph evs t = ph_started;
  core_timers : forall i, i ∈ tm ->
                exists t, ts !! i = Some t /\ task_status t = retrying /\
                          ph evs t = ph_retried;
  core_timers_NoDup : NoDup tm;
  core_results_NoDup : NoDup res.*1;
  core_inflight_NoDup : NoDup infl;
  core_disjoint : forall taskId, taskId ∈ infl -> taskId ∉ res.*1 }.

Lemma phase_unknown (l : list Kind) :
  phase false l = ph_idle \/ phase false l = ph_done \/ phase false l = ph_bad.
Proof.
  induction l as [|k l IH] using rev_ind; [by left|].
  rewrite phase_snoc. destruct IH as [->|[->| ->]], k; simpl; auto.
Qed.

Lemma not_ready_retrying (t : QueueTask) : task_status t = retrying -> ~ is_ready t.
Proof. unfold is_ready. intros ->. intros [?|?]; discriminate. Qed.

(** A ready task is started (the agent lookup finds its agent). *)
Lemma Core_open ts evs infl res tm i t f e :
  Core ts evs infl res tm None ->
  ts !! i = Some t -> is_ready t -> known t = true ->
  same_task f -> ~ is_ready (f t) ->
  task_event e = Some (task_id t, k_started) ->
  Core (alter f i ts) (evs ++ [e]) (task_id t :: infl) res tm None.
Proof.
  intros C Hi Hready Hknown Hf Hnot He.
  pose proof (core_ids _ _ _ _ _ _ C) as Hids.
  assert (ph evs t = ph_idle \/ ph evs t = ph_retried) as Hph
    by by eapply core_ready.
  assert (next (known t) (ph evs t) k_started = ph_started) as Hnext
    by (rewrite Hknown; by destruct Hph as [-> | ->]).
  assert (ph evs t <> ph_started) as Hns by (destruct Hph as [-> | ->]; done).
  split.
  - by rewrite ids_alter.
  - intros j t' Hj.
    destruct (after_task_event ts evs i t f e _ j t' Hids Hf Hi He Hj)
      as [(-> & -> & ->)|(Hne & Hj' & ->)]; [by rewrite Hnext|by eapply core_accept].
  - intros j t' Hj Hr.
    destruct (after_task_event ts evs i t f e _ j t' Hids Hf Hi He Hj)
      as [(-> & -> & _)|(Hne & Hj' & ->)]; [done|by eapply core_ready].
  - intros j t' Hj Hin.
    destruct (after_task_event ts evs i t f e _ j t' Hids Hf Hi He Hj)
      as [(-> & -> & ->)|(Hne & Hj' & ->)]; [done|].
    apply elem_of_cons in Hin as [Heq|Hin]; [|by eapply core_inflight].
    exfalso. by eapply (distinct_ids ts j i t' t).
  - intros j t' Hj Hin _.
    destruct (after_task_event ts evs i t f e _ j t' Hids Hf Hi He Hj)
      as [(-> & -> & ->)|(Hne & Hj' & ->)]; [done|by eapply core_results].
  - intros j Hin. destruct (core_timers _ _ _ _ _ _ C j Hin) as (t' & Hj & Hst & Hp).
    destruct (decide (j = i)) as [->|Hne].
    + rewrite Hi in Hj. injection Hj as <-. by apply not_ready_retrying in Hst.
    + exists t'. rewrite list_lookup_alter_ne by done. repeat split; [done..|].
      rewrite <- Hp. eapply ph_emit_other; [exact He|]. by eapply distinct_ids.
  - by eapply core_timers_NoDup.
  - by eapply core_results_NoDup.
  - apply NoDup_cons. split; [|by eapply core_inflight_NoDup].
    intros Hin. apply Hns. by eapply core_inflight.
  - intros taskId [->|Hin]%elem_of_cons; [|by eapply core_disjoint].
    intros Hin. apply Hns. by eapply core_results.
Qed.

(** A ready task whose agent the lookup does not find fails. *)
Lemma Core_unknown ts evs infl res tm i t f e :
  Core ts evs infl res tm None ->
  ts !! i = Some t -> is_ready t -> known t = false ->
  same_task f -> ~ is_ready (f t) ->
  task_event e = Some (task_id t, k_failed) ->
  Core (alter f i ts) (evs ++ [e]) infl res tm None.
Proof.
  intros C Hi Hready Hknown Hf Hnot He.
  pose proof (core_ids _ _ _ _ _ _ C) as Hids.
  assert (ph evs t = ph_idle) as Hph.
  { destruct (core_ready _ _ _ _ _ _ C i t Hi Hready) as [H|H]; [done|].
    unfold ph in H. rewrite Hknown in H.
    destruct (phase_unknown (events_of (task_id t) evs)) as [H'|[H'|H']]; congruence. }
  assert (next (known t) (ph evs t) k_failed = ph_done) as Hnext
    by by rewrite Hknown, Hph.
  split.
  - by rewrite ids_alter.
  - intros j t' Hj.
    destruct (after_task_event ts evs i t f e _ j t' Hids Hf Hi He Hj)
      as [(-> & -> & ->)|(Hne & Hj' & ->)]; [by rewrite Hnext|by eapply core_accept].
  - intros j t' Hj Hr.
    destruct (after_task_event ts evs i t f e _ j t' Hids Hf Hi He Hj)
      as [(-> & -> & _)|(Hne & Hj' & ->)]; [done|by eapply core_ready].
  - intros j t' Hj Hin.
    destruct (after_task_event ts evs i t f e _ j t' Hids Hf Hi He Hj)
      as [(-> & -> & _)|(Hne & Hj' & ->)]; [|by eapply core_inflight].
    destruct (Hf t) as [Hid _]. rewrite Hid in Hin.
    pose proof (core_inflight _ _ _ _ _ _ C i t Hi Hin). congruence.
  - intros j t' Hj Hin _.
    destruct (after_task_event ts evs i t f e _ j t' Hids Hf Hi He Hj)
      as [(-> & -> & _)|(Hne & Hj' & ->)]; [|by eapply core_results].
    destruct (Hf t) as [Hid _]. rewrite Hid in Hin.
    pose proof (core_results _ _ _ _ _ _ C i t Hi Hin). naive_solver congruence.
  - intros j Hin. destruct (core_timers _ _ _ _ _ _ C j Hin) as (t' & Hj & Hst & Hp).
    destruct (decide (j = i)) as [->|Hne].
    + rewrite Hi in Hj. injection Hj as <-. by apply not_ready_retrying in Hst.
    + exists t'. rewrite list_lookup_alter_ne by done. repeat split; [done..|].
      rewrite <- Hp. eapply ph_emit_other; [exact He|]. by eapply distinct_ids.
  - by eapply core_timers_NoDup.
  - by eapply core_results_NoDup.
  - by eapply core_inflight_NoDup.
  - by eapply core_disjoint.
Qed.

(** The result of a started task is drained: the task is retried
    ([retry], with a timer) or gets its terminal event. *)
Lemma Core_close ts evs infl res tm i t f e k (retry : bool) :
  Core ts evs infl res tm None ->
  ts !! i = Some t -> task_id t ∈ res.*1 ->
  same_task f -> ~ is_ready (f t) ->
  task_event e = Some (task_id t, k) ->
  (if retry then k = k_retrying /\ task_status (f t) = retrying
   else is_terminal k = true) ->
  Core (alter f i ts) (evs ++ [e]) infl res (if retry then i :: tm else tm)
       (Some (task_id t)).
Proof.
  intros C Hi Hres Hf Hnot He Hk.
  pose proof (core_ids _ _ _ _ _ _ C) as Hids.
  assert (ph evs t = ph_started) as Hph by by eapply core_results.
  assert (next (known t) (ph evs t) k = if retry then ph_retried else ph_done) as Hnext.
  { rewrite Hph. destruct retry; [by destruct Hk as [-> _]|by destruct k]. }
  assert (i ∉ tm) as Hfresh.
  { intros Hin. destruct (core_timers _ _ _ _ _ _ C i Hin) as (t' & Hj & _ & Hp).
    congruence. }
  split.
  - by rewrite ids_alter.
  - intros j t' Hj.
    destruct (after_task_event ts evs i t f e _ j t' Hids Hf Hi He Hj)
      as [(-> & -> & ->)|(Hne & Hj' & ->)]; [|by eapply core_accept].
    rewrite Hnext. by destruct retry.
  - intros j t' Hj Hr.
    destruct (after_task_event ts evs i t f e _ j t' Hids Hf Hi He Hj)
      as [(-> & -> & _)|(Hne & Hj' & ->)]; [done|by eapply core_ready].
  - intros j t' Hj Hin.
    destruct (after_task_event ts evs i t f e _ j t' Hids Hf Hi He Hj)
      as [(-> & -> & _)|(Hne & Hj' & ->)]; [|by eapply core_inflight].
    destruct (Hf t) as [Hid _]. rewrite Hid in Hin.
    by apply (core_disjoint _ _ _ _ _ _ C) in Hin.
  - intros j t' Hj Hin Hy.
    destruct (after_task_event ts evs i t f e _ j t' Hids Hf Hi He Hj)
      as [(-> & -> & _)|(Hne & Hj' & ->)]; [|by eapply core_results].
    destruct (Hf t) as [Hid _]. by rewrite Hid in Hy.
  - intros j Hin.
    assert (j ∈ tm -> exists t', alter f i ts !! j = Some t' /\
                        task_status t' = retrying /\ ph (evs ++ [e]) t' = ph_retried)
      as Hold.
    { intros Hj. destruct (core_timers _ _ _ _ _ _ C j Hj) as (t' & Hj' & Hst & Hp).
      assert (j <> i) as Hne by (intros ->; done).
      exists t'. rewrite list_lookup_alter_ne by done. repeat split; [done..|].
      rewrite <- Hp. eapply ph_emit_other; [exact He|]. by eapply distinct_ids. }
    destruct retry; [|by apply Hold].
    apply elem_of_cons in Hin as [->|Hin]; [|by apply Hold].
    destruct Hk as [-> Hst]. exists (f t).
    rewrite list_lookup_alter_eq, Hi. repeat split; [done|].
    rewrite ph_same_task by done. by rewrite (ph_emit_self _ _ _ _ He), Hph.
  - destruct retry; [|by eapply core_timers_NoDup].
    apply NoDup_cons. split; [done|by eapply core_timers_NoDup].
  - by eapply core_results_NoDup.
  - by eapply core_inflight_NoDup.
  - by eapply core_disjoint.
Qed.

(** An event that is about no task. *)
Lemma Core_emit ts evs infl res tm y e :
  task_event e = None ->
  Core ts evs infl res tm y -> Core ts (evs ++ [e]) infl res tm y.
Proof.
  intros He C. split.
  - by eapply core_ids.
  - intros j t Hj. rewrite ph_emit_none by done. by eapply core_accept.
  - intros j t Hj Hr. rewrite ph_emit_none by done. by eapply core_ready.
  - intros j t Hj Hin. rewrite ph_emit_none by done. by eapply core_inflight.
  - intros j t Hj Hin Hy. rewrite ph_emit_none by done. by eapply core_results.
  - intros j Hin. destruct (core_timers _ _ _ _ _ _ C j Hin) as (t & Hj & Hst & Hp).
    exists t. by rewrite ph_emit_none.
  - by eapply core_timers_NoDup.
  - by eapply core_results_NoDup.
  - by eapply core_inflight_NoDup.
  - by eapply core_disjoint.
Qed.

(** [completedResults.clear()] *)
Lemma Core_clear ts evs infl res tm y :
  Core ts evs infl res tm y -> Core ts evs infl [] tm None.
Proof.
  intros C. split.
  - by eapply core_ids.
  - by eapply core_accept.
  - by eapply core_ready.
  - by eapply core_inflight.
  - intros j t _ Hin. by apply elem_of_nil in Hin.
  - by eapply core_timers.
  - by eapply core_timers_NoDup.
  - constructor.
  - by eapply core_inflight_NoDup.
  - intros taskId _ Hin. by apply elem_of_nil in Hin.
Qed.

Lemma map_delete_keys (key : string) (m : list (string * Outcome)) :
  (map_delete key m).*1 = filter (fun k => k <> key) m.*1.
Proof.
  unfold map_delete. induction m as [|[k v] m IH]; [done|].
  rewrite fmap_cons, !filter_cons. simpl. case_decide; simpl; by rewrite <- IH.
Qed.

(** [completedResults.delete(taskId)] after the yield. *)
Lemma Core_delete ts evs infl res tm y :
  Core ts evs infl res tm (Some y) ->
  Core ts evs infl (map_delete y res) tm None.
Proof.
  intros C. split.
  - by eapply core_ids.
  - by eapply core_accept.
  - by eapply core_ready.
  - by eapply core_inflight.
  - intros j t Hj Hin _. rewrite map_delete_keys in Hin.
    apply list_elem_of_filter in Hin as [Hne Hin].
    eapply core_results; [done..|]. congruence.
  - by eapply core_timers.
  - by eapply core_timers_NoDup.
  - rewrite map_delete_keys. apply NoDup_filter. by eapply core_results_NoDup.
  - by eapply core_inflight_NoDup.
  - intros taskId Hin. rewrite map_delete_keys.
    intros [_ Hin']%list_elem_of_filter. by eapply core_disjoint.
Qed.

Lemma Core_not_yielded ts evs infl res tm :
  Core ts evs infl res tm None -> forall y, Core ts evs infl res tm y.
Proof.
  intros C y. split; try by destruct C.
  intros j t Hj Hin _. by eapply core_results.
Qed.

Lemma map_set_keys (key : string) (value : Outcome) (m : list (string * Outcome)) :
  key ∉ m.*1 -> (map_set key value m).*1 = m.*1 ++ [key].
Proof.
  induction m as [|[k v] m IH]; intros Hnot; [done|].
  rewrite fmap_cons in Hnot. simpl in Hnot.
  apply not_elem_of_cons in Hnot as [Hne Hnot]. simpl.
  destruct (String.eqb_spec k key) as [->|_]; [done|].
  rewrite !fmap_cons. simpl. f_equal. by apply IH.
Qed.

Lemma elem_of_remove_one {A} `{EqDecision A} (x a : A) (l : list A) :
  x ∈ remove_one a l -> x ∈ l.
Proof.
  induction l as [|b l IH]; simpl; [done|].
  case_decide; [by right|]. intros [->|Hin]%elem_of_cons; [by left|right; auto].
Qed.

Lemma NoDup_remove_one {A} `{EqDecision A} (a : A) (l : list A) :
  NoDup l -> NoDup (remove_one a l) /\ a ∉ remove_one a l.
Proof.
  induction 1 as [|b l Hb Hnd [IH1 IH2]]; simpl; [split; [constructor|apply not_elem_of_nil]|].
  case_decide as Hab; [subst; done|]. split.
  - constructor; [|done]. intros Hin. by apply Hb, (elem_of_remove_one _ a).
  - apply not_elem_of_cons. done.
Qed.

(** An invocation settles. *)
Lemma Core_settled ts evs infl res tm y taskId outcome :
  Core ts evs infl res tm y -> taskId ∈ infl ->
  Core ts evs (remove_one taskId infl) (map_set taskId outcome res) tm y.
Proof.
  intros C Hin.
  assert (taskId ∉ res.*1) as Hnot by by eapply core_disjoint.
  destruct (NoDup_remove_one taskId infl (core_inflight_NoDup _ _ _ _ _ _ C))
    as [Hnd Hgone].
  split.
  - by eapply core_ids.
  - by eapply core_accept.
  - by eapply core_ready.
  - intros j t Hj Hinfl%elem_of_remove_one. by eapply core_inflight.
  - intros j t Hj Hres Hy. rewrite map_set_keys in Hres by done.
    apply elem_of_app in Hres as [Hres|Hres%list_elem_of_singleton].
    + by eapply core_results.
    + eapply core_inflight; [done..|]. by rewrite Hres.
  - by eapply core_timers.
  - by eapply core_timers_NoDup.
  - rewrite map_set_keys by done. apply NoDup_app. split; [by eapply core_results_NoDup|].
    split; [|apply NoDup_singleton].
    intros x Hx Hx'%list_elem_of_singleton. by subst.
  - done.
  - intros x Hx. rewrite map_set_keys by done.
    intros [Hres|Hx'%list_elem_of_singleton]%elem_of_app; [|by subst].
    eapply core_disjoint; [done| |done]. by eapply elem_of_remove_one.
Qed.

(** A retry timer fires. *)
Lemma Core_timer ts evs infl res tm y i f :
  Core ts evs infl res tm y -> i ∈ tm -> same_task f ->
  Core (alter f i ts) evs infl res (remove_one i tm) y.
Proof.
  intros C Hin Hf.
  destruct (core_timers _ _ _ _ _ _ C i Hin) as (t & Hi & Hst & Hp).
  destruct (NoDup_remove_one i tm (core_timers_NoDup _ _ _ _ _ _ C)) as [Hnd Hgone].
  assert (forall j t', alter f i ts !! j = Some t' ->
            exists t0, ts !! j = Some t0 /\ ph evs t' = ph evs t0 /\
                       task_id t' = task_id t0 /\ (j <> i -> t' = t0)) as Hsame.
  { intros j t' Hj. destruct (after_update ts i f j t' Hj) as [(-> & t0 & H0 & ->)|[Hne Hj']].
    - exists t0. destruct (Hf t0) as [Hid _]. by rewrite ph_same_task.
    - exists t'. done. }
  split.
  - rewrite ids_alter by done. by eapply core_ids.
  - intros j t' Hj. destruct (Hsame j t' Hj) as (t0 & H0 & -> & _). by eapply core_accept.
  - intros j t' Hj Hr. destruct (Hsame j t' Hj) as (t0 & H0 & Hph & _ & Hne).
    rewrite Hph. destruct (decide (j = i)) as [->|Hji].
    + rewrite Hi in H0. injection H0 as <-. by right.
    + rewrite (Hne Hji) in Hr. by eapply core_ready.
  - intros j t' Hj Hinfl. destruct (Hsame j t' Hj) as (t0 & H0 & -> & Hid & _).
    rewrite Hid in Hinfl. by eapply core_inflight.
  - intros j t' Hj Hres Hy. destruct (Hsame j t' Hj) as (t0 & H0 & -> & Hid & _).
    rewrite Hid in Hres, Hy. by eapply core_results.
  - intros j Hj. assert (j <> i) as Hne by (intros ->; done).
    apply elem_of_remove_one in Hj.
    destruct (core_timers _ _ _ _ _ _ C j Hj) as (t' & Hj' & Hst' & Hp').
    exists t'. by rewrite list_lookup_alter_ne.
  - done.
  - by eapply core_results_NoDup.
  - by eapply core_inflight_NoDup.
  - by eapply core_disjoint.
Qed.

(** *** The invariant on the states of the scheduler *)

(** The key of the entry the drain loop is about to delete, the entries of
    its snapshot still to come, and the readyTasks still to start. *)
Definition yielded (p : Place) : option string :=
  match p with
  | at_drain y _ | at_final_drain y _ => Some y
  | _ => None
  end.

Definition snapshot (p : Place) : list (string * Outcome) :=
  match p with
  | at_drain _ rest | at_final_drain _ rest => rest
  | _ => []
  end.

Definition to_dispatch (p : Place) : list nat :=
  if p is at_dispatch rest then rest else [].

Definition CoreS (y : option string) (s : State) : Prop :=
  Core (tasks s) (emitted s) (inflight s) (completedResults s) (timers s) y.

Record Inv (s : State) : Prop := {
  inv_core : CoreS (yielded (place s)) s;
  inv_snapshot : (snapshot (place s)).*1 ⊆ (completedResults s).*1;
  inv_snapshot_NoDup : NoDup (snapshot (place s)).*1;
  inv_yielded : forall y, yielded (place s) = Some y -> y ∉ (snapshot (place s)).*1;
  inv_dispatch_NoDup : NoDup (to_dispatch (place s));
  inv_dispatch : forall i, i ∈ to_dispatch (place s) ->
                 exists t, tasks s !! i = Some t /\ is_ready t }.

(** At a place outside the dispatch and drain loops the bookkeeping
    invariant is all there is. *)
Lemma Inv_plain (s : State) :
  yielded (place s) = None -> snapshot (place s) = [] -> to_dispatch (place s) = [] ->
  CoreS None s -> Inv s.
Proof.
  intros Hy Hs Hd C. split; rewrite ?Hy, ?Hs, ?Hd.
  - done.
  - intros x Hx. by apply elem_of_nil in Hx.
  - constructor.
  - done.
  - constructor.
  - intros i Hi. by apply elem_of_nil in Hi.
Qed.

Lemma not_ready_status (t : QueueTask) (st : TaskStatus) :
  task_status t = st -> st <> pending -> st <> queued -> ~ is_ready t.
Proof. unfold is_ready. intros -> ? ? [?|?]; done. Qed.

Lemma CoreS_start_task now i task s :
  CoreS None s -> tasks s !! i = Some task -> is_ready task -> known task = true ->
  CoreS None (start_task now i task s).
Proof.
  intros C Hi Hr Hk. unfold CoreS, start_task, tasks. simpl.
  eapply (Core_open _ _ _ _ _ i task); try done.
  by eapply not_ready_status.
Qed.

Lemma CoreS_fail_unknown_agent now i task s :
  CoreS None s -> tasks s !! i = Some task -> is_ready task -> known task = false ->
  CoreS None (fail_unknown_agent now i task s).
Proof.
  intros C Hi Hr Hk. unfold CoreS, fail_unknown_agent, tasks. simpl.
  eapply (Core_unknown _ _ _ _ _ i task); try done.
  by eapply not_ready_status.
Qed.

Lemma CoreS_dispatch now i task s :
  CoreS None s -> tasks s !! i = Some task -> is_ready task ->
  CoreS None (dispatch getAgent now i s).
Proof.
  intros C Hi Hr. unfold dispatch. rewrite Hi.
  destruct (getAgent (task_agentId task)) eqn:E.
  - apply CoreS_start_task; try done. unfold known. by rewrite E.
  - apply CoreS_fail_unknown_agent; try done. unfold known. by rewrite E.
Qed.

Lemma CoreS_settle now i task outcome s :
  CoreS None s -> tasks s !! i = Some task ->
  task_id task ∈ (completedResults s).*1 ->
  CoreS (Some (task_id task)) (settle now i task outcome s).
Proof.
  intros C Hi Hres. unfold settle. destruct outcome as [result|error].
  - unfold CoreS, complete_task, tasks. simpl.
    eapply (Core_close _ _ _ _ _ i task _ _ k_completed false); try done.
    by eapply not_ready_status.
  - destruct (_ && _).
    + unfold CoreS, retry_task, tasks. simpl.
      eapply (Core_close _ _ _ _ _ i task _ _ k_retrying true); try done.
      by eapply not_ready_status.
    + unfold CoreS, fail_task, tasks. simpl.
      eapply (Core_close _ _ _ _ _ i task _ _ k_failed false); try done.
      by eapply not_ready_status.
Qed.

Lemma CoreS_settle_final now i task outcome s :
  CoreS None s -> tasks s !! i = Some task ->
  task_id task ∈ (completedResults s).*1 ->
  CoreS (Some (task_id task)) (settle_final now i task outcome s).
Proof.
  intros C Hi Hres. unfold settle_final. destruct outcome as [result|error].
  - unfold CoreS, tasks. simpl.
    eapply (Core_close _ _ _ _ _ i task _ _ k_completed false); try done.
    by eapply not_ready_status.
  - unfold CoreS, tasks. simpl.
    eapply (Core_close _ _ _ _ _ i task _ _ k_failed false); try done.
    by eapply not_ready_status.
Qed.

Lemma Inv_final_event now metrics s : CoreS None s -> Inv (final_event now metrics s).
Proof.
  intros C. unfold final_event. apply Inv_plain; try done.
  destruct (isStopped s); [|case_decide]; by apply Core_emit.
Qed.

Lemma Inv_final_metrics now s : CoreS None s -> Inv (final_metrics now s).
Proof.
  intros C. unfold final_metrics. simpl.
  destruct (isRedisConnected s); [by apply Inv_plain|by apply Inv_final_event].
Qed.

Lemma Inv_final_head now s : CoreS None s -> Inv (final_head now s).
Proof.
  intros C. unfold final_head.
  destruct (_ && _); [by apply Inv_plain|by apply Inv_final_metrics].
Qed.

(** The drain loops, from a state in which no entry awaits deletion. *)
Lemma Inv_drained (settle_with : Z -> nat -> QueueTask -> Outcome -> State -> State)
    (place_with : string -> list (string * Outcome) -> Place)
    now i task taskId outcome rest s :
  (forall s, CoreS None s -> tasks s !! i = Some task ->
             task_id task ∈ (completedResults s).*1 ->
             CoreS (Some (task_id task)) (settle_with now i task outcome s)) ->
  (forall s, completedResults (settle_with now i task outcome s) = completedResults s) ->
  yielded (place_with taskId rest) = Some taskId ->
  snapshot (place_with taskId rest) = rest ->
  to_dispatch (place_with taskId rest) = [] ->
  CoreS None s -> tasks s !! i = Some task -> task_id task = taskId ->
  ((taskId, outcome) :: rest).*1 ⊆ (completedResults s).*1 ->
  NoDup ((taskId, outcome) :: rest).*1 ->
  Inv (set_place (place_with taskId rest) (settle_with now i task outcome s)).
Proof.
  intros Hsettle Hsame Hy Hsnap Hdisp C Hi Hid Hsub Hnd.
  rewrite fmap_cons in Hsub, Hnd. simpl in Hsub, Hnd.
  apply NoDup_cons in Hnd as [Hfresh Hnd].
  split; simpl; rewrite ?Hy, ?Hsnap, ?Hdisp.
  - rewrite <- Hid. apply Hsettle; try done. rewrite Hid. apply Hsub. by left.
  - rewrite Hsame. intros x Hx. apply Hsub. by right.
  - done.
  - by intros y [= <-].
  - constructor.
  - intros j Hj. by apply elem_of_nil in Hj.
Qed.

Lemma completedResults_settle now i task outcome s :
  completedResults (settle now i task outcome s) = completedResults s.
Proof.
  unfold settle. destruct outcome; [done|]. by destruct (_ && _).
Qed.

Lemma completedResults_settle_final now i task outcome s :
  completedResults (settle_final now i task outcome s) = completedResults s.
Proof. unfold settle_final. by destruct outcome. Qed.

Lemma Inv_final_drain now entries s :
  CoreS None s ->
  entries.*1 ⊆ (completedResults s).*1 -> NoDup entries.*1 ->
  Inv (final_drain now entries s).
Proof.
  revert s. induction entries as [|[taskId outcome] rest IH]; intros s C Hsub Hnd; simpl.
  - by apply Inv_final_head.
  - destruct (find_index taskId (tasks s)) as [i|] eqn:Hfind.
    + destruct (find_index_Some _ _ _ Hfind) as (task & Hi & Hid). rewrite Hi.
      apply (Inv_drained settle_final at_final_drain now i task taskId outcome rest s);
        try done.
      * intros. by apply CoreS_settle_final.
      * intros. apply completedResults_settle_final.
    + apply IH; [done| |].
      * intros x Hx. apply Hsub. rewrite fmap_cons. by right.
      * rewrite fmap_cons in Hnd. by apply NoDup_cons in Hnd as [_ ?].
Qed.

Lemma Inv_drain now entries s :
  CoreS None s ->
  entries.*1 ⊆ (completedResults s).*1 -> NoDup entries.*1 ->
  Inv (drain now entries s).
Proof.
  revert s. induction entries as [|[taskId outcome] rest IH]; intros s C Hsub Hnd; simpl.
  - by apply Inv_plain.
  - destruct (find_index taskId (tasks s)) as [i|] eqn:Hfind.
    + destruct (find_index_Some _ _ _ Hfind) as (task & Hi & Hid). rewrite Hi.
      apply (Inv_drained settle at_drain now i task taskId outcome rest s); try done.
      * intros. by apply CoreS_settle.
      * intros. apply completedResults_settle.
    + apply IH; [done| |].
      * intros x Hx. apply Hsub. rewrite fmap_cons. by right.
      * rewrite fmap_cons in Hnd. by apply NoDup_cons in Hnd as [_ ?].
Qed.

Lemma tasks_dispatch_other now i j s :
  j <> i -> tasks (dispatch getAgent now i s) !! j = tasks s !! j.
Proof.
  intros Hne. unfold dispatch. destruct (tasks s !! i) as [task|]; [|done].
  destruct (getAgent _); unfold tasks; simpl; by rewrite list_lookup_alter_ne.
Qed.

Lemma Inv_dispatch_next now ready s :
  CoreS None s -> NoDup ready ->
  (forall i, i ∈ ready -> exists t, tasks s !! i = Some t /\ is_ready t) ->
  Inv (dispatch_next getAgent now ready s).
Proof.
  intros C Hnd Hready. unfold dispatch_next. destruct ready as [|i rest].
  - apply Inv_drain; [done..|]. by eapply core_results_NoDup.
  - apply NoDup_cons in Hnd as [Hfresh Hnd].
    destruct (Hready i) as (task & Hi & Hr); [by left|].
    split; simpl.
    + by eapply CoreS_dispatch.
    + intros x Hx. by apply elem_of_nil in Hx.
    + constructor.
    + done.
    + done.
    + intros j Hj. unfold tasks. simpl. fold (tasks (dispatch getAgent now i s)).
      rewrite tasks_dispatch_other by (intros ->; done).
      apply Hready. by right.
Qed.

Lemma NoDup_fmap_sorted {A} (f : A -> nat) (l : list A) :
  StronglySorted (fun a b => f a < f b) l -> NoDup (f <$> l).
Proof.
  induction 1 as [|x l Hsorted IH Hx]; [constructor|].
  rewrite fmap_cons. constructor; [|done].
  intros (y & Hxy & Hy)%list_elem_of_fmap.
  eapply Forall_forall in Hx; [|exact Hy]. lia.
Qed.

Lemma getReadyTasks_NoDup (currentRunning : nat) (ts : list QueueTask) (maxConcurrency : Z) :
  NoDup (fst <$> getReadyTasks currentRunning ts maxConcurrency).
Proof.
  rewrite getReadyTasks_unfold, fmap_take.
  eapply sublist_NoDup; [|apply sublist_take].
  unfold ready_in_order. rewrite sort_by_priority_perm.
  apply NoDup_fmap_sorted, StronglySorted_filter, indexed_sorted.
Qed.

Lemma Inv_select now s : CoreS None s -> Inv (select getAgent now s).
Proof.
  intros C. unfold select.
  destruct (fst <$> getReadyTasks _ _ _) as [|i rest] eqn:E.
  - case_bool_decide; [by apply Inv_plain|by apply Inv_final_head].
  - apply Inv_dispatch_next; [done| |].
    + rewrite <- E. apply getReadyTasks_NoDup.
    + intros j Hj. rewrite <- E in Hj.
      apply list_elem_of_fmap in Hj as ([j' t] & -> & Hin).
      apply getReadyTasks_elem in Hin. eauto.
Qed.

Lemma Inv_loop_head now s : CoreS None s -> Inv (loop_head getAgent now s).
Proof.
  intros C. unfold loop_head. destruct (_ && _); [|by apply Inv_final_head].
  destruct (isPaused s); [|by apply Inv_select].
  apply Inv_plain; try done. by apply Core_emit.
Qed.

Lemma Inv_start now s : Inv s -> Inv (start now s).
Proof.
  intros H. unfold start. apply Inv_plain; try done.
  apply Core_emit; [done|]. unfold CoreS. simpl.
  eapply Core_clear, (inv_core s H).
Qed.

(** The entries of the snapshot are still in the map once the yielded
    entry is deleted. *)
Lemma snapshot_after_delete (y : string) (rest res : list (string * Outcome)) :
  rest.*1 ⊆ res.*1 -> y ∉ rest.*1 -> rest.*1 ⊆ (map_delete y res).*1.
Proof.
  intros Hsub Hy x Hx. rewrite map_delete_keys. apply list_elem_of_filter.
  split; [|by apply Hsub]. by intros ->.
Qed.

Lemma Inv_loop_step now s : Inv s -> Inv (loop_step getAgent now s).
Proof.
  intros H. pose proof (inv_core s H) as C.
  unfold loop_step. destruct (place s) as [| | | |ready|y rest| |y rest|metrics|] eqn:Hp;
    simpl in C.
  - by apply Inv_start.
  - by apply Inv_loop_head.
  - destruct (_ && _); [done|].
    destruct (isStopped s); [by apply Inv_final_head|].
    apply Inv_plain; try done. by apply Core_emit.
  - by apply Inv_select.
  - apply Inv_dispatch_next; [done| |].
    + pose proof (inv_dispatch_NoDup s H) as Hnd. by rewrite Hp in Hnd.
    + pose proof (inv_dispatch s H) as Hd. by rewrite Hp in Hd.
  - pose proof (inv_snapshot s H) as Hsub. pose proof (inv_snapshot_NoDup s H) as Hnd.
    pose proof (inv_yielded s H y) as Hy. rewrite Hp in Hsub, Hnd, Hy. simpl in *.
    apply Inv_drain; [| |done].
    + unfold CoreS. simpl. by apply Core_delete.
    + simpl. apply snapshot_after_delete; [done|by apply Hy].
  - apply Inv_final_drain; [done..|]. by eapply core_results_NoDup.
  - pose proof (inv_snapshot s H) as Hsub. pose proof (inv_snapshot_NoDup s H) as Hnd.
    pose proof (inv_yielded s H y) as Hy. rewrite Hp in Hsub, Hnd, Hy. simpl in *.
    apply Inv_final_drain; [| |done].
    + unfold CoreS. simpl. by apply Core_delete.
    + simpl. apply snapshot_after_delete; [done|by apply Hy].
  - by apply Inv_final_event.
  - done.
Qed.

Lemma map_set_keys_subseteq (key : string) (value : Outcome) (m : list (string * Outcome)) :
  m.*1 ⊆ (map_set key value m).*1.
Proof.
  induction m as [|[k v] m IH]; [intros x Hx; by apply elem_of_nil in Hx|].
  simpl. destruct (String.eqb k key); [done|].
  rewrite !fmap_cons. intros x [->|Hx]%elem_of_cons; [by left|right; by apply IH].
Qed.

Lemma Inv_settled taskId outcome s :
  taskId ∈ inflight s -> Inv s -> Inv (settled taskId outcome s).
Proof.
  intros Hin H. split; simpl.
  - unfold CoreS. simpl. apply Core_settled; [|done]. apply (inv_core s H).
  - etrans; [apply (inv_snapshot s H)|apply map_set_keys_subseteq].
  - apply (inv_snapshot_NoDup s H).
  - apply (inv_yielded s H).
  - apply (inv_dispatch_NoDup s H).
  - apply (inv_dispatch s H).
Qed.

Lemma place_timer_fires i s : place (timer_fires i s) = place s.
Proof. unfold timer_fires. by destruct (tasks _ !! i). Qed.

Lemma completedResults_timer_fires i s :
  completedResults (timer_fires i s) = completedResults s.
Proof. unfold timer_fires. by destruct (tasks _ !! i). Qed.

Lemma tasks_timer_fires i s :
  tasks (timer_fires i s) = alter (assign pending None None None None None None) i (tasks s).
Proof. unfold timer_fires. by destruct (tasks _ !! i). Qed.

Lemma Inv_timer_fires i s : i ∈ timers s -> Inv s -> Inv (timer_fires i s).
Proof.
  intros Hin H.
  assert (CoreS (yielded (place s)) (timer_fires i s)) as C.
  { unfold CoreS, timer_fires.
    destruct (tasks _ !! i); simpl; (apply Core_timer; [apply (inv_core s H)|done..]). }
  split; rewrite ?place_timer_fires, ?completedResults_timer_fires.
  - done.
  - apply (inv_snapshot s H).
  - apply (inv_snapshot_NoDup s H).
  - apply (inv_yielded s H).
  - apply (inv_dispatch_NoDup s H).
  - intros j Hj. destruct (inv_dispatch s H j Hj) as (t & Hjt & Hr).
    rewrite tasks_timer_fires, list_lookup_alter. case_decide; [subst|eauto].
    rewrite Hjt. simpl. eexists. split; [done|]. by left.
Qed.

Lemma Inv_step s s' : own_step getAgent s s' -> Inv s -> Inv s'.
Proof.
  intros Hstep H. destruct Hstep.
  - by apply Inv_loop_step.
  - by apply Inv_settled.
  - by apply Inv_timer_fires.
  - by destruct H.
  - by destruct H.
  - by destruct H.
  - by destruct H.
Qed.

Lemma Inv_init (q : TaskQueue) (connected : bool) (store : Store.RedisQueueStore) :
  NoDup (task_id <$> queue_tasks q) -> Inv (init q connected store).
Proof.
  intros Hids. apply Inv_plain; try done. split; simpl; try done.
  - intros i t _ _. by left.
  - intros i t _ Hin. by apply elem_of_nil in Hin.
  - intros i t _ Hin. by apply elem_of_nil in Hin.
  - intros i Hi. by apply elem_of_nil in Hi.
  - constructor.
  - constructor.
  - constructor.
  - intros x Hx. by apply elem_of_nil in Hx.
Qed.

Lemma Inv_reachable s0 s : undisturbed getAgent s0 s -> Inv s0 -> Inv s.
Proof.
  intros Hreach H0. induction Hreach as [|s1 s2 s3 Hstep _ IH]; [done|].
  apply IH. by eapply Inv_step.
Qed.

End Invariant.

End Attempts.

(** ** Claims about the events of a task *)

Module AttemptsClaims.
Import Scheduler Loop TaskEvents Attempts Runs.
Local Open Scope list_scope.

Definition agents : string -> option Invoker.Agent := RetryClaims.agents.

Definition serial : TaskQueueSettings :=
  {| maxConcurrency := 1; retryCount := 3; retryDelay := 10; timeoutPerTask := 300000 |}.

Definition new_task (id agentId : string) : QueueTask :=
  {| task_id := id; task_agentId := agentId; task_message := "work";
     task_status := pending; task_priority := 1;
     task_estimatedComplexity := None;
     task_retryCount := 0; task_maxRetries := 3; task_createdAt := 1000;
     task_startedAt := None; task_completedAt := None;
     task_result := None; task_error := None; task_metadata := None |}.

Definition queue_of (ts : list QueueTask) : TaskQueue :=
  {| queue_id := "Q"; queue_name := "nightly"; queue_description := None;
     queue_tasks := ts; queue_settings := serial; queue_status := running;
     queue_createdAt := 1000; queue_startedAt := Some 1001%Z;
     queue_completedAt := None;
     queue_metrics := Api.createInitialMetrics (length ts) |}.

Definition no_redis : Store.RedisQueueStore :=
  {| Store.client := None; Store.isConnected := false |}.

Definition begin (ts : list QueueTask) : State := init (queue_of ts) false no_redis.

Definition fine : Outcome :=
  inl {| result_type := success; result_content := "ok"; result_sessionId := None;
         result_completedAt := 2000 |}.

Definition unavailable : Outcome :=
  inr {| error_type := execution; error_message := "Agent A1 server error (503): ";
         error_retryable := true; error_occurredAt := 2000; error_stack := None |}.

(** One task whose agent the lookup does not find. *)
Definition unknown_agent_run : list Action :=
  [resumes 1; resumes 2; resumes 3; resumes 4].

(** One task; its invocation succeeds while the loop sleeps. *)
Definition lone_task_run : list Action :=
  [resumes 1; resumes 2; resumes 3; settles "T1" fine; resumes 4].

(** Two tasks, one at a time; the first invocation of T1 fails with a
    retryable error, its second succeeds. *)
Definition retry_run : list Action :=
  [resumes 1; resumes 2; resumes 3; settles "T1" unavailable;
   resumes 4; resumes 5; resumes 6; fires 0; settles "T2" fine;
   resumes 7; resumes 8; resumes 9; settles "T1" fine; resumes 10].

(** One task whose agent the lookup does not find; after its task_failed
    the retry handler is called for it, and the loop takes it up again. *)
Definition retried_run : list Action :=
  [resumes 1; resumes 2; retries "T1"; resumes 3; resumes 4; resumes 5; resumes 6].

(** C2, as stated, fails on the code.  A task whose agent is unknown gets
    task_failed with no task_started before it.  A task that is retried
    gets a second task_started after its task_retrying.  A result that
    arrives while no task is ready is never drained: the loop leaves at
    the [break] of its [readyTasks.length === 0] branch and the task gets
    no terminal event at all.  And a task that the retry handler resets
    while the queue executes is taken up again, here with a second
    task_failed.  Each run below ends with the generator finished. *)
Lemma task_events_not_as_stated :
  (possible agents unknown_agent_run (begin [new_task "T1" "nobody"]) = true
   /\ place (run agents unknown_agent_run (begin [new_task "T1" "nobody"])) = finished
   /\ events_of "T1" (emitted (run agents unknown_agent_run (begin [new_task "T1" "nobody"])))
      = [k_failed]
   /\ stated_sequence [k_failed] = false)
  /\ (possible agents retry_run (begin [new_task "T1" "A1"; new_task "T2" "A1"]) = true
      /\ place (run agents retry_run (begin [new_task "T1" "A1"; new_task "T2" "A1"]))
         = finished
      /\ events_of "T1"
           (emitted (run agents retry_run (begin [new_task "T1" "A1"; new_task "T2" "A1"])))
         = [k_started; k_retrying; k_started]
      /\ events_of "T2"
           (emitted (run agents retry_run (begin [new_task "T1" "A1"; new_task "T2" "A1"])))
         = [k_started; k_completed]
      /\ stated_sequence [k_started; k_retrying; k_started] = false)
  /\ (possible agents lone_task_run (begin [new_task "T1" "A1"]) = true
      /\ place (run agents lone_task_run (begin [new_task "T1" "A1"])) = finished
      /\ events_of "T1" (emitted (run agents lone_task_run (begin [new_task "T1" "A1"])))
         = [k_started]
      /\ stated_sequence [k_started] = false)
  /\ (possible agents retried_run (begin [new_task "T1" "nobody"]) = true
      /\ place (run agents retried_run (begin [new_task "T1" "nobody"])) = finished
      /\ events_of "T1" (emitted (run agents retried_run (begin [new_task "T1" "nobody"])))
         = [k_failed; k_failed]
      /\ stated_sequence [k_failed; k_failed] = false
      /\ length (filter (fun k => is_terminal k = true) [k_failed; k_failed]) = 2).
Proof. repeat split; vm_compute; reflexivity. Qed.

(** C2 (amended): in every state a run of executeQueue reaches, from a
    queue whose task ids are distinct and during which nothing but the
    scheduler assigns to the tasks of the queue (the retry handler is not
    called for it), the emitted events restricted to a task form a
    sequence of attempts.  With a known agent: each attempt
    opens with task_started and is closed by at most one of task_retrying,
    task_completed and task_failed; a further task_started follows only a
    task_retrying; so task_started precedes every other event of the task,
    there is at most one terminal event, and nothing follows it.  With an
    unknown agent the task has no task_started and at most the one
    task_failed.  That a terminal event is emitted at all is not
    claimed. *)
Theorem task_events_are_attempts
    (getAgent : string -> option Invoker.Agent)
    (q : TaskQueue) (connected : bool) (store : Store.RedisQueueStore) (s : State) :
  NoDup (task_id <$> queue_tasks q) ->
  undisturbed getAgent (init q connected store) s ->
  forall i t, tasks s !! i = Some t ->
    attempts (known getAgent t) (events_of (task_id t) (emitted s))
    /\ length (filter (fun k => is_terminal k = true)
                 (events_of (task_id t) (emitted s))) <= 1
    /\ (forall l k l',
          events_of (task_id t) (emitted s) = l ++ k :: l' ->
          is_terminal k = true -> l' = [])
    /\ (forall l k' k l',
          events_of (task_id t) (emitted s) = l ++ k' :: k :: l' ->
          if k is k_started then k' = k_retrying else k' = k_started)
    /\ (known getAgent t = true ->
        forall k l, events_of (task_id t) (emitted s) = k :: l -> k = k_started)
    /\ (known getAgent t = false ->
        events_of (task_id t) (emitted s) = [] \/
        events_of (task_id t) (emitted s) = [k_failed]).
Proof.
  intros Hids Hreach i t Hi.
  pose proof (Inv_reachable getAgent _ _ Hreach (Inv_init getAgent q connected store Hids))
    as H.
  assert (attempts (known getAgent t) (events_of (task_id t) (emitted s))) as Ha.
  { eapply (core_accept getAgent), Hi. apply (inv_core getAgent s H). }
  split; [done|]. split; [by eapply attempts_one_terminal|].
  split; [|split; [|split]].
  - intros l k l' E Hk. rewrite E in Ha. by eapply attempts_terminal_last.
  - intros l k' k l' E. rewrite E in Ha.
    pose proof (attempts_predecessor _ _ _ _ _ Ha) as Hp. by destruct k.
  - intros Hk k l E. rewrite E, Hk in Ha. by eapply attempts_first_started.
  - intros Hk. rewrite Hk in Ha. by apply attempts_unknown.
Qed.

Lemma task_events_are_attempts_witness :
  Forall (fun t =>
            attempts (known agents t)
              (events_of (task_id t)
                 (emitted (run agents retry_run
                             (begin [new_task "T1" "A1"; new_task "T2" "A1"])))))
    (tasks (run agents retry_run (begin [new_task "T1" "A1"; new_task "T2" "A1"]))).
Proof.
  apply Forall_lookup. intros i t Hi.
  refine (proj1 (task_events_are_attempts agents
                   (queue_of [new_task "T1" "A1"; new_task "T2" "A1"]) false no_redis
                   (run agents retry_run (begin [new_task "T1" "A1"; new_task "T2" "A1"]))
                   _ _ i t Hi)).
  - apply (bool_decide_unpack _). vm_compute. exact I.
  - apply run_undisturbed; vm_compute; reflexivity.
Defined.

End AttemptsClaims.

(** ** The rest of the queue store (services/RedisQueueStore.ts): the
    queue list, the busy test and the recovery scan *)

Module StoreRest.
Import Redis Store.

(** The order of a sorted set: by score, members of equal score in
    lexicographic order. *)
Definition zset_le (a b : string * Z) : Prop :=
  (a.2 < b.2)%Z \/ (a.2 = b.2 /\ String.leb a.1 b.1 = true).

#[global] Instance zset_le_dec (a b : string * Z) : Decision (zset_le a b).
Proof. unfold zset_le. apply _. Defined.

(** [zRange(key, 0, -1)] and [zRange(key, 0, -1, { REV: true })] *)
Definition zRange (key : string) (c : Client) : list string :=
  (merge_sort zset_le (map_to_list (default ∅ (zsets c !! key)))).*1.

Definition zRange_rev (key : string) (c : Client) : list string :=
  reverse (zRange key c).

(** [QueueListItem], with the fields as listQueues fills them: [name]
    and [status] are the texts of the row ([None]: [undefined]), and
    [createdAt] is the result of [parseInt] ([None]: [NaN]). *)
Record QueueListItem := {
  item_id : string;
  item_name : option string;
  item_status : option string;
  item_taskCount : nat;
  item_completedCount : nat;
  item_createdAt : option Z }.

(** [metrics.totalTasks || 0] and [metrics.completedTasks || 0] for
    [metrics = JSON.parse(queueData.metrics || "{}")]: the counters of
    stored metrics, 0 for a row without metrics and for a JSON value that
    has no such fields.  A metrics field that holds a plain text is not
    among the rows the store writes, and has no reading here. *)
Definition list_counts (data : gmap string Value) : option (nat * nat) :=
  match data !! "metrics" with
  | Some (JsonMetrics m) => Some (totalTasks m, completedTasks m)
  | Some (Text s) => if JS.truthy_str s then None else Some (0, 0)
  | Some _ => Some (0, 0)
  | None => Some (0, 0)
  end.

(** The item listQueues pushes for one id of the queue list; none for a
    row without an id. *)
Definition list_item (c : Client) (queueId : string) : option QueueListItem :=
  let queueData := hGetAll (KEYS.QUEUE ++ queueId) c in
  id ← text_field queueData "id";
  if negb (JS.truthy_str id) then None else
  counts ← list_counts queueData;
  Some {| item_id := id;
          item_name := text_field queueData "name";
          item_status := text_field queueData "status";
          item_taskCount := counts.1; item_completedCount := counts.2;
          item_createdAt := num_field queueData "createdAt" |}.

Definition listQueues_ (c : Client) : list QueueListItem :=
  omap (list_item c) (zRange_rev KEYS.QUEUE_LIST c).

Definition listQueues (store : RedisQueueStore) : list QueueListItem :=
  if client store is Some c then listQueues_ c else [].

(** [isAgentBusy(agentId)] *)
Definition isAgentBusy (agentId : string) (store : RedisQueueStore) : bool :=
  if client store is Some c then sIsMember KEYS.BUSY_AGENTS agentId c else false.

(** The body of the loop of loadInterruptedQueues: the queue, when the
    status field of its row is running or paused and it loads. *)
Definition interrupted (c : Client) (queueId : string) : option TaskQueue :=
  match hGet (KEYS.QUEUE ++ queueId) "status" c with
  | Some (Text status) =>
      if String.eqb status "running" || String.eqb status "paused"
      then loadQueue_ queueId c else None
  | _ => None
  end.

Definition loadInterruptedQueues_ (c : Client) : list TaskQueue :=
  omap (interrupted c) (zRange KEYS.QUEUE_LIST c).

Definition loadInterruptedQueues (store : RedisQueueStore) : list TaskQueue :=
  if client store is Some c then loadInterruptedQueues_ c else [].

(** TaskScheduler.recoverInterruptedQueues: nothing when the scheduler is
    not connected ([isRedisConnected]); otherwise every queue that
    loadInterruptedQueues returns is reset, in that order. *)
Definition recoverInterruptedQueues_ (c : Client) : Client :=
  fold_left (fun c queue => resetInterruptedQueue_ (queue_id queue) c)
            (loadInterruptedQueues_ c) c.

Definition recoverInterruptedQueues (isRedisConnected : bool) (store : RedisQueueStore)
  : RedisQueueStore :=
  if isRedisConnected then with_client recoverInterruptedQueues_ store else store.

End StoreRest.

(** ** Laws of the queue store: what a read returns after a write

    What the writing methods of RedisQueueStore change in what the reading
    methods return, and how the methods compose. *)

Module StoreLaws.
Import Redis Store StoreFacts StoreRest.

(** *** What loadTask reads *)

(** The readers of loadTask on the hash [h] give the fields of [t]. *)
Record reads_task (h : gmap string Value) (t : QueueTask) : Prop := {
  reads_id : text_field h "id" = Some (task_id t);
  reads_id_truthy : JS.truthy_str (task_id t) = true;
  reads_agentId : text_field h "agentId" = Some (task_agentId t);
  reads_message : text_field h "message" = Some (task_message t);
  reads_status : text_field h "status" ≫= status_of_name = Some (task_status t);
  reads_priority : num_field h "priority" = Some (task_priority t);
  reads_complexity : complexity_field h = Some (task_estimatedComplexity t);
  reads_retryCount : num_field h "retryCount" = Some (task_retryCount t);
  reads_maxRetries : num_field h "maxRetries" = Some (task_maxRetries t);
  reads_createdAt : num_field h "createdAt" = Some (task_createdAt t);
  reads_startedAt : opt_num_field h "startedAt" = Some (task_startedAt t);
  reads_completedAt : opt_num_field h "completedAt" = Some (task_completedAt t);
  reads_result : json_field as_result h "result" = Some (task_result t);
  reads_error : json_field as_error h "error" = Some (task_error t);
  reads_metadata : json_field as_metadata h "metadata" = Some (task_metadata t) }.

Lemma loadTask_reads (taskId : string) (c : Client) (t : QueueTask) :
  loadTask_ taskId c = Some t <-> reads_task (hGetAll (KEYS.TASK ++ taskId) c) t.
Proof.
  unfold loadTask_. set (h := hGetAll (KEYS.TASK ++ taskId) c). split.
  - intros H.
    destruct (text_field h "id") as [id|] eqn:E1; simpl in H; [|done].
    destruct (JS.truthy_str id) eqn:E2; simpl in H; [|done].
    destruct (text_field h "agentId") as [agentId|] eqn:E3; simpl in H; [|done].
    destruct (text_field h "message") as [message|] eqn:E4; simpl in H; [|done].
    destruct (text_field h "status" ≫= status_of_name) as [status|] eqn:E5;
      simpl in H; [|done].
    destruct (num_field h "priority") as [priority|] eqn:E6; simpl in H; [|done].
    destruct (complexity_field h) as [complexity|] eqn:E7; simpl in H; [|done].
    destruct (num_field h "retryCount") as [retryCount|] eqn:E8; simpl in H; [|done].
    destruct (num_field h "maxRetries") as [maxRetries|] eqn:E9; simpl in H; [|done].
    destruct (num_field h "createdAt") as [createdAt|] eqn:E10; simpl in H; [|done].
    destruct (opt_num_field h "startedAt") as [startedAt|] eqn:E11; simpl in H; [|done].
    destruct (opt_num_field h "completedAt") as [completedAt|] eqn:E12;
      simpl in H; [|done].
    destruct (json_field as_result h "result") as [result|] eqn:E13; simpl in H; [|done].
    destruct (json_field as_error h "error") as [error|] eqn:E14; simpl in H; [|done].
    destruct (json_field as_metadata h "metadata") as [metadata|] eqn:E15;
      simpl in H; [|done].
    injection H as <-. by split.
  - intros [H1 H2 H3 H4 H5 H6 H7 H8 H9 H10 H11 H12 H13 H14 H15].
    rewrite H1. simpl. rewrite H2. simpl. rewrite H3, H4. simpl. rewrite H5. simpl.
    rewrite H6. simpl. rewrite H7. simpl. rewrite H8. simpl. rewrite H9. simpl.
    rewrite H10. simpl. rewrite H11. simpl. rewrite H12. simpl. rewrite H13. simpl.
    rewrite H14. simpl. rewrite H15. simpl. by destruct t.
Qed.

(** The readers look at one field of the hash each. *)
Lemma text_field_ext (h h' : gmap string Value) (field : string) :
  h' !! field = h !! field -> text_field h' field = text_field h field.
Proof. unfold text_field. by intros ->. Qed.

Lemma num_field_ext (h h' : gmap string Value) (field : string) :
  h' !! field = h !! field -> num_field h' field = num_field h field.
Proof. unfold num_field, text_field. by intros ->. Qed.

Lemma opt_num_field_ext (h h' : gmap string Value) (field : string) :
  h' !! field = h !! field -> opt_num_field h' field = opt_num_field h field.
Proof. unfold opt_num_field. by intros ->. Qed.

Lemma complexity_field_ext (h h' : gmap string Value) :
  h' !! "estimatedComplexity" = h !! "estimatedComplexity" ->
  complexity_field h' = complexity_field h.
Proof. unfold complexity_field. by intros ->. Qed.

Lemma json_field_ext {A} (project : Value -> option A) (h h' : gmap string Value)
    (field : string) :
  h' !! field = h !! field -> json_field project h' field = json_field project h field.
Proof. unfold json_field. by intros ->. Qed.

(** loadTask reads the hash of the task and nothing else. *)
Lemma loadTask_ext (taskId : string) (c c' : Client) :
  hGetAll (KEYS.TASK ++ taskId) c' = hGetAll (KEYS.TASK ++ taskId) c ->
  loadTask_ taskId c' = loadTask_ taskId c.
Proof. unfold loadTask_. by intros ->. Qed.

(** *** Fields of a hash after hSet *)

(** The first value [data] gives for [field]. *)
Fixpoint assoc (field : string) (data : list (string * Value)) : option Value :=
  match data with
  | [] => None
  | (k, v) :: rest => if String.eqb k field then Some v else assoc field rest
  end.

Lemma assoc_cons_ne (k field : string) (v : Value) (rest : list (string * Value)) :
  k <> field -> assoc field ((k, v) :: rest) = assoc field rest.
Proof. intros H%String.eqb_neq. simpl. by rewrite H. Qed.

Lemma lookup_list_to_map (data : list (string * Value)) (field : string) :
  (list_to_map data : gmap string Value) !! field = assoc field data.
Proof.
  induction data as [|[k v] rest IH]; simpl; [apply lookup_empty|].
  destruct (String.eqb_spec k field) as [->|Hne].
  - apply lookup_insert_eq.
  - by rewrite lookup_insert_ne.
Qed.

Lemma lookup_hSet (key field : string) (data : list (string * Value)) (c : Client) :
  hGetAll key (hSet key data c) !! field =
    match assoc field data with
    | Some v => Some v
    | None => hGetAll key c !! field
    end.
Proof.
  rewrite hGetAll_hSet, lookup_union, lookup_list_to_map.
  destruct (assoc field data), (hGetAll key c !! field); reflexivity.
Qed.

(** *** saveTask then loadTask *)

(** [x ? String(x) : ""] read back by [s ? parseInt(s, 10) : undefined]: a
    timestamp 0 is read back as [undefined]. *)
Definition drop_zero (o : option Z) : option Z :=
  if JS.truthy_onum o then o else None.

(** The task as its row reads back. *)
Definition stored_form (t : QueueTask) : QueueTask :=
  {| task_id := task_id t; task_agentId := task_agentId t;
     task_message := task_message t; task_status := task_status t;
     task_priority := task_priority t;
     task_estimatedComplexity := task_estimatedComplexity t;
     task_retryCount := task_retryCount t; task_maxRetries := task_maxRetries t;
     task_createdAt := task_createdAt t;
     task_startedAt := drop_zero (task_startedAt t);
     task_completedAt := drop_zero (task_completedAt t);
     task_result := task_result t; task_error := task_error t;
     task_metadata := task_metadata t |}.

Lemma drop_zero_storable (o : option Z) : storable (drop_zero o).
Proof.
  unfold storable, drop_zero. destruct o as [n|]; simpl; [|done].
  unfold JS.truthy_num. destruct (Z.eqb_spec n 0); simpl; congruence.
Qed.

Lemma drop_zero_id (o : option Z) : storable o -> drop_zero o = o.
Proof.
  unfold storable, drop_zero. destruct o as [n|]; simpl; [|done].
  unfold JS.truthy_num. destruct (Z.eqb_spec n 0); simpl; congruence.
Qed.

Lemma opt_num_text_drop_zero (o : option Z) : opt_num_text (drop_zero o) = opt_num_text o.
Proof.
  unfold opt_num_text, drop_zero. destruct o as [n|]; simpl; [|done].
  destruct (JS.truthy_num n) eqn:E; simpl; by rewrite ?E.
Qed.

Lemma taskData_stored_form (t : QueueTask) : taskData (stored_form t) = taskData t.
Proof. unfold taskData. simpl. by rewrite !opt_num_text_drop_zero. Qed.

Lemma stored_form_storable (t : QueueTask) : storable_task t -> stored_form t = t.
Proof.
  intros (_ & Hs & Hc). unfold stored_form. rewrite !drop_zero_id by done. by destruct t.
Qed.

Lemma loadTask_saveTask_ (t : QueueTask) (c : Client) :
  task_id t <> "" -> loadTask_ (task_id t) (saveTask_ t c) = Some (stored_form t).
Proof.
  intros Hid. apply (loadTask_has_fields (task_id t) (stored_form t)).
  - rewrite taskData_stored_form. apply hSet_has_fields, taskData_fields_NoDup.
  - repeat split; [done|apply drop_zero_storable..].
Qed.

Lemma loadTask_empty_id (taskId : string) (c : Client) :
  text_field (hGetAll (KEYS.TASK ++ taskId) c) "id" = Some "" ->
  loadTask_ taskId c = None.
Proof. unfold loadTask_. by intros ->. Qed.

(** X1: saveTask(t) then loadTask(t.id), on a store with a client, for a
    task whose numbers (priority, retryCount, maxRetries and the
    timestamps) are safe integers: the task comes back, with a timestamp 0
    read as absent; a task whose id is the empty string does not come back
    at all. *)
Theorem saveTask_then_loadTask (t : QueueTask) (store : RedisQueueStore) :
  is_Some (client store) ->
  safe_task t = true ->
  (task_id t <> "" -> loadTask (task_id t) (saveTask t store) = Some (stored_form t))
  /\ (storable_task t -> loadTask (task_id t) (saveTask t store) = Some t)
  /\ (task_id t = "" -> loadTask (task_id t) (saveTask t store) = None).
Proof.
  intros [c Hc] _. unfold loadTask, saveTask, with_client. rewrite Hc. simpl.
  split; [|split].
  - apply loadTask_saveTask_.
  - intros Hst. rewrite loadTask_saveTask_ by apply Hst. by rewrite stored_form_storable.
  - intros Hid. apply loadTask_empty_id. unfold saveTask_.
    apply text_field_has. rewrite lookup_hSet. unfold taskData. simpl. by rewrite Hid.
Qed.

Lemma saveTask_then_loadTask_witness :
  is_Some (client StoreRuns.connected)
  /\ loadTask "T1" (saveTask StoreRuns.T1 StoreRuns.connected) = Some StoreRuns.T1.
Proof.
  split; [by eexists|].
  apply (proj1 (proj2 (saveTask_then_loadTask StoreRuns.T1 StoreRuns.connected
                         (ex_intro _ Redis.empty eq_refl) eq_refl))).
  repeat split; discriminate.
Defined.

(** *** updateTask then loadTask *)

(** The task after the updates: a field the updates hold replaces the
    task's; a field that is [undefined] in the updates leaves it. *)
Definition apply_updates (u : TaskUpdates) (t : QueueTask) : QueueTask :=
  {| task_id := task_id t; task_agentId := task_agentId t;
     task_message := task_message t;
     task_status := default (task_status t) (upd_status u);
     task_priority := task_priority t;
     task_estimatedComplexity := task_estimatedComplexity t;
     task_retryCount := default (task_retryCount t) (upd_retryCount u);
     task_maxRetries := task_maxRetries t;
     task_createdAt := task_createdAt t;
     task_startedAt :=
       if upd_startedAt u is Some _ then drop_zero (upd_startedAt u) else task_startedAt t;
     task_completedAt :=
       if upd_completedAt u is Some _ then drop_zero (upd_completedAt u)
       else task_completedAt t;
     task_result := if upd_result u is Some _ then upd_result u else task_result t;
     task_error := if upd_error u is Some _ then upd_error u else task_error t;
     task_metadata := task_metadata t |}.

(** The fields updateTask writes. *)
Lemma updateTask_data_fields (u : TaskUpdates) :
  assoc "id" (updateTask_data u) = None
  /\ assoc "agentId" (updateTask_data u) = None
  /\ assoc "message" (updateTask_data u) = None
  /\ assoc "priority" (updateTask_data u) = None
  /\ assoc "estimatedComplexity" (updateTask_data u) = None
  /\ assoc "maxRetries" (updateTask_data u) = None
  /\ assoc "createdAt" (updateTask_data u) = None
  /\ assoc "metadata" (updateTask_data u) = None
  /\ assoc "status" (updateTask_data u) = (fun s => Text (status_name s)) <$> upd_status u
  /\ assoc "startedAt" (updateTask_data u)
     = (fun _ => opt_num_text (upd_startedAt u)) <$> upd_startedAt u
  /\ assoc "completedAt" (updateTask_data u)
     = (fun _ => opt_num_text (upd_completedAt u)) <$> upd_completedAt u
  /\ assoc "result" (updateTask_data u) = JsonResult <$> upd_result u
  /\ assoc "error" (updateTask_data u) = JsonError <$> upd_error u
  /\ assoc "retryCount" (updateTask_data u)
     = (fun n => Text (JS.to_String n)) <$> upd_retryCount u.
Proof. by destruct u as [[?|] [?|] [?|] [?|] [?|] [?|]]. Qed.

Lemma lookup_updateTask (taskId field : string) (u : TaskUpdates) (c : Client) :
  hGetAll (KEYS.TASK ++ taskId) (updateTask_ taskId u c) !! field =
    match assoc field (updateTask_data u) with
    | Some v => Some v
    | None => hGetAll (KEYS.TASK ++ taskId) c !! field
    end.
Proof.
  unfold updateTask_. case_decide as Hlen; [apply lookup_hSet|].
  by destruct (updateTask_data u); [|simpl in Hlen; lia].
Qed.

Lemma opt_num_field_written (h : gmap string Value) (field : string) (o : option Z) :
  h !! field = Some (opt_num_text o) -> opt_num_field h field = Some (drop_zero o).
Proof.
  intros H. apply opt_num_field_has; [apply drop_zero_storable|].
  by rewrite opt_num_text_drop_zero.
Qed.

Lemma reads_task_updateTask (taskId : string) (u : TaskUpdates) (c : Client) (t : QueueTask) :
  reads_task (hGetAll (KEYS.TASK ++ taskId) c) t ->
  reads_task (hGetAll (KEYS.TASK ++ taskId) (updateTask_ taskId u c)) (apply_updates u t).
Proof.
  intros [H1 H2 H3 H4 H5 H6 H7 H8 H9 H10 H11 H12 H13 H14 H15].
  destruct (updateTask_data_fields u)
    as (F1 & F2 & F3 & F4 & F5 & F6 & F7 & F8 & F9 & F10 & F11 & F12 & F13 & F14).
  set (h := hGetAll (KEYS.TASK ++ taskId) c) in *.
  set (h' := hGetAll (KEYS.TASK ++ taskId) (updateTask_ taskId u c)).
  assert (forall field, assoc field (updateTask_data u) = None -> h' !! field = h !! field)
    as Hsame by (intros field Hf; unfold h'; by rewrite lookup_updateTask, Hf).
  assert (forall field v, assoc field (updateTask_data u) = Some v -> h' !! field = Some v)
    as Hnew by (intros field v Hf; unfold h'; by rewrite lookup_updateTask, Hf).
  split; simpl.
  - by rewrite (text_field_ext h) by by apply Hsame.
  - done.
  - by rewrite (text_field_ext h) by by apply Hsame.
  - by rewrite (text_field_ext h) by by apply Hsame.
  - destruct (upd_status u) as [s|]; simpl in *.
    + rewrite (text_field_has h' "status" (status_name s)) by by apply Hnew.
      simpl. apply status_of_name_name.
    + by rewrite (text_field_ext h) by by apply Hsame.
  - by rewrite (num_field_ext h) by by apply Hsame.
  - by rewrite (complexity_field_ext h) by by apply Hsame.
  - destruct (upd_retryCount u) as [n|]; simpl in *.
    + apply num_field_has. by apply Hnew.
    + by rewrite (num_field_ext h) by by apply Hsame.
  - by rewrite (num_field_ext h) by by apply Hsame.
  - by rewrite (num_field_ext h) by by apply Hsame.
  - destruct (upd_startedAt u) as [n|] eqn:E; simpl in *.
    + apply opt_num_field_written. by apply Hnew.
    + by rewrite (opt_num_field_ext h) by by apply Hsame.
  - destruct (upd_completedAt u) as [n|] eqn:E; simpl in *.
    + apply opt_num_field_written. by apply Hnew.
    + by rewrite (opt_num_field_ext h) by by apply Hsame.
  - destruct (upd_result u) as [r|]; simpl in *.
    + apply (json_field_result h' (Some r)). by apply Hnew.
    + by rewrite (json_field_ext as_result h) by by apply Hsame.
  - destruct (upd_error u) as [e|]; simpl in *.
    + apply (json_field_error h' (Some e)). by apply Hnew.
    + by rewrite (json_field_ext as_error h) by by apply Hsame.
  - by rewrite (json_field_ext as_metadata h) by by apply Hsame.
Qed.

Lemma loadTask_updateTask_ (taskId : string) (u : TaskUpdates) (c : Client) (t : QueueTask) :
  loadTask_ taskId c = Some t ->
  loadTask_ taskId (updateTask_ taskId u c) = Some (apply_updates u t).
Proof. rewrite !loadTask_reads. apply reads_task_updateTask. Qed.

Lemma hGetAll_updateTask_ne (taskId key : string) (u : TaskUpdates) (c : Client) :
  KEYS.TASK ++ taskId <> key ->
  hGetAll key (updateTask_ taskId u c) = hGetAll key c.
Proof.
  intros Hne. unfold updateTask_. case_decide; [|done]. by apply hGetAll_hSet_ne.
Qed.

Lemma loadTask_updateTask_ne (taskId other : string) (u : TaskUpdates) (c : Client) :
  other <> taskId ->
  loadTask_ other (updateTask_ taskId u c) = loadTask_ other c.
Proof.
  intros Hne. apply loadTask_ext, hGetAll_updateTask_ne.
  intros Heq%task_key_inj. by subst.
Qed.

Lemma loadTask_updateTask_absent (taskId : string) (u : TaskUpdates) (c : Client) :
  hashes c !! (KEYS.TASK ++ taskId) = None ->
  loadTask_ taskId (updateTask_ taskId u c) = None.
Proof.
  intros Habsent. unfold loadTask_.
  destruct (updateTask_data_fields u) as (F1 & _).
  assert (text_field (hGetAll (KEYS.TASK ++ taskId) (updateTask_ taskId u c)) "id" = None)
    as ->; [|done].
  rewrite (text_field_ext ∅ _ "id").
  - unfold text_field. by rewrite lookup_empty.
  - rewrite lookup_updateTask, F1. unfold hGetAll. by rewrite Habsent.
Qed.

(** X2: updateTask(id, updates) then loadTask(id): a task that loaded before
    comes back with the fields of [updates] and its other fields as they
    were, a field passed as [undefined] among them; no other task changes;
    and after an update of an id the store holds no row for, loadTask
    still answers null for it. *)
Theorem updateTask_then_loadTask (taskId : string) (u : TaskUpdates)
    (store : RedisQueueStore) :
  (forall t, loadTask taskId store = Some t ->
     loadTask taskId (updateTask taskId u store) = Some (apply_updates u t))
  /\ (forall other, other <> taskId ->
        loadTask other (updateTask taskId u store) = loadTask other store)
  /\ (forall c, client store = Some c -> hashes c !! (KEYS.TASK ++ taskId) = None ->
        loadTask taskId (updateTask taskId u store) = None).
Proof.
  unfold loadTask, updateTask, with_client.
  destruct (client store) as [c|] eqn:Hc; simpl; [|rewrite Hc; simpl; by repeat split].
  split; [|split].
  - intros t H. by apply loadTask_updateTask_.
  - intros other Hne. by apply loadTask_updateTask_ne.
  - intros c' [= <-] Habsent. by apply loadTask_updateTask_absent.
Qed.

Lemma updateTask_then_loadTask_witness :
  loadTask "T1" StoreRuns.crashed = Some StoreRuns.T1
  /\ loadTask "T1"
       (updateTask "T1"
          {| upd_status := Some pending; upd_startedAt := None; upd_completedAt := None;
             upd_result := None; upd_error := None; upd_retryCount := Some 1%Z |}
          StoreRuns.crashed)
     = Some (apply_updates
               {| upd_status := Some pending; upd_startedAt := None;
                  upd_completedAt := None; upd_result := None; upd_error := None;
                  upd_retryCount := Some 1%Z |} StoreRuns.T1).
Proof.
  split; [vm_compute; reflexivity|].
  apply (proj1 (updateTask_then_loadTask "T1" _ StoreRuns.crashed)).
  vm_compute. reflexivity.
Defined.

(** *** What loadQueue reads *)

Record reads_queue (h : gmap string Value) (q : TaskQueue) : Prop := {
  readq_id : text_field h "id" = Some (queue_id q);
  readq_id_truthy : JS.truthy_str (queue_id q) = true;
  readq_name : text_field h "name" = Some (queue_name q);
  readq_status : text_field h "status" ≫= queue_status_of_name = Some (queue_status q);
  readq_settings : settings_field h = Some (queue_settings q);
  readq_metrics : metrics_field h = Some (queue_metrics q);
  readq_createdAt : num_field h "createdAt" = Some (queue_createdAt q);
  readq_startedAt : opt_num_field h "startedAt" = Some (queue_startedAt q);
  readq_completedAt : opt_num_field h "completedAt" = Some (queue_completedAt q) }.

(** The tasks loadQueue collects: those of the task list that load. *)
Definition listed_tasks (queueId : string) (c : Client) : list QueueTask :=
  omap (fun taskId => loadTask_ taskId c) (lRange (KEYS.QUEUE_TASKS ++ queueId) c).

Lemma loadQueue_reads (queueId : string) (c : Client) (q : TaskQueue) :
  loadQueue_ queueId c = Some q <->
  reads_queue (hGetAll (KEYS.QUEUE ++ queueId) c) q
  /\ queue_tasks q = listed_tasks queueId c
  /\ queue_description q = None.
Proof.
  unfold loadQueue_, listed_tasks. set (h := hGetAll (KEYS.QUEUE ++ queueId) c). split.
  - intros H.
    destruct (text_field h "id") as [id|] eqn:E1; simpl in H; [|done].
    destruct (JS.truthy_str id) eqn:E2; simpl in H; [|done].
    destruct (text_field h "name") as [name|] eqn:E3; simpl in H; [|done].
    destruct (text_field h "status" ≫= queue_status_of_name) as [status|] eqn:E4;
      simpl in H; [|done].
    destruct (settings_field h) as [settings|] eqn:E5; simpl in H; [|done].
    destruct (metrics_field h) as [metrics|] eqn:E6; simpl in H; [|done].
    destruct (num_field h "createdAt") as [createdAt|] eqn:E7; simpl in H; [|done].
    destruct (opt_num_field h "startedAt") as [startedAt|] eqn:E8; simpl in H; [|done].
    destruct (opt_num_field h "completedAt") as [completedAt|] eqn:E9;
      simpl in H; [|done].
    injection H as <-. by repeat split.
  - intros ([H1 H2 H3 H4 H5 H6 H7 H8 H9] & Htasks & Hdesc).
    rewrite H1. simpl. rewrite H2. simpl. rewrite H3. simpl. rewrite H4. simpl.
    rewrite H5. simpl. rewrite H6. simpl. rewrite H7. simpl. rewrite H8. simpl.
    rewrite H9. simpl. rewrite <- Htasks. destruct q. simpl in *. by subst.
Qed.

Lemma settings_field_ext (h h' : gmap string Value) :
  h' !! "settings" = h !! "settings" -> settings_field h' = settings_field h.
Proof. unfold settings_field. by intros ->. Qed.

Lemma metrics_field_ext (h h' : gmap string Value) :
  h' !! "metrics" = h !! "metrics" -> metrics_field h' = metrics_field h.
Proof. unfold metrics_field. by intros ->. Qed.

Lemma queue_key_not_task_key (a b : string) : KEYS.QUEUE ++ a <> KEYS.TASK ++ b.
Proof. intros H. by apply (task_key_not_queue_key b a). Qed.

Lemma omap_loadTask_ext (c c' : Client) (taskIds : list string) :
  (forall taskId, taskId ∈ taskIds -> loadTask_ taskId c' = loadTask_ taskId c) ->
  omap (fun taskId => loadTask_ taskId c') taskIds
  = omap (fun taskId => loadTask_ taskId c) taskIds.
Proof.
  induction taskIds as [|taskId rest IH]; intros H; csimpl; [done|].
  rewrite H by left. rewrite IH; [done|]. intros x Hx. apply H. by right.
Qed.

(** A write to the hash of a queue leaves its tasks as they load. *)
Lemma listed_tasks_hSet (queueId key : string) (data : list (string * Value)) (c : Client) :
  listed_tasks queueId (hSet (KEYS.QUEUE ++ key) data c) = listed_tasks queueId c.
Proof.
  unfold listed_tasks. rewrite lRange_hSet. apply omap_loadTask_ext.
  intros taskId _. apply loadTask_ext, hGetAll_hSet_ne, queue_key_not_task_key.
Qed.

(** *** updateQueueStatus and updateQueueMetrics, then loadQueue *)

(** The fields updateQueueStatus writes. *)
Definition status_updates (status : QueueStatus) (timestamp : option Z)
  : list (string * Value) :=
  ([("status", Text (queue_status_name status))] ++
   if decide (status = running) then
     if JS.truthy_onum timestamp
     then [("startedAt", Text (JS.to_String (default 0%Z timestamp)))] else []
   else if decide (status = q_completed) then
     if JS.truthy_onum timestamp
     then [("completedAt", Text (JS.to_String (default 0%Z timestamp)))] else []
   else [])%list.

(** The queue after updateQueueStatus: the new status; the timestamp
    becomes startedAt when the status is running, completedAt when it is
    completed, and is dropped otherwise, and when it is 0 or absent. *)
Definition with_status (status : QueueStatus) (timestamp : option Z) (q : TaskQueue)
  : TaskQueue :=
  {| queue_id := queue_id q; queue_name := queue_name q;
     queue_description := queue_description q; queue_tasks := queue_tasks q;
     queue_settings := queue_settings q;
     queue_status := status;
     queue_createdAt := queue_createdAt q;
     queue_startedAt :=
       if decide (status = running) then
         if JS.truthy_onum timestamp then timestamp else queue_startedAt q
       else queue_startedAt q;
     queue_completedAt :=
       if decide (status = q_completed) then
         if JS.truthy_onum timestamp then timestamp else queue_completedAt q
       else queue_completedAt q;
     queue_metrics := queue_metrics q |}.

Definition with_metrics (metrics : TaskQueueMetrics) (q : TaskQueue) : TaskQueue :=
  {| queue_id := queue_id q; queue_name := queue_name q;
     queue_description := queue_description q; queue_tasks := queue_tasks q;
     queue_settings := queue_settings q; queue_status := queue_status q;
     queue_createdAt := queue_createdAt q; queue_startedAt := queue_startedAt q;
     queue_completedAt := queue_completedAt q; queue_metrics := metrics |}.

Lemma opt_num_field_timestamp (h : gmap string Value) (field : string) (timestamp : option Z) :
  JS.truthy_onum timestamp = true ->
  h !! field = Some (Text (JS.to_String (default 0%Z timestamp))) ->
  opt_num_field h field = Some timestamp.
Proof.
  intros Ht H. apply opt_num_field_has.
  - unfold storable. intros ->. discriminate Ht.
  - unfold opt_num_text. by rewrite Ht.
Qed.

Lemma reads_queue_updateQueueStatus (queueId : string) (status : QueueStatus)
    (timestamp : option Z) (c : Client) (q : TaskQueue) :
  reads_queue (hGetAll (KEYS.QUEUE ++ queueId) c) q ->
  reads_queue (hGetAll (KEYS.QUEUE ++ queueId) (updateQueueStatus_ queueId status timestamp c))
    (with_status status timestamp q).
Proof.
  intros [H1 H2 H3 H4 H5 H6 H7 H8 H9].
  change (updateQueueStatus_ queueId status timestamp c)
    with (hSet (KEYS.QUEUE ++ queueId) (status_updates status timestamp) c).
  set (h := hGetAll (KEYS.QUEUE ++ queueId) c) in *.
  set (h' := hGetAll _ (hSet _ _ c)).
  assert (forall field, h' !! field =
            match assoc field (status_updates status timestamp) with
            | Some v => Some v
            | None => h !! field
            end) as Hlook by (intros field; apply lookup_hSet).
  assert (h' !! "status" = Some (Text (queue_status_name status))) as Hstatus
    by (rewrite Hlook; reflexivity).
  assert (forall field, field <> "status" -> field <> "startedAt" ->
            field <> "completedAt" -> h' !! field = h !! field) as Hsame.
  { intros field N1 N2 N3. rewrite Hlook. unfold status_updates. cbn [app].
    rewrite assoc_cons_ne by done.
    repeat case_decide; destruct (JS.truthy_onum timestamp);
      by rewrite ?assoc_cons_ne by done. }
  split; simpl.
  - by rewrite (text_field_ext h) by by apply Hsame.
  - done.
  - by rewrite (text_field_ext h) by by apply Hsame.
  - rewrite (text_field_has h' "status" (queue_status_name status)) by done.
    simpl. apply queue_status_of_name_name.
  - by rewrite (settings_field_ext h) by by apply Hsame.
  - by rewrite (metrics_field_ext h) by by apply Hsame.
  - by rewrite (num_field_ext h) by by apply Hsame.
  - unfold status_updates in Hlook.
    repeat case_decide; try congruence; destruct (JS.truthy_onum timestamp) eqn:Ht;
      first [ apply opt_num_field_timestamp; [done|]; by rewrite Hlook
            | rewrite (opt_num_field_ext h); [done|]; by rewrite Hlook ].
  - unfold status_updates in Hlook.
    repeat case_decide; try congruence; destruct (JS.truthy_onum timestamp) eqn:Ht;
      first [ apply opt_num_field_timestamp; [done|]; by rewrite Hlook
            | rewrite (opt_num_field_ext h); [done|]; by rewrite Hlook ].
Qed.

Lemma loadQueue_updateQueueStatus_ (queueId : string) (status : QueueStatus)
    (timestamp : option Z) (c : Client) (q : TaskQueue) :
  loadQueue_ queueId c = Some q ->
  loadQueue_ queueId (updateQueueStatus_ queueId status timestamp c)
  = Some (with_status status timestamp q).
Proof.
  rewrite !loadQueue_reads. intros (Hq & Htasks & Hdesc). split; [|split].
  - by apply reads_queue_updateQueueStatus.
  - simpl. rewrite Htasks. symmetry. apply listed_tasks_hSet.
  - done.
Qed.

Lemma loadQueue_updateQueueMetrics_ (queueId : string) (metrics : TaskQueueMetrics)
    (c : Client) (q : TaskQueue) :
  loadQueue_ queueId c = Some q ->
  loadQueue_ queueId (hSet (KEYS.QUEUE ++ queueId) [("metrics", JsonMetrics metrics)] c)
  = Some (with_metrics metrics q).
Proof.
  rewrite !loadQueue_reads. intros ([H1 H2 H3 H4 H5 H6 H7 H8 H9] & Htasks & Hdesc).
  split; [|split]; [|simpl; rewrite Htasks; symmetry; apply listed_tasks_hSet|done].
  set (h := hGetAll (KEYS.QUEUE ++ queueId) c) in *.
  set (h' := hGetAll _ (hSet _ _ c)).
  assert (forall field, field <> "metrics" -> h' !! field = h !! field) as Hsame.
  { intros field N. unfold h'. rewrite lookup_hSet. by rewrite assoc_cons_ne by done. }
  split; simpl.
  - by rewrite (text_field_ext h) by by apply Hsame.
  - done.
  - by rewrite (text_field_ext h) by by apply Hsame.
  - by rewrite (text_field_ext h) by by apply Hsame.
  - by rewrite (settings_field_ext h) by by apply Hsame.
  - unfold metrics_field, h'. by rewrite lookup_hSet.
  - by rewrite (num_field_ext h) by by apply Hsame.
  - by rewrite (opt_num_field_ext h) by by apply Hsame.
  - by rewrite (opt_num_field_ext h) by by apply Hsame.
Qed.

(** X3: updateQueueStatus and updateQueueMetrics change what loadQueue returns
    in the fields they name and in no other: the status, with startedAt
    for running and completedAt for completed when a timestamp other than
    0 is passed (for paused and failed the timestamp is dropped); the
    metrics. *)
Theorem updateQueue_fields_then_loadQueue (queueId : string) (store : RedisQueueStore)
    (q : TaskQueue) :
  loadQueue queueId store = Some q ->
  (forall status timestamp,
     loadQueue queueId (updateQueueStatus queueId status timestamp store)
     = Some (with_status status timestamp q))
  /\ (forall metrics,
        loadQueue queueId (updateQueueMetrics queueId metrics store)
        = Some (with_metrics metrics q)).
Proof.
  unfold loadQueue, updateQueueStatus, updateQueueMetrics, with_client.
  destruct (client store) as [c|]; simpl; [|done].
  intros H. split.
  - intros status timestamp. by apply loadQueue_updateQueueStatus_.
  - intros metrics. by apply loadQueue_updateQueueMetrics_.
Qed.

Lemma updateQueue_fields_then_loadQueue_witness :
  loadQueue "Q" StoreRuns.crashed = Some (without_description StoreRuns.Q)
  /\ loadQueue "Q" (updateQueueStatus "Q" q_completed (Some 5000%Z) StoreRuns.crashed)
     = Some (with_status q_completed (Some 5000%Z) (without_description StoreRuns.Q)).
Proof.
  split; [vm_compute; reflexivity|].
  apply (proj1 (updateQueue_fields_then_loadQueue "Q" StoreRuns.crashed
                  (without_description StoreRuns.Q) eq_refl)).
Defined.

(** *** deleteQueue *)

Lemma hashes_del (key key' : string) (c : Client) :
  hashes (del key c) !! key' = if decide (key = key') then None else hashes c !! key'.
Proof.
  unfold del. simpl. case_decide as H.
  - subst. apply lookup_delete_eq.
  - by apply lookup_delete_ne.
Qed.

Lemma hashes_del_None (key key' : string) (c : Client) :
  hashes c !! key' = None -> hashes (del key c) !! key' = None.
Proof. intros H. rewrite hashes_del. by case_decide. Qed.

Lemma lRange_del (key key' : string) (c : Client) :
  lRange key' (del key c) = if decide (key = key') then [] else lRange key' c.
Proof.
  unfold lRange, del. simpl. case_decide as H.
  - subst. by rewrite lookup_delete_eq.
  - by rewrite lookup_delete_ne.
Qed.

Lemma lRange_del_nil (key key' : string) (c : Client) :
  lRange key' c = [] -> lRange key' (del key c) = [].
Proof. intros H. rewrite lRange_del. by case_decide. Qed.

Lemma hGetAll_del_ne (key key' : string) (c : Client) :
  key <> key' -> hGetAll key' (del key c) = hGetAll key' c.
Proof. intros H. unfold hGetAll. rewrite hashes_del. by case_decide. Qed.

Lemma hashes_zRem (key member : string) (c : Client) :
  hashes (zRem key member c) = hashes c.
Proof. reflexivity. Qed.

Lemma lRange_zRem (key key' member : string) (c : Client) :
  lRange key' (zRem key member c) = lRange key' c.
Proof. reflexivity. Qed.

Lemma hGetAll_del (key key' : string) (c : Client) :
  hGetAll key' (del key c) = if decide (key = key') then ∅ else hGetAll key' c.
Proof. unfold hGetAll. rewrite hashes_del. by case_decide. Qed.

(** The [for (const taskId of taskIds)] loop of deleteQueue. *)
Definition delete_tasks (taskIds : list string) (c : Client) : Client :=
  fold_left (fun c taskId => del (KEYS.TASK ++ taskId) c) taskIds c.

Lemma delete_tasks_None (taskIds : list string) (key : string) (c : Client) :
  hashes c !! key = None -> hashes (delete_tasks taskIds c) !! key = None.
Proof.
  revert c. induction taskIds as [|taskId rest IH]; intros c H; [done|].
  apply IH. by apply hashes_del_None.
Qed.

Lemma delete_tasks_listed (taskIds : list string) (taskId : string) (c : Client) :
  taskId ∈ taskIds -> hashes (delete_tasks taskIds c) !! (KEYS.TASK ++ taskId) = None.
Proof.
  revert c. induction taskIds as [|a rest IH]; intros c Hin; [by apply elem_of_nil in Hin|].
  apply elem_of_cons in Hin as [->|Hin]; [|by apply IH].
  change (delete_tasks (a :: rest) c) with (delete_tasks rest (del (KEYS.TASK ++ a) c)).
  apply delete_tasks_None. rewrite hashes_del. by case_decide.
Qed.

Lemma loadTask_absent (taskId : string) (c : Client) :
  hashes c !! (KEYS.TASK ++ taskId) = None -> loadTask_ taskId c = None.
Proof.
  intros H. unfold loadTask_, hGetAll. rewrite H. simpl.
  unfold text_field. by rewrite lookup_empty.
Qed.

(** The ids of the queue list, as zRange gives them. *)
Definition queue_ids (store : RedisQueueStore) : list string :=
  if client store is Some c then zRange KEYS.QUEUE_LIST c else [].

(** The task list of a queue. *)
Definition task_list (queueId : string) (store : RedisQueueStore) : list string :=
  if client store is Some c then lRange (KEYS.QUEUE_TASKS ++ queueId) c else [].

Lemma elem_of_zRange (key member : string) (c : Client) :
  member ∈ zRange key c <-> is_Some (default ∅ (zsets c !! key) !! member).
Proof.
  unfold zRange. rewrite list_elem_of_fmap. split.
  - intros ([m score] & -> & Hin). rewrite merge_sort_Permutation in Hin.
    apply elem_of_map_to_list in Hin. by eexists.
  - intros [score H]. exists (member, score). split; [done|].
    rewrite merge_sort_Permutation. by apply elem_of_map_to_list.
Qed.

Lemma zRange_zRem (key member : string) (c : Client) :
  member ∉ zRange key (zRem key member c).
Proof.
  rewrite elem_of_zRange. unfold zRem. simpl. rewrite lookup_insert_eq. simpl.
  rewrite lookup_delete_eq. by intros [? ?].
Qed.

(** X4: after deleteQueue(id): loadQueue(id) answers null, so does loadTask for
    every task the queue listed, the pending list of the queue is empty,
    and the id has left the queue list. *)
Theorem deleteQueue_then_absent (queueId : string) (store : RedisQueueStore) :
  loadQueue queueId (deleteQueue queueId store) = None
  /\ (forall taskId, taskId ∈ task_list queueId store ->
        loadTask taskId (deleteQueue queueId store) = None)
  /\ getPendingCount queueId (deleteQueue queueId store) = 0
  /\ task_list queueId (deleteQueue queueId store) = []
  /\ queueId ∉ queue_ids (deleteQueue queueId store).
Proof.
  unfold loadQueue, loadTask, deleteQueue, getPendingCount, task_list, queue_ids, with_client.
  destruct (client store) as [c|] eqn:Hc; simpl.
  - unfold deleteQueue_.
    fold (delete_tasks (lRange (KEYS.QUEUE_TASKS ++ queueId) c) c).
    set (c1 := delete_tasks _ c). repeat split.
    + apply loadQueue_absent. rewrite hashes_zRem. do 2 apply hashes_del_None.
      rewrite hashes_del. by case_decide.
    + intros taskId Hin. apply loadTask_absent. rewrite hashes_zRem.
      do 3 apply hashes_del_None. by apply delete_tasks_listed.
    + unfold lLen. rewrite lRange_zRem, lRange_del. by case_decide.
    + rewrite lRange_zRem. apply lRange_del_nil. rewrite lRange_del. by case_decide.
    + apply zRange_zRem.
  - rewrite Hc. simpl. repeat split; try done. apply not_elem_of_nil.
Qed.

(** *** The pending list *)

Lemma pending_key_not_tasks_key (a b : string) : KEYS.QUEUE_TASKS ++ a <> KEYS.PENDING ++ b.
Proof. intros H. by apply (tasks_key_not_pending_key b a). Qed.

Lemma pending_saveQueue_task (queueId : string) (c : Client) (t : QueueTask) :
  lRange (KEYS.PENDING ++ queueId) (saveQueue_task queueId c t)
  = (lRange (KEYS.PENDING ++ queueId) c ++
     if decide (Scheduler.is_ready t) then [task_id t] else [])%list.
Proof.
  unfold saveQueue_task, Scheduler.is_ready. case_decide.
  - rewrite lRange_rPush. by rewrite lRange_rPush_ne by apply pending_key_not_tasks_key.
  - rewrite lRange_rPush_ne by apply pending_key_not_tasks_key.
    unfold saveTask_. by rewrite lRange_hSet, app_nil_r.
Qed.

Lemma pending_saveQueue_tasks (queueId : string) (tasks : list QueueTask) (c : Client) :
  lRange (KEYS.PENDING ++ queueId) (fold_left (saveQueue_task queueId) tasks c)
  = (lRange (KEYS.PENDING ++ queueId) c ++
     (task_id <$> filter Scheduler.is_ready tasks))%list.
Proof.
  revert c. induction tasks as [|t rest IH]; intros c; simpl.
  - by rewrite app_nil_r.
  - rewrite IH, pending_saveQueue_task, filter_cons.
    case_decide; simpl; by rewrite <- app_assoc.
Qed.

Lemma lRange_lPush (key value : string) (c : Client) :
  lRange key (lPush key value c) = value :: lRange key c.
Proof. unfold lRange at 1, lPush. simpl. by rewrite lookup_insert_eq. Qed.

Lemma lPop_head (key : string) (c : Client) :
  (lPop key c).1 = head (lRange key c)
  /\ lRange key (lPop key c).2 = tail (lRange key c).
Proof.
  unfold lPop. destruct (lRange key c) as [|value rest] eqn:E; simpl; [done|].
  split; [done|]. unfold lRange. simpl. destruct rest.
  - by rewrite lookup_delete_eq.
  - by rewrite lookup_insert_eq.
Qed.

(** X5: the pending list of a queue is first-in first-out for saveQueue and
    last-in first-out for requeueTask: saveQueue appends the ids of the
    pending and queued tasks in the order of [queue.tasks]; popNextTask
    takes the first id of the list (null when the list is empty) and
    leaves the others; requeueTask puts its task first, so the next
    popNextTask returns it; getPendingCount is the length of the list. *)
Theorem pending_list_order (store : RedisQueueStore) :
  is_Some (client store) ->
  (forall q,
     StoreRuns.pending_list (queue_id q) (saveQueue q store)
     = (StoreRuns.pending_list (queue_id q) store ++
        (task_id <$> filter Scheduler.is_ready (queue_tasks q)))%list)
  /\ (forall queueId,
        (popNextTask queueId store).1 = head (StoreRuns.pending_list queueId store)
        /\ StoreRuns.pending_list queueId (popNextTask queueId store).2
           = tail (StoreRuns.pending_list queueId store))
  /\ (forall queueId taskId,
        StoreRuns.pending_list queueId (requeueTask queueId taskId store)
        = taskId :: StoreRuns.pending_list queueId store
        /\ (popNextTask queueId (requeueTask queueId taskId store)).1 = Some taskId)
  /\ (forall queueId,
        getPendingCount queueId store = length (StoreRuns.pending_list queueId store)).
Proof.
  intros [c Hc].
  unfold StoreRuns.pending_list, saveQueue, popNextTask, requeueTask, getPendingCount,
    with_client. rewrite Hc. simpl. repeat split.
  - intros q. unfold saveQueue_. rewrite pending_saveQueue_tasks.
    by rewrite lRange_zAdd, lRange_hSet.
  - pose proof (lPop_head (KEYS.PENDING ++ queueId) c) as [H _].
    by destruct (lPop _ c).
  - pose proof (lPop_head (KEYS.PENDING ++ queueId) c) as [_ H].
    by destruct (lPop _ c).
  - apply lRange_lPush.
  - pose proof (lPop_head (KEYS.PENDING ++ queueId)
                  (lPush (KEYS.PENDING ++ queueId) taskId c)) as [H _].
    rewrite lRange_lPush in H. by destruct (lPop _ _).
Qed.

Lemma pending_list_order_witness :
  is_Some (client StoreRuns.crashed)
  /\ (popNextTask "Q" (requeueTask "Q" "T1" StoreRuns.crashed)).1 = Some "T1".
Proof.
  split; [by eexists|].
  apply (proj1 (proj2 (proj2 (pending_list_order StoreRuns.crashed
                                (ex_intro _ _ eq_refl))))).
Defined.

(** *** The busy agents *)

(** X6: the busy agents are a set, not a count: markAgentBusy makes the agent
    busy, markAgentAvailable makes it available however often it was
    marked busy, and neither changes another agent; getBusyAgents holds
    exactly the agents isAgentBusy reports. *)
Theorem busy_agents_are_a_set (agentId : string) (store : RedisQueueStore) :
  is_Some (client store) ->
  isAgentBusy agentId (markAgentBusy agentId store) = true
  /\ isAgentBusy agentId (markAgentAvailable agentId store) = false
  /\ isAgentBusy agentId
       (markAgentAvailable agentId (markAgentBusy agentId (markAgentBusy agentId store)))
     = false
  /\ (forall other, other <> agentId ->
        isAgentBusy other (markAgentBusy agentId store) = isAgentBusy other store
        /\ isAgentBusy other (markAgentAvailable agentId store) = isAgentBusy other store)
  /\ (forall other, isAgentBusy other store = true <-> other ∈ getBusyAgents store).
Proof.
  intros [c Hc].
  unfold isAgentBusy, markAgentBusy, markAgentAvailable, getBusyAgents, with_client.
  rewrite Hc. simpl. unfold sIsMember, sMembers. simpl. rewrite !lookup_insert_eq. simpl.
  set (busy := default ∅ (sets c !! KEYS.BUSY_AGENTS)).
  split; [|split; [|split; [|split]]].
  - apply bool_decide_eq_true, elem_of_union_l, elem_of_singleton. reflexivity.
  - apply bool_decide_eq_false. rewrite elem_of_difference, elem_of_singleton. tauto.
  - apply bool_decide_eq_false. rewrite elem_of_difference, elem_of_singleton. tauto.
  - intros other Hne. split; apply bool_decide_ext.
    + rewrite elem_of_union, elem_of_singleton. tauto.
    + rewrite elem_of_difference, elem_of_singleton. tauto.
  - intros other. apply bool_decide_eq_true.
Qed.

Lemma busy_agents_are_a_set_witness :
  is_Some (client StoreRuns.crashed)
  /\ isAgentBusy "A1" (markAgentAvailable "A1" StoreRuns.crashed) = false.
Proof.
  split; [by eexists|].
  apply (proj1 (proj2 (busy_agents_are_a_set "A1" StoreRuns.crashed
                         (ex_intro _ _ eq_refl)))).
Defined.

(** *** resetInterruptedQueue *)

Lemma string_length_app (a b : string) :
  String.length (a ++ b) = String.length a + String.length b.
Proof.
  induction a as [|x a IH]; [done|].
  change (String x a ++ b) with (String x (a ++ b)). simpl. by rewrite IH.
Qed.

Lemma queue_key_not_own_pending_key (queueId : string) :
  KEYS.PENDING ++ queueId <> KEYS.QUEUE ++ queueId.
Proof.
  unfold KEYS.PENDING, KEYS.QUEUE. cbv [String.append]. intros [= H].
  apply (f_equal String.length) in H. simpl in H. lia.
Qed.

Lemma busy_key_not_task_key (a : string) : KEYS.BUSY_AGENTS <> KEYS.TASK ++ a.
Proof. unfold KEYS.BUSY_AGENTS, KEYS.TASK. cbv [String.append]. by intros [=]. Qed.

Lemma busy_key_not_queue_key (a : string) : KEYS.BUSY_AGENTS <> KEYS.QUEUE ++ a.
Proof. unfold KEYS.BUSY_AGENTS, KEYS.QUEUE. cbv [String.append]. by intros [=]. Qed.

Lemma busy_key_not_pending_key (a : string) : KEYS.BUSY_AGENTS <> KEYS.PENDING ++ a.
Proof. unfold KEYS.BUSY_AGENTS, KEYS.PENDING. cbv [String.append]. by intros [=]. Qed.

Lemma busy_key_not_tasks_key (a : string) : KEYS.BUSY_AGENTS <> KEYS.QUEUE_TASKS ++ a.
Proof. unfold KEYS.BUSY_AGENTS, KEYS.QUEUE_TASKS. cbv [String.append]. by intros [=]. Qed.

Lemma pending_key_not_task_key (a b : string) : KEYS.PENDING ++ a <> KEYS.TASK ++ b.
Proof. unfold KEYS.PENDING, KEYS.TASK. cbv [String.append]. by intros [=]. Qed.

(** The task is one the recovery puts back (in_progress or retrying), and
    the task as the recovery leaves it. *)
Definition needs_reset (t : QueueTask) : Prop :=
  task_status t = in_progress \/ task_status t = retrying.

#[global] Instance needs_reset_dec (t : QueueTask) : Decision (needs_reset t).
Proof. unfold needs_reset. apply _. Defined.

Definition back_to_pending : TaskUpdates :=
  {| upd_status := Some pending; upd_startedAt := None; upd_completedAt := None;
     upd_result := None; upd_error := None; upd_retryCount := None |}.

Definition reset_form (t : QueueTask) : QueueTask :=
  if decide (needs_reset t) then apply_updates back_to_pending t else t.

(** The id names a task that loads and is not finished: its status is
    pending, queued, in_progress or retrying. *)
Definition unfinished (c : Client) (taskId : string) : Prop :=
  match loadTask_ taskId c with
  | Some t => Scheduler.has_work t
  | None => False
  end.

#[global] Instance unfinished_dec (c : Client) (taskId : string) :
  Decision (unfinished c taskId).
Proof. unfold unfinished. destruct (loadTask_ taskId c); apply _. Defined.

Lemma has_work_reset_form (t : QueueTask) :
  Scheduler.has_work (reset_form t) <-> Scheduler.has_work t.
Proof.
  unfold reset_form, needs_reset, Scheduler.has_work. case_decide as H; [|done].
  simpl. intuition.
Qed.

Lemma reset_form_idem (t : QueueTask) : reset_form (reset_form t) = reset_form t.
Proof.
  unfold reset_form. destruct (decide (needs_reset t)) as [H|H].
  - rewrite decide_False; [done|]. unfold needs_reset. simpl. intros [?|?]; discriminate.
  - by rewrite decide_False.
Qed.

Lemma loadTask_rPush (key value taskId : string) (c : Client) :
  loadTask_ taskId (rPush key value c) = loadTask_ taskId c.
Proof. by apply loadTask_ext. Qed.

Lemma lRange_updateTask (key taskId : string) (u : TaskUpdates) (c : Client) :
  lRange key (updateTask_ taskId u c) = lRange key c.
Proof. unfold updateTask_. by case_decide. Qed.

(** One round of the loop of resetInterruptedQueue. *)
Lemma loadTask_reset_task (pendingKey x taskId : string) (c : Client) :
  loadTask_ taskId (reset_task pendingKey c x) =
    if decide (taskId = x) then reset_form <$> loadTask_ x c else loadTask_ taskId c.
Proof.
  unfold reset_task. destruct (loadTask_ x c) as [t|] eqn:Hx.
  - unfold reset_form.
    destruct (decide (task_status t = in_progress \/ task_status t = retrying)) as [Hr|Hr].
    + rewrite loadTask_rPush. case_decide as Heq.
      * subst. simpl. rewrite decide_True by done. by apply loadTask_updateTask_.
      * by apply loadTask_updateTask_ne.
    + assert (loadTask_ taskId
                (if decide (task_status t = pending \/ task_status t = queued)
                 then rPush pendingKey x c else c) = loadTask_ taskId c) as ->
        by (case_decide; [apply loadTask_rPush|done]).
      case_decide; [|done]. subst. simpl. by rewrite decide_False.
  - case_decide; [by subst|done].
Qed.

Lemma pending_reset_task (pendingKey x : string) (c : Client) :
  lRange pendingKey (reset_task pendingKey c x) =
    (lRange pendingKey c ++ if decide (unfinished c x) then [x] else [])%list.
Proof.
  unfold reset_task. destruct (loadTask_ x c) as [t|] eqn:E.
  - assert (unfinished c x <-> Scheduler.has_work t) as Hu
      by (unfold unfinished; by rewrite E).
    unfold Scheduler.has_work in Hu.
    destruct (decide (task_status t = in_progress \/ task_status t = retrying)) as [Hr|Hr].
    + rewrite lRange_rPush, lRange_updateTask. rewrite decide_True; [done|tauto].
    + destruct (decide (task_status t = pending \/ task_status t = queued)) as [Hp|Hp].
      * rewrite lRange_rPush. rewrite decide_True; [done|tauto].
      * rewrite decide_False; [by rewrite app_nil_r|tauto].
  - rewrite decide_False; [by rewrite app_nil_r|]. unfold unfinished. rewrite E. tauto.
Qed.

Lemma unfinished_reset_task (pendingKey x taskId : string) (c : Client) :
  unfinished (reset_task pendingKey c x) taskId <-> unfinished c taskId.
Proof.
  unfold unfinished. rewrite loadTask_reset_task. case_decide as Heq; [subst|done].
  destruct (loadTask_ x c) as [t|]; simpl; [apply has_work_reset_form|done].
Qed.

(** The whole loop. *)
Definition reset_tasks (pendingKey : string) (taskIds : list string) (c : Client) : Client :=
  fold_left (reset_task pendingKey) taskIds c.

Lemma loadTask_reset_tasks (pendingKey taskId : string) (taskIds : list string) (c : Client) :
  loadTask_ taskId (reset_tasks pendingKey taskIds c) =
    if decide (taskId ∈ taskIds) then reset_form <$> loadTask_ taskId c
    else loadTask_ taskId c.
Proof.
  revert c. induction taskIds as [|x rest IH]; intros c.
  - by rewrite decide_False by apply not_elem_of_nil.
  - change (reset_tasks pendingKey (x :: rest) c)
      with (reset_tasks pendingKey rest (reset_task pendingKey c x)).
    rewrite IH, loadTask_reset_task.
    destruct (decide (taskId = x)) as [->|Hne].
    + rewrite (decide_True (P := x ∈ x :: rest)) by left.
      case_decide; [|done]. destruct (loadTask_ x c); simpl; [|done].
      by rewrite reset_form_idem.
    + destruct (decide (taskId ∈ rest)) as [Hin|Hin].
      * rewrite decide_True; [done|by right].
      * rewrite decide_False; [done|]. by intros [?|?]%elem_of_cons.
Qed.

Lemma pending_reset_tasks (pendingKey : string) (taskIds : list string) (c : Client) :
  lRange pendingKey (reset_tasks pendingKey taskIds c) =
    (lRange pendingKey c ++ filter (unfinished c) taskIds)%list.
Proof.
  revert c. induction taskIds as [|x rest IH]; intros c.
  - simpl. by rewrite app_nil_r.
  - change (reset_tasks pendingKey (x :: rest) c)
      with (reset_tasks pendingKey rest (reset_task pendingKey c x)).
    rewrite IH, pending_reset_task, filter_cons, <- app_assoc. f_equal.
    assert (filter (unfinished (reset_task pendingKey c x)) rest
            = filter (unfinished c) rest) as ->.
    { apply list_filter_iff. intros y. apply unfinished_reset_task. }
    by case_decide.
Qed.

Lemma lRange_reset_task_ne (pendingKey key x : string) (c : Client) :
  pendingKey <> key -> lRange key (reset_task pendingKey c x) = lRange key c.
Proof.
  intros Hne. unfold reset_task. destruct (loadTask_ x c) as [t|]; [|done].
  repeat case_decide; rewrite ?lRange_rPush_ne by done; by rewrite ?lRange_updateTask.
Qed.

Lemma lRange_reset_tasks_ne (pendingKey key : string) (taskIds : list string) (c : Client) :
  pendingKey <> key -> lRange key (reset_tasks pendingKey taskIds c) = lRange key c.
Proof.
  intros Hne. revert c. induction taskIds as [|x rest IH]; intros c; [done|].
  change (reset_tasks pendingKey (x :: rest) c)
    with (reset_tasks pendingKey rest (reset_task pendingKey c x)).
  by rewrite IH, lRange_reset_task_ne.
Qed.

Lemma hGetAll_reset_task_queue (pendingKey queueId x : string) (c : Client) :
  hGetAll (KEYS.QUEUE ++ queueId) (reset_task pendingKey c x)
  = hGetAll (KEYS.QUEUE ++ queueId) c.
Proof.
  unfold reset_task. destruct (loadTask_ x c) as [t|]; [|done].
  repeat case_decide; rewrite ?hGetAll_rPush; try done.
  apply hGetAll_updateTask_ne, task_key_not_queue_key.
Qed.

Lemma hGetAll_reset_tasks_queue (pendingKey queueId : string) (taskIds : list string)
    (c : Client) :
  hGetAll (KEYS.QUEUE ++ queueId) (reset_tasks pendingKey taskIds c)
  = hGetAll (KEYS.QUEUE ++ queueId) c.
Proof.
  revert c. induction taskIds as [|x rest IH]; intros c; [done|].
  change (reset_tasks pendingKey (x :: rest) c)
    with (reset_tasks pendingKey rest (reset_task pendingKey c x)).
  by rewrite IH, hGetAll_reset_task_queue.
Qed.

Lemma sMembers_del (key : string) (c : Client) : sMembers key (del key c) = ∅.
Proof. unfold sMembers, del. simpl. by rewrite lookup_delete_eq. Qed.

Lemma loadTask_del (key taskId : string) (c : Client) :
  key <> KEYS.TASK ++ taskId -> loadTask_ taskId (del key c) = loadTask_ taskId c.
Proof. intros H. by apply loadTask_ext, hGetAll_del_ne. Qed.

Lemma loadTask_updateQueueStatus (queueId taskId : string) (status : QueueStatus)
    (timestamp : option Z) (c : Client) :
  loadTask_ taskId (updateQueueStatus_ queueId status timestamp c) = loadTask_ taskId c.
Proof. apply loadTask_ext, hGetAll_hSet_ne, queue_key_not_task_key. Qed.

(** The client after resetInterruptedQueue, read method by method. *)
Lemma resetInterruptedQueue_reads (queueId : string) (c : Client) :
  lRange (KEYS.PENDING ++ queueId) (resetInterruptedQueue_ queueId c)
    = filter (unfinished c) (lRange (KEYS.QUEUE_TASKS ++ queueId) c)
  /\ sMembers KEYS.BUSY_AGENTS (resetInterruptedQueue_ queueId c) = ∅
  /\ (forall taskId,
        loadTask_ taskId (resetInterruptedQueue_ queueId c) =
          if decide (taskId ∈ lRange (KEYS.QUEUE_TASKS ++ queueId) c)
          then reset_form <$> loadTask_ taskId c else loadTask_ taskId c)
  /\ lRange (KEYS.QUEUE_TASKS ++ queueId) (resetInterruptedQueue_ queueId c)
     = lRange (KEYS.QUEUE_TASKS ++ queueId) c
  /\ hGetAll (KEYS.QUEUE ++ queueId) (resetInterruptedQueue_ queueId c)
     = hGetAll (KEYS.QUEUE ++ queueId) (updateQueueStatus_ queueId paused None c).
Proof.
  unfold resetInterruptedQueue_.
  set (c1 := updateQueueStatus_ queueId paused None c).
  set (pendingKey := KEYS.PENDING ++ queueId).
  assert (lRange (KEYS.QUEUE_TASKS ++ queueId) c1 = lRange (KEYS.QUEUE_TASKS ++ queueId) c)
    as -> by reflexivity.
  set (taskIds := lRange (KEYS.QUEUE_TASKS ++ queueId) c).
  fold (reset_tasks pendingKey taskIds (del pendingKey c1)).
  assert (forall taskId, loadTask_ taskId (del pendingKey c1) = loadTask_ taskId c) as Hload.
  { intros taskId. rewrite loadTask_del by apply pending_key_not_task_key.
    apply loadTask_updateQueueStatus. }
  split; [|split; [|split; [|split]]].
  - rewrite lRange_del by apply busy_key_not_pending_key.
    rewrite decide_False by apply busy_key_not_pending_key.
    rewrite pending_reset_tasks, lRange_del, decide_True by done. simpl.
    apply list_filter_iff. intros taskId. unfold unfinished. by rewrite Hload.
  - apply sMembers_del.
  - intros taskId. rewrite loadTask_del by apply busy_key_not_task_key.
    by rewrite loadTask_reset_tasks, Hload.
  - rewrite lRange_del, decide_False by apply busy_key_not_tasks_key.
    rewrite lRange_reset_tasks_ne by apply tasks_key_not_pending_key.
    rewrite lRange_del, decide_False by apply tasks_key_not_pending_key. done.
  - rewrite hGetAll_del_ne by apply busy_key_not_queue_key.
    rewrite hGetAll_reset_tasks_queue.
    apply hGetAll_del_ne, queue_key_not_own_pending_key.
Qed.

Lemma omap_loadTask_fmap (f : QueueTask -> QueueTask) (c c' : Client) (taskIds : list string) :
  (forall taskId, taskId ∈ taskIds -> loadTask_ taskId c' = f <$> loadTask_ taskId c) ->
  omap (fun taskId => loadTask_ taskId c') taskIds
  = f <$> omap (fun taskId => loadTask_ taskId c) taskIds.
Proof.
  induction taskIds as [|taskId rest IH]; intros H; csimpl; [done|].
  rewrite H by left. destruct (loadTask_ taskId c); csimpl.
  - f_equal. apply IH. intros x Hx. apply H. by right.
  - apply IH. intros x Hx. apply H. by right.
Qed.

(** The task of a store that is not finished, by its id. *)
Definition unfinished_in (store : RedisQueueStore) (taskId : string) : Prop :=
  if client store is Some c then unfinished c taskId else False.

#[global] Instance unfinished_in_dec (store : RedisQueueStore) (taskId : string) :
  Decision (unfinished_in store taskId).
Proof. unfold unfinished_in. destruct (client store); apply _. Defined.

(** X7: what resetInterruptedQueue(id) does, for every store.  The pending list
    of the queue becomes the ids of its task list, in that order, whose
    task loads and is pending, queued, in_progress or retrying; no agent is
    busy; a task of the task list that was in_progress or retrying loads
    as pending with every other field as before, startedAt included, and
    every other task loads as before; a queue that loaded before loads
    as paused, with its other fields as before and these tasks. *)
Theorem resetInterruptedQueue_effect (queueId : string) (store : RedisQueueStore) :
  StoreRuns.pending_list queueId (resetInterruptedQueue queueId store)
    = filter (unfinished_in store) (task_list queueId store)
  /\ getBusyAgents (resetInterruptedQueue queueId store) = ∅
  /\ (forall taskId,
        loadTask taskId (resetInterruptedQueue queueId store) =
          if decide (taskId ∈ task_list queueId store)
          then reset_form <$> loadTask taskId store else loadTask taskId store)
  /\ (forall q, loadQueue queueId store = Some q ->
        loadQueue queueId (resetInterruptedQueue queueId store)
        = Some (Api.with_tasks (with_status paused None q) (reset_form <$> queue_tasks q))).
Proof.
  destruct store as [[c|] connected]; [|by repeat split].
  unfold StoreRuns.pending_list, getBusyAgents, loadTask, loadQueue, task_list,
    resetInterruptedQueue, with_client. simpl.
  destruct (resetInterruptedQueue_reads queueId c) as (H1 & H2 & H3 & H4 & H5).
  split; [exact H1|]. split; [done|]. split; [done|].
  intros q Hq.
  pose proof (loadQueue_updateQueueStatus_ queueId paused None c q Hq) as Hq'.
  apply loadQueue_reads in Hq as (_ & Htasks & _).
  apply loadQueue_reads in Hq' as (Hread & _ & Hdesc).
  apply loadQueue_reads. split; [|split].
  - rewrite H5. by destruct Hread.
  - simpl. unfold listed_tasks. rewrite H4, Htasks. symmetry. unfold listed_tasks.
    apply omap_loadTask_fmap. intros taskId Hin. rewrite H3. by rewrite decide_True.
  - done.
Qed.

(** *** The queue list: listQueues *)

#[global] Instance zset_le_total : Total zset_le.
Proof.
  intros [a x] [b y]. unfold zset_le. simpl.
  destruct (Z.lt_trichotomy x y) as [?|[?|?]]; [by left; left| |by right; left].
  destruct (String.leb_total a b); [left|right]; by right.
Qed.

Lemma Sorted_weaken {A} (R R' : relation A) (l : list A) :
  (forall x y, R x y -> R' x y) -> Sorted R l -> Sorted R' l.
Proof.
  intros Hsub. induction 1 as [|x l Hl IH Hhd]; constructor; [done|].
  destruct Hhd; constructor. by apply Hsub.
Qed.

(** The entries of a sorted set in the order of zRange. *)
Definition zEntries (key : string) (c : Client) : list (string * Z) :=
  merge_sort zset_le (map_to_list (default ∅ (zsets c !! key))).

Lemma zEntries_descending (key : string) (c : Client) :
  StronglySorted (fun a b => (b.2 <= a.2)%Z) (reverse (zEntries key c)).
Proof.
  apply Sorted_StronglySorted.
  - intros x y z. lia.
  - apply (Sorted_weaken (flip zset_le)); [unfold flip, zset_le; intros x y [?|[? _]]; lia|].
    apply Sorted_reverse, (Sorted_merge_sort zset_le).
Qed.

Lemma elem_of_zEntries (key member : string) (score : Z) (c : Client) :
  (member, score) ∈ zEntries key c <-> default ∅ (zsets c !! key) !! member = Some score.
Proof. unfold zEntries. by rewrite merge_sort_Permutation, elem_of_map_to_list. Qed.

Lemma StronglySorted_omap {A B} (R : relation A) (R' : relation B) (f : A -> option B)
    (l : list A) :
  (forall x y a b, x ∈ l -> y ∈ l -> R x y -> f x = Some a -> f y = Some b -> R' a b) ->
  StronglySorted R l -> StronglySorted R' (omap f l).
Proof.
  intros H Hsorted. induction Hsorted as [|x l Hl IH Hx]; csimpl; [constructor|].
  assert (StronglySorted R' (omap f l)) as Hrest.
  { apply IH. intros u v a b Hu Hv. apply H; by right. }
  destruct (f x) as [a|] eqn:Ea; [|done]. constructor; [done|].
  apply Forall_forall. intros b (y & Hy & Eb)%list_elem_of_omap.
  apply (H x y); [by left|by right| |done|done].
  by eapply Forall_forall in Hx.
Qed.

(** *** Stores that the methods of RedisQueueStore have written

    In such a store the rows of the listed queues agree with the queue
    list: the id field of the row under [queue:m] is [m], and its
    createdAt is the score of [m]. *)

Definition queue_list (c : Client) : gmap string Z :=
  default ∅ (zsets c !! KEYS.QUEUE_LIST).

Definition rows_agree (c : Client) : Prop :=
  forall member score,
    queue_list c !! member = Some score ->
    (forall id, text_field (hGetAll (KEYS.QUEUE ++ member) c) "id" = Some id -> id = member)
    /\ (forall n, num_field (hGetAll (KEYS.QUEUE ++ member) c) "createdAt" = Some n ->
          n = score).

(** A field of a row is as before or gone. *)
Definition field_kept (c c' : Client) (queueId field : string) : Prop :=
  hGetAll (KEYS.QUEUE ++ queueId) c' !! field = hGetAll (KEYS.QUEUE ++ queueId) c !! field
  \/ hGetAll (KEYS.QUEUE ++ queueId) c' !! field = None.

(** The step from [c] to [c'] leaves the queue list alone, and of every
    queue row the id and the createdAt. *)
Definition keeps_rows (c c' : Client) : Prop :=
  queue_list c' = queue_list c
  /\ forall queueId, field_kept c c' queueId "id" /\ field_kept c c' queueId "createdAt".

Lemma keeps_rows_refl (c : Client) : keeps_rows c c.
Proof. split; [done|]. intros queueId. split; by left. Qed.

Lemma field_kept_trans (c c' c'' : Client) (queueId field : string) :
  field_kept c c' queueId field -> field_kept c' c'' queueId field ->
  field_kept c c'' queueId field.
Proof.
  unfold field_kept. intros [H1|H1] [H2|H2]; rewrite ?H2, ?H1; auto.
Qed.

Lemma keeps_rows_trans (c c' c'' : Client) :
  keeps_rows c c' -> keeps_rows c' c'' -> keeps_rows c c''.
Proof.
  intros [Hz1 H1] [Hz2 H2]. split; [congruence|].
  intros queueId. destruct (H1 queueId), (H2 queueId).
  split; by eapply field_kept_trans.
Qed.

Lemma rows_agree_kept (c c' : Client) : keeps_rows c c' -> rows_agree c -> rows_agree c'.
Proof.
  intros [Hz Hrows] Hagree member score. rewrite Hz. intros Hscore.
  destruct (Hagree member score Hscore) as [Hid Hcreated].
  destruct (Hrows member) as [[Ei|Ei] [Ec|Ec]]; split.
  all: try (intros id; rewrite (text_field_ext _ _ "id" Ei); by apply Hid).
  all: try (intros n; rewrite (num_field_ext _ _ "createdAt" Ec); by apply Hcreated).
  all: try (intros id; unfold text_field; by rewrite Ei).
  all: intros n; unfold num_field, text_field; by rewrite Ec.
Qed.

(** The primitive commands. *)
Lemma keeps_rows_lists (c c' : Client) :
  hashes c' = hashes c -> zsets c' = zsets c -> keeps_rows c c'.
Proof.
  intros Hh Hz. split; [unfold queue_list; by rewrite Hz|].
  intros queueId. unfold field_kept, hGetAll. rewrite Hh. split; by left.
Qed.

Lemma keeps_rows_hSet_other (key : string) (data : list (string * Value)) (c : Client) :
  (forall queueId, key <> KEYS.QUEUE ++ queueId) -> keeps_rows c (hSet key data c).
Proof.
  intros Hkey. split; [done|]. intros queueId. unfold field_kept.
  rewrite hGetAll_hSet_ne by apply Hkey. split; by left.
Qed.

Lemma keeps_rows_hSet_fields (key : string) (data : list (string * Value)) (c : Client) :
  assoc "id" data = None -> assoc "createdAt" data = None ->
  keeps_rows c (hSet key data c).
Proof.
  intros Hid Hcreated. split; [done|]. intros queueId. unfold field_kept.
  destruct (decide (key = KEYS.QUEUE ++ queueId)) as [->|Hne].
  - rewrite !lookup_hSet, Hid, Hcreated. split; by left.
  - rewrite hGetAll_hSet_ne by done. split; by left.
Qed.

Lemma queue_list_del (key : string) (c : Client) :
  key <> KEYS.QUEUE_LIST -> queue_list (del key c) = queue_list c.
Proof. intros H. unfold queue_list, del. simpl. by rewrite lookup_delete_ne. Qed.

Lemma keeps_rows_del (key : string) (c : Client) :
  key <> KEYS.QUEUE_LIST -> keeps_rows c (del key c).
Proof.
  intros Hkey. split; [by apply queue_list_del|]. intros queueId. unfold field_kept.
  rewrite hGetAll_del. case_decide; split; first [by left|right; apply lookup_empty].
Qed.

Lemma status_updates_fields (status : QueueStatus) (timestamp : option Z) :
  assoc "id" (status_updates status timestamp) = None
  /\ assoc "createdAt" (status_updates status timestamp) = None.
Proof.
  unfold status_updates.
  split; repeat case_decide; by destruct (JS.truthy_onum timestamp).
Qed.

Lemma keeps_rows_updateQueueStatus (queueId : string) (status : QueueStatus)
    (timestamp : option Z) (c : Client) :
  keeps_rows c (updateQueueStatus_ queueId status timestamp c).
Proof.
  destruct (status_updates_fields status timestamp).
  by apply (keeps_rows_hSet_fields _ (status_updates status timestamp)).
Qed.

Lemma keeps_rows_updateTask (taskId : string) (u : TaskUpdates) (c : Client) :
  keeps_rows c (updateTask_ taskId u c).
Proof.
  unfold updateTask_. case_decide; [|apply keeps_rows_refl].
  apply keeps_rows_hSet_other. intros queueId. apply task_key_not_queue_key.
Qed.

Lemma keeps_rows_reset_task (pendingKey x : string) (c : Client) :
  keeps_rows c (reset_task pendingKey c x).
Proof.
  unfold reset_task. destruct (loadTask_ x c); [|apply keeps_rows_refl].
  repeat case_decide; try apply keeps_rows_refl.
  - eapply keeps_rows_trans; [apply keeps_rows_updateTask|]. by apply keeps_rows_lists.
  - by apply keeps_rows_lists.
Qed.

Lemma keeps_rows_reset_tasks (pendingKey : string) (taskIds : list string) (c : Client) :
  keeps_rows c (reset_tasks pendingKey taskIds c).
Proof.
  revert c. induction taskIds as [|x rest IH]; intros c; [apply keeps_rows_refl|].
  change (reset_tasks pendingKey (x :: rest) c)
    with (reset_tasks pendingKey rest (reset_task pendingKey c x)).
  eapply keeps_rows_trans; [apply keeps_rows_reset_task|apply IH].
Qed.

Lemma pending_key_not_list_key (a : string) : KEYS.PENDING ++ a <> KEYS.QUEUE_LIST.
Proof. unfold KEYS.PENDING, KEYS.QUEUE_LIST. cbv [String.append]. by intros [=]. Qed.

Lemma tasks_key_not_list_key (a : string) : KEYS.QUEUE_TASKS ++ a <> KEYS.QUEUE_LIST.
Proof. unfold KEYS.QUEUE_TASKS, KEYS.QUEUE_LIST. cbv [String.append]. by intros [=]. Qed.

Lemma queue_key_not_list_key (a : string) : KEYS.QUEUE ++ a <> KEYS.QUEUE_LIST.
Proof. unfold KEYS.QUEUE, KEYS.QUEUE_LIST. cbv [String.append]. by intros [=]. Qed.

Lemma task_key_not_list_key (a : string) : KEYS.TASK ++ a <> KEYS.QUEUE_LIST.
Proof. unfold KEYS.TASK, KEYS.QUEUE_LIST. cbv [String.append]. by intros [=]. Qed.

Lemma keeps_rows_resetInterruptedQueue (queueId : string) (c : Client) :
  keeps_rows c (resetInterruptedQueue_ queueId c).
Proof.
  unfold resetInterruptedQueue_.
  set (c1 := updateQueueStatus_ queueId paused None c).
  fold (reset_tasks (KEYS.PENDING ++ queueId) (lRange (KEYS.QUEUE_TASKS ++ queueId) c1)
          (del (KEYS.PENDING ++ queueId) c1)).
  eapply keeps_rows_trans; [apply keeps_rows_updateQueueStatus|].
  eapply keeps_rows_trans; [apply keeps_rows_del, pending_key_not_list_key|].
  eapply keeps_rows_trans; [apply keeps_rows_reset_tasks|].
  by apply keeps_rows_del.
Qed.

(** saveQueue and deleteQueue change the queue list. *)
Lemma queue_key_inj (a b : string) : KEYS.QUEUE ++ a = KEYS.QUEUE ++ b -> a = b.
Proof. unfold KEYS.QUEUE. cbv [String.append]. by intros [= ->]. Qed.

Lemma zsets_saveQueue_tasks (queueId : string) (tasks : list QueueTask) (c : Client) :
  zsets (fold_left (saveQueue_task queueId) tasks c) = zsets c.
Proof.
  revert c. induction tasks as [|t rest IH]; intros c; simpl; [done|].
  rewrite IH. unfold saveQueue_task. by case_decide.
Qed.

Lemma hGetAll_saveQueue (q : TaskQueue) (c : Client) :
  hGetAll (KEYS.QUEUE ++ queue_id q) (saveQueue_ q c)
  = hGetAll (KEYS.QUEUE ++ queue_id q) (hSet (KEYS.QUEUE ++ queue_id q) (queueData q) c).
Proof.
  unfold saveQueue_.
  rewrite hGetAll_saveQueue_tasks_other by (intros; apply task_key_not_queue_key).
  apply hGetAll_zAdd.
Qed.

Lemma hGetAll_saveQueue_ne (q : TaskQueue) (queueId : string) (c : Client) :
  queueId <> queue_id q ->
  hGetAll (KEYS.QUEUE ++ queueId) (saveQueue_ q c) = hGetAll (KEYS.QUEUE ++ queueId) c.
Proof.
  intros Hne. unfold saveQueue_.
  rewrite hGetAll_saveQueue_tasks_other by (intros; apply task_key_not_queue_key).
  rewrite hGetAll_zAdd. apply hGetAll_hSet_ne. intros Heq%queue_key_inj. by subst.
Qed.

Lemma queue_list_saveQueue (q : TaskQueue) (c : Client) :
  queue_list (saveQueue_ q c) = <[queue_id q := queue_createdAt q]> (queue_list c).
Proof.
  unfold queue_list, saveQueue_. rewrite zsets_saveQueue_tasks. unfold zAdd. simpl.
  by rewrite lookup_insert_eq.
Qed.

Lemma saved_row (q : TaskQueue) (c : Client) :
  has_fields (queueData q) (hGetAll (KEYS.QUEUE ++ queue_id q) (saveQueue_ q c)).
Proof. rewrite hGetAll_saveQueue. apply hSet_has_fields, queueData_fields_NoDup. Qed.

Lemma rows_agree_saveQueue (q : TaskQueue) (c : Client) :
  rows_agree c -> rows_agree (saveQueue_ q c).
Proof.
  intros Hagree member score. rewrite queue_list_saveQueue.
  destruct (decide (member = queue_id q)) as [->|Hne].
  - rewrite lookup_insert_eq. intros [= <-].
    pose proof (saved_row q c) as H.
    field_of H "id". field_of H "createdAt". split.
    + intros id. rewrite (text_field_has _ "id" (queue_id q)) by done. by intros [= <-].
    + intros n. rewrite (num_field_has _ "createdAt" (queue_createdAt q)) by done.
      by intros [= <-].
  - rewrite lookup_insert_ne by done. rewrite hGetAll_saveQueue_ne by done. apply Hagree.
Qed.

Lemma keeps_rows_delete_tasks (taskIds : list string) (c : Client) :
  keeps_rows c (delete_tasks taskIds c).
Proof.
  revert c. induction taskIds as [|taskId rest IH]; intros c; [apply keeps_rows_refl|].
  change (delete_tasks (taskId :: rest) c)
    with (delete_tasks rest (del (KEYS.TASK ++ taskId) c)).
  eapply keeps_rows_trans; [apply keeps_rows_del, task_key_not_list_key|apply IH].
Qed.

Lemma rows_agree_zRem (member : string) (c : Client) :
  rows_agree c -> rows_agree (zRem KEYS.QUEUE_LIST member c).
Proof.
  intros Hagree m score. unfold queue_list, zRem. simpl. rewrite lookup_insert_eq. simpl.
  intros [_ Hscore]%lookup_delete_Some. by apply Hagree.
Qed.

Lemma rows_agree_deleteQueue (queueId : string) (c : Client) :
  rows_agree c -> rows_agree (deleteQueue_ queueId c).
Proof.
  intros Hagree. unfold deleteQueue_.
  fold (delete_tasks (lRange (KEYS.QUEUE_TASKS ++ queueId) c) c).
  apply rows_agree_zRem.
  eapply rows_agree_kept; [|exact Hagree].
  eapply keeps_rows_trans; [apply keeps_rows_delete_tasks|].
  eapply keeps_rows_trans; [apply keeps_rows_del, queue_key_not_list_key|].
  eapply keeps_rows_trans; [apply keeps_rows_del, tasks_key_not_list_key|].
  apply keeps_rows_del, pending_key_not_list_key.
Qed.

(** The states of the store: an empty one, and what a method of
    RedisQueueStore that writes makes of a state. *)
Inductive written : Client -> Prop :=
| written_empty : written Redis.empty
| written_saveQueue q c : written c -> written (saveQueue_ q c)
| written_deleteQueue queueId c : written c -> written (deleteQueue_ queueId c)
| written_updateQueueStatus queueId status timestamp c :
    written c -> written (updateQueueStatus_ queueId status timestamp c)
| written_updateQueueMetrics queueId metrics c :
    written c -> written (hSet (KEYS.QUEUE ++ queueId) [("metrics", JsonMetrics metrics)] c)
| written_saveTask t c : written c -> written (saveTask_ t c)
| written_updateTask taskId u c : written c -> written (updateTask_ taskId u c)
| written_popNextTask queueId c : written c -> written (lPop (KEYS.PENDING ++ queueId) c).2
| written_requeueTask queueId taskId c :
    written c -> written (lPush (KEYS.PENDING ++ queueId) taskId c)
| written_markAgentBusy agentId c : written c -> written (sAdd KEYS.BUSY_AGENTS agentId c)
| written_markAgentAvailable agentId c :
    written c -> written (sRem KEYS.BUSY_AGENTS agentId c)
| written_resetInterruptedQueue queueId c :
    written c -> written (resetInterruptedQueue_ queueId c).

Lemma written_rows_agree (c : Client) : written c -> rows_agree c.
Proof.
  induction 1 as [|q c _ IH|queueId c _ IH|queueId status timestamp c _ IH
                  |queueId metrics c _ IH|t c _ IH|taskId u c _ IH|queueId c _ IH
                  |queueId taskId c _ IH|agentId c _ IH|agentId c _ IH|queueId c _ IH].
  - intros member score. unfold queue_list. simpl. by rewrite lookup_empty.
  - by apply rows_agree_saveQueue.
  - by apply rows_agree_deleteQueue.
  - eapply rows_agree_kept; [apply keeps_rows_updateQueueStatus|done].
  - eapply rows_agree_kept; [by apply keeps_rows_hSet_fields|done].
  - eapply rows_agree_kept; [|done].
    apply keeps_rows_hSet_other. intros queueId. apply task_key_not_queue_key.
  - eapply rows_agree_kept; [apply keeps_rows_updateTask|done].
  - eapply rows_agree_kept; [|done]. apply keeps_rows_lists; unfold lPop;
      by destruct (lRange _ c).
  - eapply rows_agree_kept; [by apply keeps_rows_lists|done].
  - eapply rows_agree_kept; [by apply keeps_rows_lists|done].
  - eapply rows_agree_kept; [by apply keeps_rows_lists|done].
  - eapply rows_agree_kept; [apply keeps_rows_resetInterruptedQueue|done].
Qed.

(** *** listQueues *)

Lemma listQueues_entries (c : Client) :
  listQueues_ c = omap (fun e => list_item c e.1) (reverse (zEntries KEYS.QUEUE_LIST c)).
Proof.
  unfold listQueues_, zRange_rev, zRange. fold (zEntries KEYS.QUEUE_LIST c).
  rewrite <- fmap_reverse.
  induction (reverse (zEntries KEYS.QUEUE_LIST c)) as [|e l IH]; csimpl; [done|].
  by rewrite IH.
Qed.

Lemma list_item_createdAt (c : Client) (queueId : string) (item : QueueListItem) :
  list_item c queueId = Some item ->
  item_createdAt item = num_field (hGetAll (KEYS.QUEUE ++ queueId) c) "createdAt".
Proof.
  unfold list_item. set (h := hGetAll (KEYS.QUEUE ++ queueId) c). intros H.
  destruct (text_field h "id") as [id|]; simpl in H; [|done].
  destruct (JS.truthy_str id); simpl in H; [|done].
  destruct (list_counts h) as [counts|]; simpl in H; [|done].
  by injection H as <-.
Qed.

(** [a] is listed before [b]: [a] is not older than [b], when both have a
    createdAt. *)
Definition not_older (a b : QueueListItem) : Prop :=
  forall x y, item_createdAt a = Some x -> item_createdAt b = Some y -> (y <= x)%Z.

Lemma listQueues_descending (c : Client) :
  rows_agree c -> StronglySorted not_older (listQueues_ c).
Proof.
  intros Hagree. rewrite listQueues_entries.
  eapply StronglySorted_omap; [|apply zEntries_descending].
  intros [x sx] [y sy] a b Hx Hy Hle Ha Hb u v Hu Hv. simpl in *.
  apply elem_of_reverse, elem_of_zEntries in Hx, Hy.
  apply list_item_createdAt in Ha, Hb. rewrite Ha in Hu. rewrite Hb in Hv.
  destruct (Hagree x sx Hx) as [_ Hax]. destruct (Hagree y sy Hy) as [_ Hby].
  rewrite (Hax _ Hu), (Hby _ Hv). done.
Qed.

(** The item of a queue, as listQueues builds it from the saved row. *)
Definition summary (q : TaskQueue) : QueueListItem :=
  {| item_id := queue_id q; item_name := Some (queue_name q);
     item_status := Some (queue_status_name (queue_status q));
     item_taskCount := totalTasks (queue_metrics q);
     item_completedCount := completedTasks (queue_metrics q);
     item_createdAt := Some (queue_createdAt q) |}.

Lemma list_item_saveQueue (q : TaskQueue) (c : Client) :
  list_item (saveQueue_ q c) (queue_id q)
  = if JS.truthy_str (queue_id q) then Some (summary q) else None.
Proof.
  unfold list_item. pose proof (saved_row q c) as H.
  set (h := hGetAll _ (saveQueue_ q c)) in *.
  field_of H "id". field_of H "name". field_of H "status". field_of H "createdAt".
  field_of H "metrics".
  rewrite (text_field_has h "id" (queue_id q)) by done. simpl.
  destruct (JS.truthy_str (queue_id q)); simpl; [|done].
  unfold list_counts. rewrite Hfield3. simpl.
  rewrite (text_field_has h "name" (queue_name q)) by done.
  rewrite (text_field_has h "status" (queue_status_name (queue_status q))) by done.
  by rewrite (num_field_has h "createdAt" (queue_createdAt q)) by done.
Qed.

Lemma elem_of_listQueues (c : Client) (item : QueueListItem) :
  item ∈ listQueues_ c <->
  exists queueId, queueId ∈ zRange KEYS.QUEUE_LIST c /\ list_item c queueId = Some item.
Proof.
  unfold listQueues_, zRange_rev. rewrite list_elem_of_omap.
  by setoid_rewrite elem_of_reverse.
Qed.

(** A second queue, created after Q. *)
Definition later : TaskQueue :=
  {| queue_id := "Q2"; queue_name := "weekly"; queue_description := None;
     queue_tasks := []; queue_settings := DEFAULT_QUEUE_SETTINGS;
     queue_status := idle; queue_createdAt := 2000;
     queue_startedAt := None; queue_completedAt := None;
     queue_metrics := Api.createInitialMetrics 0 |}.

(** X8: listQueues on a store that only the methods of RedisQueueStore have
    written: the items come newest first (descending createdAt), whatever
    the order in which the queues were saved; and right after saveQueue(q)
    the list holds the item of [q], with the counters of [q.metrics], when
    [q.id] is not the empty string. *)
Theorem listQueues_newest_first (store : RedisQueueStore) (c : Client) :
  client store = Some c -> written c ->
  StronglySorted not_older (listQueues store)
  /\ (forall q, queue_id q <> "" -> summary q ∈ listQueues (saveQueue q store)).
Proof.
  intros Hc Hwritten. unfold listQueues, saveQueue, with_client.
  rewrite Hc. simpl. split.
  - by apply listQueues_descending, written_rows_agree.
  - intros q Hid. apply elem_of_listQueues. exists (queue_id q). split.
    + apply elem_of_zRange. fold (queue_list (saveQueue_ q c)).
      rewrite queue_list_saveQueue, lookup_insert_eq. by eexists.
    + rewrite list_item_saveQueue. by rewrite truthy_str_nonempty.
Qed.

Lemma listQueues_newest_first_witness :
  StronglySorted not_older
    (listQueues (saveQueue StoreRuns.Q (saveQueue later StoreRuns.connected)))
  /\ item_id <$> listQueues (saveQueue StoreRuns.Q (saveQueue later StoreRuns.connected))
     = ["Q2"; "Q"].
Proof.
  split; [|vm_compute; reflexivity].
  apply (proj1 (listQueues_newest_first
                  (saveQueue StoreRuns.Q (saveQueue later StoreRuns.connected))
                  (saveQueue_ StoreRuns.Q (saveQueue_ later Redis.empty)) eq_refl
                  (written_saveQueue _ _ (written_saveQueue _ _ written_empty)))).
Defined.

(** *** loadInterruptedQueues and the recovery *)

Lemma queue_status_of_name_inv (s : string) (status : QueueStatus) :
  queue_status_of_name s = Some status -> s = queue_status_name status.
Proof.
  unfold queue_status_of_name.
  destruct (String.eqb_spec s "idle") as [->|_]; [by intros [= <-]|].
  destruct (String.eqb_spec s "running") as [->|_]; [by intros [= <-]|].
  destruct (String.eqb_spec s "paused") as [->|_]; [by intros [= <-]|].
  destruct (String.eqb_spec s "completed") as [->|_]; [by intros [= <-]|].
  destruct (String.eqb_spec s "failed") as [->|_]; [by intros [= <-]|]. done.
Qed.

(** The status field of the row and the status of the queue that loads. *)
Lemma loaded_status (queueId : string) (c : Client) (q : TaskQueue) :
  loadQueue_ queueId c = Some q ->
  hGet (KEYS.QUEUE ++ queueId) "status" c = Some (Text (queue_status_name (queue_status q))).
Proof.
  intros ([_ _ _ Hstatus _ _ _ _ _] & _)%loadQueue_reads. unfold hGet.
  unfold text_field in Hstatus.
  destruct (hGetAll (KEYS.QUEUE ++ queueId) c !! "status") as [[s| | | | |]|];
    simpl in Hstatus; try done.
  by apply queue_status_of_name_inv in Hstatus as ->.
Qed.

Lemma interrupted_Some (c : Client) (queueId : string) (q : TaskQueue) :
  interrupted c queueId = Some q <->
  loadQueue_ queueId c = Some q /\ (queue_status q = running \/ queue_status q = paused).
Proof.
  unfold interrupted. split.
  - destruct (hGet (KEYS.QUEUE ++ queueId) "status" c) as [[s| | | | |]|] eqn:E; try done.
    destruct (String.eqb s "running" || String.eqb s "paused") eqn:Es; [|done].
    intros Hq. split; [done|]. rewrite (loaded_status _ _ _ Hq) in E.
    injection E as <-. by destruct (queue_status q); auto.
  - intros [Hq Hst]. rewrite (loaded_status _ _ _ Hq).
    by destruct Hst as [-> | ->].
Qed.

Lemma elem_of_loadInterruptedQueues (c : Client) (q : TaskQueue) :
  q ∈ loadInterruptedQueues_ c <->
  exists queueId, queueId ∈ zRange KEYS.QUEUE_LIST c /\ loadQueue_ queueId c = Some q
                  /\ (queue_status q = running \/ queue_status q = paused).
Proof.
  unfold loadInterruptedQueues_. rewrite list_elem_of_omap.
  by setoid_rewrite interrupted_Some.
Qed.

(** X9: loadInterruptedQueues returns exactly the queues of the queue list that
    load and whose status is running or paused. *)
Theorem loadInterruptedQueues_exactly (store : RedisQueueStore) (q : TaskQueue) :
  q ∈ loadInterruptedQueues store <->
  exists queueId, queueId ∈ queue_ids store /\ loadQueue queueId store = Some q
                  /\ (queue_status q = running \/ queue_status q = paused).
Proof.
  unfold loadInterruptedQueues, queue_ids, loadQueue.
  destruct (client store) as [c|]; simpl; [apply elem_of_loadInterruptedQueues|].
  split; [by intros ?%elem_of_nil|]. by intros (queueId & ?%elem_of_nil & _).
Qed.

(** The row of a queue after the reset of a queue. *)
Lemma row_after_reset (x queueId : string) (c : Client) :
  hGetAll (KEYS.QUEUE ++ queueId) (resetInterruptedQueue_ x c) =
    (if decide (x = queueId)
     then hGetAll (KEYS.QUEUE ++ queueId) (updateQueueStatus_ queueId paused None c)
     else hGetAll (KEYS.QUEUE ++ queueId) c)
  \/ hGetAll (KEYS.QUEUE ++ queueId) (resetInterruptedQueue_ x c) = ∅.
Proof.
  case_decide as Hx.
  - subst. left. apply resetInterruptedQueue_reads.
  - unfold resetInterruptedQueue_.
    set (c1 := updateQueueStatus_ x paused None c).
    fold (reset_tasks (KEYS.PENDING ++ x) (lRange (KEYS.QUEUE_TASKS ++ x) c1)
            (del (KEYS.PENDING ++ x) c1)).
    rewrite hGetAll_del_ne by apply busy_key_not_queue_key.
    rewrite hGetAll_reset_tasks_queue, hGetAll_del.
    case_decide; [by right|left].
    apply hGetAll_hSet_ne. intros Heq%queue_key_inj. done.
Qed.

Definition reset_all (queueIds : list string) (c : Client) : Client :=
  fold_left (fun c queueId => resetInterruptedQueue_ queueId c) queueIds c.

Lemma paused_row (queueId : string) (c : Client) :
  hGetAll (KEYS.QUEUE ++ queueId) (updateQueueStatus_ queueId paused None c) !! "status"
  = Some (Text "paused").
Proof.
  change (updateQueueStatus_ queueId paused None c)
    with (hSet (KEYS.QUEUE ++ queueId) (status_updates paused None) c).
  by rewrite lookup_hSet.
Qed.

(** After the resets of [queueIds], the row of a queue among them says
    paused or is gone, and the row of any other queue is as before or
    gone. *)
Lemma row_after_reset_all (queueIds : list string) (queueId : string) (c : Client) :
  let row := hGetAll (KEYS.QUEUE ++ queueId) (reset_all queueIds c) in
  row = ∅
  \/ (if decide (queueId ∈ queueIds) then row !! "status" = Some (Text "paused")
      else row = hGetAll (KEYS.QUEUE ++ queueId) c).
Proof.
  revert c. induction queueIds as [|x rest IH]; intros c.
  - right. by rewrite decide_False by apply not_elem_of_nil.
  - change (reset_all (x :: rest) c) with (reset_all rest (resetInterruptedQueue_ x c)).
    destruct (IH (resetInterruptedQueue_ x c)) as [Hgone|Hrest]; [by left|].
    destruct (decide (queueId ∈ rest)) as [Hin|Hin].
    + right. rewrite decide_True by by right. done.
    + simpl in Hrest. simpl. rewrite Hrest.
      destruct (row_after_reset x queueId c) as [Hrow|Hrow]; [|by left].
      right. rewrite Hrow. destruct (decide (x = queueId)) as [->|Hne].
      * rewrite decide_True by left. apply paused_row.
      * rewrite decide_False; [done|]. by intros [?|?]%elem_of_cons.
Qed.

Lemma keeps_rows_reset_all (queueIds : list string) (c : Client) :
  keeps_rows c (reset_all queueIds c).
Proof.
  revert c. induction queueIds as [|x rest IH]; intros c; [apply keeps_rows_refl|].
  change (reset_all (x :: rest) c) with (reset_all rest (resetInterruptedQueue_ x c)).
  eapply keeps_rows_trans; [apply keeps_rows_resetInterruptedQueue|apply IH].
Qed.

Lemma recover_reset_all (c : Client) :
  recoverInterruptedQueues_ c = reset_all (queue_id <$> loadInterruptedQueues_ c) c.
Proof.
  unfold recoverInterruptedQueues_, reset_all.
  generalize (loadInterruptedQueues_ c). intros l. revert c.
  induction l as [|q l IH]; intros c; simpl; [done|]. apply IH.
Qed.

Lemma zRange_queue_list (c c' : Client) :
  queue_list c' = queue_list c -> zRange KEYS.QUEUE_LIST c' = zRange KEYS.QUEUE_LIST c.
Proof. unfold zRange, queue_list. by intros ->. Qed.

Lemma recovered_is_paused (c : Client) (q : TaskQueue) :
  rows_agree c ->
  q ∈ loadInterruptedQueues_ (recoverInterruptedQueues_ c) -> queue_status q = paused.
Proof.
  intros Hagree (m & Hm & Hq & Hst)%elem_of_loadInterruptedQueues.
  destruct Hst as [Hrun|Hpaused]; [exfalso|done].
  rewrite recover_reset_all in Hm, Hq.
  set (ids := queue_id <$> loadInterruptedQueues_ c) in *.
  destruct (keeps_rows_reset_all ids c) as [Hlist _].
  rewrite (zRange_queue_list _ _ Hlist) in Hm.
  pose proof (loaded_status _ _ _ Hq) as Hstatus. rewrite Hrun in Hstatus.
  unfold hGet in Hstatus.
  pose proof Hq as ([Hid Hidt Hname Hs Hset Hmet Hcr Hsta Hcom] & _ & Hdesc)%loadQueue_reads.
  destruct (row_after_reset_all ids m c) as [Hgone|Hrow]; simpl in *.
  { rewrite Hgone in Hstatus. by rewrite lookup_empty in Hstatus. }
  destruct (decide (m ∈ ids)) as [Hin|Hnot]; [congruence|].
  rewrite Hrow in *.
  assert (loadQueue_ m c
          = Some (Api.with_tasks q (listed_tasks m c))) as Hbefore.
  { apply loadQueue_reads. split; [by split|]. by split. }
  apply Hnot. unfold ids. apply list_elem_of_fmap.
  exists (Api.with_tasks q (listed_tasks m c)). split.
  - apply elem_of_zRange in Hm as [score Hscore].
    destruct (Hagree m score Hscore) as [Hagree_id _]. simpl.
    symmetry. by apply Hagree_id.
  - apply elem_of_loadInterruptedQueues. exists m. split; [done|]. split; [done|].
    simpl. by left.
Qed.

(** X10: after the recovery of a connected scheduler
    (recoverInterruptedQueues), on a store that only the methods of
    RedisQueueStore have written, no queue of the queue list is left
    running: every queue loadInterruptedQueues still returns is paused;
    and when a queue was interrupted, no agent is busy. *)
Theorem recovery_leaves_no_queue_running (store : RedisQueueStore) (c : Client) :
  client store = Some c -> written c ->
  (forall q, q ∈ loadInterruptedQueues (recoverInterruptedQueues true store) ->
     queue_status q = paused)
  /\ (loadInterruptedQueues store <> [] ->
      getBusyAgents (recoverInterruptedQueues true store) = ∅).
Proof.
  intros Hc Hwritten.
  unfold loadInterruptedQueues, recoverInterruptedQueues, getBusyAgents, with_client.
  rewrite Hc. simpl. split.
  - intros q. by apply recovered_is_paused, written_rows_agree.
  - unfold recoverInterruptedQueues_. intros Hsome.
    destruct (loadInterruptedQueues_ c) as [|q l _] using rev_ind; [done|].
    rewrite fold_left_app. simpl. apply resetInterruptedQueue_reads.
Qed.

Lemma recovery_leaves_no_queue_running_witness :
  Forall (fun q => queue_status q = paused)
    (loadInterruptedQueues
       (recoverInterruptedQueues true (saveQueue StoreRuns.Q StoreRuns.connected)))
  /\ queue_status <$> loadInterruptedQueues (saveQueue StoreRuns.Q StoreRuns.connected)
     = [running].
Proof.
  split; [|vm_compute; reflexivity].
  apply Forall_forall.
  apply (proj1 (recovery_leaves_no_queue_running
                  (saveQueue StoreRuns.Q StoreRuns.connected)
                  (saveQueue_ StoreRuns.Q Redis.empty) eq_refl
                  (written_saveQueue _ _ written_empty))).
Defined.

End StoreLaws.

(** ** Laws of the agent invoker: what the frames of a stream amount to *)

Module InvokerLaws.
Import Invoker.

Lemma string_app_assoc (a b c : string) : (a ++ b) ++ c = a ++ (b ++ c).
Proof.
  induction a as [|x a IH]; [done|].
  change (String x a ++ b) with (String x (a ++ b)).
  change (String x (a ++ b) ++ c) with (String x ((a ++ b) ++ c)).
  change (String x a ++ (b ++ c)) with (String x (a ++ (b ++ c))). by rewrite IH.
Qed.

Lemma string_app_nil_r (a : string) : a ++ "" = a.
Proof.
  induction a as [|x a IH]; [done|].
  change (String x a ++ "") with (String x (a ++ "")). by rewrite IH.
Qed.

(** *** The frames of the generator *)

(** A frame after which the generator returns. *)
Definition stops (response : StreamResponse) : bool :=
  String.eqb (stream_type response) "done" || String.eqb (stream_type response) "error".

(** Frames none of which stops the generator, and then one that does. *)
Definition stopped (out : list StreamResponse) : Prop :=
  exists pre last, out = (pre ++ [last])%list
                   /\ Forall (fun f => stops f = false) pre /\ stops last = true.

Section Frames.

Variable JSON_parse : string -> option StreamResponse.

Lemma for_lines_frames (lines : list string) :
  match snd (for_lines JSON_parse lines) with
  | Normal _ => Forall (fun f => stops f = false) (fst (for_lines JSON_parse lines))
  | Returned => stopped (fst (for_lines JSON_parse lines))
  | Thrown _ => False
  end.
Proof.
  induction lines as [|line rest IH]; simpl; [constructor|].
  destruct (JSON_parse line) as [response|]; [|exact IH].
  unfold mbind, Gen_bind, bind, yield. fold (stops response).
  destruct (stops response) eqn:E; simpl.
  - exists [], response. by repeat split.
  - destruct (for_lines JSON_parse rest) as [out [[]| |e]]; simpl in *.
    + by constructor.
    + destruct IH as (pre & last & -> & Hpre & Hlast).
      exists (response :: pre), last. repeat split; [|done]. by constructor.
    + done.
Qed.

Lemma read_loop_frames (reads : list ReadResult) :
  match snd (read_loop JSON_parse reads) with
  | Returned => stopped (fst (read_loop JSON_parse reads))
  | _ => Forall (fun f => stops f = false) (fst (read_loop JSON_parse reads))
  end.
Proof.
  induction reads as [|read rest IH]; simpl; [constructor|].
  destruct read as [chunk| |e|]; simpl; try constructor.
  unfold mbind, Gen_bind, bind.
  pose proof (for_lines_frames
                (filter (fun line => JS.trim_truthy line = true) (JS.split_nl chunk))) as H.
  destruct (for_lines JSON_parse _) as [out [[]| |e]]; simpl in *; [|done|done].
  destruct (read_loop JSON_parse rest) as [out' [[]| |e]]; simpl in *.
  - by apply Forall_app.
  - destruct IH as (pre & last & -> & Hpre & Hlast).
    exists (out ++ pre)%list, last. rewrite app_assoc. repeat split; [|done].
    by apply Forall_app.
  - by apply Forall_app.
Qed.

(** The frames executeAgentHttpRequest yields: frames of other types, and
    as the last frame the first frame of type done or error, or the frame
    of type error or aborted of the outer catch. *)
Lemma executeAgentHttpRequest_frames (agent : Agent) (fetch : FetchResult) :
  exists pre last,
    fst (executeAgentHttpRequest JSON_parse agent fetch) = (pre ++ [last])%list
    /\ Forall (fun f => stops f = false) pre
    /\ is_final_type (stream_type last) = true.
Proof.
  assert (forall e, is_final_type (stream_type (failure_frame e)) = true) as Hfail.
  { intros e. pose proof (failure_frame_type e) as H. unfold is_failure_type in H.
    unfold is_final_type. apply orb_true_iff in H as [-> | ->]; by rewrite ?orb_true_r. }
  assert (forall last, stops last = true -> is_final_type (stream_type last) = true) as Hstop.
  { intros last H. unfold stops in H. unfold is_final_type. by rewrite H. }
  unfold executeAgentHttpRequest, request_body.
  destruct fetch as [e|response]; simpl.
  { rewrite on_error_yields. exists [], (failure_frame e). by repeat split. }
  unfold mbind, Gen_bind, bind. destruct (negb (ok response)); simpl.
  { rewrite on_error_yields. exists [], (failure_frame (http_error agent response)).
    by repeat split. }
  destruct (body response) as [reads|]; simpl.
  2: { exists [], (error_frame "No response body from agent endpoint"). by repeat split. }
  unfold try_finally. pose proof (read_loop_frames reads) as H.
  destruct (read_loop JSON_parse reads) as [out [[]| |e]]; simpl in *.
  - exists out, (frame "done"). by repeat split.
  - destruct H as (pre & last & -> & Hpre & Hlast). exists pre, last. auto.
  - rewrite on_error_yields. simpl. exists out, (failure_frame e). by repeat split.
Qed.

End Frames.

(** X11: whatever the agent sends, a frame of type done or error is the last
    frame executeAgentHttpRequest yields: the lines after it, in the same
    chunk and in later chunks, are dropped; and the last frame always has
    type done, error or aborted. *)
Theorem terminal_frame_is_last
    (JSON_parse : string -> option StreamResponse) (agent : Agent) (fetch : FetchResult) :
  exists pre last,
    fst (executeAgentHttpRequest JSON_parse agent fetch) = (pre ++ [last])%list
    /\ Forall (fun f => stream_type f <> "done" /\ stream_type f <> "error") pre
    /\ is_final_type (stream_type last) = true.
Proof.
  destruct (executeAgentHttpRequest_frames JSON_parse agent fetch)
    as (pre & last & Hout & Hpre & Hlast).
  exists pre, last. repeat split; [done| |done].
  eapply Forall_impl; [exact Hpre|]. intros f Hf. unfold stops in Hf.
  apply orb_false_iff in Hf as [Hd He]. by split; apply String.eqb_neq.
Qed.

(** *** What executeTaskAsync makes of the frames *)

(** The text a frame adds to the content, and the session id it sets. *)
Definition frame_text (response : StreamResponse) : string :=
  match String.eqb (stream_type response) "claude_json", stream_data response with
  | true, Some data =>
      match data_type data, data_content data with
      | Some ty, Some content =>
          if String.eqb ty "assistant" then add_blocks "" content else ""
      | _, _ => ""
      end
  | _, _ => ""
  end.

Definition frame_session (response : StreamResponse) : option string :=
  match String.eqb (stream_type response) "claude_json", stream_data response with
  | true, Some data =>
      if JS.truthy_ostr (data_sessionId data) then data_sessionId data else None
  | _, _ => None
  end.

(** The texts of the frames, one after the other. *)
Definition all_text (frames : list StreamResponse) : string :=
  foldr (fun response text => frame_text response ++ text) "" frames.

Lemma add_blocks_app (fullContent : string) (blocks : list Block) :
  add_blocks fullContent blocks = fullContent ++ add_blocks "" blocks.
Proof.
  unfold add_blocks. revert fullContent.
  induction blocks as [|block rest IH]; intros fullContent; simpl.
  - by rewrite string_app_nil_r.
  - rewrite IH. rewrite (IH (match block_text block with
                             | Some t => if JS.truthy_str t then "" ++ t else ""
                             | None => "" end)).
    destruct (block_text block) as [t|]; [|done].
    destruct (JS.truthy_str t); [|done].
    by rewrite string_app_assoc.
Qed.

(** One round of the [for await] loop. *)
Lemma consume_step (now : Z) (response : StreamResponse) (rest : list StreamResponse)
    (end_ : Completion unit) (fullContent : string) (sessionId : option string) :
  consume now (response :: rest) end_ fullContent sessionId =
    if String.eqb (stream_type response) "error" then
      Fulfilled (inr {| error_type := execution;
                        error_message :=
                          (if JS.truthy_ostr (stream_error response)
                           then default "" (stream_error response)
                           else "Unknown error");
                        error_retryable := true;
                        error_occurredAt := now;
                        error_stack := None |})
    else if String.eqb (stream_type response) "aborted" then
      Fulfilled (inr {| error_type := abort;
                        error_message := "Task was aborted";
                        error_retryable := false;
                        error_occurredAt := now;
                        error_stack := None |})
    else consume now rest end_ (fullContent ++ frame_text response)
           (if frame_session response is Some s then Some s else sessionId).
Proof.
  simpl. unfold frame_text, frame_session.
  destruct (String.eqb (stream_type response) "claude_json") eqn:Ety.
  - apply String.eqb_eq in Ety. rewrite Ety. simpl.
    destruct (stream_data response) as [data|]; [|by rewrite string_app_nil_r].
    f_equal.
    + destruct (data_type data) as [ty|], (data_content data) as [content|];
        rewrite ?string_app_nil_r; try done.
      destruct (String.eqb ty "assistant"); [apply add_blocks_app|].
      by rewrite string_app_nil_r.
    + destruct (JS.truthy_ostr (data_sessionId data)) eqn:Es; [|done].
      by destruct (data_sessionId data).
  - by rewrite string_app_nil_r.
Qed.

Lemma consume_result (now : Z) (frames : list StreamResponse) (end_ : Completion unit)
    (fullContent : string) (sessionId : option string) (result : TaskResult) :
  consume now frames end_ fullContent sessionId = Fulfilled (inl result) ->
  result_type result = success
  /\ result_content result = fullContent ++ all_text frames
  /\ result_sessionId result
     = (if last (omap frame_session frames) is Some s then Some s else sessionId)
  /\ result_completedAt result = now
  /\ Forall (fun f => is_failure_type (stream_type f) = false) frames.
Proof.
  revert fullContent sessionId.
  induction frames as [|response rest IH]; intros fullContent sessionId.
  - simpl. destruct end_; try done; intros [= <-]; simpl; by rewrite string_app_nil_r.
  - rewrite consume_step.
    destruct (String.eqb (stream_type response) "error") eqn:Ee; [done|].
    destruct (String.eqb (stream_type response) "aborted") eqn:Ea; [done|].
    intros H. apply IH in H as (H1 & H2 & H3 & H4 & H5).
    split; [done|]. split; [|split; [|split; [done|]]].
    + rewrite H2. simpl. by rewrite string_app_assoc.
    + rewrite H3. csimpl. destruct (frame_session response) as [s|]; [|done].
      rewrite last_cons. by destruct (last (omap frame_session rest)).
    + constructor; [|done]. unfold is_failure_type. by rewrite Ee, Ea.
Qed.

(** X12: when executeTaskAsync returns a result: its content is the text of the
    text blocks of the assistant frames, in the order of the stream (text of
    frames of other kinds does not count); its session id is that of the
    last frame that carries one; its completedAt is the time of the return;
    and no frame of the stream had type error or aborted. *)
Theorem result_collects_assistant_text
    (JSON_parse : string -> option StreamResponse)
    (now : Z) (agent : Agent) (fetch : FetchResult) (result : TaskResult) :
  executeTaskAsync JSON_parse now agent fetch = Fulfilled (inl result) ->
  result_type result = success
  /\ result_content result = all_text (fst (executeAgentHttpRequest JSON_parse agent fetch))
  /\ result_sessionId result
     = last (omap frame_session (fst (executeAgentHttpRequest JSON_parse agent fetch)))
  /\ result_completedAt result = now
  /\ Forall (fun f => is_failure_type (stream_type f) = false)
       (fst (executeAgentHttpRequest JSON_parse agent fetch)).
Proof.
  unfold executeTaskAsync.
  destruct (executeAgentHttpRequest JSON_parse agent fetch) as [frames end_]. simpl.
  intros H. apply consume_result in H as (H1 & H2 & H3 & H4 & H5).
  repeat split; try done. rewrite H3. by destruct (last _).
Qed.

(** A stream of two chunks with a line that is not JSON in the first. *)
Definition two_chunks : FetchResult :=
  fetch_resolves
    {| status := 200; text := None;
       body := Some [read_chunk ("hello" ++ InvokerClaims.newline ++ "{oops"
                                 ++ InvokerClaims.newline);
                     read_chunk ("hello" ++ InvokerClaims.newline ++ "done"
                                 ++ InvokerClaims.newline)] |}.

Definition twice_hello : TaskResult :=
  {| result_type := success; result_content := "hellohello";
     result_sessionId := Some "s1"; result_completedAt := 7 |}.

Lemma result_collects_assistant_text_witness :
  executeTaskAsync InvokerClaims.parse_word 7 InvokerClaims.agent_a two_chunks
    = Fulfilled (inl twice_hello)
  /\ result_content twice_hello
     = all_text (fst (executeAgentHttpRequest InvokerClaims.parse_word
                        InvokerClaims.agent_a two_chunks)).
Proof.
  split; [reflexivity|].
  apply (result_collects_assistant_text InvokerClaims.parse_word 7 InvokerClaims.agent_a
           two_chunks twice_hello).
  reflexivity.
Defined.

(** The error executeTaskAsync returns, whatever failed. *)
Lemma consume_error (now : Z) (frames : list StreamResponse) (end_ : Completion unit)
    (fullContent : string) (sessionId : option string) (error : TaskError) :
  consume now frames end_ fullContent sessionId = Fulfilled (inr error) ->
  error_occurredAt error = now
  /\ ((error_type error = execution /\ error_retryable error = true
       /\ JS.truthy_str (error_message error) = true)
      \/ (error_type error = abort /\ error_retryable error = false
          /\ error_message error = "Task was aborted")).
Proof.
  revert fullContent sessionId.
  induction frames as [|response rest IH]; intros fullContent sessionId.
  - simpl. by destruct end_.
  - rewrite consume_step.
    destruct (String.eqb (stream_type response) "error").
    { intros [= <-]. simpl. split; [done|left]. repeat split.
      by destruct (stream_error response) as [[|? ?]|]. }
    destruct (String.eqb (stream_type response) "aborted"); [|apply IH].
    intros [= <-]. simpl. split; [done|by right].
Qed.

(** X13: every TaskError the invoker returns has type execution or abort, never
    network or timeout, whatever failed (the connection, the status, a
    read that stalled, the agent itself): an execution error is always
    flagged retryable and has a message; an abort is never retryable. *)
Theorem invoker_errors_are_execution_or_abort
    (JSON_parse : string -> option StreamResponse)
    (now : Z) (agent : Agent) (fetch : FetchResult) (error : TaskError) :
  executeTaskAsync JSON_parse now agent fetch = Fulfilled (inr error) ->
  error_occurredAt error = now
  /\ ((error_type error = execution /\ error_retryable error = true
       /\ JS.truthy_str (error_message error) = true)
      \/ (error_type error = abort /\ error_retryable error = false
          /\ error_message error = "Task was aborted")).
Proof.
  unfold executeTaskAsync.
  destruct (executeAgentHttpRequest JSON_parse agent fetch) as [frames end_].
  apply consume_error.
Qed.

(** A stream that stalls after a line that is not JSON. *)
Definition stalls : FetchResult :=
  fetch_resolves {| status := 200; text := None;
                    body := Some [read_chunk "{oops"; read_timeout] |}.

Definition stalled : TaskError :=
  {| error_type := execution; error_message := "Stream read timeout after 30 seconds";
     error_retryable := true; error_occurredAt := 7; error_stack := None |}.

Lemma invoker_errors_are_execution_or_abort_witness :
  executeTaskAsync InvokerClaims.parse_word 7 InvokerClaims.agent_a stalls
    = Fulfilled (inr stalled)
  /\ error_occurredAt stalled = 7%Z
  /\ ((error_type stalled = execution /\ error_retryable stalled = true
       /\ JS.truthy_str (error_message stalled) = true)
      \/ (error_type stalled = abort /\ error_retryable stalled = false
          /\ error_message stalled = "Task was aborted")).
Proof.
  split; [reflexivity|].
  apply (invoker_errors_are_execution_or_abort InvokerClaims.parse_word 7
           InvokerClaims.agent_a stalls stalled).
  reflexivity.
Defined.

End InvokerLaws.

(** ** The other queue handlers (handlers/taskQueue.ts)

    The handlers of the claims work on [Api.State], the module's
    [redisStore] and [queues]; the handlers that reach a scheduler also
    work on [activeSchedulers].  A queue object that a handler finds in
    [queues] is the one the map holds, so an assignment to it changes the
    map; a queue that loadQueue returns is a fresh object, and an
    assignment to it is lost when the handler returns. *)

Module ApiRest.
Import Store StoreRest Api.

Record Server := {
  api : Api.State;
  activeSchedulers : gmap string Loop.State }.

Inductive Answer :=
| answer_queue (queue : TaskQueue)                   (* 200 { queue } *)
| answer_started (queueId streamUrl : string)        (* 200 { queueId, status: "running", streamUrl } *)
| answer_status (status : QueueStatus)               (* 200 { success: true, status } *)
| answer_deleted                                     (* 200 { success: true, message } *)
| answer_busy (busyAgents : gset string)             (* 200 { busyAgents } *)
| answer_refused (error : string) (status : QueueStatus)  (* 400 { error, status } *)
| answer_error (code : Z) (error : string).

(** [handleGetQueue] *)
Definition handleGetQueue (queueId : string) (st : State) : Answer :=
  match find_queue queueId st with
  | Some (queue, _) => answer_queue queue
  | None => answer_error 404 "Queue not found"
  end.

(** [getQueueById] and [updateQueue] *)
Definition getQueueById (queueId : string) (st : State) : option TaskQueue :=
  match redisStore st with
  | Some store => if isAvailable store then loadQueue queueId store else queues st !! queueId
  | None => queues st !! queueId
  end.

Definition updateQueue (queue : TaskQueue) (st : State) : State :=
  match redisStore st with
  | Some store =>
      if isAvailable store
      then {| redisStore := Some (saveQueue queue store); queues := queues st |}
      else {| redisStore := redisStore st; queues := <[queue_id queue := queue]> (queues st) |}
  | None => {| redisStore := None; queues := <[queue_id queue := queue]> (queues st) |}
  end.

(** The assignment [queue.status = status; queue.startedAt = startedAt]
    ([startedAt] is [None] where the handler assigns the status only). *)
Definition assign_status (status : QueueStatus) (startedAt : option Z) (queue : TaskQueue)
  : TaskQueue :=
  {| queue_id := queue_id queue; queue_name := queue_name queue;
     queue_description := queue_description queue; queue_tasks := queue_tasks queue;
     queue_settings := queue_settings queue; queue_status := status;
     queue_createdAt := queue_createdAt queue;
     queue_startedAt := if startedAt is Some _ then startedAt else queue_startedAt queue;
     queue_completedAt := queue_completedAt queue; queue_metrics := queue_metrics queue |}.

(** The end of handleStartQueue, handlePauseQueue and handleResumeQueue:
    the assignment to the queue object, and the update in Redis. *)
Definition set_queue_status (queueId : string) (queue : TaskQueue) (in_memory : bool)
    (status : QueueStatus) (startedAt : option Z) (st : State) : State :=
  {| redisStore :=
       match redisStore st with
       | Some store =>
           Some (if isAvailable store
                 then updateQueueStatus queueId status startedAt store else store)
       | None => None
       end;
     queues :=
       if in_memory then <[queueId := assign_status status startedAt queue]> (queues st)
       else queues st |}.

(** [handleStartQueue]; [now] is the result of [Date.now()]. *)
Definition handleStartQueue (queueId : string) (now : Z) (st : State) : Answer * State :=
  match find_queue queueId st with
  | None => (answer_error 404 "Queue not found", st)
  | Some (queue, in_memory) =>
      if decide (queue_status queue = running)
      then (answer_error 400 "Queue is already running", st)
      else (answer_started queueId ("/api/queue/stream/" ++ queueId),
            set_queue_status queueId queue in_memory running (Some now) st)
  end.

(** [handlePauseQueue] and [handleResumeQueue] *)
Definition handlePauseQueue (queueId : string) (srv : Server) : Answer * Server :=
  match find_queue queueId (api srv) with
  | None => (answer_error 404 "Queue not found", srv)
  | Some (queue, in_memory) =>
      (answer_status paused,
       {| api := set_queue_status queueId queue in_memory paused None (api srv);
          activeSchedulers := alter Loop.pause queueId (activeSchedulers srv) |})
  end.

Definition handleResumeQueue (queueId : string) (srv : Server) : Answer * Server :=
  match find_queue queueId (api srv) with
  | None => (answer_error 404 "Queue not found", srv)
  | Some (queue, in_memory) =>
      (answer_status running,
       {| api := set_queue_status queueId queue in_memory running None (api srv);
          activeSchedulers := alter Loop.resume queueId (activeSchedulers srv) |})
  end.

(** The lookup of handleDeleteQueue: Redis when it is available, the map
    otherwise. *)
Definition stored_queue (queueId : string) (st : State) : option TaskQueue :=
  getQueueById queueId st.

(** [handleDeleteQueue]; [force] is [c.req.query("force") === "true"].  The
    third component is the scheduler the handler has stopped and taken out
    of [activeSchedulers]. *)
Definition handleDeleteQueue (queueId : string) (force : bool) (srv : Server)
  : Answer * Server * option Loop.State :=
  match stored_queue queueId (api srv) with
  | None => (answer_error 404 "Queue not found", srv, None)
  | Some queue =>
      if bool_decide (queue_status queue = running) && negb force then
        (answer_refused
           "Cannot delete running queue. Use force=true to stop and delete, or pause/stop the queue first."
           (queue_status queue), srv, None)
      else
        let st := api srv in
        let st' :=
          match redisStore st with
          | Some store =>
              if isAvailable store
              then {| redisStore := Some (deleteQueue queueId store); queues := queues st |}
              else {| redisStore := redisStore st; queues := delete queueId (queues st) |}
          | None => {| redisStore := None; queues := delete queueId (queues st) |}
          end in
        (answer_deleted,
         {| api := st'; activeSchedulers := delete queueId (activeSchedulers srv) |},
         Loop.stop <$> activeSchedulers srv !! queueId)
  end.

(** [handleGetBusyAgents] *)
Definition handleGetBusyAgents (st : State) : Answer :=
  match redisStore st with
  | Some store => answer_busy (if isAvailable store then getBusyAgents store else ∅)
  | None => answer_busy ∅
  end.

End ApiRest.

(** ** Laws of the queue handlers *)

Module ApiLaws.
Import Redis Store StoreFacts StoreRest StoreLaws Api ApiRest.

Lemma isAvailable_with_client (f : Client -> Client) (store : RedisQueueStore) :
  isAvailable (with_client f store) = isAvailable store.
Proof.
  unfold isAvailable, with_client. destruct (client store) eqn:E; simpl; by rewrite ?E.
Qed.

Lemma available_client (store : RedisQueueStore) :
  isAvailable store = true -> exists c, client store = Some c.
Proof.
  unfold isAvailable. destruct (client store) as [c|]; [by exists c|].
  by rewrite andb_false_r.
Qed.

Lemma find_queue_in_memory (queueId : string) (st : State) :
  isRedisAvailable st = false ->
  find_queue queueId st = (fun queue => (queue, true)) <$> queues st !! queueId.
Proof.
  unfold isRedisAvailable, find_queue. destruct (redisStore st) as [store|]; [|done].
  by intros ->.
Qed.

Lemma getQueueById_in_memory (queueId : string) (st : State) :
  isRedisAvailable st = false -> getQueueById queueId st = queues st !! queueId.
Proof.
  unfold isRedisAvailable, getQueueById. destruct (redisStore st) as [store|]; [|done].
  by intros ->.
Qed.

Lemma loadQueue_deleteQueue_ (queueId : string) (c : Client) :
  loadQueue_ queueId (deleteQueue_ queueId c) = None.
Proof.
  unfold deleteQueue_. fold (delete_tasks (lRange (KEYS.QUEUE_TASKS ++ queueId) c) c).
  apply loadQueue_absent. rewrite hashes_zRem. do 2 apply hashes_del_None.
  rewrite hashes_del. by case_decide.
Qed.

(** *** A created queue *)

Lemma created_queue_shape (queueId : string) (taskIds : nat -> string) (now : Z)
    (body : CreateQueueRequest) (st : State) (id : string) (queue : TaskQueue) (st' : State) :
  handleCreateQueue queueId taskIds now body st = (reply_created id queue, st') ->
  id = queue_id queue
  /\ queue_startedAt queue = None /\ queue_completedAt queue = None
  /\ queue_status queue = idle
  /\ queue_metrics queue = createInitialMetrics (length (queue_tasks queue))
  /\ Forall (fun t => task_status t = pending /\ task_startedAt t = None
                      /\ task_completedAt t = None)
       (queue_tasks queue)
  /\ st' = updateQueue queue st.
Proof.
  unfold handleCreateQueue, updateQueue.
  destruct (body_tasks body) as [inputs|]; [|done].
  destruct (_ || _); [done|]. intros [= <- <- <-]. simpl. repeat split.
  apply Forall_forall. intros t (i & input & -> & _)%elem_of_lookup_imap. done.
Qed.

(** X15: the metrics handleCreateQueue gives a new queue are the ones
    calculateMetrics computes for it. *)
Theorem created_metrics_are_calculated (queueId : string) (taskIds : nat -> string) (now : Z)
    (body : CreateQueueRequest) (st : State) (id : string) (queue : TaskQueue) (st' : State) :
  handleCreateQueue queueId taskIds now body st = (reply_created id queue, st') ->
  Scheduler.calculateMetrics queue = queue_metrics queue.
Proof.
  intros (_ & _ & _ & _ & -> & Htasks & _)%created_queue_shape.
  unfold Scheduler.calculateMetrics, createInitialMetrics.
  induction Htasks as [|t tasks (Hst & Hs & Hc) _ IH]; [done|].
  injection IH as I1 I2 I3 I4 I5.
  rewrite !filter_cons.
  rewrite (decide_False (P := task_status t = completed)) by (rewrite Hst; done).
  rewrite (decide_False (P := task_status t = failed)) by (rewrite Hst; done).
  rewrite (decide_False (P := task_status t = in_progress)) by (rewrite Hst; done).
  rewrite (decide_True (P := Scheduler.is_ready t)) by (by left).
  rewrite (decide_False (P := Scheduler.with_duration t))
    by (unfold Scheduler.with_duration; rewrite Hst; by intros [? _]).
  simpl. rewrite I1, I2, I3, I4. f_equal.
  destruct (decide (0 < length (filter Scheduler.with_duration tasks))); [done|done].
Qed.


Definition two_inputs : CreateQueueRequest :=
  {| body_name := Some "nightly"; body_description := Some "nightly jobs";
     body_tasks := Some [StoreRuns.plain_input; StoreRuns.plain_input];
     body_settings := None |}.

Definition created (st : State) : Reply * State :=
  handleCreateQueue "q1" StoreRuns.task_ids 1000 two_inputs st.

Definition created_of (st : State) : TaskQueue :=
  match fst (created st) with
  | reply_created _ queue => queue
  | _ => StoreRuns.Q
  end.

Lemma created_metrics_are_calculated_witness :
  created StoreRuns.no_store
    = (reply_created "q1" (created_of StoreRuns.no_store), snd (created StoreRuns.no_store))
  /\ Scheduler.calculateMetrics (created_of StoreRuns.no_store)
     = queue_metrics (created_of StoreRuns.no_store).
Proof.
  split; [reflexivity|].
  apply (created_metrics_are_calculated "q1" StoreRuns.task_ids 1000 two_inputs
           StoreRuns.no_store "q1" (created_of StoreRuns.no_store)
           (snd (created StoreRuns.no_store))).
  reflexivity.
Defined.

Lemma getQueueById_updateQueue_memory (queue : TaskQueue) (st : State) :
  isRedisAvailable st = false ->
  isRedisAvailable (updateQueue queue st) = false
  /\ queues (updateQueue queue st) = <[queue_id queue := queue]> (queues st).
Proof.
  unfold isRedisAvailable, updateQueue. destruct (redisStore st) as [store|]; [|done].
  intros H. rewrite H. simpl. by rewrite H.
Qed.

(** X14: the queue handleCreateQueue answers with is the queue
    handleGetQueue then serves under the id of the answer: the same queue
    without Redis; with Redis the queue without its description, when the
    generated ids are not empty, the task ids are distinct, the numbers
    of the queue (the priorities and the retry setting the client gave,
    the time of creation) are safe integers and the store lists no task
    under the queue id yet. *)
Theorem created_queue_is_served (queueId : string) (taskIds : nat -> string) (now : Z)
    (body : CreateQueueRequest) (st : State) (id : string) (queue : TaskQueue) (st' : State) :
  handleCreateQueue queueId taskIds now body st = (reply_created id queue, st') ->
  (isRedisAvailable st = false -> handleGetQueue id st' = answer_queue queue)
  /\ (forall store c,
        redisStore st = Some store -> isAvailable store = true -> client store = Some c ->
        lRange (KEYS.QUEUE_TASKS ++ id) c = [] ->
        id <> "" ->
        Forall (fun t => task_id t <> "") (queue_tasks queue) ->
        NoDup (task_id <$> queue_tasks queue) ->
        safe_queue queue = true ->
        handleGetQueue id st' = answer_queue (without_description queue)).
Proof.
  intros (-> & Hs & Hc & _ & _ & Htasks & ->)%created_queue_shape. split.
  - intros Hmem. destruct (getQueueById_updateQueue_memory queue st Hmem) as [Hmem' Hq].
    unfold handleGetQueue. rewrite find_queue_in_memory by done.
    by rewrite Hq, lookup_insert_eq.
  - intros store c Hstore Hav Hcl Hfresh Hid Hids Hnd _.
    unfold handleGetQueue, find_queue, updateQueue. rewrite Hstore, Hav. simpl.
    unfold saveQueue. rewrite isAvailable_with_client, Hav.
    unfold loadQueue, with_client. rewrite Hcl. simpl.
    rewrite loadQueue_saveQueue_; [done| |done].
    unfold storable_queue. rewrite Hs, Hc. repeat split; try done.
    apply Forall_forall. intros t Ht.
    rewrite Forall_forall in Htasks. destruct (Htasks t Ht) as (_ & Hst & Hct).
    rewrite Forall_forall in Hids. unfold storable_task. rewrite Hst, Hct.
    repeat split; try done. by apply Hids.
Qed.

Lemma created_queue_is_served_witness :
  handleGetQueue "q1" (snd (created (StoreRuns.api_with StoreRuns.Q)))
  = answer_queue (without_description (created_of (StoreRuns.api_with StoreRuns.Q))).
Proof.
  apply (proj2 (created_queue_is_served "q1" StoreRuns.task_ids 1000 two_inputs
                  (StoreRuns.api_with StoreRuns.Q) "q1"
                  (created_of (StoreRuns.api_with StoreRuns.Q))
                  (snd (created (StoreRuns.api_with StoreRuns.Q))) eq_refl)
           (saveQueue StoreRuns.Q StoreRuns.connected)
           (saveQueue_ StoreRuns.Q Redis.empty)).
  - reflexivity.
  - reflexivity.
  - reflexivity.
  - reflexivity.
  - discriminate.
  - repeat constructor; discriminate.
  - apply (bool_decide_unpack _). by vm_compute.
  - reflexivity.
Defined.


(** *** Start, pause and resume *)

(** The queue a handler has assigned a status to, as the next lookup
    finds it: the assignment itself for a queue object of the map, what
    updateQueueStatus has written for a queue of the store. *)
Definition after_status (status : QueueStatus) (startedAt : option Z) (queue : TaskQueue)
    (in_memory : bool) : TaskQueue :=
  if in_memory then assign_status status startedAt queue
  else with_status status startedAt queue.

(** [loadQueue] returns null for the id whenever a handler asks: Redis is
    not available, or the hash of the queue holds no id (the test
    [!queueData.id] of loadQueue).  The handlers then take the queue from
    the map. *)
Definition store_lacks (queueId : string) (st : State) : bool :=
  match redisStore st with
  | Some store =>
      if isAvailable store then
        match client store with
        | Some c => negb (JS.truthy_ostr (text_field (hGetAll (KEYS.QUEUE ++ queueId) c) "id"))
        | None => true
        end
      else true
  | None => true
  end.

Lemma store_lacks_unavailable (queueId : string) (st : State) :
  isRedisAvailable st = false -> store_lacks queueId st = true.
Proof.
  unfold isRedisAvailable, store_lacks. destruct (redisStore st) as [store|]; [|done].
  by intros ->.
Qed.

Lemma loadQueue_lacking (queueId : string) (c : Client) :
  JS.truthy_ostr (text_field (hGetAll (KEYS.QUEUE ++ queueId) c) "id") = false ->
  loadQueue_ queueId c = None.
Proof.
  unfold loadQueue_. destruct (text_field _ "id") as [id|]; simpl; [|done]. by intros ->.
Qed.

Lemma id_updateQueueStatus_ (queueId : string) (status : QueueStatus) (timestamp : option Z)
    (c : Client) :
  text_field (hGetAll (KEYS.QUEUE ++ queueId) (updateQueueStatus_ queueId status timestamp c)) "id"
  = text_field (hGetAll (KEYS.QUEUE ++ queueId) c) "id".
Proof.
  unfold text_field, updateQueueStatus_. rewrite lookup_hSet.
  destruct (decide (status = running)), (decide (status = q_completed)),
    (JS.truthy_onum timestamp); reflexivity.
Qed.

(** A queue of the map, after a handler has assigned it a status: the
    handler also sends the status to Redis when Redis is available, which
    gives the store no id for the queue, so that the next lookup finds the
    queue of the map again. *)
Lemma find_queue_set_queue_status_map (queueId : string) (queue : TaskQueue)
    (status : QueueStatus) (startedAt : option Z) (st : State) :
  store_lacks queueId st = true ->
  find_queue queueId (set_queue_status queueId queue true status startedAt st)
  = Some (assign_status status startedAt queue, true).
Proof.
  unfold store_lacks, find_queue, set_queue_status. simpl.
  destruct (redisStore st) as [store|]; simpl; [|by rewrite lookup_insert_eq].
  destruct (isAvailable store) eqn:Hav.
  - unfold updateQueueStatus. rewrite isAvailable_with_client, Hav.
    unfold loadQueue, with_client.
    destruct (client store) as [c|] eqn:Hc; simpl; rewrite ?Hc; simpl.
    + intros Hlacks%negb_true_iff. rewrite loadQueue_lacking.
      * by rewrite lookup_insert_eq.
      * by rewrite id_updateQueueStatus_.
    + by rewrite lookup_insert_eq.
  - rewrite Hav. by rewrite lookup_insert_eq.
Qed.

Lemma find_queue_set_queue_status (queueId : string) (queue : TaskQueue) (in_memory : bool)
    (status : QueueStatus) (startedAt : option Z) (st : State) :
  find_queue queueId st = Some (queue, in_memory) ->
  (in_memory = true -> store_lacks queueId st = true) ->
  find_queue queueId (set_queue_status queueId queue in_memory status startedAt st)
  = Some (after_status status startedAt queue in_memory, in_memory).
Proof.
  intros Hfind Hmem. destruct in_memory.
  - by apply find_queue_set_queue_status_map, Hmem.
  - clear Hmem. revert Hfind. unfold find_queue, set_queue_status. simpl.
    destruct (redisStore st) as [store|]; simpl.
    + destruct (isAvailable store) eqn:Hav.
      * unfold updateQueueStatus. rewrite isAvailable_with_client, Hav.
        unfold loadQueue, with_client.
        destruct (client store) as [c|] eqn:Hc; simpl; rewrite ?Hc.
        -- destruct (loadQueue_ queueId c) as [q|] eqn:Hq.
           ++ intros [= ->]. by rewrite (loadQueue_updateQueueStatus_ _ _ _ _ _ Hq).
           ++ by destruct (queues st !! queueId).
        -- by destruct (queues st !! queueId).
      * by destruct (queues st !! queueId).
    + by destruct (queues st !! queueId).
Qed.

(** X16: handleStartQueue on a queue that is not running answers with
    the stream URL and marks the queue running with startedAt [now] (for a
    queue of the store, a [now] of 0 leaves startedAt as it was); a second
    start is answered 400 and changes nothing.  The queue is one loaded
    from Redis or one of the map, also when Redis is available and has no
    row for it. *)
Theorem start_marks_queue_running (queueId : string) (now : Z) (st : State)
    (queue : TaskQueue) (in_memory : bool) :
  find_queue queueId st = Some (queue, in_memory) ->
  (in_memory = true -> store_lacks queueId st = true) ->
  queue_status queue <> running ->
  fst (handleStartQueue queueId now st)
    = answer_started queueId ("/api/queue/stream/" ++ queueId)
  /\ find_queue queueId (snd (handleStartQueue queueId now st))
     = Some (after_status running (Some now) queue in_memory, in_memory)
  /\ forall now',
       handleStartQueue queueId now' (snd (handleStartQueue queueId now st))
       = (answer_error 400 "Queue is already running", snd (handleStartQueue queueId now st)).
Proof.
  intros Hfind Hmem Hrun.
  assert (handleStartQueue queueId now st
          = (answer_started queueId ("/api/queue/stream/" ++ queueId),
             set_queue_status queueId queue in_memory running (Some now) st)) as ->.
  { unfold handleStartQueue. rewrite Hfind. by rewrite decide_False. }
  simpl. pose proof (find_queue_set_queue_status _ _ _ running (Some now) _ Hfind Hmem) as H.
  repeat split; [done|].
  intros now'. unfold handleStartQueue at 1. rewrite H.
  rewrite decide_True; [done|]. by destruct in_memory.
Qed.

Lemma start_marks_queue_running_witness :
  find_queue "QF" (StoreRuns.api_with StoreRuns.QF)
    = Some (without_description StoreRuns.QF, false)
  /\ fst (handleStartQueue "QF" 7000 (StoreRuns.api_with StoreRuns.QF))
     = answer_started "QF" "/api/queue/stream/QF"
  /\ find_queue "QF" (snd (handleStartQueue "QF" 7000 (StoreRuns.api_with StoreRuns.QF)))
     = Some (after_status running (Some 7000%Z) (without_description StoreRuns.QF) false,
             false)
  /\ handleStartQueue "QF" 8000 (snd (handleStartQueue "QF" 7000 (StoreRuns.api_with StoreRuns.QF)))
     = (answer_error 400 "Queue is already running",
        snd (handleStartQueue "QF" 7000 (StoreRuns.api_with StoreRuns.QF))).
Proof.
  split; [vm_compute; reflexivity|].
  destruct (start_marks_queue_running "QF" 7000 (StoreRuns.api_with StoreRuns.QF)
              (without_description StoreRuns.QF) false) as (H1 & H2 & H3).
  - vm_compute; reflexivity.
  - discriminate.
  - discriminate.
  - exact (conj H1 (conj H2 (H3 8000%Z))).
Defined.

(** X17: handlePauseQueue and handleResumeQueue do not look at the
    status of the queue: whatever it was, also completed or failed, the
    queue is paused after the one and running after the other, with its
    startedAt as before, and the scheduler of the queue, when there is
    one, has its flag set or cleared.  This holds for a queue loaded from
    Redis and for a queue of the map, also when Redis is available and
    has no row for the queue. *)
Theorem pause_and_resume_set_status (queueId : string) (srv : Server)
    (queue : TaskQueue) (in_memory : bool) :
  find_queue queueId (api srv) = Some (queue, in_memory) ->
  (in_memory = true -> store_lacks queueId (api srv) = true) ->
  (fst (handlePauseQueue queueId srv) = answer_status paused
   /\ (queue_status ∘ fst <$> find_queue queueId (api (snd (handlePauseQueue queueId srv))))
      = Some paused
   /\ (queue_startedAt ∘ fst <$> find_queue queueId (api (snd (handlePauseQueue queueId srv))))
      = Some (queue_startedAt queue)
   /\ (snd <$> find_queue queueId (api (snd (handlePauseQueue queueId srv))))
      = Some in_memory
   /\ (Loop.isPaused <$> activeSchedulers (snd (handlePauseQueue queueId srv)) !! queueId)
      = ((fun _ => true) <$> activeSchedulers srv !! queueId))
  /\ (fst (handleResumeQueue queueId srv) = answer_status running
      /\ (queue_status ∘ fst <$> find_queue queueId (api (snd (handleResumeQueue queueId srv))))
         = Some running
      /\ (queue_startedAt ∘ fst
            <$> find_queue queueId (api (snd (handleResumeQueue queueId srv))))
         = Some (queue_startedAt queue)
      /\ (snd <$> find_queue queueId (api (snd (handleResumeQueue queueId srv))))
         = Some in_memory
      /\ (Loop.isPaused <$> activeSchedulers (snd (handleResumeQueue queueId srv)) !! queueId)
         = ((fun _ => false) <$> activeSchedulers srv !! queueId)).
Proof.
  intros Hfind Hmem. unfold handlePauseQueue, handleResumeQueue. rewrite Hfind. simpl.
  rewrite !(find_queue_set_queue_status _ _ _ _ None _ Hfind Hmem).
  rewrite !lookup_alter_eq.
  destruct (activeSchedulers srv !! queueId) as [sch|]; destruct in_memory;
    repeat split; by simpl.
Qed.

(** Redis is available and holds nothing; the map holds the failed queue. *)
Definition beside_store : State :=
  {| redisStore := Some StoreRuns.connected; queues := {["QF" := StoreRuns.QF]} |}.

Lemma pause_and_resume_set_status_witness :
  (isRedisAvailable beside_store = true
   /\ find_queue "QF" beside_store = Some (StoreRuns.QF, true)
   /\ queue_status StoreRuns.QF = q_failed
   /\ (queue_status ∘ fst
         <$> find_queue "QF"
               (api (snd (handlePauseQueue "QF"
                            {| api := beside_store; activeSchedulers := ∅ |}))))
      = Some paused)
  /\ (find_queue "QF" (StoreRuns.api_with StoreRuns.QF)
      = Some (without_description StoreRuns.QF, false)
      /\ (queue_status ∘ fst
            <$> find_queue "QF"
                  (api (snd (handleResumeQueue "QF"
                               {| api := StoreRuns.api_with StoreRuns.QF;
                                  activeSchedulers := ∅ |}))))
         = Some running).
Proof.
  split.
  - split; [reflexivity|]. split; [vm_compute; reflexivity|]. split; [reflexivity|].
    apply (proj1 (pause_and_resume_set_status "QF"
                    {| api := beside_store; activeSchedulers := ∅ |}
                    StoreRuns.QF true ltac:(vm_compute; reflexivity)
                    ltac:(intros _; vm_compute; reflexivity))).
  - split; [vm_compute; reflexivity|].
    apply (proj2 (pause_and_resume_set_status "QF"
                    {| api := StoreRuns.api_with StoreRuns.QF; activeSchedulers := ∅ |}
                    (without_description StoreRuns.QF) false
                    ltac:(vm_compute; reflexivity) ltac:(discriminate))).
Defined.

(** *** Deleting a queue *)

(** X18: handleDeleteQueue refuses a running queue unless force is set,
    and leaves everything as it was; otherwise it answers success, stops
    the scheduler of the queue and forgets it, and a second delete answers
    404.  The handler looks the queue up in one place only, Redis or the
    map; with Redis, a queue of that id that the map holds is still what
    handleGetQueue finds afterwards. *)
Theorem delete_removes_queue (queueId : string) (force : bool) (srv : Server)
    (queue : TaskQueue) :
  getQueueById queueId (api srv) = Some queue ->
  (queue_status queue = running ->
   handleDeleteQueue queueId false srv
   = (answer_refused
        "Cannot delete running queue. Use force=true to stop and delete, or pause/stop the queue first."
        running, srv, None))
  /\ (queue_status queue <> running \/ force = true ->
      (handleDeleteQueue queueId force srv).1.1 = answer_deleted
      /\ getQueueById queueId (api (handleDeleteQueue queueId force srv).1.2) = None
      /\ find_queue queueId (api (handleDeleteQueue queueId force srv).1.2)
         = (if isRedisAvailable (api srv)
            then (fun q => (q, true)) <$> queues (api srv) !! queueId else None)
      /\ activeSchedulers (handleDeleteQueue queueId force srv).1.2 !! queueId = None
      /\ (Loop.isStopped <$> (handleDeleteQueue queueId force srv).2)
         = ((fun _ => true) <$> activeSchedulers srv !! queueId)
      /\ forall force',
           (handleDeleteQueue queueId force' (handleDeleteQueue queueId force srv).1.2).1.1
           = answer_error 404 "Queue not found").
Proof.
  intros Hget. split.
  - intros Hrun. unfold handleDeleteQueue, stored_queue. rewrite Hget, Hrun.
    by rewrite bool_decide_eq_true_2.
  - intros Hok.
    assert (bool_decide (queue_status queue = running) && negb force = false) as Hb.
    { destruct Hok as [Hne| ->]; [|by rewrite andb_false_r].
      by rewrite bool_decide_eq_false_2. }
    destruct (handleDeleteQueue queueId force srv) as [[ans srv'] stopped] eqn:Hdel.
    unfold handleDeleteQueue, stored_queue in Hdel. rewrite Hget, Hb in Hdel.
    injection Hdel as <- <- <-. cbn [fst snd api activeSchedulers].
    set (st' := match redisStore (api srv) with Some _ => _ | None => _ end).
    assert (getQueueById queueId st' = None
            /\ find_queue queueId st'
               = (if isRedisAvailable (api srv)
                  then (fun q => (q, true)) <$> queues (api srv) !! queueId else None))
      as [Hgone Hfind].
    { unfold st', getQueueById, find_queue, isRedisAvailable.
      destruct (redisStore (api srv)) as [store|]; simpl.
      - destruct (isAvailable store) eqn:Hav; simpl.
        + unfold deleteQueue. rewrite isAvailable_with_client, Hav.
          unfold loadQueue, with_client.
          destruct (available_client _ Hav) as [c Hc]. rewrite Hc. simpl.
          by rewrite loadQueue_deleteQueue_.
        + rewrite Hav. by rewrite lookup_delete_eq.
      - by rewrite lookup_delete_eq. }
    repeat split; try done.
    + apply lookup_delete_eq.
    + by destruct (activeSchedulers srv !! queueId).
    + intros force'. unfold handleDeleteQueue, stored_queue. simpl. by rewrite Hgone.
Qed.

Lemma delete_removes_queue_witness :
  getQueueById "Q" (StoreRuns.api_with StoreRuns.Q) = Some (without_description StoreRuns.Q)
  /\ handleDeleteQueue "Q" false
       {| api := StoreRuns.api_with StoreRuns.Q; activeSchedulers := ∅ |}
     = (answer_refused
          "Cannot delete running queue. Use force=true to stop and delete, or pause/stop the queue first."
          running, {| api := StoreRuns.api_with StoreRuns.Q; activeSchedulers := ∅ |}, None).
Proof.
  split; [vm_compute; reflexivity|].
  apply (proj1 (delete_removes_queue "Q" false
                  {| api := StoreRuns.api_with StoreRuns.Q; activeSchedulers := ∅ |}
                  (without_description StoreRuns.Q) ltac:(vm_compute; reflexivity))).
  reflexivity.
Defined.

(** *** updateQueue *)

Lemma reads_queue_saved (q : TaskQueue) (h : gmap string Value) :
  has_fields (queueData q) h ->
  queue_id q <> "" -> storable (queue_startedAt q) -> storable (queue_completedAt q) ->
  reads_queue h q.
Proof.
  intros H Hid Hs Hc.
  field_of H "id". field_of H "name". field_of H "status". field_of H "createdAt".
  field_of H "startedAt". field_of H "completedAt". field_of H "settings".
  field_of H "metrics".
  split.
  - by apply text_field_has.
  - by apply truthy_str_nonempty.
  - by apply text_field_has.
  - rewrite (text_field_has h "status" (queue_status_name (queue_status q))) by done.
    simpl. apply queue_status_of_name_name.
  - unfold settings_field. by rewrite Hfield5.
  - unfold metrics_field. by rewrite Hfield6.
  - by apply num_field_has.
  - by apply opt_num_field_has.
  - by apply opt_num_field_has.
Qed.

(** saveQueue on any store: the queue loads with the tasks the store
    listed under its id before, as they load now, followed by its own. *)
Lemma loadQueue_saveQueue_over (q : TaskQueue) (c : Client) :
  storable_queue q ->
  loadQueue_ (queue_id q) (saveQueue_ q c)
  = Some (with_tasks (without_description q)
            (omap (fun taskId => loadTask_ taskId (saveQueue_ q c))
                  (lRange (KEYS.QUEUE_TASKS ++ queue_id q) c) ++ queue_tasks q)%list).
Proof.
  intros (Hid & Hstart & Hdone & Hnd & Htasks).
  apply loadQueue_reads. split; [|split; [|done]].
  - assert (reads_queue (hGetAll (KEYS.QUEUE ++ queue_id q) (saveQueue_ q c)) q) as [].
    { apply reads_queue_saved; try done.
      rewrite hGetAll_saveQueue. apply hSet_has_fields, queueData_fields_NoDup. }
    by split.
  - simpl. unfold listed_tasks.
    assert (lRange (KEYS.QUEUE_TASKS ++ queue_id q) (saveQueue_ q c)
            = (lRange (KEYS.QUEUE_TASKS ++ queue_id q) c ++ (task_id <$> queue_tasks q))%list)
      as ->.
    { unfold saveQueue_. by rewrite lRange_saveQueue_tasks, lRange_zAdd, lRange_hSet. }
    rewrite omap_app. f_equal.
    symmetry. apply omap_loadTask. intros t Ht. apply loadTask_has_fields.
    + unfold saveQueue_. by apply saveQueue_tasks_fields.
    + by eapply Forall_forall in Htasks.
Qed.

(** X19: updateQueue then getQueueById.  Without Redis the queue is
    stored under its id and read back as it is, and a second updateQueue
    changes nothing.  With Redis, saveQueue appends to the task list of the
    queue: for a queue whose numbers are safe integers, the first
    updateQueue gives the queue back (without its description), a second
    one gives it back with every task twice. *)
Theorem updateQueue_then_getQueueById (q : TaskQueue) (st : State) :
  (isRedisAvailable st = false ->
   getQueueById (queue_id q) (updateQueue q st) = Some q
   /\ updateQueue q (updateQueue q st) = updateQueue q st)
  /\ (forall store c,
        redisStore st = Some store -> isAvailable store = true -> client store = Some c ->
        storable_queue q ->
        safe_queue q = true ->
        lRange (KEYS.QUEUE_TASKS ++ queue_id q) c = [] ->
        getQueueById (queue_id q) (updateQueue q st) = Some (without_description q)
        /\ getQueueById (queue_id q) (updateQueue q (updateQueue q st))
           = Some (with_tasks (without_description q) (queue_tasks q ++ queue_tasks q)%list)).
Proof.
  split.
  - intros Hmem. destruct (getQueueById_updateQueue_memory q st Hmem) as [Hmem' Hq].
    split.
    + rewrite getQueueById_in_memory by done. by rewrite Hq, lookup_insert_eq.
    + revert Hmem. unfold isRedisAvailable, updateQueue.
      destruct (redisStore st) as [store|]; simpl.
      * intros H. rewrite H. simpl. rewrite H. by rewrite insert_insert_eq.
      * intros _. by rewrite insert_insert_eq.
  - intros store c Hstore Hav Hc Hq _ Hfresh.
    assert (forall store' c', isAvailable store' = true -> client store' = Some c' ->
              getQueueById (queue_id q)
                {| redisStore := Some (saveQueue q store'); queues := queues st |}
              = loadQueue_ (queue_id q) (saveQueue_ q c')) as Hget.
    { intros store' c' Hav' Hc'. unfold getQueueById. simpl.
      unfold saveQueue. rewrite isAvailable_with_client, Hav'.
      unfold loadQueue, with_client. by rewrite Hc'. }
    unfold updateQueue. rewrite Hstore, Hav. simpl.
    assert (isAvailable (saveQueue q store) = true) as Hav'.
    { unfold saveQueue. by rewrite isAvailable_with_client. }
    rewrite Hav'. split.
    + rewrite (Hget store c) by done. by apply loadQueue_saveQueue_.
    + rewrite (Hget (saveQueue q store) (saveQueue_ q c)); cycle 1.
      { unfold saveQueue. by rewrite isAvailable_with_client. }
      { unfold saveQueue, with_client. by rewrite Hc. }
      rewrite loadQueue_saveQueue_over by done. do 2 f_equal.
      assert (lRange (KEYS.QUEUE_TASKS ++ queue_id q) (saveQueue_ q c)
              = task_id <$> queue_tasks q) as ->.
      { unfold saveQueue_.
        by rewrite lRange_saveQueue_tasks, lRange_zAdd, lRange_hSet, Hfresh. }
      destruct Hq as (_ & _ & _ & Hnd & Htasks). f_equal.
      apply omap_loadTask. intros t Ht. apply loadTask_has_fields.
      * unfold saveQueue_ at 1. by apply saveQueue_tasks_fields.
      * by eapply Forall_forall in Htasks.
Qed.

Lemma storable_queue_QF : storable_queue StoreRuns.QF.
Proof.
  unfold storable_queue, storable, storable_task, storable. simpl.
  repeat split; try discriminate.
  - apply (bool_decide_unpack _). by vm_compute.
  - repeat constructor; simpl; discriminate.
Qed.

Lemma updateQueue_then_getQueueById_witness :
  getQueueById "QF"
    (updateQueue StoreRuns.QF
       (updateQueue StoreRuns.QF
          {| redisStore := Some StoreRuns.connected; queues := ∅ |}))
  = Some (with_tasks (without_description StoreRuns.QF)
            [StoreRuns.F1; StoreRuns.T2; StoreRuns.F1; StoreRuns.T2]).
Proof.
  apply (proj2 (updateQueue_then_getQueueById StoreRuns.QF
                  {| redisStore := Some StoreRuns.connected; queues := ∅ |})
           StoreRuns.connected Redis.empty eq_refl eq_refl eq_refl
           storable_queue_QF eq_refl eq_refl).
Defined.

(** *** Retrying a task *)

(** The stored task after handleRetryTask: pending with retryCount 0, and
    every other field as it was stored. *)
Definition retried (t : QueueTask) : QueueTask :=
  {| task_id := task_id t; task_agentId := task_agentId t;
     task_message := task_message t;
     task_status := pending;
     task_priority := task_priority t;
     task_estimatedComplexity := task_estimatedComplexity t;
     task_retryCount := 0;
     task_maxRetries := task_maxRetries t;
     task_createdAt := task_createdAt t;
     task_startedAt := task_startedAt t;
     task_completedAt := task_completedAt t;
     task_result := task_result t;
     task_error := task_error t;
     task_metadata := task_metadata t |}.

(** What a retry is to make of a task: the task is pending, has not been
    retried, and has no result, no error and no timestamps; its other
    fields are as they were. *)
Definition is_reset (task task' : QueueTask) : Prop :=
  task_status task' = pending /\ task_retryCount task' = 0%Z
  /\ task_result task' = None /\ task_error task' = None
  /\ task_startedAt task' = None /\ task_completedAt task' = None
  /\ task_id task' = task_id task /\ task_agentId task' = task_agentId task
  /\ task_message task' = task_message task /\ task_priority task' = task_priority task
  /\ task_estimatedComplexity task' = task_estimatedComplexity task
  /\ task_maxRetries task' = task_maxRetries task
  /\ task_createdAt task' = task_createdAt task
  /\ task_metadata task' = task_metadata task.

(** Two queues that differ in their tasks at most. *)
Definition same_but_tasks (queue queue' : TaskQueue) : Prop :=
  queue_id queue' = queue_id queue /\ queue_name queue' = queue_name queue
  /\ queue_description queue' = queue_description queue
  /\ queue_settings queue' = queue_settings queue
  /\ queue_status queue' = queue_status queue
  /\ queue_createdAt queue' = queue_createdAt queue
  /\ queue_startedAt queue' = queue_startedAt queue
  /\ queue_completedAt queue' = queue_completedAt queue
  /\ queue_metrics queue' = queue_metrics queue.

Lemma id_after_retry (queueId taskId : string) (u : TaskUpdates) (c : Client) :
  text_field (hGetAll (KEYS.QUEUE ++ queueId)
                (lPush (KEYS.PENDING ++ queueId) taskId (updateTask_ taskId u c))) "id"
  = text_field (hGetAll (KEYS.QUEUE ++ queueId) c) "id".
Proof.
  change (hGetAll (KEYS.QUEUE ++ queueId) (lPush _ taskId (updateTask_ taskId u c)))
    with (hGetAll (KEYS.QUEUE ++ queueId) (updateTask_ taskId u c)).
  rewrite hGetAll_updateTask_ne; [done|]. apply task_key_not_queue_key.
Qed.

(** X22: handleRetryTask does not look at the status of the task.  For
    every task it finds it answers with the task as pending, retryCount 0
    and without result, error and timestamps, its other fields unchanged.
    For a queue of the map, the queue of the map holds the task in that
    form afterwards, at the place of the task, and is otherwise as before;
    for a queue loaded from Redis the map is left as it is.  With Redis
    the stored task becomes pending with retryCount 0 and keeps its other
    fields, result, error and timestamps included, and the task id is put
    at the front of the pending list, whether the list holds it or not. *)
Theorem retry_requeues_task (queueId taskId : string) (st : State)
    (queue : TaskQueue) (in_memory : bool) (i : nat) (task : QueueTask) :
  find_queue queueId st = Some (queue, in_memory) ->
  find_task taskId (queue_tasks queue) = Some (i, task) ->
  exists task',
    is_reset task task'
    /\ fst (handleRetryTask queueId taskId st) = reply_task task'
    /\ (in_memory = true -> store_lacks queueId st = true ->
        exists queue',
          find_queue queueId (snd (handleRetryTask queueId taskId st)) = Some (queue', true)
          /\ same_but_tasks queue queue'
          /\ queue_tasks queue' = <[i := task']> (queue_tasks queue))
    /\ (in_memory = false ->
        queues (snd (handleRetryTask queueId taskId st)) = queues st)
    /\ (forall store stored,
          redisStore st = Some store -> isAvailable store = true ->
          loadTask taskId store = Some stored ->
          StoreRuns.stored_task taskId (snd (handleRetryTask queueId taskId st))
          = Some (retried stored)
          /\ StoreRuns.stored_pending queueId (snd (handleRetryTask queueId taskId st))
             = taskId :: StoreRuns.stored_pending queueId st).
Proof.
  intros Hfind Htask. unfold handleRetryTask. rewrite Hfind, Htask. simpl.
  exists (reset_for_retry task).
  split; [by repeat split|]. split; [done|]. split; [|split].
  - intros -> Hlacks.
    exists (with_tasks queue (<[i := reset_for_retry task]> (queue_tasks queue))).
    split; [|by repeat split].
    revert Hlacks. unfold store_lacks, find_queue. simpl.
    destruct (redisStore st) as [store|]; simpl; [|by rewrite lookup_insert_eq].
    destruct (isAvailable store) eqn:Hav.
    + unfold requeueTask, updateTask. rewrite !isAvailable_with_client, Hav.
      unfold loadQueue, with_client.
      destruct (client store) as [c|] eqn:Hc; simpl; rewrite ?Hc; simpl.
      * intros Hlacks%negb_true_iff. rewrite loadQueue_lacking.
        -- by rewrite lookup_insert_eq.
        -- by rewrite id_after_retry.
      * by rewrite lookup_insert_eq.
    + rewrite Hav. by rewrite lookup_insert_eq.
  - by intros ->.
  - intros store stored Hstore Hav Hload.
    unfold StoreRuns.stored_task, StoreRuns.stored_pending, StoreRuns.pending_list.
    rewrite Hstore, Hav. simpl.
    destruct (available_client _ Hav) as [c Hc].
    revert Hload. unfold loadTask, requeueTask, updateTask, with_client.
    rewrite Hc. simpl. intros Hload. split.
    + rewrite (loadTask_ext _ (updateTask_ taskId
                 {| upd_status := Some pending; upd_startedAt := None;
                    upd_completedAt := None; upd_result := None; upd_error := None;
                    upd_retryCount := Some 0%Z |} c)) by done.
      by rewrite (loadTask_updateTask_ _ _ _ _ Hload).
    + by rewrite lRange_lPush, lRange_updateTask.
Qed.

(** The failed task of the queue of the map, as a retry leaves it. *)
Definition F1_again : QueueTask :=
  {| task_id := "F1"; task_agentId := "A1"; task_message := "first";
     task_status := pending; task_priority := 1;
     task_estimatedComplexity := None;
     task_retryCount := 0; task_maxRetries := 3; task_createdAt := 1000;
     task_startedAt := None; task_completedAt := None;
     task_result := None; task_error := None; task_metadata := None |}.

Lemma retry_requeues_task_witness :
  (exists task',
     is_reset StoreRuns.F1 task'
     /\ fst (handleRetryTask "QF" "F1" beside_store) = reply_task task'
     /\ exists queue',
          find_queue "QF" (snd (handleRetryTask "QF" "F1" beside_store)) = Some (queue', true)
          /\ same_but_tasks StoreRuns.QF queue'
          /\ queue_tasks queue' = <[0 := task']> (queue_tasks StoreRuns.QF))
  /\ fst (handleRetryTask "QF" "F1" beside_store) = reply_task F1_again
  /\ (queue_tasks ∘ fst <$> find_queue "QF" (snd (handleRetryTask "QF" "F1" beside_store)))
     = Some [F1_again; StoreRuns.T2]
  /\ StoreRuns.stored_task "F1" (snd (handleRetryTask "QF" "F1" (StoreRuns.api_with StoreRuns.QF)))
     = Some (retried StoreRuns.F1)
  /\ StoreRuns.stored_pending "QF"
       (snd (handleRetryTask "QF" "F1" (StoreRuns.api_with StoreRuns.QF)))
     = "F1" :: StoreRuns.stored_pending "QF" (StoreRuns.api_with StoreRuns.QF).
Proof.
  split; [|split; [|split]].
  - destruct (retry_requeues_task "QF" "F1" beside_store StoreRuns.QF true 0 StoreRuns.F1
                ltac:(vm_compute; reflexivity) eq_refl)
      as (task' & Hreset & Hreply & Hmap & _ & _).
    exists task'. split; [exact Hreset|]. split; [exact Hreply|].
    apply Hmap; [reflexivity|vm_compute; reflexivity].
  - vm_compute; reflexivity.
  - vm_compute; reflexivity.
  - destruct (retry_requeues_task "QF" "F1" (StoreRuns.api_with StoreRuns.QF)
                (without_description StoreRuns.QF) false 0 StoreRuns.F1
                ltac:(vm_compute; reflexivity) eq_refl)
      as (task' & _ & _ & _ & _ & Hstored).
    apply (Hstored (saveQueue StoreRuns.QF StoreRuns.connected) StoreRuns.F1);
      [reflexivity|reflexivity|vm_compute; reflexivity].
Defined.

End ApiLaws.

(** ** Laws of the scheduler loop *)

Module LoopLaws.
Import Scheduler Loop.
Local Open Scope list_scope.

(** *** The running tasks stay within maxConcurrency *)

(** The readyTasks the dispatch loop has still to start. *)
Definition to_start (s : State) : nat :=
  if place s is at_dispatch rest then length rest else 0.

(** The settings are those the queue came with, and the running tasks,
    with the tasks the dispatch loop will still start, fit into
    [maxConcurrency]. *)
Definition within (limit : TaskQueueSettings) (s : State) : Prop :=
  settings s = limit /\
  (Z.of_nat (size (runningTasks s)) + Z.of_nat (to_start s)
   <= Z.max 0 (maxConcurrency limit))%Z.

(** [s'] has the running tasks and the settings of [s], and no more tasks
    to start. *)
Definition calmer (s s' : State) : Prop :=
  runningTasks s' = runningTasks s /\ settings s' = settings s /\
  to_start s' <= to_start s.

Lemma calmer_refl (s : State) : calmer s s.
Proof. by repeat split. Qed.

Lemma calmer_trans (s1 s2 s3 : State) : calmer s1 s2 -> calmer s2 s3 -> calmer s1 s3.
Proof.
  intros (H1 & H2 & H3) (H4 & H5 & H6). repeat split; [congruence|congruence|lia].
Qed.

Lemma within_calmer (limit : TaskQueueSettings) (s s' : State) :
  calmer s s' -> within limit s -> within limit s'.
Proof. intros (H1 & H2 & H3) [H4 H5]. split; [congruence|]. rewrite H1. lia. Qed.

Ltac calm := repeat split; [unfold to_start; simpl; lia].

Lemma size_without (X : gset string) (x : string) : size (X ∖ {[x]}) <= size X.
Proof. apply subseteq_size, subseteq_difference_l. reflexivity. Qed.

Section Concurrency.

Variable getAgent : string -> option Invoker.Agent.

Lemma calmer_settle now i task outcome s : calmer s (settle now i task outcome s).
Proof.
  unfold settle. destruct outcome as [result|error]; [calm|].
  destruct (_ && _); calm.
Qed.

Lemma calmer_settle_final now i task outcome s :
  calmer s (settle_final now i task outcome s).
Proof. unfold settle_final. destruct outcome; calm. Qed.

Lemma calmer_final_event now metrics s : calmer s (final_event now metrics s).
Proof. unfold final_event. destruct (isStopped s); [|case_decide]; calm. Qed.

Lemma calmer_final_metrics now s : calmer s (final_metrics now s).
Proof.
  unfold final_metrics. destruct (isRedisConnected s) eqn:E; simpl; rewrite ?E; [calm|].
  eapply calmer_trans; [|apply calmer_final_event]. calm.
Qed.

Lemma calmer_final_head now s : calmer s (final_head now s).
Proof. unfold final_head. destruct (_ && _); [calm|apply calmer_final_metrics]. Qed.

Lemma calmer_final_drain now entries s : calmer s (final_drain now entries s).
Proof.
  revert s. induction entries as [|[taskId outcome] rest IH]; intros s; simpl.
  - apply calmer_final_head.
  - destruct (find_index taskId (tasks s)) as [i|]; [|apply IH].
    destruct (tasks s !! i) as [task|]; [|apply calmer_refl].
    eapply calmer_trans; [apply calmer_settle_final|]. calm.
Qed.

Lemma calmer_drain now entries s : calmer s (drain now entries s).
Proof.
  revert s. induction entries as [|[taskId outcome] rest IH]; intros s; simpl.
  - calm.
  - destruct (find_index taskId (tasks s)) as [i|]; [|apply IH].
    destruct (tasks s !! i) as [task|]; [|apply calmer_refl].
    eapply calmer_trans; [apply calmer_settle|]. calm.
Qed.

(** A round of the dispatch loop starts one task at most. *)
Lemma dispatch_starts_one now i s :
  size (runningTasks (dispatch getAgent now i s)) <= S (size (runningTasks s))
  /\ settings (dispatch getAgent now i s) = settings s.
Proof.
  unfold dispatch. destruct (tasks s !! i) as [task|]; [|split; [lia|done]].
  destruct (getAgent _); simpl; [|split; [lia|done]].
  split; [|done]. rewrite size_union_alt, size_singleton.
  pose proof (size_without (runningTasks s) (task_id task)). lia.
Qed.

Lemma within_dispatch_next limit now ready s :
  settings s = limit ->
  (Z.of_nat (size (runningTasks s)) + Z.of_nat (length ready)
   <= Z.max 0 (maxConcurrency limit))%Z ->
  to_start s <= length ready ->
  within limit (dispatch_next getAgent now ready s).
Proof.
  intros Hs H Hplace. unfold dispatch_next. destruct ready as [|i rest].
  - apply (within_calmer _ s); [apply calmer_drain|]. split; [done|]. simpl in *. lia.
  - destruct (dispatch_starts_one now i s) as [Hsize Hset].
    split; [by rewrite <- Hs, <- Hset|].
    change (to_start (set_place (at_dispatch rest) (dispatch getAgent now i s)))
      with (length rest).
    change (runningTasks (set_place (at_dispatch rest) (dispatch getAgent now i s)))
      with (runningTasks (dispatch getAgent now i s)).
    simpl in H. lia.
Qed.

Lemma within_select limit now s :
  within limit s -> to_start s = 0 -> within limit (select getAgent now s).
Proof.
  intros [Hs H] H0. unfold select.
  destruct (fst <$> getReadyTasks _ _ _) as [|i rest] eqn:E.
  - apply (within_calmer _ s); [|done].
    case_bool_decide; [calm|apply calmer_final_head].
  - apply within_dispatch_next; [done| |lia].
    rewrite <- E, length_fmap, getReadyTasks_unfold, length_take.
    assert (length (fst <$> getReadyTasks (size (runningTasks s)) (tasks s)
                              (maxConcurrency (settings s))) <> 0) as Hne
      by (rewrite E; done).
    rewrite length_fmap, getReadyTasks_unfold, length_take in Hne.
    rewrite Hs in *. lia.
Qed.

Lemma within_loop_step limit now s :
  within limit s -> within limit (loop_step getAgent now s).
Proof.
  intros H. pose proof H as [Hs Hle]. unfold loop_step.
  destruct (place s) as [| | | |rest|taskId rest| |taskId rest|metrics|] eqn:Hp;
    try (assert (to_start s = 0) as H0 by (unfold to_start; by rewrite Hp)).
  - split; [done|].
    change (runningTasks (start now s)) with (∅ : gset string).
    change (to_start (start now s)) with 0. rewrite size_empty. lia.
  - unfold loop_head. destruct (_ && _).
    + destruct (isPaused s); [|by apply within_select].
      apply (within_calmer _ s); [calm|done].
    + apply (within_calmer _ s); [apply calmer_final_head|done].
  - apply (within_calmer _ s); [|done].
    destruct (_ && _); [apply calmer_refl|].
    destruct (isStopped s); [apply calmer_final_head|calm].
  - by apply within_select.
  - apply within_dispatch_next; [done| |].
    + revert Hle. unfold to_start. by rewrite Hp.
    + unfold to_start. by rewrite Hp.
  - apply (within_calmer _ s); [|done].
    eapply calmer_trans; [|apply calmer_drain]. calm.
  - apply (within_calmer _ s); [apply calmer_final_drain|done].
  - apply (within_calmer _ s); [|done].
    eapply calmer_trans; [|apply calmer_final_drain]. calm.
  - apply (within_calmer _ s); [apply calmer_final_event|done].
  - done.
Qed.

Lemma calmer_timer_fires i s : calmer s (timer_fires i s).
Proof.
  unfold timer_fires.
  destruct (tasks _ !! i); calm.
Qed.

Lemma calmer_handler_retry taskId s : calmer s (handler_retry taskId s).
Proof.
  unfold handler_retry. destruct (Api.find_task taskId (tasks s)) as [[i task]|]; calm.
Qed.

Lemma within_step limit s s' : step getAgent s s' -> within limit s -> within limit s'.
Proof.
  intros Hstep H.
  destruct Hstep as [s1 s2 [now s|taskId outcome s _|i s _|s|s|s|status startedAt s]|taskId s].
  - by apply within_loop_step.
  - destruct H as [Hs Hle]. split; [done|].
    change (to_start (settled taskId outcome s)) with (to_start s).
    pose proof (size_without (runningTasks s) taskId) as Hsub.
    change (runningTasks (settled taskId outcome s)) with (runningTasks s ∖ {[taskId]}).
    lia.
  - apply (within_calmer _ s); [apply calmer_timer_fires|done].
  - apply (within_calmer _ s); [calm|done].
  - apply (within_calmer _ s); [calm|done].
  - destruct H as [Hs Hle]. split; [done|].
    change (to_start (stop s)) with (to_start s).
    change (runningTasks (stop s)) with (∅ : gset string). rewrite size_empty. lia.
  - apply (within_calmer _ s); [calm|done].
  - apply (within_calmer _ s); [apply calmer_handler_retry|done].
Qed.

Lemma within_reachable limit s0 s :
  reachable getAgent s0 s -> within limit s0 -> within limit s.
Proof.
  intros Hreach H0. induction Hreach as [|s1 s2 s3 Hstep _ IH]; [done|].
  apply IH. by eapply within_step.
Qed.

(** X20: in every state the scheduler reaches on a queue, calls of
    pause(), resume(), stop() and of the retry handler included, the running
    tasks it keeps count of are at most the queue's
    [settings.maxConcurrency] (none, when that is 0 or negative), and so
    are the running tasks together with the ready tasks the dispatch loop
    has selected and not started yet. *)
Theorem running_within_maxConcurrency (q : TaskQueue) (connected : bool)
    (store : Store.RedisQueueStore) (s : State) :
  reachable getAgent (init q connected store) s ->
  (Z.of_nat (size (runningTasks s)) + Z.of_nat (to_start s)
   <= Z.max 0 (maxConcurrency (queue_settings q)))%Z.
Proof.
  intros Hreach.
  assert (within (queue_settings q) (init q connected store)) as H0.
  { split; [done|].
    change (runningTasks (init q connected store)) with (∅ : gset string).
    change (to_start (init q connected store)) with 0. rewrite size_empty. lia. }
  by destruct (within_reachable _ _ _ Hreach H0).
Qed.

End Concurrency.


Definition three_tasks : TaskQueue :=
  {| queue_id := "Q3"; queue_name := "three"; queue_description := None;
     queue_tasks := [AttemptsClaims.new_task "T1" "A1"; AttemptsClaims.new_task "T2" "A1";
                     AttemptsClaims.new_task "T3" "A1"];
     queue_settings := {| maxConcurrency := 2; retryCount := 3; retryDelay := 10;
                          timeoutPerTask := 300000 |};
     queue_status := running; queue_createdAt := 1000; queue_startedAt := Some 1001%Z;
     queue_completedAt := None; queue_metrics := Api.createInitialMetrics 3 |}.

(** The loop starts T1 and T2, T1 succeeds, the loop drains and starts T3. *)
Definition busy_run : list Runs.Action :=
  [Runs.resumes 1; Runs.resumes 2; Runs.resumes 3; Runs.resumes 4;
   Runs.settles "T1" AttemptsClaims.fine; Runs.resumes 5; Runs.resumes 6; Runs.resumes 7].

Definition after_busy_run : State :=
  Runs.run RetryClaims.agents busy_run (init three_tasks false AttemptsClaims.no_redis).

Lemma running_within_maxConcurrency_witness :
  (Z.of_nat (size (runningTasks after_busy_run)) + Z.of_nat (to_start after_busy_run)
   <= Z.max 0 2)%Z.
Proof.
  apply (running_within_maxConcurrency RetryClaims.agents three_tasks false
           AttemptsClaims.no_redis after_busy_run).
  apply Runs.run_reachable. reflexivity.
Defined.

(** *** The queue events open and close the stream *)

(** The events that end the stream. *)
Definition closing (e : TaskQueueEvent) : bool :=
  match e with
  | queue_completed _ _ | queue_failed _ _ => true
  | _ => false
  end.

(** The events of a generator that has started and not finished:
    queue_started first, no closing event. *)
Definition stream_so_far (id : string) (events : list TaskQueueEvent) : Prop :=
  exists l, events = queue_started id :: l /\ Forall (fun e => closing e = false) l.

(** The events of a generator that has finished: queue_started first, one
    closing event, which is the last. *)
Definition whole_stream (id : string) (events : list TaskQueueEvent) : Prop :=
  exists l e, events = queue_started id :: l ++ [e]
              /\ Forall (fun e => closing e = false) l /\ closing e = true.

Definition middle (p : Place) : Prop := p <> at_start /\ p <> finished.

(** From [s] to [s'] the generator has yielded events that do not close
    the stream, and has not finished. *)
Definition goes_on (s s' : State) : Prop :=
  queueId s' = queueId s /\
  (place s' = place s \/ middle (place s')) /\
  exists l, emitted s' = emitted s ++ l /\ Forall (fun e => closing e = false) l.

(** From [s] to [s'] the generator has finished, and its last event
    closes the stream. *)
Definition comes_to_end (s s' : State) : Prop :=
  queueId s' = queueId s /\ place s' = finished /\
  exists l e, emitted s' = emitted s ++ l ++ [e]
              /\ Forall (fun e => closing e = false) l /\ closing e = true.

Definition moves (s s' : State) : Prop := goes_on s s' \/ comes_to_end s s'.

Lemma goes_on_refl (s : State) : goes_on s s.
Proof. split; [done|]. split; [by left|]. exists []. by rewrite app_nil_r. Qed.

Lemma goes_on_quiet (s s' : State) :
  queueId s' = queueId s -> emitted s' = emitted s ->
  place s' = place s \/ middle (place s') -> goes_on s s'.
Proof. intros H1 H2 H3. split; [done|]. split; [done|]. exists []. by rewrite app_nil_r. Qed.

Lemma goes_on_emit (e : TaskQueueEvent) (s s' : State) :
  emitted s' = emitted s ++ [e] -> closing e = false -> queueId s' = queueId s ->
  place s' = place s \/ middle (place s') -> goes_on s s'.
Proof.
  intros H1 H2 H3 H4. split; [done|]. split; [done|].
  exists [e]. split; [done|]. by constructor.
Qed.

Lemma moves_after (s s1 s2 : State) : goes_on s s1 -> moves s1 s2 -> moves s s2.
Proof.
  intros (Hid & Hp & l & He & Hl)
    [(Hid' & Hp' & l' & He' & Hl')|(Hid' & Hp' & l' & e & He' & Hl' & Hc)].
  - left. split; [congruence|]. split.
    + destruct Hp' as [Hp'|Hp']; [|by right].
      destruct Hp as [Hp|Hp]; [left; congruence|right; by rewrite Hp'].
    + exists (l ++ l'). split; [by rewrite He', He, app_assoc|]. by apply Forall_app.
  - right. split; [congruence|]. split; [done|].
    exists (l ++ l'), e. split; [by rewrite He', He, !app_assoc|].
    split; [by apply Forall_app|done].
Qed.

Ltac here := first [left; reflexivity | right; split; discriminate].
Ltac quiet := apply goes_on_quiet; [reflexivity|reflexivity|here].
Ltac emits := eapply goes_on_emit; [reflexivity|reflexivity|reflexivity|here].

Section Stream.

Variable getAgent : string -> option Invoker.Agent.

Lemma goes_on_settle now i task outcome s : goes_on s (settle now i task outcome s).
Proof.
  unfold settle. destruct outcome as [result|error]; [emits|].
  destruct (_ && _); emits.
Qed.

Lemma goes_on_settle_final now i task outcome s :
  goes_on s (settle_final now i task outcome s).
Proof. unfold settle_final. destruct outcome; emits. Qed.

Lemma comes_to_end_final_event now metrics s : comes_to_end s (final_event now metrics s).
Proof.
  unfold final_event. destruct (isStopped s); [|case_decide];
    (split; [reflexivity|]; split; [reflexivity|]; eexists [], _;
     split; [reflexivity|]; by split).
Qed.

Lemma moves_final_metrics now s : moves s (final_metrics now s).
Proof.
  unfold final_metrics. destruct (isRedisConnected s) eqn:E; simpl; rewrite ?E.
  - left. quiet.
  - eapply moves_after; [|right; apply comes_to_end_final_event]. quiet.
Qed.

Lemma moves_final_head now s : moves s (final_head now s).
Proof.
  unfold final_head. destruct (_ && _); [left; quiet|apply moves_final_metrics].
Qed.

Lemma moves_final_drain now entries s : moves s (final_drain now entries s).
Proof.
  revert s. induction entries as [|[taskId outcome] rest IH]; intros s; simpl.
  - apply moves_final_head.
  - destruct (find_index taskId (tasks s)) as [i|]; [|apply IH].
    destruct (tasks s !! i) as [task|]; [|left; apply goes_on_refl].
    eapply moves_after; [apply goes_on_settle_final|]. left. quiet.
Qed.

Lemma moves_drain now entries s : moves s (drain now entries s).
Proof.
  revert s. induction entries as [|[taskId outcome] rest IH]; intros s; simpl.
  - left. quiet.
  - destruct (find_index taskId (tasks s)) as [i|]; [|apply IH].
    destruct (tasks s !! i) as [task|]; [|left; apply goes_on_refl].
    eapply moves_after; [apply goes_on_settle|]. left. quiet.
Qed.

Lemma goes_on_dispatch now i s : goes_on s (dispatch getAgent now i s).
Proof.
  unfold dispatch. destruct (tasks s !! i) as [task|]; [|apply goes_on_refl].
  destruct (getAgent _); emits.
Qed.

Lemma moves_dispatch_next now ready s : moves s (dispatch_next getAgent now ready s).
Proof.
  unfold dispatch_next. destruct ready as [|i rest]; [apply moves_drain|].
  eapply moves_after; [apply goes_on_dispatch|]. left. quiet.
Qed.

Lemma moves_select now s : moves s (select getAgent now s).
Proof.
  unfold select. destruct (fst <$> _) as [|i rest].
  - case_bool_decide; [left; quiet|apply moves_final_head].
  - apply moves_dispatch_next.
Qed.

Lemma moves_loop_step now s : place s <> at_start -> moves s (loop_step getAgent now s).
Proof.
  intros Hstarted. unfold loop_step. destruct (place s) eqn:Hp.
  - done.
  - unfold loop_head. destruct (_ && _); [|apply moves_final_head].
    destruct (isPaused s); [left; emits|apply moves_select].
  - destruct (_ && _); [left; apply goes_on_refl|].
    destruct (isStopped s); [apply moves_final_head|left; emits].
  - apply moves_select.
  - apply moves_dispatch_next.
  - eapply moves_after; [|apply moves_drain]. apply goes_on_quiet; [done|done|by left].
  - apply moves_final_drain.
  - eapply moves_after; [|apply moves_final_drain]. apply goes_on_quiet; [done|done|by left].
  - right. apply comes_to_end_final_event.
  - left. apply goes_on_refl.
Qed.

(** The events so far, by the place of the generator. *)
Definition bracketed (id : string) (s : State) : Prop :=
  queueId s = id /\
  (place s = at_start -> emitted s = []) /\
  (place s = finished -> whole_stream id (emitted s)) /\
  (middle (place s) -> stream_so_far id (emitted s)).

Lemma bracketed_same (id : string) (s s' : State) :
  queueId s' = queueId s -> place s' = place s -> emitted s' = emitted s ->
  bracketed id s -> bracketed id s'.
Proof. unfold bracketed. by intros -> -> ->. Qed.

Lemma bracketed_moves (id : string) (s s' : State) :
  middle (place s) -> moves s s' -> bracketed id s -> bracketed id s'.
Proof.
  intros Hmid Hmove (Hid & _ & _ & Hopen).
  destruct (Hopen Hmid) as (l0 & H0 & Hl0).
  destruct Hmove as [(Hid' & Hp & l & He & Hl)|(Hid' & Hp & l & e & He & Hl & Hc)].
  - assert (middle (place s')) as Hmid' by (destruct Hp as [->|]; done).
    split; [congruence|]. split; [by destruct Hmid'|]. split; [by destruct Hmid'|].
    intros _. exists (l0 ++ l). split; [by rewrite He, H0|]. by apply Forall_app.
  - split; [congruence|]. split; [by rewrite Hp|]. split; [|rewrite Hp; by intros [_ ?]].
    intros _. exists (l0 ++ l), e. split; [by rewrite He, H0, app_assoc|].
    split; [by apply Forall_app|done].
Qed.

Lemma bracketed_loop_step id now s : bracketed id s -> bracketed id (loop_step getAgent now s).
Proof.
  intros H.
  destruct (place s) eqn:Hp;
    try (apply (bracketed_moves id s);
         [rewrite Hp; split; discriminate
         |apply moves_loop_step; rewrite Hp; discriminate|done]).
  - destruct H as (Hid & Hstart & _ & _). unfold loop_step. rewrite Hp.
    split; [done|]. split; [done|]. split; [done|]. intros _.
    exists []. split; [|done]. unfold start, queueId in *. simpl.
    by rewrite (Hstart Hp), Hid.
  - unfold loop_step. by rewrite Hp.
Qed.

Lemma bracketed_timer_fires id i s : bracketed id s -> bracketed id (timer_fires i s).
Proof.
  unfold timer_fires. destruct (tasks _ !! i); by apply bracketed_same.
Qed.

Lemma bracketed_handler_retry id taskId s :
  bracketed id s -> bracketed id (handler_retry taskId s).
Proof.
  unfold handler_retry. destruct (Api.find_task taskId (tasks s)) as [[i task]|]; [|done].
  by apply bracketed_same.
Qed.

Lemma bracketed_step id s s' : step getAgent s s' -> bracketed id s -> bracketed id s'.
Proof.
  intros Hstep H.
  destruct Hstep as [s1 s2 [now s|taskId outcome s _|i s _|s|s|s|status startedAt s]|taskId s].
  - by apply bracketed_loop_step.
  - by apply (bracketed_same id s).
  - by apply bracketed_timer_fires.
  - by apply (bracketed_same id s).
  - by apply (bracketed_same id s).
  - by apply (bracketed_same id s).
  - by apply (bracketed_same id s).
  - by apply bracketed_handler_retry.
Qed.

Lemma bracketed_reachable id s0 s :
  reachable getAgent s0 s -> bracketed id s0 -> bracketed id s.
Proof.
  intros Hreach H0. induction Hreach as [|s1 s2 s3 Hstep _ IH]; [done|].
  apply IH. by eapply bracketed_step.
Qed.

(** X21: the events executeQueue yields for a queue open with
    queue_started for that queue, and no queue_completed or queue_failed
    follows while the generator runs; when the generator has finished, the
    last event is the one queue_completed or queue_failed of the
    stream.  This holds whatever is called in between: pause(), resume(),
    stop(), the retry handler. *)
Theorem queue_events_open_and_close (q : TaskQueue) (connected : bool)
    (store : Store.RedisQueueStore) (s : State) :
  reachable getAgent (init q connected store) s ->
  (place s = at_start -> emitted s = [])
  /\ (place s = finished -> whole_stream (queue_id q) (emitted s))
  /\ (place s <> at_start -> place s <> finished ->
      stream_so_far (queue_id q) (emitted s)).
Proof.
  intros Hreach.
  assert (bracketed (queue_id q) (init q connected store)) as H0.
  { split; [done|]. split; [done|]. split; [done|]. by intros []. }
  destruct (bracketed_reachable _ _ _ Hreach H0) as (_ & H1 & H2 & H3).
  repeat split; try done. intros. by apply H3.
Qed.

End Stream.

Lemma queue_events_open_and_close_witness :
  place (Runs.run RetryClaims.agents AttemptsClaims.retry_run
           (AttemptsClaims.begin
              [AttemptsClaims.new_task "T1" "A1"; AttemptsClaims.new_task "T2" "A1"]))
  = finished
  /\ whole_stream "Q"
       (emitted (Runs.run RetryClaims.agents AttemptsClaims.retry_run
                   (AttemptsClaims.begin
                      [AttemptsClaims.new_task "T1" "A1";
                       AttemptsClaims.new_task "T2" "A1"]))).
Proof.
  split; [reflexivity|].
  apply (queue_events_open_and_close RetryClaims.agents
           (AttemptsClaims.queue_of
              [AttemptsClaims.new_task "T1" "A1"; AttemptsClaims.new_task "T2" "A1"])
           false AttemptsClaims.no_redis).
  - apply Runs.run_reachable. reflexivity.
  - reflexivity.
Defined.

(** *** The invocations in flight stay within maxConcurrency until stop() *)

(** [s'] has the invocations, the running tasks and the flag of [s], and
    the generator has not gone back to its start. *)
Definition steady (s s' : State) : Prop :=
  inflight s' = inflight s /\ runningTasks s' = runningTasks s /\
  isStopped s' = isStopped s /\ (place s' = at_start -> place s = at_start).

(** Before the generator starts no invocation is in flight, and as long
    as the scheduler is not stopped, runningTasks holds every task whose
    invocation is in flight. *)
Definition tracked (s : State) : Prop :=
  (place s = at_start -> inflight s = []) /\
  (isStopped s = false -> forall taskId, taskId ∈ inflight s -> taskId ∈ runningTasks s).

Lemma steady_refl (s : State) : steady s s.
Proof. by repeat split. Qed.

Lemma steady_trans (s1 s2 s3 : State) : steady s1 s2 -> steady s2 s3 -> steady s1 s3.
Proof.
  intros (H1 & H2 & H3 & H4) (H5 & H6 & H7 & H8).
  repeat split; [congruence|congruence|congruence|auto].
Qed.

Lemma tracked_steady (s s' : State) : steady s s' -> tracked s -> tracked s'.
Proof.
  intros (H1 & H2 & H3 & H4) [Hstart Hrun]. split.
  - intros Hp. rewrite H1. auto.
  - rewrite H1, H2, H3. auto.
Qed.

Ltac still := repeat split; done.

Section Invocations.

Variable getAgent : string -> option Invoker.Agent.

Lemma steady_settle now i task outcome s : steady s (settle now i task outcome s).
Proof.
  unfold settle. destruct outcome as [result|error]; [still|].
  destruct (_ && _); still.
Qed.

Lemma steady_settle_final now i task outcome s :
  steady s (settle_final now i task outcome s).
Proof. unfold settle_final. destruct outcome; still. Qed.

Lemma steady_final_event now metrics s :
  place s <> at_start -> steady s (final_event now metrics s).
Proof. intros Hp. unfold final_event. destruct (isStopped s); [|case_decide]; still. Qed.

Lemma steady_final_metrics now s : place s <> at_start -> steady s (final_metrics now s).
Proof.
  intros Hp. unfold final_metrics.
  destruct (isRedisConnected s) eqn:E; simpl; rewrite ?E; [still|].
  eapply steady_trans; [|by apply steady_final_event]. still.
Qed.

Lemma steady_final_head now s : place s <> at_start -> steady s (final_head now s).
Proof.
  intros Hp. unfold final_head. destruct (_ && _); [still|by apply steady_final_metrics].
Qed.

Lemma steady_final_drain now entries s :
  place s <> at_start -> steady s (final_drain now entries s).
Proof.
  revert s. induction entries as [|[taskId outcome] rest IH]; intros s Hp; simpl.
  - by apply steady_final_head.
  - destruct (find_index taskId (tasks s)) as [i|]; [|by apply IH].
    destruct (tasks s !! i) as [task|]; [|apply steady_refl].
    eapply steady_trans; [apply steady_settle_final|]. still.
Qed.

Lemma steady_drain now entries s : steady s (drain now entries s).
Proof.
  revert s. induction entries as [|[taskId outcome] rest IH]; intros s; simpl.
  - still.
  - destruct (find_index taskId (tasks s)) as [i|]; [|apply IH].
    destruct (tasks s !! i) as [task|]; [|apply steady_refl].
    eapply steady_trans; [apply steady_settle|]. still.
Qed.

Lemma tracked_dispatch_next now ready s :
  tracked s -> tracked (dispatch_next getAgent now ready s).
Proof.
  intros H. unfold dispatch_next. destruct ready as [|i rest].
  - apply (tracked_steady s); [apply steady_drain|done].
  - unfold dispatch. destruct (tasks s !! i) as [task|]; [|by apply (tracked_steady s)].
    destruct (getAgent _); [|by apply (tracked_steady s)].
    destruct H as [_ Hrun]. split; [done|]. simpl.
    intros Hs taskId [->|Hin]%elem_of_cons; apply elem_of_union; [left|right].
    + by apply elem_of_singleton.
    + by apply Hrun.
Qed.

Lemma tracked_select now s :
  place s <> at_start -> tracked s -> tracked (select getAgent now s).
Proof.
  intros Hp H. unfold select. destruct (fst <$> _) as [|i rest].
  - apply (tracked_steady s); [|done].
    case_bool_decide; [still|by apply steady_final_head].
  - by apply tracked_dispatch_next.
Qed.

Lemma tracked_loop_step now s : tracked s -> tracked (loop_step getAgent now s).
Proof.
  intros H. unfold loop_step. destruct (place s) eqn:Hp.
  - destruct H as [Hstart _]. split; [done|]. simpl. intros _ taskId.
    rewrite (Hstart Hp). by intros ?%elem_of_nil.
  - unfold loop_head. destruct (_ && _).
    + destruct (isPaused s); [by apply (tracked_steady s)|].
      apply tracked_select; [by rewrite Hp|done].
    + apply (tracked_steady s); [|done]. apply steady_final_head. by rewrite Hp.
  - apply (tracked_steady s); [|done].
    destruct (_ && _); [apply steady_refl|].
    destruct (isStopped s); [|still]. apply steady_final_head. by rewrite Hp.
  - apply tracked_select; [by rewrite Hp|done].
  - by apply tracked_dispatch_next.
  - apply (tracked_steady s); [|done].
    eapply steady_trans; [|apply steady_drain]. still.
  - apply (tracked_steady s); [|done]. apply steady_final_drain. by rewrite Hp.
  - apply (tracked_steady s); [|done].
    eapply steady_trans; [|apply steady_final_drain; simpl; by rewrite Hp]. still.
  - apply (tracked_steady s); [|done]. apply steady_final_event. by rewrite Hp.
  - done.
Qed.

Lemma steady_timer_fires i s : steady s (timer_fires i s).
Proof. unfold timer_fires. destruct (tasks _ !! i); still. Qed.

Lemma tracked_step s s' :
  own_step getAgent s s' -> NoDup (inflight s) -> tracked s -> tracked s'.
Proof.
  intros Hstep Hnd H. destruct Hstep as [now s|taskId outcome s _|i s _|s|s|s|status startedAt s].
  - by apply tracked_loop_step.
  - destruct H as [Hstart Hrun]. split; simpl.
    + intros Hp. by rewrite (Hstart Hp).
    + intros Hs x Hx. destruct (Attempts.NoDup_remove_one taskId _ Hnd) as [_ Hgone].
      apply elem_of_difference. split.
      * by apply Hrun, (Attempts.elem_of_remove_one _ taskId).
      * intros ->%elem_of_singleton. done.
  - apply (tracked_steady s); [apply steady_timer_fires|done].
  - by apply (tracked_steady s).
  - by apply (tracked_steady s).
  - destruct H as [Hstart _]. split; [done|]. simpl. done.
  - by apply (tracked_steady s).
Qed.

Lemma tracked_reachable s0 s :
  undisturbed getAgent s0 s -> Attempts.Inv getAgent s0 -> tracked s0 -> tracked s.
Proof.
  intros Hreach Hinv H0. induction Hreach as [|s1 s2 s3 Hstep _ IH]; [done|].
  apply IH; [by eapply Attempts.Inv_step|].
  eapply tracked_step; [done| |done].
  eapply Attempts.core_inflight_NoDup, Attempts.inv_core, Hinv.
Qed.

(** X23: on a queue whose tasks have distinct ids, as long as stop()
    has not been called and nothing but the scheduler assigns to the tasks
    of the queue (the retry handler is not called for it), the agent
    invocations in flight are at most the queue's
    [settings.maxConcurrency] (none, when that is 0 or negative). *)
Theorem invocations_within_maxConcurrency (q : TaskQueue) (connected : bool)
    (store : Store.RedisQueueStore) (s : State) :
  NoDup (task_id <$> queue_tasks q) ->
  undisturbed getAgent (init q connected store) s ->
  isStopped s = false ->
  (Z.of_nat (length (inflight s)) <= Z.max 0 (maxConcurrency (queue_settings q)))%Z.
Proof.
  intros Hids Hreach Hs.
  pose proof (Attempts.Inv_init getAgent q connected store Hids) as Hinv0.
  pose proof (Attempts.Inv_reachable getAgent _ _ Hreach Hinv0) as Hinv.
  assert (NoDup (inflight s)) as Hnd
    by (eapply Attempts.core_inflight_NoDup, Attempts.inv_core, Hinv).
  assert (tracked (init q connected store)) as H0.
  { split; [done|]. intros _ taskId Hin. by apply elem_of_nil in Hin. }
  destruct (tracked_reachable _ _ Hreach Hinv0 H0) as [_ Hrun].
  assert (within (queue_settings q) (init q connected store)) as Hw0.
  { split; [done|].
    change (runningTasks (init q connected store)) with (∅ : gset string).
    change (to_start (init q connected store)) with 0. rewrite size_empty. lia. }
  destruct (within_reachable getAgent _ _ _ (undisturbed_reachable _ _ _ Hreach) Hw0)
    as [_ Hw].
  assert (length (inflight s) <= size (runningTasks s)); [|lia].
  rewrite <- (size_list_to_set (C := gset string)) by done.
  apply subseteq_size. intros x Hx%elem_of_list_to_set. by apply Hrun.
Qed.

End Invocations.

(** With [maxConcurrency] 1: T1 is started, the scheduler is paused and
    resumed, and stop() is called after the generator has yielded
    queue_resumed; the generator then starts T2 while T1 is in flight. *)
Definition two_tasks : TaskQueue :=
  AttemptsClaims.queue_of [AttemptsClaims.new_task "T1" "A1"; AttemptsClaims.new_task "T2" "A1"].

Definition stop_run : list Runs.Action :=
  [Runs.resumes 1; Runs.resumes 2; Runs.resumes 3; Runs.pauses; Runs.resumes 4;
   Runs.unpauses; Runs.resumes 5; Runs.stops; Runs.resumes 6].

Lemma stop_lets_invocations_exceed :
  Runs.possible RetryClaims.agents stop_run (init two_tasks false AttemptsClaims.no_redis)
    = true
  /\ maxConcurrency (queue_settings two_tasks) = 1%Z
  /\ inflight (Runs.run RetryClaims.agents stop_run
                 (init two_tasks false AttemptsClaims.no_redis))
     = ["T2"; "T1"].
Proof. repeat split; vm_compute; reflexivity. Qed.

(** With [maxConcurrency] 2 and one task: the retry handler is called
    twice for the task while its invocation is in flight, and each time
    the generator starts the task again. *)
Definition lone_task : TaskQueue :=
  {| queue_id := "Q1"; queue_name := "one"; queue_description := None;
     queue_tasks := [AttemptsClaims.new_task "T1" "A1"];
     queue_settings := {| maxConcurrency := 2; retryCount := 3; retryDelay := 10;
                          timeoutPerTask := 300000 |};
     queue_status := running; queue_createdAt := 1000; queue_startedAt := Some 1001%Z;
     queue_completedAt := None; queue_metrics := Api.createInitialMetrics 1 |}.

Definition retry_in_flight_run : list Runs.Action :=
  [Runs.resumes 1; Runs.resumes 2; Runs.retries "T1"; Runs.resumes 3; Runs.resumes 4;
   Runs.retries "T1"; Runs.resumes 5; Runs.resumes 6].

Lemma retry_lets_invocations_exceed :
  Runs.possible RetryClaims.agents retry_in_flight_run
    (init lone_task false AttemptsClaims.no_redis) = true
  /\ isStopped (Runs.run RetryClaims.agents retry_in_flight_run
                  (init lone_task false AttemptsClaims.no_redis)) = false
  /\ inflight (Runs.run RetryClaims.agents retry_in_flight_run
                 (init lone_task false AttemptsClaims.no_redis))
     = ["T1"; "T1"; "T1"].
Proof. repeat split; vm_compute; reflexivity. Qed.

Lemma invocations_within_maxConcurrency_witness :
  (Z.of_nat (length (inflight after_busy_run)) <= Z.max 0 2)%Z.
Proof.
  apply (invocations_within_maxConcurrency RetryClaims.agents three_tasks false
           AttemptsClaims.no_redis after_busy_run).
  - apply (bool_decide_unpack _). by vm_compute.
  - apply Runs.run_undisturbed; reflexivity.
  - reflexivity.
Defined.

End LoopLaws.
